(** * Transaction codec and signature pre-images of [src/transaction.js]

    A shallow embedding of the [Transaction] class: the size calculator
    ([__byteLength]), the encoder ([__toBuffer]), the decoder
    ([Transaction.fromBuffer]), the two signature hashers
    ([hashForSignature], [hashForWitnessV0]), and the methods that
    build and change a transaction ([addInput], [addOutput],
    [setInputScript], [setWitness], [clone]) with its getters.

    JavaScript numbers that the code uses as integers are modelled as [Z],
    a [Buffer] as a list of bytes, a thrown exception as [Throw].  The
    closures [writeSlice], [writeUInt32], ... of the source share a buffer
    and an offset; they are modelled in a state-and-error monad over that
    pair. *)

From Stdlib Require Import ZArith Lia Strings.Byte String.
From stdpp Require Import base list gmap.

Local Open Scope Z_scope.

(** ** Bytes and buffers *)

Abbreviation bytes := (list byte).

Definition byte_of_Z (z : Z) : byte :=
  match Byte.of_N (Z.to_N (z mod 256)) with
  | Some b => b
  | None => x00
  end.

Definition Z_of_byte (b : byte) : Z := Z.of_N (Byte.to_N b).

(** [buffer.length] *)
Definition blen {A} (b : list A) : Z := Z.of_nat (length b).

(** Little-endian bytes of the low [8 * n] bits of [v]. *)
Fixpoint le_bytes (n : nat) (v : Z) : bytes :=
  match n with
  | O => []
  | S n' => byte_of_Z v :: le_bytes n' (Z.shiftr v 8)
  end.

(** Value of a little-endian byte string. *)
Fixpoint le_value (b : bytes) : Z :=
  match b with
  | [] => 0
  | x :: b' => Z_of_byte x + 256 * le_value b'
  end.

(** ** Exceptions *)

Inductive exn : Type :=
| TypeError (msg : string)
| RangeError (msg : string)
| Error (msg : string).

Inductive result (A : Type) : Type :=
| Ok (a : A)
| Throw (e : exn).
Arguments Ok {A} a.
Arguments Throw {A} e.

Definition rbind {A B} (m : result A) (f : A -> result B) : result B :=
  match m with
  | Ok a => f a
  | Throw e => Throw e
  end.

(** State-and-error monad: the state is what the closures of the source
    capture (a buffer and an offset for the writers, an offset for the
    readers). *)
Definition M (S A : Type) : Type := S -> result (A * S).

Definition ret {S A} (a : A) : M S A := fun s => Ok (a, s).

Definition bind {S A B} (m : M S A) (f : A -> M S B) : M S B :=
  fun s => match m s with
           | Ok (a, s') => f a s'
           | Throw e => Throw e
           end.

Definition throw {S A} (e : exn) : M S A := fun _ => Throw e.

Declare Scope monad_scope.
Delimit Scope monad_scope with monad.
Notation "'do' x <- m ; k" := (bind m (fun x => k))
  (at level 10, x name, m at level 100, k at level 200,
   format "'[v' 'do'  x  <-  m ; '/' k ']'") : monad_scope.
Notation "'do' '_' <- m ; k" := (bind m (fun _ => k))
  (at level 10, m at level 100, k at level 200,
   format "'[v' 'do'  '_'  <-  m ; '/' k ']'") : monad_scope.
Local Open Scope monad_scope.

(** [forEach]: run [f] on every element, in order. *)
Fixpoint forEachM {S A} (f : A -> M S unit) (l : list A) : M S unit :=
  match l with
  | [] => ret tt
  | x :: l' => do _ <- f x; forEachM f l'
  end.

(** [for (let i = 0; i < n; ++i) acc.push(body())] *)
Fixpoint timesM {S A} (n : nat) (body : M S A) : M S (list A) :=
  match n with
  | O => ret []
  | S n' => do x <- body; do xs <- timesM n' body; ret (x :: xs)
  end.

(** ** SHA-256 and [bcrypto.hash256] *)

Module SHA256.

Definition w32 (x : Z) : Z := x mod 2 ^ 32.
Definition add32 (x y : Z) : Z := w32 (x + y).
Definition rotr (n x : Z) : Z :=
  Z.lor (Z.shiftr x n) (w32 (Z.shiftl x (32 - n))).
Definition shr (n x : Z) : Z := Z.shiftr x n.
Definition not32 (x : Z) : Z := Z.lxor x 0xffffffff.

Definition Ch (x y z : Z) : Z :=
  Z.lxor (Z.land x y) (Z.land (not32 x) z).
Definition Maj (x y z : Z) : Z :=
  Z.lxor (Z.lxor (Z.land x y) (Z.land x z)) (Z.land y z).
Definition Sigma0 (x : Z) : Z :=
  Z.lxor (Z.lxor (rotr 2 x) (rotr 13 x)) (rotr 22 x).
Definition Sigma1 (x : Z) : Z :=
  Z.lxor (Z.lxor (rotr 6 x) (rotr 11 x)) (rotr 25 x).
Definition sigma0 (x : Z) : Z :=
  Z.lxor (Z.lxor (rotr 7 x) (rotr 18 x)) (shr 3 x).
Definition sigma1 (x : Z) : Z :=
  Z.lxor (Z.lxor (rotr 17 x) (rotr 19 x)) (shr 10 x).

(** The constants are the fractional parts of the square roots (initial
    state) and of the cube roots (round constants) of the first primes,
    32 bits of them. *)
Definition is_prime (n : nat) : bool :=
  (2 <=? n)%nat &&
  forallb (fun d => negb (n mod d =? 0)%nat) (seq 2 (n - 2)).

Definition primes (count : nat) : list Z :=
  map Z.of_nat (take count (List.filter is_prime (seq 2 320))).

(** The largest [r] below [2 ^ bits] with [r ^ 3 <= n]. *)
Fixpoint cube_root (bits : nat) (n r : Z) : Z :=
  match bits with
  | O => r
  | S k =>
      let r' := r + 2 ^ Z.of_nat k in
      cube_root k n (if r' * r' * r' <=? n then r' else r)
  end.

Definition K : list Z :=
  map (fun p => w32 (cube_root 36 (p * 2 ^ 96) 0)) (primes 64).

Record state : Type := State {
  ha : Z; hb : Z; hc : Z; hd : Z; he : Z; hf : Z; hg : Z; hh : Z
}.

Definition frac_sqrt (p : Z) : Z := w32 (Z.sqrt (p * 2 ^ 64)).

Definition H0 : state :=
  State (frac_sqrt 2) (frac_sqrt 3) (frac_sqrt 5) (frac_sqrt 7)
        (frac_sqrt 11) (frac_sqrt 13) (frac_sqrt 17) (frac_sqrt 19).

(** Big-endian bytes of a word, and back. *)
Fixpoint be_bytes (n : nat) (v : Z) : bytes :=
  match n with
  | O => []
  | S n' => be_bytes n' (Z.shiftr v 8) ++ [byte_of_Z v]
  end.

Definition be_value (b : bytes) : Z :=
  fold_left (fun acc x => acc * 256 + Z_of_byte x) b 0.

(** Padding: a one bit, zeros up to 56 modulo 64, the bit length. *)
Definition pad (m : bytes) : bytes :=
  let l := blen m in
  m ++ [x80] ++ repeat x00 (Z.to_nat ((55 - l) mod 64)) ++ be_bytes 8 (8 * l).

Fixpoint words (n : nat) (b : bytes) : list Z :=
  match n with
  | O => []
  | S n' => be_value (take 4 b) :: words n' (drop 4 b)
  end.

(** Message schedule: [ws] holds W[t-1], W[t-2], ... (newest first). *)
Fixpoint schedule (n : nat) (ws : list Z) : list Z :=
  match n with
  | O => ws
  | S n' =>
      let wt := add32 (add32 (sigma1 (nth 1 ws 0)) (nth 6 ws 0))
                      (add32 (sigma0 (nth 14 ws 0)) (nth 15 ws 0)) in
      schedule n' (wt :: ws)
  end.

Definition round (s : state) (kw : Z * Z) : state :=
  let t1 := add32 (add32 (add32 (hh s) (Sigma1 (he s)))
                         (add32 (Ch (he s) (hf s) (hg s)) (fst kw)))
                  (snd kw) in
  let t2 := add32 (Sigma0 (ha s)) (Maj (ha s) (hb s) (hc s)) in
  State (add32 t1 t2) (ha s) (hb s) (hc s)
        (add32 (hd s) t1) (he s) (hf s) (hg s).

Definition compress (s : state) (block : bytes) : state :=
  let w := rev (schedule 48 (rev (words 16 block))) in
  let s' := fold_left round (combine K w) s in
  State (add32 (ha s) (ha s')) (add32 (hb s) (hb s'))
        (add32 (hc s) (hc s')) (add32 (hd s) (hd s'))
        (add32 (he s) (he s')) (add32 (hf s) (hf s'))
        (add32 (hg s) (hg s')) (add32 (hh s) (hh s')).

Fixpoint blocks (n : nat) (s : state) (b : bytes) : state :=
  match n with
  | O => s
  | S n' => blocks n' (compress s (take 64 b)) (drop 64 b)
  end.

Definition digest (s : state) : bytes :=
  be_bytes 4 (ha s) ++ be_bytes 4 (hb s) ++ be_bytes 4 (hc s) ++
  be_bytes 4 (hd s) ++ be_bytes 4 (he s) ++ be_bytes 4 (hf s) ++
  be_bytes 4 (hg s) ++ be_bytes 4 (hh s).

Definition sha256 (m : bytes) : bytes :=
  let p := pad m in
  digest (blocks (length p / 64)%nat H0 p).

End SHA256.

(** Modelled from the spec: [bcrypto.hash256] lives in [./crypto], which is
    not part of the sources at hand; the spec gives it as
    SHA-256(SHA-256(bytes)). *)
Definition hash256 (b : bytes) : bytes := SHA256.sha256 (SHA256.sha256 b).

(** ** Node's [Buffer] *)

Module Buffer.

(** [Buffer.allocUnsafe(n)]: the contents are whatever the allocator
    left there; zeros stand for them. *)
Definition allocUnsafe (n : Z) : bytes := repeat x00 (Z.to_nat n).

(** Overwrite [src] into [b] from [offset] on (the caller has checked
    that it fits). *)
Definition splice (b : bytes) (offset : Z) (src : bytes) : bytes :=
  take (Z.to_nat offset) b ++ src ++
  drop (Z.to_nat offset + length src) b.

Definition fits (b : bytes) (offset n : Z) : bool :=
  (0 <=? offset) && (offset + n <=? blen b).

(** The integer writers check the value, then the bounds, write in
    place and return the offset after the bytes written. *)
Definition writeInt (n : nat) (lo hi : Z) (b : bytes) (value offset : Z)
  : result (bytes * Z) :=
  if negb ((lo <=? value) && (value <=? hi)) then
    Throw (RangeError "value is out of range")
  else if negb (fits b offset (Z.of_nat n)) then
    Throw (RangeError "offset is out of range")
  else Ok (splice b offset (le_bytes n value), offset + Z.of_nat n).

Definition writeUInt8 := writeInt 1 0 0xff.
Definition writeUInt16LE := writeInt 2 0 0xffff.
Definition writeUInt32LE := writeInt 4 0 0xffffffff.
Definition writeInt32LE := writeInt 4 (-0x80000000) 0x7fffffff.

(** [src.copy(target, targetStart)]: copies what fits, never throws,
    returns the number of bytes copied. *)
Definition copy (src target : bytes) (targetStart : Z) : bytes * Z :=
  let n := Z.min (blen src) (blen target - targetStart) in
  if (n <=? 0) || (targetStart <? 0) then (target, 0)
  else (splice target targetStart (take (Z.to_nat n) src), n).

Definition readUInt (n : nat) (b : bytes) (offset : Z) : result Z :=
  if negb (fits b offset (Z.of_nat n)) then
    Throw (RangeError "offset is out of range")
  else Ok (le_value (take n (drop (Z.to_nat offset) b))).

Definition readUInt8 := readUInt 1.
Definition readUInt16LE := readUInt 2.
Definition readUInt32LE := readUInt 4.

Definition readInt32LE (b : bytes) (offset : Z) : result Z :=
  rbind (readUInt 4 b offset)
    (fun v => Ok (if 0x80000000 <=? v then v - 0x100000000 else v)).

(** [buf.slice(start, end)] clamps both ends to the buffer; a negative
    end point counts from the end. *)
Definition clamp (b : bytes) (x : Z) : Z :=
  if x <? 0 then Z.max (blen b + x) 0 else Z.min x (blen b).

Definition slice (b : bytes) (start end_ : Z) : bytes :=
  let s := clamp b start in
  let e := clamp b end_ in
  take (Z.to_nat (e - s)) (drop (Z.to_nat s) b).

End Buffer.

(** ** [varuint-bitcoin]: the compact-size integer *)

Module varuint.

Definition encodingLength (number : Z) : Z :=
  if number <? 0xfd then 1
  else if number <=? 0xffff then 3
  else if number <=? 0xffffffff then 5
  else 9.

(** [number >>> 0] and [(number / 0x100000000) | 0]. *)
Definition lo32 (number : Z) : Z := number mod 0x100000000.
Definition hi32 (number : Z) : Z :=
  let q := (number / 0x100000000) mod 0x100000000 in
  if 0x80000000 <=? q then q - 0x100000000 else q.

Definition MAX_SAFE_INTEGER : Z := 9007199254740991.

Definition checkUInt53 (n : Z) : result unit :=
  if (n <? 0) || (MAX_SAFE_INTEGER <? n) then
    Throw (RangeError "value out of range")
  else Ok tt.

(** [encode(number, buffer, offset)]: the buffer after the write and
    [encode.bytes]. *)
Definition encode (number : Z) (buffer : bytes) (offset : Z)
  : result (bytes * Z) :=
  rbind (checkUInt53 number) (fun _ =>
  if number <? 0xfd then
    rbind (Buffer.writeUInt8 buffer number offset) (fun '(b, _) =>
    Ok (b, 1))
  else if number <=? 0xffff then
    rbind (Buffer.writeUInt8 buffer 0xfd offset) (fun '(b, _) =>
    rbind (Buffer.writeUInt16LE b number (offset + 1)) (fun '(b, _) =>
    Ok (b, 3)))
  else if number <=? 0xffffffff then
    rbind (Buffer.writeUInt8 buffer 0xfe offset) (fun '(b, _) =>
    rbind (Buffer.writeUInt32LE b number (offset + 1)) (fun '(b, _) =>
    Ok (b, 5)))
  else
    rbind (Buffer.writeUInt8 buffer 0xff offset) (fun '(b, _) =>
    rbind (Buffer.writeUInt32LE b (lo32 number) (offset + 1))
      (fun '(b, _) =>
    rbind (Buffer.writeUInt32LE b (hi32 number) (offset + 5))
      (fun '(b, _) =>
    Ok (b, 9))))).

(** [decode(buffer, offset)]: the number and [decode.bytes]. *)
Definition decode (buffer : bytes) (offset : Z) : result (Z * Z) :=
  rbind (Buffer.readUInt8 buffer offset) (fun first =>
  if first <? 0xfd then Ok (first, 1)
  else if first =? 0xfd then
    rbind (Buffer.readUInt16LE buffer (offset + 1)) (fun v => Ok (v, 3))
  else if first =? 0xfe then
    rbind (Buffer.readUInt32LE buffer (offset + 1)) (fun v => Ok (v, 5))
  else
    rbind (Buffer.readUInt32LE buffer (offset + 1)) (fun lo =>
    rbind (Buffer.readUInt32LE buffer (offset + 5)) (fun hi =>
    let number := hi * 0x0100000000 + lo in
    rbind (checkUInt53 number) (fun _ => Ok (number, 9))))).

End varuint.

(** ** [bufferutils]: the 64-bit amount *)

Module bufferutils.

(** Modelled from the spec: [./bufferutils] is not part of the sources
    at hand; the spec gives it as the reader and writer of a 64-bit
    little-endian unsigned amount. *)
Definition writeUInt64LE (buffer : bytes) (value offset : Z)
  : result (bytes * Z) :=
  Buffer.writeInt 8 0 0xffffffffffffffff buffer value offset.

Definition readUInt64LE (buffer : bytes) (offset : Z) : result Z :=
  Buffer.readUInt 8 buffer offset.

End bufferutils.

(** ** [typeforce] and [./types] *)

Module types.

Definition UInt32 (v : Z) : bool := (0 <=? v) && (v <=? 0xffffffff).

(** Modelled from the spec: [./types] is not part of the sources at
    hand; the spec gives the amount check as a non-negative integer
    within the unsigned 64-bit range. *)
Definition Satoshi (v : Z) : bool :=
  (0 <=? v) && (v <=? 0xffffffffffffffff).

Definition Hash256bit (b : bytes) : bool := blen b =? 32.

End types.

Definition typeforce (ok : bool) : result unit :=
  if ok then Ok tt else Throw (TypeError "Expected property of given type").

Definition hex_digit (b : Z) : string :=
  String.substring (Z.to_nat b) 1 "0123456789abcdef".

Fixpoint toString_hex (b : bytes) : string :=
  match b with
  | [] => EmptyString
  | x :: b' =>
      String.append (hex_digit (Z_of_byte x / 16))
        (String.append (hex_digit (Z_of_byte x mod 16)) (toString_hex b'))
  end.

(** ** The transaction *)

Module TxIn.
Record t : Type := mk {
  hash : bytes;
  index : Z;
  script : bytes;
  sequence : Z;
  witness : list bytes
}.
End TxIn.

Module TxOut.
(** An output object carries [value] (outputs added or decoded) or
    [valueBuffer] ([BLANK_OUTPUT]); an absent property is [None]. *)
Record t : Type := mk {
  script : bytes;
  value : option Z;
  valueBuffer : option bytes
}.
End TxOut.

Record Transaction : Type := mkTransaction {
  version : Z;
  locktime : Z;
  ins : list TxIn.t;
  outs : list TxOut.t
}.

Definition EMPTY_SCRIPT : bytes := Buffer.allocUnsafe 0.
Definition EMPTY_WITNESS : list bytes := [].
Definition ZERO : bytes := repeat x00 32.
Definition ONE : bytes := repeat x00 31 ++ [x01].
Definition VALUE_UINT64_MAX : bytes := repeat xff 8.
Definition BLANK_OUTPUT : TxOut.t :=
  TxOut.mk EMPTY_SCRIPT None (Some VALUE_UINT64_MAX).

Definition DEFAULT_SEQUENCE : Z := 0xffffffff.
Definition SIGHASH_ALL : Z := 0x01.
Definition SIGHASH_NONE : Z := 0x02.
Definition SIGHASH_SINGLE : Z := 0x03.
Definition SIGHASH_ANYONECANPAY : Z := 0x80.
Definition ADVANCED_TRANSACTION_MARKER : Z := 0x00.
Definition ADVANCED_TRANSACTION_FLAG : Z := 0x01.

(** [new Transaction()] *)
Definition new_Transaction : Transaction := mkTransaction 1 0 [] [].

Definition varSliceSize (someScript : bytes) : Z :=
  let length := blen someScript in
  varuint.encodingLength length + length.

Definition vectorSize (someVector : list bytes) : Z :=
  let length := blen someVector in
  varuint.encodingLength length +
  fold_left (fun sum witness => sum + varSliceSize witness) someVector 0.

Definition hasWitnesses (this : Transaction) : bool :=
  existsb (fun x => negb (blen (TxIn.witness x) =? 0)) (ins this).

Definition __byteLength (this : Transaction) (__allowWitness : bool) : Z :=
  let hasWitnesses := __allowWitness && hasWitnesses this in
  (if hasWitnesses then 10 else 8) +
  varuint.encodingLength (blen (ins this)) +
  varuint.encodingLength (blen (outs this)) +
  fold_left (fun sum input => sum + 40 + varSliceSize (TxIn.script input))
    (ins this) 0 +
  fold_left (fun sum output => sum + 8 + varSliceSize (TxOut.script output))
    (outs this) 0 +
  (if hasWitnesses
   then fold_left (fun sum input => sum + vectorSize (TxIn.witness input))
          (ins this) 0
   else 0).

Definition weight (this : Transaction) : Z :=
  let base := __byteLength this false in
  let total := __byteLength this true in
  base * 3 + total.

(** [Math.ceil(a / b)] on integers. *)
Definition ceil_div (a b : Z) : Z := - ((- a) / b).

Definition virtualSize (this : Transaction) : Z := ceil_div (weight this) 4.

Definition byteLength (this : Transaction) : Z := __byteLength this true.

Definition clone (this : Transaction) : Transaction :=
  mkTransaction (version this) (locktime this)
    (map (fun txIn =>
            TxIn.mk (TxIn.hash txIn) (TxIn.index txIn) (TxIn.script txIn)
                    (TxIn.sequence txIn) (TxIn.witness txIn))
         (ins this))
    (map (fun txOut => TxOut.mk (TxOut.script txOut) (TxOut.value txOut) None)
         (outs this)).

(** ** The write closures

    [__toBuffer] and [hashForWitnessV0] each define the same closures over
    a buffer and an offset; the state below is that pair. *)

Module Writer.

Definition st : Type := (bytes * Z)%type.

Definition lift (r : result (bytes * Z)) : M st unit :=
  fun _ => rbind r (fun s => Ok (tt, s)).

Definition writeSlice (slice : bytes) : M st unit :=
  fun '(buffer, offset) =>
    let '(buffer', n) := Buffer.copy slice buffer offset in
    Ok (tt, (buffer', offset + n)).

Definition writeUInt8 (i : Z) : M st unit :=
  fun '(buffer, offset) => lift (Buffer.writeUInt8 buffer i offset) (buffer, offset).

Definition writeUInt32 (i : Z) : M st unit :=
  fun '(buffer, offset) => lift (Buffer.writeUInt32LE buffer i offset) (buffer, offset).

Definition writeInt32 (i : Z) : M st unit :=
  fun '(buffer, offset) => lift (Buffer.writeInt32LE buffer i offset) (buffer, offset).

Definition writeUInt64 (i : option Z) : M st unit :=
  fun '(buffer, offset) =>
    match i with
    | None => Throw (Error "cannot write a non-number as a number")
    | Some i => lift (bufferutils.writeUInt64LE buffer i offset) (buffer, offset)
    end.

Definition writeVarInt (i : Z) : M st unit :=
  fun '(buffer, offset) =>
    rbind (varuint.encode i buffer offset) (fun '(buffer', n) =>
    Ok (tt, (buffer', offset + n))).

Definition writeVarSlice (slice : bytes) : M st unit :=
  do _ <- writeVarInt (blen slice); writeSlice slice.

Definition writeVector (vector : list bytes) : M st unit :=
  do _ <- writeVarInt (blen vector); forEachM writeVarSlice vector.

End Writer.

(** The body of [__toBuffer], from [writeInt32(this.version)] to
    [writeUInt32(this.locktime)]. *)
Definition toBuffer_writes (this : Transaction) (__allowWitness : bool)
  : M Writer.st unit :=
  do _ <- Writer.writeInt32 (version this);
  let hasWitnesses := __allowWitness && hasWitnesses this in
  do _ <- (if hasWitnesses then
             do _ <- Writer.writeUInt8 ADVANCED_TRANSACTION_MARKER;
             Writer.writeUInt8 ADVANCED_TRANSACTION_FLAG
           else ret tt);
  do _ <- Writer.writeVarInt (blen (ins this));
  do _ <- forEachM (fun txIn =>
            do _ <- Writer.writeSlice (TxIn.hash txIn);
            do _ <- Writer.writeUInt32 (TxIn.index txIn);
            do _ <- Writer.writeVarSlice (TxIn.script txIn);
            Writer.writeUInt32 (TxIn.sequence txIn)) (ins this);
  do _ <- Writer.writeVarInt (blen (outs this));
  do _ <- forEachM (fun txOut =>
            do _ <- match TxOut.valueBuffer txOut with
                    | None => Writer.writeUInt64 (TxOut.value txOut)
                    | Some valueBuffer => Writer.writeSlice valueBuffer
                    end;
            Writer.writeVarSlice (TxOut.script txOut)) (outs this);
  do _ <- (if hasWitnesses then
             forEachM (fun input => Writer.writeVector (TxIn.witness input))
               (ins this)
           else ret tt);
  Writer.writeUInt32 (locktime this).

(** [__toBuffer(buffer, initialOffset, __allowWitness)].  A buffer that
    the caller passes is written in place: the result is the returned
    buffer together with the contents of the buffer written to. *)
Definition __toBuffer (this : Transaction) (buffer : option bytes)
    (initialOffset : option Z) (__allowWitness : bool)
  : result (bytes * bytes) :=
  let buffer :=
    match buffer with
    | Some b => b
    | None => Buffer.allocUnsafe (__byteLength this __allowWitness)
    end in
  let offset := match initialOffset with Some o => o | None => 0 end in
  match toBuffer_writes this __allowWitness (buffer, offset) with
  | Throw e => Throw e
  | Ok (_, (buffer, offset)) =>
      match initialOffset with
      | Some o => Ok (Buffer.slice buffer o offset, buffer)
      | None => Ok (buffer, buffer)
      end
  end.

(** [toBuffer()] and the [buffer] getter. *)
Definition toBuffer (this : Transaction) : result bytes :=
  rbind (__toBuffer this None None true) (fun r => Ok (fst r)).

(** [encode(T, w)] of the spec: [__toBuffer(undefined, undefined, w)]. *)
Definition encode (this : Transaction) (w : bool) : result bytes :=
  rbind (__toBuffer this None None w) (fun r => Ok (fst r)).

Definition hash (this : Transaction) : result bytes :=
  rbind (__toBuffer this None None false) (fun r => Ok (hash256 (fst r))).

(** ** The decoder *)

Fixpoint mapM {S A B} (f : A -> M S B) (l : list A) : M S (list B) :=
  match l with
  | [] => ret []
  | x :: l' => do y <- f x; do ys <- mapM f l'; ret (y :: ys)
  end.

(** The read closures of [Transaction.fromBuffer]; the state is [offset]. *)
Module Reader.
Section WithBuffer.
Variable buffer : bytes.

Definition readSlice (n : Z) : M Z bytes :=
fun offset =>
let offset := offset + n in
Ok (Buffer.slice buffer (offset - n) offset, offset).

Definition readUInt32 : M Z Z :=
fun offset =>
rbind (Buffer.readUInt32LE buffer offset) (fun i => Ok (i, offset + 4)).

Definition readInt32 : M Z Z :=
fun offset =>
rbind (Buffer.readInt32LE buffer offset) (fun i => Ok (i, offset + 4)).

Definition readUInt64 : M Z Z :=
fun offset =>
rbind (bufferutils.readUInt64LE buffer offset)
  (fun i => Ok (i, offset + 8)).

Definition readVarInt : M Z Z :=
fun offset =>
rbind (varuint.decode buffer offset)
  (fun '(vi, n) => Ok (vi, offset + n)).

Definition readVarSlice : M Z bytes :=
do n <- readVarInt; readSlice n.

Definition readVector : M Z (list bytes) :=
do count <- readVarInt; timesM (Z.to_nat count) readVarSlice.

(** [buffer.readUInt8(offset + d)], the offset left where it is. *)
Definition peekUInt8 (d : Z) : M Z Z :=
fun offset =>
rbind (Buffer.readUInt8 buffer (offset + d)) (fun v => Ok (v, offset)).

Definition skip (n : Z) : M Z unit := fun offset => Ok (tt, offset + n).

Definition get_offset : M Z Z := fun offset => Ok (offset, offset).
End WithBuffer.
End Reader.

(** [Transaction.fromBuffer] from [const vinLen = readVarInt()] on;
    [version] and [hasWitnesses'] are what the statements before it
    have set. *)
Definition fromBuffer_body (buffer : bytes) (__noStrict : bool)
    (version : Z) (hasWitnesses' : bool) : M Z Transaction :=
  do vinLen <- Reader.readVarInt buffer;
  do ins <- timesM (Z.to_nat vinLen)
    (do hash <- Reader.readSlice buffer 32;
     do index <- Reader.readUInt32 buffer;
     do script <- Reader.readVarSlice buffer;
     do sequence <- Reader.readUInt32 buffer;
     ret (TxIn.mk hash index script sequence EMPTY_WITNESS));
  do voutLen <- Reader.readVarInt buffer;
  do outs <- timesM (Z.to_nat voutLen)
    (do value <- Reader.readUInt64 buffer;
     do script <- Reader.readVarSlice buffer;
     ret (TxOut.mk script (Some value) None));
  do ins <-
    (if hasWitnesses' then
       do ins <- mapM (fun txIn =>
           do witness <- Reader.readVector buffer;
           ret (TxIn.mk (TxIn.hash txIn) (TxIn.index txIn)
                        (TxIn.script txIn) (TxIn.sequence txIn) witness))
         ins;
       if negb (hasWitnesses (mkTransaction version 0 ins outs)) then
         throw (Error "Transaction has superfluous witness data")
       else ret ins
     else ret ins);
  do locktime <- Reader.readUInt32 buffer;
  let tx := mkTransaction version locktime ins outs in
  if __noStrict then ret tx
  else
    do offset <- Reader.get_offset;
    if negb (offset =? blen buffer) then
      throw (Error "Transaction has unexpected data")
    else ret tx.

(** [Transaction.fromBuffer]: the version, the marker and the flag, then
    the rest. *)
Definition fromBuffer_reads (buffer : bytes) (__noStrict : bool)
  : M Z Transaction :=
  do version <- Reader.readInt32 buffer;
  do marker <- Reader.peekUInt8 buffer 0;
  do flag <- Reader.peekUInt8 buffer 1;
  do hasWitnesses' <-
    (if (marker =? ADVANCED_TRANSACTION_MARKER) &&
        (flag =? ADVANCED_TRANSACTION_FLAG)
     then do _ <- Reader.skip 2; ret true
     else ret false);
  fromBuffer_body buffer __noStrict version hasWitnesses'.

Definition fromBuffer (buffer : bytes) (__noStrict : bool)
  : result Transaction :=
  rbind (fromBuffer_reads buffer __noStrict 0) (fun r => Ok (fst r)).

(** [decode(B)] of the spec: the strict [Transaction.fromBuffer(B)]. *)
Definition decode (buffer : bytes) : result Transaction :=
  fromBuffer buffer false.

(** ** The legacy signature hasher *)

(** What [bscript.decompile] yields: opcodes and pushed data. *)
Inductive chunk : Type :=
| Opcode (op : Z)
| Push (data : bytes).

Definition OP_CODESEPARATOR : Z := 0xab.

Definition is_codeseparator (x : chunk) : bool :=
  match x with
  | Opcode op => op =? OP_CODESEPARATOR
  | Push _ => false
  end.

(** The script collaborator, [./script], is not part of the sources at
    hand; the hasher takes its two functions as given. *)
Record Script : Type := {
  decompile : bytes -> list chunk;
  compile : list chunk -> bytes
}.

Definition set_sequence (sequence : Z) (input : TxIn.t) : TxIn.t :=
  TxIn.mk (TxIn.hash input) (TxIn.index input) (TxIn.script input)
          sequence (TxIn.witness input).

Definition set_script (script : bytes) (input : TxIn.t) : TxIn.t :=
  TxIn.mk (TxIn.hash input) (TxIn.index input) script
          (TxIn.sequence input) (TxIn.witness input).

Definition set_ins (ins' : list TxIn.t) (tx : Transaction) : Transaction :=
  mkTransaction (version tx) (locktime tx) ins' (outs tx).

Definition set_outs (outs' : list TxOut.t) (tx : Transaction) : Transaction :=
  mkTransaction (version tx) (locktime tx) (ins tx) outs'.

(** [txTmp.ins.forEach((input, i) => { if (i === inIndex) return;
    input.sequence = 0 })] *)
Definition zero_other_sequences (inIndex : Z) (l : list TxIn.t)
  : list TxIn.t :=
  imap (fun i input =>
          if Z.of_nat i =? inIndex then input else set_sequence 0 input) l.

(** [txTmp.outs.length = inIndex + 1], then
    [for (let i = 0; i < inIndex; i++) txTmp.outs[i] = BLANK_OUTPUT]. *)
Definition blank_outputs_before (inIndex : Z) (l : list TxOut.t)
  : list TxOut.t :=
  fold_left (fun o i => <[i := BLANK_OUTPUT]> o)
    (seq 0 (Z.to_nat inIndex)) (take (Z.to_nat (inIndex + 1)) l).

(** The output rule (the first [if] chain on [hashType & 0x1f]);
    [None] is the [return ONE] of the SIGHASH_SINGLE branch. *)
Definition sighash_output_rule (this txTmp : Transaction)
    (inIndex hashType : Z) : option Transaction :=
  if Z.land hashType 0x1f =? SIGHASH_NONE then
    Some (set_ins (zero_other_sequences inIndex (ins txTmp))
            (set_outs [] txTmp))
  else if Z.land hashType 0x1f =? SIGHASH_SINGLE then
    if blen (outs this) <=? inIndex then None
    else
      Some (set_ins (zero_other_sequences inIndex (ins txTmp))
              (set_outs (blank_outputs_before inIndex (outs txTmp)) txTmp))
  else Some txTmp.

(** The input rule (the [if] on [hashType & SIGHASH_ANYONECANPAY]). *)
Definition sighash_input_rule (txTmp : Transaction)
    (inIndex hashType : Z) (ourScript : bytes) : result Transaction :=
  if negb (Z.land hashType SIGHASH_ANYONECANPAY =? 0) then
    match ins txTmp !! Z.to_nat inIndex with
    | Some input => Ok (set_ins [set_script ourScript input] txTmp)
    | None => Throw (TypeError "Cannot set property 'script' of undefined")
    end
  else
    let blanked := map (set_script EMPTY_SCRIPT) (ins txTmp) in
    match blanked !! Z.to_nat inIndex with
    | Some input =>
        Ok (set_ins (<[Z.to_nat inIndex := set_script ourScript input]>
                       blanked) txTmp)
    | None => Throw (TypeError "Cannot set property 'script' of undefined")
    end.

(** "serialize and hash": the last four statements. *)
Definition sighash_digest (txTmp : Transaction) (hashType : Z)
  : result bytes :=
  let buffer := Buffer.allocUnsafe (__byteLength txTmp false + 4) in
  rbind (Buffer.writeInt32LE buffer hashType (blen buffer - 4))
    (fun '(buffer, _) =>
  rbind (__toBuffer txTmp (Some buffer) (Some 0) false)
    (fun '(_, buffer) =>
  Ok (hash256 buffer))).

Section Legacy.
Variable bscript : Script.

Definition ourScript_of (prevOutScript : bytes) : bytes :=
  compile bscript
    (List.filter (fun x => negb (is_codeseparator x))
       (decompile bscript prevOutScript)).

(** The transaction that [hashForSignature] serializes, when it gets
    that far. *)
Definition sighash_txTmp (this : Transaction) (inIndex : Z)
    (prevOutScript : bytes) (hashType : Z)
  : option (result Transaction) :=
  match sighash_output_rule this (clone this) inIndex hashType with
  | None => None
  | Some txTmp =>
      Some (sighash_input_rule txTmp inIndex hashType
              (ourScript_of prevOutScript))
  end.

Definition hashForSignature (this : Transaction) (inIndex : Z)
    (prevOutScript : bytes) (hashType : Z) : result bytes :=
  rbind (typeforce (types.UInt32 inIndex)) (fun _ =>
  if blen (ins this) <=? inIndex then Ok ONE
  else
    match sighash_txTmp this inIndex prevOutScript hashType with
    | None => Ok ONE
    | Some r => rbind r (fun txTmp => sighash_digest txTmp hashType)
    end).

End Legacy.

(** ** The witness-v0 signature hasher *)

(** Allocate [size] bytes, run the writes from offset 0, keep the buffer. *)
Definition filled (size : Z) (w : M Writer.st unit) : result bytes :=
  match w (Buffer.allocUnsafe size, 0) with
  | Ok (_, (tbuffer, _)) => Ok tbuffer
  | Throw e => Throw e
  end.

Definition anyonecanpay (hashType : Z) : bool :=
  negb (Z.land hashType SIGHASH_ANYONECANPAY =? 0).

Definition hashPrevouts (this : Transaction) (hashType : Z) : result bytes :=
  if negb (anyonecanpay hashType) then
    rbind (filled (36 * blen (ins this))
             (forEachM (fun txIn =>
                do _ <- Writer.writeSlice (TxIn.hash txIn);
                Writer.writeUInt32 (TxIn.index txIn)) (ins this)))
      (fun tbuffer => Ok (hash256 tbuffer))
  else Ok ZERO.

Definition hashSequence (this : Transaction) (hashType : Z) : result bytes :=
  if negb (anyonecanpay hashType) &&
     negb (Z.land hashType 0x1f =? SIGHASH_SINGLE) &&
     negb (Z.land hashType 0x1f =? SIGHASH_NONE) then
    rbind (filled (4 * blen (ins this))
             (forEachM (fun txIn => Writer.writeUInt32 (TxIn.sequence txIn))
                (ins this)))
      (fun tbuffer => Ok (hash256 tbuffer))
  else Ok ZERO.

Definition write_output (out : TxOut.t) : M Writer.st unit :=
  do _ <- Writer.writeUInt64 (TxOut.value out);
  Writer.writeVarSlice (TxOut.script out).

Definition hashOutputs (this : Transaction) (inIndex hashType : Z)
  : result bytes :=
  if negb (Z.land hashType 0x1f =? SIGHASH_SINGLE) &&
     negb (Z.land hashType 0x1f =? SIGHASH_NONE) then
    let txOutsSize :=
      fold_left (fun sum output =>
                   sum + 8 + varSliceSize (TxOut.script output))
        (outs this) 0 in
    rbind (filled txOutsSize (forEachM write_output (outs this)))
      (fun tbuffer => Ok (hash256 tbuffer))
  else if (Z.land hashType 0x1f =? SIGHASH_SINGLE) &&
          (inIndex <? blen (outs this)) then
    match outs this !! Z.to_nat inIndex with
    | Some output =>
        rbind (filled (8 + varSliceSize (TxOut.script output))
                 (write_output output))
          (fun tbuffer => Ok (hash256 tbuffer))
    | None => Throw (TypeError "Cannot read property 'script' of undefined")
    end
  else Ok ZERO.

(** The writes of the pre-image, from [writeUInt32(this.version)] on;
    [input] is [this.ins[inIndex]]. *)
Definition witness_preimage_writes (this : Transaction)
    (input : option TxIn.t) (prevOutScript : bytes) (value hashType : Z)
    (hashPrevouts hashSequence hashOutputs : bytes) : M Writer.st unit :=
  do _ <- Writer.writeUInt32 (version this);
  do _ <- Writer.writeSlice hashPrevouts;
  do _ <- Writer.writeSlice hashSequence;
  match input with
  | None => throw (TypeError "Cannot read property 'hash' of undefined")
  | Some input =>
      do _ <- Writer.writeSlice (TxIn.hash input);
      do _ <- Writer.writeUInt32 (TxIn.index input);
      do _ <- Writer.writeVarSlice prevOutScript;
      do _ <- Writer.writeUInt64 (Some value);
      do _ <- Writer.writeUInt32 (TxIn.sequence input);
      do _ <- Writer.writeSlice hashOutputs;
      do _ <- Writer.writeUInt32 (locktime this);
      Writer.writeUInt32 hashType
  end.

Definition hashForWitnessV0 (this : Transaction) (inIndex : Z)
    (prevOutScript : bytes) (value hashType : Z) : result bytes :=
  rbind (typeforce (types.UInt32 inIndex && types.Satoshi value &&
                    types.UInt32 hashType)) (fun _ =>
  rbind (hashPrevouts this hashType) (fun hashPrevouts =>
  rbind (hashSequence this hashType) (fun hashSequence =>
  rbind (hashOutputs this inIndex hashType) (fun hashOutputs =>
  let input := ins this !! Z.to_nat inIndex in
  rbind (filled (156 + varSliceSize prevOutScript)
           (witness_preimage_writes this input prevOutScript value hashType
              hashPrevouts hashSequence hashOutputs))
    (fun tbuffer => Ok (hash256 tbuffer)))))).

(** ** The canonical byte sequence, as the spec words it

    The encoder of the source writes into a pre-sized buffer through an
    advancing offset.  [serialize] is the field order of the spec as a
    plain concatenation; the encoder is shown to produce it. *)

Definition varint_bytes (n : Z) : bytes :=
  if n <? 0xfd then [byte_of_Z n]
  else if n <=? 0xffff then xfd :: le_bytes 2 n
  else if n <=? 0xffffffff then xfe :: le_bytes 4 n
  else xff :: le_bytes 8 n.

Definition varslice_bytes (s : bytes) : bytes := varint_bytes (blen s) ++ s.

Definition vector_bytes (v : list bytes) : bytes :=
  varint_bytes (blen v) ++ concat (map varslice_bytes v).

Definition input_bytes (i : TxIn.t) : bytes :=
  TxIn.hash i ++ le_bytes 4 (TxIn.index i) ++
  varslice_bytes (TxIn.script i) ++ le_bytes 4 (TxIn.sequence i).

Definition value_bytes (o : TxOut.t) : bytes :=
  match TxOut.valueBuffer o, TxOut.value o with
  | Some placeholder, _ => placeholder
  | None, Some v => le_bytes 8 v
  | None, None => []
  end.

Definition output_bytes (o : TxOut.t) : bytes :=
  value_bytes o ++ varslice_bytes (TxOut.script o).

Definition serialize (T : Transaction) (allow_witness : bool) : bytes :=
  let has_witness := allow_witness && hasWitnesses T in
  le_bytes 4 (version T) ++
  (if has_witness then [x00; x01] else []) ++
  varint_bytes (blen (ins T)) ++ concat (map input_bytes (ins T)) ++
  varint_bytes (blen (outs T)) ++ concat (map output_bytes (outs T)) ++
  (if has_witness
   then concat (map (fun i => vector_bytes (TxIn.witness i)) (ins T))
   else []) ++
  le_bytes 4 (locktime T).

(** ** Well-formed transactions: the ranges of the data model *)

Definition safe_length {A} (l : list A) : Prop :=
  blen l <= varuint.MAX_SAFE_INTEGER.

Definition is_uint32 (v : Z) : Prop := 0 <= v <= 0xffffffff.
Definition is_int32 (v : Z) : Prop := -0x80000000 <= v <= 0x7fffffff.
Definition is_uint64 (v : Z) : Prop := 0 <= v <= 0xffffffffffffffff.

Record wf_in (i : TxIn.t) : Prop := {
  wf_hash : length (TxIn.hash i) = 32%nat;
  wf_index : is_uint32 (TxIn.index i);
  wf_script : safe_length (TxIn.script i);
  wf_sequence : is_uint32 (TxIn.sequence i);
  wf_witness : safe_length (TxIn.witness i);
  wf_witness_items : Forall safe_length (TxIn.witness i)
}.

(** An output holds an amount, or the eight bytes of a placeholder. *)
Definition wf_value (o : TxOut.t) : Prop :=
  match TxOut.valueBuffer o, TxOut.value o with
  | Some placeholder, _ => length placeholder = 8%nat
  | None, Some v => is_uint64 v
  | None, None => False
  end.

Record wf_out (o : TxOut.t) : Prop := {
  wf_out_script : safe_length (TxOut.script o);
  wf_out_value : wf_value o
}.

Record wf_tx (T : Transaction) : Prop := {
  wf_version : is_int32 (version T);
  wf_locktime : is_uint32 (locktime T);
  wf_ins : Forall wf_in (ins T);
  wf_outs : Forall wf_out (outs T);
  wf_ins_length : safe_length (ins T);
  wf_outs_length : safe_length (outs T)
}.

(** An output as [addOutput] and the decoder make it: an amount and no
    placeholder. *)
Definition plain_output (o : TxOut.t) : Prop :=
  TxOut.valueBuffer o = None.

(** ** Vocabulary of the proofs *)

(** The writer [m], started on a region [old] of the right size that sits
    between [pre] and [post], replaces it by [data] and leaves the offset
    after it. *)
Definition writes (m : M Writer.st unit) (data : bytes) : Prop :=
  forall pre old post,
    length old = length data ->
    m (pre ++ old ++ post, blen pre) =
    Ok (tt, (pre ++ data ++ post, blen pre + blen data)).

(** [data] sits in [buffer] at [offset]. *)
Definition sits (buffer : bytes) (offset : Z) (data : bytes) : Prop :=
  exists pre post, buffer = pre ++ data ++ post /\ offset = blen pre.

(** The reader [m], started at an offset where [data] sits, returns [a]
    and leaves the offset after [data]. *)
Definition parses {A} (buffer : bytes) (m : M Z A) (data : bytes) (a : A)
  : Prop :=
  forall offset,
    sits buffer offset data -> m offset = Ok (a, offset + blen data).

Definition strip_witness (i : TxIn.t) : TxIn.t :=
  TxIn.mk (TxIn.hash i) (TxIn.index i) (TxIn.script i) (TxIn.sequence i)
          EMPTY_WITNESS.

(** The reader [m], started where [data] sits as the last bytes of the
    buffer, returns [a]. *)
Definition parses_to_end {A} (buffer : bytes) (m : M Z A) (data : bytes)
    (a : A) : Prop :=
  forall offset,
    sits buffer offset data -> offset + blen data = blen buffer ->
    m offset = Ok (a, blen buffer).

(** What [serialize] puts after the version and the marker. *)
Definition body_bytes (T : Transaction) (has_witness : bool) : bytes :=
  varint_bytes (blen (ins T)) ++ concat (map input_bytes (ins T)) ++
  varint_bytes (blen (outs T)) ++ concat (map output_bytes (outs T)) ++
  (if has_witness
   then concat (map (fun i => vector_bytes (TxIn.witness i)) (ins T))
   else []) ++
  le_bytes 4 (locktime T).

(** ** Concrete transactions and a stand-in script collaborator *)

(** Two inputs, the second with a witness, and one output. *)
Definition tx_segwit : Transaction :=
  mkTransaction 1 0
    [TxIn.mk (repeat x11 32) 0 [x51] 0xffffffff [];
     TxIn.mk (repeat x22 32) 1 [] 0xfffffffe [[x01; x02]; []]]
    [TxOut.mk [x51; x52] (Some 5000) None].

(** No input and exactly one output. *)
Definition tx_no_input_one_output : Transaction :=
  mkTransaction 1 0 [] [TxOut.mk [] (Some 0) None].

(** Two inputs and three outputs. *)
Definition tx_three_outputs : Transaction :=
  mkTransaction 2 7
    [TxIn.mk (repeat x11 32) 0 [x51] 0xffffffff [];
     TxIn.mk (repeat x22 32) 1 [x52] 0xfffffffe []]
    [TxOut.mk [x51] (Some 10) None;
     TxOut.mk [x52] (Some 20) None;
     TxOut.mk [x53] (Some 30) None].

(** A script collaborator for concrete instances only: every byte of a
    script is an opcode. *)
Definition opcode_script : Script :=
  {| decompile := map (fun b => Opcode (Z_of_byte b));
     compile := map (fun c => match c with
                              | Opcode op => byte_of_Z op
                              | Push _ => x00
                              end) |}.

(** What the witness-v0 hasher digests of an input. *)
Definition prevout_bytes (i : TxIn.t) : bytes :=
  TxIn.hash i ++ le_bytes 4 (TxIn.index i).

Definition sequence_bytes (i : TxIn.t) : bytes :=
  le_bytes 4 (TxIn.sequence i).

(** ** The object heap

    The signature hashers work on JavaScript objects: a transaction
    refers to its two arrays, the arrays to their input and output
    objects, and [clone] allocates new ones.  [Heap] models that store,
    so that what the hashers assign to can be told apart from what the
    caller's transaction is made of.  Buffers are never written in
    place by the hashers (they write to the buffer they allocate), so
    an object holds its buffers by value. *)

Module Heap.

Definition loc : Type := positive.

Inductive obj : Type :=
| OInput (i : TxIn.t)
| OOutput (o : TxOut.t)
| OArray (elems : list loc)
| OTransaction (version locktime : Z) (ins outs : loc).

Abbreviation heap := (gmap loc obj).

(** A computation on the heap; the heap is kept when it throws. *)
Definition H (A : Type) : Type := heap -> result A * heap.

Definition hret {A} (a : A) : H A := fun h => (Ok a, h).

Definition hbind {A B} (m : H A) (f : A -> H B) : H B :=
  fun h => match m h with
           | (Ok a, h') => f a h'
           | (Throw e, h') => (Throw e, h')
           end.

Definition hthrow {A} (e : exn) : H A := fun h => (Throw e, h).

Definition lift {A} (r : result A) : H A := fun h => (r, h).

Notation "'let!' x := m 'in' k" := (hbind m (fun x => k))
  (at level 10, x name, m at level 100, k at level 200,
   format "'[v' 'let!'  x  :=  m  'in' '/' k ']'").
Notation "'let!' '_' := m 'in' k" := (hbind m (fun _ => k))
  (at level 10, m at level 100, k at level 200,
   format "'[v' 'let!'  '_'  :=  m  'in' '/' k ']'").

Fixpoint hforEach {A} (f : A -> H unit) (l : list A) : H unit :=
  match l with
  | [] => hret tt
  | x :: l' => let! _ := f x in hforEach f l'
  end.

(** [forEach((x, i) => ...)], the index starting at [i]. *)
Fixpoint hforEachI {A} (f : nat -> A -> H unit) (i : nat) (l : list A)
  : H unit :=
  match l with
  | [] => hret tt
  | x :: l' => let! _ := f i x in hforEachI f (S i) l'
  end.

Fixpoint hmapM {A B} (f : A -> H B) (l : list A) : H (list B) :=
  match l with
  | [] => hret []
  | x :: l' => let! y := f x in let! ys := hmapM f l' in hret (y :: ys)
  end.

(** A new object gets a location that is not in use. *)
Definition alloc (o : obj) : H loc :=
  fun h => let l := fresh (dom h) in (Ok l, <[l := o]> h).

Definition load (l : loc) : H obj :=
  fun h => match h !! l with
           | Some o => (Ok o, h)
           | None => (Throw (TypeError "Cannot read property of undefined"), h)
           end.

Definition store (l : loc) (o : obj) : H unit :=
  fun h => (Ok tt, <[l := o]> h).

Definition load_input (l : loc) : H TxIn.t :=
  let! o := load l in
  match o with
  | OInput i => hret i
  | _ => hthrow (TypeError "not an input")
  end.

Definition load_output (l : loc) : H TxOut.t :=
  let! o := load l in
  match o with
  | OOutput o => hret o
  | _ => hthrow (TypeError "not an output")
  end.

Definition load_array (l : loc) : H (list loc) :=
  let! o := load l in
  match o with
  | OArray elems => hret elems
  | _ => hthrow (TypeError "not an array")
  end.

(** The four properties of a transaction object. *)
Definition load_tx (l : loc) : H (Z * Z * loc * loc) :=
  let! o := load l in
  match o with
  | OTransaction v lt a b => hret (v, lt, a, b)
  | _ => hthrow (TypeError "not a transaction")
  end.

(** [tx.ins] and [tx.outs] *)
Definition tx_ins (t : loc) : H loc :=
  let! f := load_tx t in hret (snd (fst f)).

Definition tx_outs (t : loc) : H loc :=
  let! f := load_tx t in hret (snd f).

(** Assignments to a property. *)
Definition set_tx_version (t : loc) (v : Z) : H unit :=
  let! f := load_tx t in
  store t (OTransaction v (snd (fst (fst f))) (snd (fst f)) (snd f)).

Definition set_tx_locktime (t : loc) (lt : Z) : H unit :=
  let! f := load_tx t in
  store t (OTransaction (fst (fst (fst f))) lt (snd (fst f)) (snd f)).

Definition set_tx_ins (t : loc) (a : loc) : H unit :=
  let! f := load_tx t in
  store t (OTransaction (fst (fst (fst f))) (snd (fst (fst f))) a (snd f)).

Definition set_tx_outs (t : loc) (b : loc) : H unit :=
  let! f := load_tx t in
  store t (OTransaction (fst (fst (fst f))) (snd (fst (fst f)))
             (snd (fst f)) b).

Definition set_input_sequence (l : loc) (sequence : Z) : H unit :=
  let! i := load_input l in store l (OInput (set_sequence sequence i)).

Definition set_input_script (l : loc) (script : bytes) : H unit :=
  let! i := load_input l in store l (OInput (set_script script i)).

(** [arr.length = n] for an [n] within the array, and [arr[i] = x] for
    an [i] within it; the hasher uses them below the guard
    [inIndex < this.outs.length] only. *)
Definition array_set_length (a : loc) (n : nat) : H unit :=
  let! elems := load_array a in store a (OArray (take n elems)).

Definition array_set (a : loc) (i : nat) (x : loc) : H unit :=
  let! elems := load_array a in store a (OArray (<[i := x]> elems)).

(** [new Transaction()] *)
Definition new_Transaction : H loc :=
  let! a := alloc (OArray []) in
  let! b := alloc (OArray []) in
  alloc (OTransaction 1 0 a b).

(** [clone()] *)
Definition clone (this : loc) : H loc :=
  let! newTx := new_Transaction in
  let! f := load_tx this in
  let! _ := set_tx_version newTx (fst (fst (fst f))) in
  let! _ := set_tx_locktime newTx (snd (fst (fst f))) in
  let! this_ins := load_array (snd (fst f)) in
  let! new_ins := hmapM (fun l =>
      let! txIn := load_input l in
      alloc (OInput (TxIn.mk (TxIn.hash txIn) (TxIn.index txIn)
                       (TxIn.script txIn) (TxIn.sequence txIn)
                       (TxIn.witness txIn)))) this_ins in
  let! a := alloc (OArray new_ins) in
  let! _ := set_tx_ins newTx a in
  let! this_outs := load_array (snd f) in
  let! new_outs := hmapM (fun l =>
      let! txOut := load_output l in
      alloc (OOutput (TxOut.mk (TxOut.script txOut) (TxOut.value txOut)
                        None))) this_outs in
  let! b := alloc (OArray new_outs) in
  let! _ := set_tx_outs newTx b in
  hret newTx.

(** Reading a transaction off the heap, as [__byteLength] and
    [__toBuffer] do when they walk [this.ins] and [this.outs]. *)
Definition read_tx (t : loc) : H Transaction :=
  let! f := load_tx t in
  let! in_locs := load_array (snd (fst f)) in
  let! inputs := hmapM load_input in_locs in
  let! out_locs := load_array (snd f) in
  let! outputs := hmapM load_output out_locs in
  hret (mkTransaction (fst (fst (fst f))) (snd (fst (fst f))) inputs outputs).

Definition snapshot (h : heap) (t : loc) : option Transaction :=
  match read_tx t h with
  | (Ok T, _) => Some T
  | (Throw _, _) => None
  end.

(** [txTmp.ins.forEach((input, i) => { if (i === inIndex) return;
    input.sequence = 0 })] *)
Definition zero_other_sequences (txTmp : loc) (inIndex : Z) : H unit :=
  let! a := tx_ins txTmp in
  let! elems := load_array a in
  hforEachI (fun i input =>
               if Z.of_nat i =? inIndex then hret tt
               else set_input_sequence input 0) 0 elems.

Section Hashers.
Variable bscript : Script.
(** Where the module-level constant [BLANK_OUTPUT] lives. *)
Variable BLANK : loc.

(** The output rule; [true] is the [return ONE] of the SIGHASH_SINGLE
    branch. *)
Definition output_rule (this txTmp : loc) (inIndex hashType : Z) : H bool :=
  if Z.land hashType 0x1f =? SIGHASH_NONE then
    let! e := alloc (OArray []) in
    let! _ := set_tx_outs txTmp e in
    let! _ := zero_other_sequences txTmp inIndex in
    hret false
  else if Z.land hashType 0x1f =? SIGHASH_SINGLE then
    let! this_outs := tx_outs this in
    let! elems := load_array this_outs in
    if blen elems <=? inIndex then hret true
    else
      let! b := tx_outs txTmp in
      let! _ := array_set_length b (Z.to_nat (inIndex + 1)) in
      let! _ := hforEach (fun i => array_set b i BLANK)
                  (seq 0 (Z.to_nat inIndex)) in
      let! _ := zero_other_sequences txTmp inIndex in
      hret false
  else hret false.

(** The input rule. *)
Definition input_rule (txTmp : loc) (inIndex hashType : Z)
    (ourScript : bytes) : H unit :=
  let! a := tx_ins txTmp in
  let! elems := load_array a in
  if negb (Z.land hashType SIGHASH_ANYONECANPAY =? 0) then
    match elems !! Z.to_nat inIndex with
    | Some input =>
        let! a' := alloc (OArray [input]) in
        let! _ := set_tx_ins txTmp a' in
        set_input_script input ourScript
    | None => hthrow (TypeError "Cannot set property 'script' of undefined")
    end
  else
    let! _ := hforEach (fun input => set_input_script input EMPTY_SCRIPT)
                elems in
    match elems !! Z.to_nat inIndex with
    | Some input => set_input_script input ourScript
    | None => hthrow (TypeError "Cannot set property 'script' of undefined")
    end.

Definition hashForSignature (this : loc) (inIndex : Z)
    (prevOutScript : bytes) (hashType : Z) : H bytes :=
  let! _ := lift (typeforce (types.UInt32 inIndex)) in
  let! this_ins := tx_ins this in
  let! elems := load_array this_ins in
  if blen elems <=? inIndex then hret ONE
  else
    let ourScript := ourScript_of bscript prevOutScript in
    let! txTmp := clone this in
    let! one := output_rule this txTmp inIndex hashType in
    if one : bool then hret ONE
    else
      let! _ := input_rule txTmp inIndex hashType ourScript in
      let! T := read_tx txTmp in
      lift (sighash_digest T hashType).

(** [hashForWitnessV0] reads [this] and writes to the buffers it
    allocates. *)
Definition hashForWitnessV0 (this : loc) (inIndex : Z)
    (prevOutScript : bytes) (value hashType : Z) : H bytes :=
  let! T := read_tx this in
  lift (hashForWitnessV0 T inIndex prevOutScript value hashType).

End Hashers.

(** A heap holding [BLANK_OUTPUT] at 1 and [tx_three_outputs] at 9. *)
Definition example_heap : heap :=
  list_to_map
    [(1%positive, OOutput BLANK_OUTPUT);
     (2%positive, OInput (TxIn.mk (repeat x11 32) 0 [x51] 0xffffffff []));
     (3%positive, OInput (TxIn.mk (repeat x22 32) 1 [x52] 0xfffffffe []));
     (4%positive, OOutput (TxOut.mk [x51] (Some 10) None));
     (5%positive, OOutput (TxOut.mk [x52] (Some 20) None));
     (6%positive, OOutput (TxOut.mk [x53] (Some 30) None));
     (7%positive, OArray [2%positive; 3%positive]);
     (8%positive, OArray [4%positive; 5%positive; 6%positive]);
     (9%positive, OTransaction 2 7 7%positive 8%positive)].

End Heap.

(** ** Vocabulary of the heap proofs *)

(** From a heap in [P], the computation ends in [Q] when it returns and
    in [E] when it throws. *)
Definition triple {A} (P : Heap.heap -> Prop) (m : Heap.H A)
    (Q : A -> Heap.heap -> Prop) (E : Heap.heap -> Prop) : Prop :=
  forall h, P h ->
    match m h with
    | (Ok a, h') => Q a h'
    | (Throw _, h') => E h'
    end.

(** [l] is an input object that did not exist in [h0]. *)
Definition new_input (h0 h : Heap.heap) (l : Heap.loc) : Prop :=
  h0 !! l = None /\ exists i, h !! l = Some (Heap.OInput i).

(** The temporary transaction at [t], with its input array [a] holding
    [ils] and its output array [b]: the heap [h0] of the caller is
    intact, and [t], the two arrays and the input objects are all new
    with respect to [h0]. *)
Definition tmp_at (h0 : Heap.heap) (t a b : Heap.loc) (ils : list Heap.loc)
    (h : Heap.heap) : Prop :=
  h0 ⊆ h /\ h0 !! t = None /\ h0 !! a = None /\ h0 !! b = None /\ a <> b /\
  (exists v lt, h !! t = Some (Heap.OTransaction v lt a b)) /\
  h !! a = Some (Heap.OArray ils) /\
  (exists ols, h !! b = Some (Heap.OArray ols)) /\
  Forall (new_input h0 h) ils.

Definition tmp_inv (h0 : Heap.heap) (t : Heap.loc) (h : Heap.heap) : Prop :=
  exists a b ils, tmp_at h0 t a b ils h.

(** The computation leaves the heap as it is, and returns the same on
    every heap that holds at least the same objects. *)
Definition reader {A} (m : Heap.H A) : Prop :=
  forall h,
    snd (m h) = h /\
    forall h' a, h ⊆ h' -> fst (m h) = Ok a -> fst (m h') = Ok a.

(** From a heap in [P], the computation returns, in [Q]. *)
Definition runs {A} (P : Heap.heap -> Prop) (m : Heap.H A)
    (Q : A -> Heap.heap -> Prop) : Prop :=
  forall h, P h -> exists a h', m h = (Ok a, h') /\ Q a h'.

Definition in_at (h : Heap.heap) (l : Heap.loc) (x : TxIn.t) : Prop :=
  h !! l = Some (Heap.OInput x).

Definition out_at (h : Heap.heap) (l : Heap.loc) (x : TxOut.t) : Prop :=
  h !! l = Some (Heap.OOutput x).

(** The objects at [t] make up the transaction [T]. *)
Definition repr (h : Heap.heap) (t : Heap.loc) (T : Transaction)
    (a b : Heap.loc) (ils ols : list Heap.loc) : Prop :=
  h !! t = Some (Heap.OTransaction (version T) (locktime T) a b) /\
  h !! a = Some (Heap.OArray ils) /\
  h !! b = Some (Heap.OArray ols) /\
  Forall2 (in_at h) ils (ins T) /\
  Forall2 (out_at h) ols (outs T).

(** The temporary transaction at [t] is new with respect to [h0], its
    input objects are pairwise distinct, and it reads as [T]. *)
Definition tmp_repr (h0 : Heap.heap) (t : Heap.loc) (T : Transaction)
    (a b : Heap.loc) (ils ols : list Heap.loc) (h : Heap.heap) : Prop :=
  tmp_at h0 t a b ils h /\ NoDup ils /\ repr h t T a b ils ols.

(** ** The other methods of [Transaction] *)

(** [arr[i]] for a number [i]: [undefined] outside the array. *)
Definition at_index {A} (l : list A) (i : Z) : option A :=
  if i <? 0 then None else l !! Z.to_nat i.

Definition set_witness (witness : list bytes) (input : TxIn.t) : TxIn.t :=
  TxIn.mk (TxIn.hash input) (TxIn.index input) (TxIn.script input)
          (TxIn.sequence input) witness.

(** [Transaction.isCoinbaseHash(buffer)]: the loop returns [false] at
    the first byte that is not 0. *)
Definition isCoinbaseHash (buffer : bytes) : result bool :=
  rbind (typeforce (types.Hash256bit buffer)) (fun _ =>
  Ok (forallb (fun i => match buffer !! i with
                        | Some x => Z_of_byte x =? 0
                        | None => false
                        end) (seq 0 32))).

(** The [isCoinbase] getter; [&&] does not evaluate its right operand
    when the left one is false. *)
Definition isCoinbase (this : Transaction) : result bool :=
  if blen (ins this) =? 1 then
    match ins this !! 0%nat with
    | Some input => isCoinbaseHash (TxIn.hash input)
    | None => Throw (TypeError "Cannot read property 'hash' of undefined")
    end
  else Ok false.

(** The [id] getter: the hash, reversed, in hex. *)
Definition get_id (this : Transaction) : result string :=
  rbind (hash this) (fun h => Ok (toString_hex (rev h))).

(** The [hex] getter. *)
Definition hex (this : Transaction) : result string :=
  rbind (toBuffer this) (fun b => Ok (toString_hex b)).

(** [addInput(hash, index, sequence, scriptSig)]; an argument left out
    is [None].  The result is the returned index and the transaction
    after the push. *)
Definition addInput (this : Transaction) (hash : bytes) (index : Z)
    (sequence : option Z) (scriptSig : option bytes)
  : result (Z * Transaction) :=
  rbind (typeforce (types.Hash256bit hash && types.UInt32 index &&
                    match sequence with
                    | Some s => types.UInt32 s
                    | None => true
                    end)) (fun _ =>
  let sequence :=
    match sequence with Some s => s | None => DEFAULT_SEQUENCE end in
  let input :=
    TxIn.mk hash index
      (match scriptSig with Some s => s | None => EMPTY_SCRIPT end)
      sequence EMPTY_WITNESS in
  let ins' := ins this ++ [input] in
  Ok (blen ins' - 1, set_ins ins' this)).

(** [addOutput(scriptPubKey, value)] *)
Definition addOutput (this : Transaction) (scriptPubKey : bytes) (value : Z)
  : result (Z * Transaction) :=
  rbind (typeforce (types.Satoshi value)) (fun _ =>
  let outs' := outs this ++ [TxOut.mk scriptPubKey (Some value) None] in
  Ok (blen outs' - 1, set_outs outs' this)).

(** [setInputScript(index, scriptSig)]: [this.ins[index]] is
    [undefined] for an index outside the array, and the assignment to
    its property throws. *)
Definition setInputScript (this : Transaction) (index : Z)
    (scriptSig : bytes) : result Transaction :=
  match at_index (ins this) index with
  | Some input =>
      Ok (set_ins (<[Z.to_nat index := set_script scriptSig input]>
                     (ins this)) this)
  | None => Throw (TypeError "Cannot set property 'script' of undefined")
  end.

(** [setWitness(index, witness)] *)
Definition setWitness (this : Transaction) (index : Z)
    (witness : list bytes) : result Transaction :=
  match at_index (ins this) index with
  | Some input =>
      Ok (set_ins (<[Z.to_nat index := set_witness witness input]>
                     (ins this)) this)
  | None => Throw (TypeError "Cannot set property 'witness' of undefined")
  end.

(** [Buffer.from(hex, 'hex')]: two hex digits make a byte; decoding
    stops at the first pair that is not two hex digits, and a last odd
    character is dropped. *)
Definition hex_value (c : Ascii.ascii) : option Z :=
  let n := Z.of_nat (Ascii.nat_of_ascii c) in
  if (48 <=? n) && (n <=? 57) then Some (n - 48)
  else if (97 <=? n) && (n <=? 102) then Some (n - 87)
  else if (65 <=? n) && (n <=? 70) then Some (n - 55)
  else None.

Fixpoint from_hex (s : string) : bytes :=
  match s with
  | String c1 (String c2 s') =>
      match hex_value c1, hex_value c2 with
      | Some hi, Some lo => byte_of_Z (16 * hi + lo) :: from_hex s'
      | _, _ => []
      end
  | _ => []
  end.

(** [Transaction.fromHex(hex)] *)
Definition fromHex (hex : string) : result Transaction :=
  fromBuffer (from_hex hex) false.

(** ** Vocabulary for writing to a buffer that may be too short *)

(** From a non-negative offset the writer, when it returns, has kept
    the length of the buffer and has advanced by at most [n]; if by
    less, the offset is at the end of the buffer or beyond. *)
Definition writes_upto (m : M Writer.st unit) (n : Z) : Prop :=
  0 <= n /\
  forall b o b' o',
    0 <= o -> m (b, o) = Ok (tt, (b', o')) ->
    blen b' = blen b /\ o <= o' <= o + n /\ (o' < o + n -> blen b <= o').

(** From a non-negative offset the writer, when it returns, has kept
    the length of the buffer and has advanced by [n] exactly, within
    the buffer. *)
Definition writes_exactly (m : M Writer.st unit) (n : Z) : Prop :=
  0 < n /\
  forall b o b' o',
    0 <= o -> m (b, o) = Ok (tt, (b', o')) ->
    blen b' = blen b /\ o' = o + n /\ o' <= blen b.

(** ** Vocabulary for what the hashers depend on *)

(** What an input spends and its sequence number: the input without
    its script and its witness. *)
Definition outpoint_sequence (i : TxIn.t) : bytes * Z * Z :=
  (TxIn.hash i, TxIn.index i, TxIn.sequence i).

(** Two transactions that differ in the witnesses of their inputs at
    most. *)
Definition same_but_witnesses (T T' : Transaction) : Prop :=
  version T = version T' /\ locktime T = locktime T' /\
  outs T = outs T' /\
  map strip_witness (ins T) = map strip_witness (ins T').

(** Two transactions that differ in the scripts and the witnesses of
    their inputs at most. *)
Definition same_but_scripts (T T' : Transaction) : Prop :=
  version T = version T' /\ locktime T = locktime T' /\
  outs T = outs T' /\
  map outpoint_sequence (ins T) = map outpoint_sequence (ins T').

(** ** Transactions built through the methods *)

(** A transaction made by [new Transaction()] and calls of [addInput],
    [addOutput], [setInputScript] and [setWitness] that returned, on
    buffers and arrays whose lengths a JavaScript number holds
    exactly. *)
Inductive built : Transaction -> Prop :=
| built_new : built new_Transaction
| built_addInput T hash index sequence scriptSig i T' :
    built T ->
    blen (ins T) < varuint.MAX_SAFE_INTEGER ->
    (forall s, scriptSig = Some s -> safe_length s) ->
    addInput T hash index sequence scriptSig = Ok (i, T') ->
    built T'
| built_addOutput T scriptPubKey value i T' :
    built T ->
    blen (outs T) < varuint.MAX_SAFE_INTEGER ->
    safe_length scriptPubKey ->
    addOutput T scriptPubKey value = Ok (i, T') ->
    built T'
| built_setInputScript T index scriptSig T' :
    built T ->
    safe_length scriptSig ->
    setInputScript T index scriptSig = Ok T' ->
    built T'
| built_setWitness T index witness T' :
    built T ->
    safe_length witness -> Forall safe_length witness ->
    setWitness T index witness = Ok T' ->
    built T'.

(** The previous output that an input spends. *)
Definition outpoint (i : TxIn.t) : bytes * Z := (TxIn.hash i, TxIn.index i).

(** ** The other methods on the object heap

    [addInput] and [addOutput] push a new object on the array of
    [this]; [setInputScript] and [setWitness] assign to a property of
    an input object of [this]. *)

Module HeapTx.
Import Heap.

Definition set_input_witness (l : loc) (witness : list bytes) : H unit :=
  let! i := load_input l in store l (OInput (set_witness witness i)).

(** [arr.push(x)]: the new length. *)
Definition array_push (a : loc) (x : loc) : H Z :=
  let! elems := load_array a in
  let! _ := store a (OArray (elems ++ [x])) in
  hret (blen (elems ++ [x])).

Definition addInput (this : loc) (hash : bytes) (index : Z)
    (sequence : option Z) (scriptSig : option bytes) : H Z :=
  let! _ := lift (typeforce (types.Hash256bit hash && types.UInt32 index &&
                             match sequence with
                             | Some s => types.UInt32 s
                             | None => true
                             end)) in
  let sequence :=
    match sequence with Some s => s | None => DEFAULT_SEQUENCE end in
  let! a := tx_ins this in
  let! input :=
    alloc (OInput
             (TxIn.mk hash index
                (match scriptSig with Some s => s | None => EMPTY_SCRIPT end)
                sequence EMPTY_WITNESS)) in
  let! n := array_push a input in
  hret (n - 1).

Definition addOutput (this : loc) (scriptPubKey : bytes) (value : Z) : H Z :=
  let! _ := lift (typeforce (types.Satoshi value)) in
  let! b := tx_outs this in
  let! output := alloc (OOutput (TxOut.mk scriptPubKey (Some value) None)) in
  let! n := array_push b output in
  hret (n - 1).

Definition setInputScript (this : loc) (index : Z) (scriptSig : bytes)
  : H unit :=
  let! a := tx_ins this in
  let! elems := load_array a in
  match at_index elems index with
  | Some input => set_input_script input scriptSig
  | None => hthrow (TypeError "Cannot set property 'script' of undefined")
  end.

Definition setWitness (this : loc) (index : Z) (witness : list bytes)
  : H unit :=
  let! a := tx_ins this in
  let! elems := load_array a in
  match at_index elems index with
  | Some input => set_input_witness input witness
  | None => hthrow (TypeError "Cannot set property 'witness' of undefined")
  end.

End HeapTx.

(** A call of one of the four methods that change a transaction. *)
Inductive call : Type :=
| AddInput (hash : bytes) (index : Z) (sequence : option Z)
    (scriptSig : option bytes)
| AddOutput (scriptPubKey : bytes) (value : Z)
| SetInputScript (index : Z) (scriptSig : bytes)
| SetWitness (index : Z) (witness : list bytes).

(** The call on the object at [this]. *)
Definition run_call (c : call) (this : Heap.loc) : Heap.H unit :=
  match c with
  | AddInput hash index sequence scriptSig =>
      Heap.hbind (HeapTx.addInput this hash index sequence scriptSig)
        (fun _ => Heap.hret tt)
  | AddOutput scriptPubKey value =>
      Heap.hbind (HeapTx.addOutput this scriptPubKey value)
        (fun _ => Heap.hret tt)
  | SetInputScript index scriptSig =>
      HeapTx.setInputScript this index scriptSig
  | SetWitness index witness => HeapTx.setWitness this index witness
  end.

(** The call on a transaction as a value. *)
Definition apply_call (c : call) (T : Transaction) : result Transaction :=
  match c with
  | AddInput hash index sequence scriptSig =>
      rbind (addInput T hash index sequence scriptSig) (fun r => Ok (snd r))
  | AddOutput scriptPubKey value =>
      rbind (addOutput T scriptPubKey value) (fun r => Ok (snd r))
  | SetInputScript index scriptSig => setInputScript T index scriptSig
  | SetWitness index witness => setWitness T index witness
  end.

(** The locations that the transaction at [t] is made of. *)
Definition footprint (t a b : Heap.loc) (ils ols : list Heap.loc)
  : list Heap.loc :=
  t :: a :: b :: ils ++ ols.

(** * Properties *)

(** ** SHA-256 test vectors *)

Example sha256_empty :
  toString_hex (SHA256.sha256 []) =
  "e3b0c44298fc1c149afbf4c8996fb92427ae41e4649b934ca495991b7852b855"%string.
Proof. vm_compute. reflexivity. Qed.

Example sha256_abc :
  toString_hex (SHA256.sha256 [x61; x62; x63]) =
  "ba7816bf8f01cfea414140de5dae2223b00361a396177a9cb410ff61f20015ad"%string.
Proof. vm_compute. reflexivity. Qed.

Example hash256_empty :
  toString_hex (hash256 []) =
  "5df6e0e2761359d30a8275058e299fcc0381534545f55cf43e41983f5d4c9456"%string.
Proof. vm_compute. reflexivity. Qed.
(** ** Bytes and little-endian integers *)

Lemma Z_of_byte_range b : 0 <= Z_of_byte b < 256.
Proof.
  unfold Z_of_byte. pose proof (Byte.to_N_bounded b) as H. lia.
Qed.

Lemma Z_of_byte_of_Z z : Z_of_byte (byte_of_Z z) = z mod 256.
Proof.
  unfold Z_of_byte, byte_of_Z.
  assert (Hr : 0 <= z mod 256 < 256) by (apply Z.mod_pos_bound; lia).
  destruct (Byte.of_N (Z.to_N (z mod 256))) as [b|] eqn:E.
  - apply Byte.to_of_N in E. rewrite E. lia.
  - apply Byte.of_N_None_iff in E. lia.
Qed.

Lemma byte_of_Z_of_byte b : byte_of_Z (Z_of_byte b) = b.
Proof.
  unfold byte_of_Z. pose proof (Z_of_byte_range b) as Hr.
  rewrite Z.mod_small by lia. unfold Z_of_byte. rewrite N2Z.id.
  by rewrite Byte.of_to_N.
Qed.

Lemma length_le_bytes n v : length (le_bytes n v) = n.
Proof. revert v. induction n as [|n IH]; intros v; simpl; [done|]. by rewrite IH. Qed.

Lemma blen_le_bytes n v : blen (le_bytes n v) = Z.of_nat n.
Proof. unfold blen. by rewrite length_le_bytes. Qed.

Lemma le_value_le_bytes n v :
  le_value (le_bytes n v) = v mod 2 ^ (8 * Z.of_nat n).
Proof.
  revert v. induction n as [|n IH]; intros v.
  - simpl. by rewrite Z.mod_1_r.
  - cbn [le_bytes le_value]. rewrite IH, Z_of_byte_of_Z, Z.shiftr_div_pow2 by lia.
    replace (8 * Z.of_nat (S n)) with (8 + 8 * Z.of_nat n) by lia.
    rewrite Z.pow_add_r by lia.
    change (2 ^ 8) with 256.
    rewrite (Z.rem_mul_r v 256 (2 ^ (8 * Z.of_nat n))) by lia.
    reflexivity.
Qed.

Lemma le_value_le_bytes_small n v :
  0 <= v < 2 ^ (8 * Z.of_nat n) -> le_value (le_bytes n v) = v.
Proof. intros H. rewrite le_value_le_bytes. by apply Z.mod_small. Qed.

Lemma blen_app {A} (l1 l2 : list A) : blen (l1 ++ l2) = blen l1 + blen l2.
Proof. unfold blen. rewrite length_app. lia. Qed.

Lemma blen_nonneg {A} (l : list A) : 0 <= blen l.
Proof. unfold blen. lia. Qed.

Lemma blen_cons {A} (x : A) (l : list A) : blen (x :: l) = 1 + blen l.
Proof. unfold blen. simpl. lia. Qed.

Lemma le_bytes_mod n v :
  le_bytes n (v mod 2 ^ (8 * Z.of_nat n)) = le_bytes n v.
Proof.
  revert v. induction n as [|n IH]; intros v; [done|].
  cbn [le_bytes].
  replace (8 * Z.of_nat (S n)) with (8 + 8 * Z.of_nat n) by lia.
  rewrite Z.pow_add_r by lia. change (2 ^ 8) with 256.
  set (m := 2 ^ (8 * Z.of_nat n)).
  assert (Hm : 0 < m) by (apply Z.pow_pos_nonneg; lia).
  rewrite (Z.rem_mul_r v 256 m) by lia.
  set (x := (v / 256) mod m).
  assert (H1 : (v mod 256 + 256 * x) mod 256 = v mod 256).
  { rewrite (Z.mul_comm 256), Z.mod_add by lia. apply Z.mod_mod. lia. }
  assert (H2 : (v mod 256 + 256 * x) / 256 = x).
  { rewrite (Z.mul_comm 256), Z.div_add by lia.
    rewrite (Z.div_small (v mod 256)) by (apply Z.mod_pos_bound; lia). lia. }
  f_equal.
  - unfold byte_of_Z. by rewrite H1.
  - rewrite !Z.shiftr_div_pow2 by lia. change (2 ^ 8) with 256.
    rewrite H2. subst x m. apply IH.
Qed.

Lemma le_bytes_app n k v :
  le_bytes (n + k) v = le_bytes n v ++ le_bytes k (Z.shiftr v (8 * Z.of_nat n)).
Proof.
  revert v. induction n as [|n IH]; intros v.
  - simpl. by rewrite Z.shiftr_0_r.
  - cbn [Nat.add le_bytes app]. f_equal. rewrite IH. f_equal. f_equal.
    rewrite Z.shiftr_shiftr by lia. f_equal. lia.
Qed.

(** ** Writing into a buffer *)

Lemma take_blen_app {A} (pre rest : list A) :
  take (Z.to_nat (blen pre)) (pre ++ rest) = pre.
Proof. unfold blen. rewrite Nat2Z.id. by rewrite take_app_length. Qed.

Lemma drop_blen_app {A} (pre rest : list A) :
  drop (Z.to_nat (blen pre)) (pre ++ rest) = rest.
Proof. unfold blen. rewrite Nat2Z.id. by rewrite drop_app_length. Qed.

Lemma splice_at pre old post d :
  length old = length d ->
  Buffer.splice (pre ++ old ++ post) (blen pre) d = pre ++ d ++ post.
Proof.
  intros Hl. unfold Buffer.splice. rewrite take_blen_app.
  f_equal. f_equal. unfold blen. rewrite Nat2Z.id, <- Hl.
  by rewrite drop_app_add, drop_app_length.
Qed.

Lemma fits_at pre old post n :
  blen old = n -> Buffer.fits (pre ++ old ++ post) (blen pre) n = true.
Proof.
  intros <-. unfold Buffer.fits. rewrite !blen_app.
  pose proof (blen_nonneg pre). pose proof (blen_nonneg post).
  apply andb_true_iff. split; lia.
Qed.

Lemma writeInt_at n lo hi pre old post v :
  length old = n -> lo <= v <= hi ->
  Buffer.writeInt n lo hi (pre ++ old ++ post) v (blen pre) =
  Ok (pre ++ le_bytes n v ++ post, blen pre + Z.of_nat n).
Proof.
  intros Hl Hv. unfold Buffer.writeInt.
  replace ((lo <=? v) && (v <=? hi)) with true
    by (symmetry; apply andb_true_iff; lia).
  rewrite fits_at by (unfold blen; lia). simpl.
  rewrite splice_at by (by rewrite length_le_bytes). done.
Qed.

Lemma copy_at pre old post src :
  length old = length src ->
  Buffer.copy src (pre ++ old ++ post) (blen pre) =
  (pre ++ src ++ post, blen src).
Proof.
  intros Hl. unfold Buffer.copy.
  assert (Hmin : Z.min (blen src) (blen (pre ++ old ++ post) - blen pre) = blen src).
  { rewrite !blen_app. pose proof (blen_nonneg post). unfold blen in *. lia. }
  rewrite Hmin.
  pose proof (blen_nonneg pre) as Hp.
  replace (blen pre <? 0) with false by (symmetry; apply Z.ltb_ge; lia).
  rewrite orb_false_r.
  destruct (blen src <=? 0) eqn:E.
  - apply Z.leb_le in E. unfold blen in E.
    destruct src; [|simpl in E; lia]. destruct old; [|done]. done.
  - rewrite splice_at.
    + unfold blen. rewrite Nat2Z.id, firstn_all. done.
    + unfold blen. rewrite Nat2Z.id, firstn_all. done.
Qed.

(** ** The write closures write what [serialize] concatenates *)

Lemma writes_ret : writes (ret tt) [].
Proof.
  intros pre old post Hl. destruct old; [|done].
  unfold ret. simpl. do 3 f_equal. unfold blen. simpl. lia.
Qed.

Lemma writes_bind m1 m2 d1 d2 :
  writes m1 d1 -> writes m2 d2 -> writes (do _ <- m1; m2) (d1 ++ d2).
Proof.
  intros H1 H2 pre old post Hl. unfold bind.
  rewrite length_app in Hl.
  rewrite <- (take_drop (length d1) old), <- app_assoc.
  rewrite H1 by (rewrite length_take; lia).
  rewrite <- blen_app, (app_assoc pre d1).
  rewrite H2 by (rewrite length_drop; lia).
  rewrite !blen_app, <- !app_assoc. do 3 f_equal. lia.
Qed.

Lemma writes_forEach {A} (f : A -> M Writer.st unit) (g : A -> bytes) l :
  Forall (fun x => writes (f x) (g x)) l ->
  writes (forEachM f l) (concat (map g l)).
Proof.
  induction 1 as [|x l Hx Hl IH]; simpl.
  - apply writes_ret.
  - by apply writes_bind.
Qed.

Lemma writes_writeSlice slice : writes (Writer.writeSlice slice) slice.
Proof.
  intros pre old post Hl. unfold Writer.writeSlice.
  by rewrite copy_at.
Qed.

Lemma writes_lift_writeInt n lo hi v :
  lo <= v <= hi ->
  writes (fun '(buffer, offset) =>
            Writer.lift (Buffer.writeInt n lo hi buffer v offset)
              (buffer, offset))
         (le_bytes n v).
Proof.
  intros Hv pre old post Hl. rewrite length_le_bytes in Hl.
  unfold Writer.lift. rewrite writeInt_at by done. simpl.
  by rewrite blen_le_bytes.
Qed.

Lemma writes_writeUInt8 i :
  0 <= i <= 0xff -> writes (Writer.writeUInt8 i) [byte_of_Z i].
Proof. intros H. by apply (writes_lift_writeInt 1). Qed.

Lemma writes_writeUInt32 i :
  is_uint32 i -> writes (Writer.writeUInt32 i) (le_bytes 4 i).
Proof. intros H. by apply (writes_lift_writeInt 4). Qed.

Lemma writes_writeInt32 i :
  is_int32 i -> writes (Writer.writeInt32 i) (le_bytes 4 i).
Proof. intros H. by apply (writes_lift_writeInt 4). Qed.

Lemma writes_writeUInt64 i :
  is_uint64 i -> writes (Writer.writeUInt64 (Some i)) (le_bytes 8 i).
Proof. intros H. by apply (writes_lift_writeInt 8). Qed.

Lemma hi32_small n :
  0 <= n <= varuint.MAX_SAFE_INTEGER ->
  varuint.hi32 n = n / 0x100000000 /\ 0 <= n / 0x100000000 <= 0xffffffff.
Proof.
  unfold varuint.hi32, varuint.MAX_SAFE_INTEGER. intros H.
  assert (0 <= n / 0x100000000 < 0x200000).
  { split; [apply Z.div_pos; lia|apply Z.div_lt_upper_bound; lia]. }
  rewrite Z.mod_small by lia.
  destruct (0x80000000 <=? n / 0x100000000) eqn:E; [apply Z.leb_le in E|]; lia.
Qed.

Lemma le_bytes_8_split n :
  le_bytes 4 (varuint.lo32 n) ++ le_bytes 4 (n / 0x100000000) = le_bytes 8 n.
Proof.
  change 8%nat with (4 + 4)%nat. rewrite le_bytes_app.
  unfold varuint.lo32. change 0x100000000 with (2 ^ (8 * Z.of_nat 4)).
  rewrite le_bytes_mod. f_equal. f_equal.
  by rewrite Z.shiftr_div_pow2 by lia.
Qed.

Lemma writeUInt8_head pre o0 old post x :
  0 <= x <= 0xff ->
  Buffer.writeUInt8 (pre ++ (o0 :: old) ++ post) x (blen pre) =
  Ok ((pre ++ [byte_of_Z x]) ++ old ++ post, blen (pre ++ [byte_of_Z x])).
Proof.
  intros Hx. unfold Buffer.writeUInt8.
  change (pre ++ (o0 :: old) ++ post) with (pre ++ [o0] ++ (old ++ post)).
  rewrite writeInt_at by (done || lia).
  rewrite <- app_assoc, blen_app. done.
Qed.

Lemma encode_at number pre old post :
  0 <= number <= varuint.MAX_SAFE_INTEGER ->
  length old = length (varint_bytes number) ->
  varuint.encode number (pre ++ old ++ post) (blen pre) =
  Ok (pre ++ varint_bytes number ++ post, blen (varint_bytes number)).
Proof.
  intros Hn Hl. unfold varuint.encode, varuint.checkUInt53.
  replace ((number <? 0) || (varuint.MAX_SAFE_INTEGER <? number)) with false
    by (symmetry; apply orb_false_iff; lia).
  cbn [rbind]. unfold varint_bytes in *.
  destruct (number <? 0xfd) eqn:E1; [apply Z.ltb_lt in E1|apply Z.ltb_ge in E1].
  { unfold Buffer.writeUInt8. rewrite writeInt_at by (done || lia). done. }
  destruct (number <=? 0xffff) eqn:E2; [apply Z.leb_le in E2|apply Z.leb_gt in E2].
  { destruct old as [|o0 old]; [done|]. simpl in Hl.
    replace (blen pre + 1) with (blen (pre ++ [byte_of_Z 0xfd]))
      by (rewrite blen_app; done).
    rewrite writeUInt8_head by lia. cbn [rbind].
    unfold Buffer.writeUInt16LE. rewrite writeInt_at by lia.
    cbn [rbind]. by rewrite <- app_assoc. }
  destruct (number <=? 0xffffffff) eqn:E3; [apply Z.leb_le in E3|apply Z.leb_gt in E3].
  { destruct old as [|o0 old]; [done|]. simpl in Hl.
    replace (blen pre + 1) with (blen (pre ++ [byte_of_Z 0xfe]))
      by (rewrite blen_app; done).
    rewrite writeUInt8_head by lia. cbn [rbind].
    unfold Buffer.writeUInt32LE. rewrite writeInt_at by lia.
    cbn [rbind]. by rewrite <- app_assoc. }
  destruct old as [|o0 old]; [done|]. simpl in Hl.
  replace (blen pre + 5)
    with (blen ((pre ++ [byte_of_Z 0xff]) ++ le_bytes 4 (varuint.lo32 number))).
  2:{ rewrite !blen_app, blen_le_bytes. unfold blen. simpl. lia. }
  replace (blen pre + 1) with (blen (pre ++ [byte_of_Z 0xff]))
    by (rewrite blen_app; done).
  rewrite writeUInt8_head by lia. cbn [rbind].
  destruct (hi32_small number Hn) as [Hhi Hhir]. rewrite Hhi.
  unfold Buffer.writeUInt32LE.
  rewrite <- (take_drop 4 old), <- (app_assoc (take 4 old)).
  rewrite writeInt_at.
  2:{ rewrite length_take. lia. }
  2:{ unfold varuint.lo32. pose proof (Z.mod_pos_bound number 0x100000000). lia. }
  cbn [rbind].
  rewrite (app_assoc (pre ++ [byte_of_Z 255])).
  rewrite writeInt_at.
  2:{ rewrite length_drop. lia. }
  2:{ lia. }
  cbn [rbind]. rewrite <- le_bytes_8_split.
  rewrite <- !app_assoc. done.
Qed.

Lemma writes_writeVarInt i :
  0 <= i <= varuint.MAX_SAFE_INTEGER ->
  writes (Writer.writeVarInt i) (varint_bytes i).
Proof.
  intros Hi pre old post Hl. unfold Writer.writeVarInt.
  by rewrite encode_at.
Qed.

Lemma writes_writeVarSlice slice :
  safe_length slice ->
  writes (Writer.writeVarSlice slice) (varslice_bytes slice).
Proof.
  intros H. apply writes_bind; [|apply writes_writeSlice].
  apply writes_writeVarInt. split; [apply blen_nonneg|done].
Qed.

Lemma writes_writeVector vector :
  safe_length vector -> Forall safe_length vector ->
  writes (Writer.writeVector vector) (vector_bytes vector).
Proof.
  intros H Hall. apply writes_bind.
  - apply writes_writeVarInt. split; [apply blen_nonneg|done].
  - apply writes_forEach. eapply Forall_impl; [exact Hall|].
    intros x Hx. by apply writes_writeVarSlice.
Qed.

Lemma writes_input (txIn : TxIn.t) :
  wf_in txIn ->
  writes (do _ <- Writer.writeSlice (TxIn.hash txIn);
          do _ <- Writer.writeUInt32 (TxIn.index txIn);
          do _ <- Writer.writeVarSlice (TxIn.script txIn);
          Writer.writeUInt32 (TxIn.sequence txIn))
         (input_bytes txIn).
Proof.
  intros [Hh Hi Hs Hq _ _]. unfold input_bytes.
  apply writes_bind; [apply writes_writeSlice|].
  apply writes_bind; [by apply writes_writeUInt32|].
  apply writes_bind; [by apply writes_writeVarSlice|].
  by apply writes_writeUInt32.
Qed.

Lemma writes_output (txOut : TxOut.t) :
  wf_out txOut ->
  writes (do _ <- match TxOut.valueBuffer txOut with
                  | None => Writer.writeUInt64 (TxOut.value txOut)
                  | Some valueBuffer => Writer.writeSlice valueBuffer
                  end;
          Writer.writeVarSlice (TxOut.script txOut))
         (output_bytes txOut).
Proof.
  intros [Hs Hv]. unfold output_bytes, value_bytes, wf_value in *.
  apply writes_bind; [|by apply writes_writeVarSlice].
  destruct (TxOut.valueBuffer txOut) as [vb|].
  - apply writes_writeSlice.
  - destruct (TxOut.value txOut) as [v|]; [|done].
    by apply writes_writeUInt64.
Qed.

(** The writes of [__toBuffer] put down exactly [serialize]. *)
Lemma writes_toBuffer (T : Transaction) (w : bool) :
  wf_tx T -> writes (toBuffer_writes T w) (serialize T w).
Proof.
  intros [Hv Hl Hi Ho Hil Hol]. unfold toBuffer_writes, serialize.
  apply writes_bind; [by apply writes_writeInt32|].
  apply writes_bind.
  { destruct (w && hasWitnesses T); [|apply writes_ret].
    apply (writes_bind _ _ [x00] [x01]); by apply writes_writeUInt8. }
  apply writes_bind.
  { apply writes_writeVarInt. split; [apply blen_nonneg|done]. }
  apply writes_bind.
  { apply writes_forEach. eapply Forall_impl; [exact Hi|].
    intros x Hx. by apply writes_input. }
  apply writes_bind.
  { apply writes_writeVarInt. split; [apply blen_nonneg|done]. }
  apply writes_bind.
  { apply writes_forEach. eapply Forall_impl; [exact Ho|].
    intros x Hx. by apply writes_output. }
  apply writes_bind; [|by apply writes_writeUInt32].
  destruct (w && hasWitnesses T); [|apply writes_ret].
  apply (writes_forEach _ (fun i => vector_bytes (TxIn.witness i))).
  eapply Forall_impl; [exact Hi|].
  intros x [_ _ _ _ Hw Hws]. by apply writes_writeVector.
Qed.

(** ** The size calculator predicts the length of [serialize] *)

Lemma blen_varint_bytes n : blen (varint_bytes n) = varuint.encodingLength n.
Proof.
  unfold varint_bytes, varuint.encodingLength.
  repeat case_match; rewrite ?blen_cons, ?blen_le_bytes; done.
Qed.

Lemma blen_varslice_bytes s : blen (varslice_bytes s) = varSliceSize s.
Proof.
  unfold varslice_bytes, varSliceSize. by rewrite blen_app, blen_varint_bytes.
Qed.

Lemma fold_left_blen {A} (step : Z -> A -> Z) (g : A -> bytes) l z :
  Forall (fun x => forall s, step s x = s + blen (g x)) l ->
  fold_left step l z = z + blen (concat (map g l)).
Proof.
  intros H. revert z. induction H as [|x l Hx Hl IH]; intros z; simpl.
  - unfold blen. simpl. lia.
  - rewrite IH, blen_app, Hx. lia.
Qed.

Lemma blen_vector_bytes v : blen (vector_bytes v) = vectorSize v.
Proof.
  unfold vector_bytes, vectorSize.
  rewrite blen_app, blen_varint_bytes. f_equal.
  rewrite (fold_left_blen _ varslice_bytes); [lia|].
  apply Forall_forall. intros x _ s. by rewrite blen_varslice_bytes.
Qed.

Lemma blen_input_bytes i :
  wf_in i -> blen (input_bytes i) = 40 + varSliceSize (TxIn.script i).
Proof.
  intros [Hh _ _ _ _ _]. unfold input_bytes.
  rewrite !blen_app, !blen_le_bytes, blen_varslice_bytes.
  unfold blen at 1. rewrite Hh. lia.
Qed.

Lemma blen_output_bytes o :
  wf_out o -> blen (output_bytes o) = 8 + varSliceSize (TxOut.script o).
Proof.
  intros [_ Hv]. unfold output_bytes, value_bytes, wf_value in *.
  rewrite blen_app, blen_varslice_bytes. f_equal.
  destruct (TxOut.valueBuffer o) as [vb|].
  - unfold blen. by rewrite Hv.
  - destruct (TxOut.value o); [|done]. by rewrite blen_le_bytes.
Qed.

Lemma blen_serialize (T : Transaction) (w : bool) :
  wf_tx T -> blen (serialize T w) = __byteLength T w.
Proof.
  intros [_ _ Hi Ho _ _]. unfold serialize, __byteLength.
  rewrite !blen_app, !blen_le_bytes, !blen_varint_bytes.
  rewrite (fold_left_blen _ input_bytes (ins T)).
  2:{ eapply Forall_impl; [exact Hi|]. intros x Hx s.
      rewrite blen_input_bytes by done. lia. }
  rewrite (fold_left_blen _ output_bytes (outs T)).
  2:{ eapply Forall_impl; [exact Ho|]. intros x Hx s.
      rewrite blen_output_bytes by done. lia. }
  destruct (w && hasWitnesses T).
  - rewrite (fold_left_blen _ (fun i => vector_bytes (TxIn.witness i)) (ins T)).
    2:{ apply Forall_forall. intros x _ s. by rewrite blen_vector_bytes. }
    change (blen [x00; x01]) with 2. lia.
  - change (blen (@nil byte)) with 0. lia.
Qed.

(** [encode] returns the canonical byte sequence. *)
Lemma encode_serialize (T : Transaction) (w : bool) :
  wf_tx T ->
  toBuffer_writes T w (Buffer.allocUnsafe (__byteLength T w), 0) =
    Ok (tt, (serialize T w, __byteLength T w)) /\
  encode T w = Ok (serialize T w).
Proof.
  intros Hwf.
  pose proof (writes_toBuffer T w Hwf [] (Buffer.allocUnsafe (__byteLength T w)) [])
    as H.
  rewrite !app_nil_r in H. simpl in H.
  rewrite blen_serialize in H by done.
  change (blen []) with 0 in H. rewrite Z.add_0_l in H.
  assert (Hrun : toBuffer_writes T w (Buffer.allocUnsafe (__byteLength T w), 0) =
                 Ok (tt, (serialize T w, __byteLength T w))).
  { apply H. unfold Buffer.allocUnsafe. rewrite repeat_length.
    rewrite <- blen_serialize by done. unfold blen. by rewrite Nat2Z.id. }
  split; [done|].
  unfold encode, __toBuffer. by rewrite Hrun.
Qed.

(** ** Reading from a buffer *)

Lemma sits_app_l b o d1 d2 : sits b o (d1 ++ d2) -> sits b o d1.
Proof.
  intros (pre & post & -> & ->). exists pre, (d2 ++ post).
  by rewrite <- app_assoc.
Qed.

Lemma sits_app_r b o d1 d2 : sits b o (d1 ++ d2) -> sits b (o + blen d1) d2.
Proof.
  intros (pre & post & -> & ->). exists (pre ++ d1), post.
  by rewrite <- !app_assoc, blen_app.
Qed.

Lemma sits_nonneg b o d : sits b o d -> 0 <= o /\ o + blen d <= blen b.
Proof.
  intros (pre & post & -> & ->). rewrite !blen_app.
  pose proof (blen_nonneg pre). pose proof (blen_nonneg post). lia.
Qed.

Lemma sits_take_drop b o d :
  sits b o d -> take (length d) (drop (Z.to_nat o) b) = d.
Proof.
  intros (pre & post & -> & ->). rewrite drop_blen_app.
  by rewrite take_app_length.
Qed.

Lemma sits_whole d : sits d 0 d.
Proof. exists [], []. by rewrite app_nil_r. Qed.

Lemma readUInt_sits n b o v :
  sits b o (le_bytes n v) -> 0 <= v < 2 ^ (8 * Z.of_nat n) ->
  Buffer.readUInt n b o = Ok v.
Proof.
  intros Hs Hv. unfold Buffer.readUInt.
  pose proof (sits_nonneg _ _ _ Hs) as [H0 H1]. rewrite blen_le_bytes in H1.
  unfold Buffer.fits.
  replace ((0 <=? o) && (o + Z.of_nat n <=? blen b)) with true
    by (symmetry; apply andb_true_iff; lia).
  simpl. apply sits_take_drop in Hs. rewrite length_le_bytes in Hs.
  by rewrite Hs, le_value_le_bytes_small.
Qed.

Lemma slice_sits b o d :
  sits b o d -> Buffer.slice b o (o + blen d) = d.
Proof.
  intros Hs. pose proof (sits_nonneg _ _ _ Hs) as [H0 H1].
  pose proof (blen_nonneg d) as Hd.
  unfold Buffer.slice, Buffer.clamp.
  replace (o <? 0) with false by (symmetry; apply Z.ltb_ge; lia).
  replace (o + blen d <? 0) with false by (symmetry; apply Z.ltb_ge; lia).
  rewrite !Z.min_l by lia.
  replace (o + blen d - o) with (blen d) by lia.
  unfold blen at 1. rewrite Nat2Z.id. by apply sits_take_drop.
Qed.

Lemma parses_ret {A} b (a : A) : parses b (ret a) [] a.
Proof.
  intros o _. unfold ret. change (blen []) with 0. by rewrite Z.add_0_r.
Qed.

Lemma parses_bind {A B} b (m : M Z A) (f : A -> M Z B) d1 d2 a r :
  parses b m d1 a -> parses b (f a) d2 r ->
  parses b (do x <- m; f x) (d1 ++ d2) r.
Proof.
  intros H1 H2 o Hs. unfold bind.
  rewrite (H1 o) by (by eapply sits_app_l).
  rewrite (H2 (o + blen d1)) by (by eapply sits_app_r).
  rewrite blen_app. do 2 f_equal. lia.
Qed.

Lemma parses_bind_ret {A B} b (m : M Z A) (f : A -> B) d a :
  parses b m d a -> parses b (do x <- m; ret (f x)) d (f a).
Proof.
  intros H. rewrite <- (app_nil_r d).
  eapply parses_bind; [exact H|apply parses_ret].
Qed.

Lemma parses_timesM {A} b (body : M Z A) (g : A -> bytes) (xs : list A) :
  Forall (fun x => parses b body (g x) x) xs ->
  parses b (timesM (length xs) body) (concat (map g xs)) xs.
Proof.
  induction 1 as [|x xs Hx Hxs IH]; simpl.
  - apply parses_ret.
  - eapply parses_bind; [exact Hx|]. by apply parses_bind_ret.
Qed.

Lemma parses_mapM {A B} b (f : A -> M Z B) (g : B -> bytes) l l' :
  Forall2 (fun x y => parses b (f x) (g y) y) l l' ->
  parses b (mapM f l) (concat (map g l')) l'.
Proof.
  induction 1 as [|x y l l' Hxy Hl IH]; simpl.
  - apply parses_ret.
  - eapply parses_bind; [exact Hxy|]. by apply parses_bind_ret.
Qed.

Lemma parses_readSlice b d n :
  n = blen d -> parses b (Reader.readSlice b n) d d.
Proof.
  intros -> o Hs. unfold Reader.readSlice.
  replace (o + blen d - blen d) with o by lia.
  by rewrite slice_sits.
Qed.

Lemma parses_readUInt32 b v :
  is_uint32 v -> parses b (Reader.readUInt32 b) (le_bytes 4 v) v.
Proof.
  intros Hv o Hs. unfold Reader.readUInt32, Buffer.readUInt32LE.
  rewrite (readUInt_sits 4 b o v) by (done || (unfold is_uint32 in Hv; simpl; lia)).
  done.
Qed.

Lemma parses_readUInt64 b v :
  is_uint64 v -> parses b (Reader.readUInt64 b) (le_bytes 8 v) v.
Proof.
  intros Hv o Hs. unfold Reader.readUInt64, bufferutils.readUInt64LE.
  rewrite (readUInt_sits 8 b o v) by (done || (unfold is_uint64 in Hv; simpl; lia)).
  done.
Qed.

Lemma parses_readInt32 b v :
  is_int32 v -> parses b (Reader.readInt32 b) (le_bytes 4 v) v.
Proof.
  intros Hv o Hs. unfold Reader.readInt32, Buffer.readInt32LE.
  unfold is_int32 in Hv.
  rewrite <- (le_bytes_mod 4 v) in Hs.
  change (2 ^ (8 * Z.of_nat 4)) with 0x100000000 in Hs.
  pose proof (Z.mod_pos_bound v 0x100000000 ltac:(lia)) as Hm.
  rewrite (readUInt_sits 4 b o (v mod 0x100000000)) by (done || (simpl; lia)).
  cbn [rbind]. rewrite blen_le_bytes. do 2 f_equal.
  destruct (Z.ltb_spec v 0) as [Hneg|Hpos].
  - replace (v mod 0x100000000) with (v + 0x100000000).
    2:{ apply Z.mod_unique with (q := -1); lia. }
    replace (0x80000000 <=? v + 0x100000000) with true
      by (symmetry; apply Z.leb_le; lia).
    lia.
  - rewrite Z.mod_small by lia.
    replace (0x80000000 <=? v) with false by (symmetry; apply Z.leb_gt; lia).
    done.
Qed.

Lemma readUInt8_sits b o x rest :
  sits b o (byte_of_Z x :: rest) -> 0 <= x <= 0xff ->
  Buffer.readUInt8 b o = Ok x.
Proof.
  intros Hs Hx. apply (readUInt_sits 1); [|simpl; lia].
  by apply (sits_app_l b o [byte_of_Z x] rest).
Qed.

Lemma sits_tail b o x rest : sits b o (x :: rest) -> sits b (o + 1) rest.
Proof. intros Hs. by apply (sits_app_r b o [x] rest). Qed.

Lemma decode_sits b o n :
  0 <= n <= varuint.MAX_SAFE_INTEGER ->
  sits b o (varint_bytes n) ->
  varuint.decode b o = Ok (n, blen (varint_bytes n)).
Proof.
  intros Hn Hs. unfold varuint.decode. unfold varint_bytes in *.
  destruct (n <? 0xfd) eqn:E1; [apply Z.ltb_lt in E1|apply Z.ltb_ge in E1].
  { rewrite (readUInt8_sits b o n []) by (done || lia). cbn [rbind].
    by replace (n <? 0xfd) with true by (symmetry; apply Z.ltb_lt; lia). }
  destruct (n <=? 0xffff) eqn:E2; [apply Z.leb_le in E2|apply Z.leb_gt in E2].
  { rewrite (readUInt8_sits b o 0xfd (le_bytes 2 n)) by done. cbn [rbind].
    change (0xfd <? 0xfd) with false. change (0xfd =? 0xfd) with true. cbv iota.
    apply sits_tail in Hs. unfold Buffer.readUInt16LE.
    rewrite (readUInt_sits 2 b (o + 1) n) by (done || (simpl; lia)). done. }
  destruct (n <=? 0xffffffff) eqn:E3; [apply Z.leb_le in E3|apply Z.leb_gt in E3].
  { rewrite (readUInt8_sits b o 0xfe (le_bytes 4 n)) by done. cbn [rbind].
    change (0xfe <? 0xfd) with false. change (0xfe =? 0xfd) with false.
    change (0xfe =? 0xfe) with true. cbv iota.
    apply sits_tail in Hs. unfold Buffer.readUInt32LE.
    rewrite (readUInt_sits 4 b (o + 1) n) by (done || (simpl; lia)). done. }
  rewrite (readUInt8_sits b o 0xff (le_bytes 8 n)) by done. cbn [rbind].
  change (0xff <? 0xfd) with false. change (0xff =? 0xfd) with false.
  change (0xff =? 0xfe) with false. cbv iota.
  apply sits_tail in Hs. rewrite <- le_bytes_8_split in Hs.
  unfold Buffer.readUInt32LE, varuint.MAX_SAFE_INTEGER in *.
  assert (Hlo : 0 <= varuint.lo32 n < 0x100000000)
    by (apply Z.mod_pos_bound; lia).
  assert (Hhi : 0 <= n / 0x100000000 < 0x200000).
  { split; [apply Z.div_pos; lia|apply Z.div_lt_upper_bound; lia]. }
  rewrite (readUInt_sits 4 b (o + 1) (varuint.lo32 n)).
  2:{ by eapply sits_app_l. }
  2:{ simpl; lia. }
  cbn [rbind].
  apply sits_app_r in Hs. rewrite blen_le_bytes in Hs.
  replace (o + 1 + Z.of_nat 4) with (o + 5) in Hs by lia.
  rewrite (readUInt_sits 4 b (o + 5) (n / 0x100000000)) by (done || (simpl; lia)).
  cbn [rbind].
  assert (Hn' : n / 0x100000000 * 0x0100000000 + varuint.lo32 n = n).
  { unfold varuint.lo32. pose proof (Z.div_mod n 0x100000000). lia. }
  rewrite Hn'. unfold varuint.checkUInt53, varuint.MAX_SAFE_INTEGER.
  replace ((n <? 0) || (9007199254740991 <? n)) with false
    by (symmetry; apply orb_false_iff; lia).
  done.
Qed.

Lemma parses_readVarInt b n :
  0 <= n <= varuint.MAX_SAFE_INTEGER ->
  parses b (Reader.readVarInt b) (varint_bytes n) n.
Proof.
  intros Hn o Hs. unfold Reader.readVarInt. by rewrite (decode_sits b o n).
Qed.

Lemma parses_readVarSlice b s :
  safe_length s -> parses b (Reader.readVarSlice b) (varslice_bytes s) s.
Proof.
  intros Hs. eapply parses_bind.
  - apply parses_readVarInt. split; [apply blen_nonneg|done].
  - by apply parses_readSlice.
Qed.

Lemma parses_readVector b v :
  safe_length v -> Forall safe_length v ->
  parses b (Reader.readVector b) (vector_bytes v) v.
Proof.
  intros Hv Hall. eapply parses_bind.
  - apply parses_readVarInt. split; [apply blen_nonneg|done].
  - unfold blen. rewrite Nat2Z.id. apply parses_timesM.
    eapply Forall_impl; [exact Hall|]. intros x Hx.
    by apply parses_readVarSlice.
Qed.

Lemma parses_to_end_bind {A B} b (m : M Z A) (f : A -> M Z B) d1 d2 a r :
  parses b m d1 a -> parses_to_end b (f a) d2 r ->
  parses_to_end b (do x <- m; f x) (d1 ++ d2) r.
Proof.
  intros H1 H2 o Hs He. unfold bind. rewrite blen_app in He.
  rewrite (H1 o) by (by eapply sits_app_l).
  apply H2; [by eapply sits_app_r|lia].
Qed.

Lemma peek_sits b o data d x :
  sits b o data -> 0 <= d -> data !! Z.to_nat d = Some x ->
  Reader.peekUInt8 b d o = Ok (Z_of_byte x, o).
Proof.
  intros Hs Hd Hx. unfold Reader.peekUInt8, Buffer.readUInt8.
  rewrite (readUInt_sits 1 b (o + d) (Z_of_byte x)); [done| |].
  - apply take_drop_middle in Hx. rewrite <- Hx in Hs.
    apply sits_app_r in Hs.
    assert (Hle : blen (take (Z.to_nat d) data) = d).
    { unfold blen. rewrite length_take.
      apply (f_equal length) in Hx. rewrite length_app, length_take in Hx.
      simpl in Hx. lia. }
    rewrite Hle in Hs. simpl. rewrite byte_of_Z_of_byte.
    by apply (sits_app_l _ _ [x] (drop (S (Z.to_nat d)) data)).
  - pose proof (Z_of_byte_range x). simpl. lia.
Qed.

Lemma parses_input b i :
  wf_in i ->
  parses b
    (do hash <- Reader.readSlice b 32;
     do index <- Reader.readUInt32 b;
     do script <- Reader.readVarSlice b;
     do sequence <- Reader.readUInt32 b;
     ret (TxIn.mk hash index script sequence EMPTY_WITNESS))
    (input_bytes i) (strip_witness i).
Proof.
  intros [Hh Hi Hs Hq _ _]. unfold input_bytes, strip_witness.
  eapply parses_bind.
  { apply parses_readSlice. unfold blen. by rewrite Hh. }
  eapply parses_bind; [by apply parses_readUInt32|].
  eapply parses_bind; [by apply parses_readVarSlice|].
  apply (parses_bind_ret b _
           (fun sequence => TxIn.mk (TxIn.hash i) (TxIn.index i)
                                    (TxIn.script i) sequence EMPTY_WITNESS)).
  by apply parses_readUInt32.
Qed.

Lemma parses_output b o :
  wf_out o -> plain_output o ->
  parses b
    (do value <- Reader.readUInt64 b;
     do script <- Reader.readVarSlice b;
     ret (TxOut.mk script (Some value) None))
    (output_bytes o) o.
Proof.
  intros [Hs Hv] Hp. unfold output_bytes, value_bytes, wf_value, plain_output in *.
  destruct o as [script value vb]. simpl in *. subst vb.
  destruct value as [v|]; [|done].
  eapply parses_bind; [by apply parses_readUInt64|].
  apply (parses_bind_ret b _ (fun script => TxOut.mk script (Some v) None)).
  by apply parses_readVarSlice.
Qed.

Lemma parses_witness b i :
  wf_in i ->
  parses b
    (do witness <- Reader.readVector b;
     ret (TxIn.mk (TxIn.hash (strip_witness i)) (TxIn.index (strip_witness i))
                  (TxIn.script (strip_witness i))
                  (TxIn.sequence (strip_witness i)) witness))
    (vector_bytes (TxIn.witness i)) i.
Proof.
  intros [_ _ _ _ Hw Hws]. destruct i as [h ix sc sq w]. simpl in *.
  apply (parses_bind_ret b _ (fun witness => TxIn.mk h ix sc sq witness)).
  by apply parses_readVector.
Qed.

Lemma hasWitnesses_false_strip l :
  existsb (fun x => negb (blen (TxIn.witness x) =? 0)) l = false ->
  map strip_witness l = l.
Proof.
  induction l as [|i l IH]; simpl; [done|].
  intros H. apply orb_false_iff in H as [H1 H2].
  rewrite IH by done. f_equal.
  destruct i as [h ix sc sq w]. unfold strip_witness. simpl in *.
  destruct w; [done|]. done.
Qed.

(** ** The decoder reads back what the encoder wrote *)

Lemma parses_body b T version :
  wf_tx T -> Forall plain_output (outs T) ->
  parses_to_end b
    (fromBuffer_body b false version (hasWitnesses T))
    (body_bytes T (hasWitnesses T))
    (mkTransaction version (locktime T) (ins T) (outs T)).
Proof.
  intros [Hv Hl Hi Ho Hil Hol] Hplain. unfold fromBuffer_body, body_bytes.
  eapply parses_to_end_bind.
  { apply parses_readVarInt. split; [apply blen_nonneg|done]. }
  eapply parses_to_end_bind.
  { unfold blen. rewrite Nat2Z.id.
    rewrite <- (length_map strip_witness).
    replace (concat (map input_bytes (ins T)))
      with (concat (map input_bytes (map strip_witness (ins T))))
      by (by rewrite map_map).
    apply parses_timesM. apply Forall_map.
    eapply Forall_impl; [exact Hi|]. intros x Hx.
    exact (parses_input b x Hx). }
  eapply parses_to_end_bind.
  { apply parses_readVarInt. split; [apply blen_nonneg|done]. }
  eapply parses_to_end_bind.
  { unfold blen. rewrite Nat2Z.id. apply parses_timesM.
    apply Forall_forall. intros x Hx.
    rewrite Forall_forall in Ho, Hplain. apply parses_output; auto. }
  eapply (parses_to_end_bind _ _ _ _ _ (ins T)).
  { destruct (hasWitnesses T) eqn:Ew.
    - rewrite <- (app_nil_r (concat _)).
      eapply parses_bind.
      + apply (parses_mapM b _ (fun i => vector_bytes (TxIn.witness i))).
        apply Forall2_fmap_l. apply Forall_Forall2_diag.
        eapply Forall_impl; [exact Hi|]. intros x Hx. by apply parses_witness.
      + unfold hasWitnesses in *. simpl. rewrite Ew. simpl. apply parses_ret.
    - unfold hasWitnesses in Ew. rewrite (hasWitnesses_false_strip _ Ew).
      apply parses_ret. }
  rewrite <- (app_nil_r (le_bytes 4 _)).
  eapply parses_to_end_bind; [by apply parses_readUInt32|].
  intros o Hs He. unfold bind, Reader.get_offset.
  change (blen []) with 0 in He. rewrite Z.add_0_r in He. subst o.
  rewrite Z.eqb_refl. done.
Qed.

Lemma serialize_split T w :
  serialize T w =
  le_bytes 4 (version T) ++
  (if w && hasWitnesses T then [x00; x01] else []) ++
  body_bytes T (w && hasWitnesses T).
Proof. done. Qed.

Lemma varint_bytes_head n :
  0 <= n ->
  exists h t, varint_bytes n = h :: t /\
              (n < 0xfd -> Z_of_byte h = n) /\
              (0xfd <= n -> 0xfd <= Z_of_byte h).
Proof.
  intros Hn. unfold varint_bytes.
  destruct (n <? 0xfd) eqn:E1; [apply Z.ltb_lt in E1|apply Z.ltb_ge in E1].
  { eexists _, _. split; [done|]. rewrite Z_of_byte_of_Z.
    rewrite Z.mod_small by lia. lia. }
  repeat case_match; eexists _, _; (split; [done|]); split; try lia;
    intros _; by vm_compute.
Qed.

(** Without the marker, the two bytes after the version are not
    [(0x00, 0x01)], unless there is no input and exactly one output. *)
Lemma body_bytes_head T :
  ~ (ins T = [] /\ length (outs T) = 1%nat) ->
  exists x0 x1,
    body_bytes T false !! 0%nat = Some x0 /\
    body_bytes T false !! 1%nat = Some x1 /\
    (Z_of_byte x0 =? ADVANCED_TRANSACTION_MARKER) &&
    (Z_of_byte x1 =? ADVANCED_TRANSACTION_FLAG) = false.
Proof.
  intros Hne. unfold body_bytes.
  destruct (ins T) as [|i l] eqn:Ei.
  - destruct (varint_bytes_head (blen (outs T)) (blen_nonneg _))
      as (h & t & Eh & Hsmall & Hbig).
    change (varint_bytes (blen [])) with [x00]. simpl. rewrite Eh. simpl.
    exists x00, h. repeat split.
    apply andb_false_iff. right. apply Z.eqb_neq.
    unfold ADVANCED_TRANSACTION_FLAG. intros E.
    destruct (Z.ltb_spec (blen (outs T)) 0xfd) as [Hs|Hb].
    + apply Hne. split; [done|]. rewrite Hsmall in E by done.
      unfold blen in E. lia.
    + specialize (Hbig Hb). lia.
  - destruct (varint_bytes_head (blen (i :: l)) (blen_nonneg _))
      as (h & t & Eh & Hsmall & Hbig).
    rewrite Eh.
    assert (Hlen : (1 < length ((h :: t) ++ concat (map input_bytes (i :: l)) ++
                      varint_bytes (blen (outs T)) ++
                      concat (map output_bytes (outs T)) ++
                      [] ++ le_bytes 4 (locktime T)))%nat).
    { rewrite !length_app, length_le_bytes. simpl. lia. }
    apply lookup_lt_is_Some_2 in Hlen as [x1 Hx1].
    exists h, x1. split; [done|]. split; [done|].
    apply andb_false_iff. left. apply Z.eqb_neq.
    unfold ADVANCED_TRANSACTION_MARKER. intros E.
    rewrite blen_cons in *. pose proof (blen_nonneg l).
    destruct (Z.ltb_spec (1 + blen l) 0xfd) as [Hs|Hb].
    + rewrite Hsmall in E by done. lia.
    + specialize (Hbig Hb). lia.
Qed.

Lemma decode_serialize T :
  wf_tx T -> Forall plain_output (outs T) ->
  ~ (ins T = [] /\ length (outs T) = 1%nat) ->
  decode (serialize T true) = Ok T.
Proof.
  intros Hwf Hplain Hne.
  unfold decode, fromBuffer, fromBuffer_reads.
  set (b := serialize T true).
  pose proof (sits_whole b) as Hs. unfold b at 2 in Hs.
  rewrite serialize_split in Hs. simpl andb in Hs.
  assert (Hblen : blen b = 4 + blen (if hasWitnesses T then [x00; x01] else []) +
                  blen (body_bytes T (hasWitnesses T))).
  { unfold b. rewrite serialize_split. simpl andb.
    rewrite !blen_app, blen_le_bytes. lia. }
  unfold bind at 1.
  rewrite (parses_readInt32 b (version T) (wf_version _ Hwf) 0)
    by (by eapply sits_app_l).
  apply sits_app_r in Hs. rewrite blen_le_bytes in Hs |- *.
  change (0 + Z.of_nat 4) with 4 in *.
  destruct (hasWitnesses T) eqn:Ew.
  - unfold bind at 1.
    rewrite (peek_sits b 4 _ 0 x00 Hs) by done.
    unfold bind at 1.
    rewrite (peek_sits b 4 _ 1 x01 Hs) by done.
    change (Z_of_byte x00) with 0. change (Z_of_byte x01) with 1.
    simpl andb. cbv iota. unfold bind at 1.
    unfold bind at 1. unfold Reader.skip, ret.
    apply (sits_app_r _ _ [x00; x01]) in Hs.
    change (4 + blen [x00; x01]) with 6 in Hs. change (4 + 2) with 6.
    pose proof (parses_body b T (version T) Hwf Hplain 6) as Hb.
    rewrite Ew in Hb. rewrite Hb.
    + simpl. by destruct T.
    + done.
    + rewrite Hblen. change (blen [x00; x01]) with 2. lia.
  - simpl app in Hs.
    destruct (body_bytes_head T Hne) as (x0 & x1 & H0 & H1 & Hcond).
    unfold bind at 1.
    rewrite (peek_sits b 4 _ 0 x0 Hs) by done.
    unfold bind at 1.
    rewrite (peek_sits b 4 _ 1 x1 Hs) by done.
    rewrite Hcond. unfold bind at 1. unfold ret at 1.
    pose proof (parses_body b T (version T) Hwf Hplain 4) as Hb.
    rewrite Ew in Hb. rewrite Hb.
    + simpl. by destruct T.
    + done.
    + rewrite Hblen. change (blen []) with 0. lia.
Qed.

(** ** Well-formedness of the concrete transactions *)

Lemma safe_length_small {A} (l : list A) :
  (length l <= 1000)%nat -> safe_length l.
Proof. unfold safe_length, blen, varuint.MAX_SAFE_INTEGER. lia. Qed.

Ltac solve_wf :=
  repeat match goal with
    | |- wf_tx _ => split; simpl
    | |- wf_in _ => split; simpl
    | |- wf_out _ => split; simpl
    | |- Forall _ _ => constructor
    | |- safe_length _ => apply safe_length_small; simpl; lia
    | |- is_uint32 _ => unfold is_uint32; simpl; lia
    | |- is_int32 _ => unfold is_int32; simpl; lia
    | |- is_uint64 _ => unfold is_uint64; simpl; lia
    | |- wf_value _ => unfold wf_value; simpl
    | |- plain_output _ => reflexivity
    | |- @eq nat _ _ => reflexivity
    end.

Lemma wf_new_Transaction : wf_tx new_Transaction.
Proof. solve_wf. Qed.

Lemma wf_tx_segwit : wf_tx tx_segwit.
Proof. solve_wf. Qed.

Lemma wf_tx_no_input_one_output : wf_tx tx_no_input_one_output.
Proof. solve_wf. Qed.

Lemma wf_tx_three_outputs : wf_tx tx_three_outputs.
Proof. solve_wf. Qed.

(** ** Size consistency *)

(** C4: for every transaction and both values of the witness flag, the
    encoder ends at the offset that [__byteLength] predicts, and the
    buffer it returns has that length. *)
Theorem encode_length_is_byteLength (T : Transaction) (w : bool) :
  wf_tx T ->
  exists b,
    toBuffer_writes T w (Buffer.allocUnsafe (__byteLength T w), 0) =
      Ok (tt, (b, __byteLength T w)) /\
    encode T w = Ok b /\
    blen b = __byteLength T w.
Proof.
  intros Hwf. exists (serialize T w).
  destruct (encode_serialize T w Hwf) as [Hrun Henc].
  repeat split; [done|done|by apply blen_serialize].
Qed.

Lemma encode_length_is_byteLength_witness :
  exists b,
    toBuffer_writes tx_segwit true
      (Buffer.allocUnsafe (__byteLength tx_segwit true), 0) =
      Ok (tt, (b, __byteLength tx_segwit true)) /\
    encode tx_segwit true = Ok b /\
    blen b = __byteLength tx_segwit true.
Proof. apply (encode_length_is_byteLength tx_segwit true). solve_wf. Defined.

(** ** The empty transaction *)


(** ** Decoding what was encoded *)

Lemma encode_without_witnesses T :
  hasWitnesses T = false -> encode T true = encode T false.
Proof.
  intros H. unfold encode, __toBuffer, toBuffer_writes, __byteLength.
  by rewrite H.
Qed.

(** C2, as the spec words it, fails on a transaction without inputs and
    with exactly one output: the encoder writes the input count [0x00]
    and the output count [0x01] after the version, and the decoder takes
    them for the marker and the flag. *)
Lemma decode_encode_counterexample :
  wf_tx tx_no_input_one_output /\
  hasWitnesses tx_no_input_one_output = false /\
  encode tx_no_input_one_output true =
    Ok [x01; x00; x00; x00; x00; x01; x00; x00; x00; x00; x00; x00; x00;
        x00; x00; x00; x00; x00; x00] /\
  rbind (encode tx_no_input_one_output true) decode =
    Throw (Error "Transaction has superfluous witness data") /\
  rbind (encode tx_no_input_one_output true) decode <>
    Ok tx_no_input_one_output.
Proof.
  split; [solve_wf|]. repeat split; try by vm_compute.
Qed.

(** C2 (amended): for every well-formed transaction whose outputs carry
    amounts, and that is not the combination of no input with exactly one
    output, decoding its witness-allowed encoding yields the transaction
    itself; and for every transaction without witnesses the
    witness-allowed encoding is the encoding without witness data, byte
    for byte. *)
Theorem decode_encode_roundtrip (T : Transaction) :
  (wf_tx T -> Forall plain_output (outs T) ->
   ~ (ins T = [] /\ length (outs T) = 1%nat) ->
   exists b, encode T true = Ok b /\ decode b = Ok T) /\
  (hasWitnesses T = false -> encode T true = encode T false).
Proof.
  split.
  - intros Hwf Hplain Hne. exists (serialize T true). split.
    + by apply encode_serialize.
    + by apply decode_serialize.
  - apply encode_without_witnesses.
Qed.

Lemma decode_encode_roundtrip_witness :
  (exists b, encode tx_segwit true = Ok b /\ decode b = Ok tx_segwit) /\
  encode tx_three_outputs true = encode tx_three_outputs false.
Proof.
  split.
  - apply (proj1 (decode_encode_roundtrip tx_segwit)).
    + solve_wf.
    + solve_wf.
    + intros [H _]. discriminate H.
  - apply (proj2 (decode_encode_roundtrip tx_three_outputs)). reflexivity.
Defined.

(** ** The marker and a transaction without inputs *)

Lemma hasWitnesses_ins v l T :
  hasWitnesses (mkTransaction v l (ins T) (outs T)) = hasWitnesses T.
Proof. done. Qed.

(** On the marker path the decoder returns only transactions that have a
    witness. *)
Lemma fromBuffer_body_marker b noStrict v o tx o' :
  fromBuffer_body b noStrict v true o = Ok (tx, o') ->
  hasWitnesses tx = true.
Proof.
  unfold fromBuffer_body, bind. intros H.
  destruct (Reader.readVarInt b o) as [[vinLen o1]|]; [|done].
  destruct (timesM _ _ o1) as [[ins0 o2]|]; [|done].
  destruct (Reader.readVarInt b o2) as [[voutLen o3]|]; [|done].
  destruct (timesM _ _ o3) as [[outs0 o4]|]; [|done].
  destruct (mapM _ ins0 o4) as [[ins1 o5]|]; [|done].
  destruct (negb (hasWitnesses (mkTransaction v 0 ins1 outs0))) eqn:E; [done|].
  apply negb_false_iff in E. unfold ret in H.
  destruct (Reader.readUInt32 b o5) as [[lock o6]|]; [|done].
  destruct noStrict.
  - injection H as <- _. exact E.
  - unfold Reader.get_offset in H.
    destruct (negb (o6 =? blen b)); [done|].
    injection H as <- _. exact E.
Qed.

Lemma fromBuffer_marker v4 rest noStrict tx :
  length v4 = 4%nat ->
  fromBuffer (v4 ++ [x00; x01] ++ rest) noStrict = Ok tx ->
  hasWitnesses tx = true.
Proof.
  intros Hl. set (b := v4 ++ [x00; x01] ++ rest).
  unfold fromBuffer, fromBuffer_reads.
  assert (Hs : sits b 4 ([x00; x01] ++ rest)).
  { exists v4, []. split; [by rewrite app_nil_r|]. unfold blen. by rewrite Hl. }
  unfold bind at 1. unfold Reader.readInt32, Buffer.readInt32LE, Buffer.readUInt.
  assert (Hfit : Buffer.fits b 0 (Z.of_nat 4) = true).
  { unfold Buffer.fits, b, blen. rewrite length_app, Hl.
    apply andb_true_iff. split; [done|]. apply Z.leb_le. lia. }
  rewrite Hfit. cbn [negb rbind]. change (0 + 4) with 4.
  unfold bind at 1. rewrite (peek_sits b 4 _ 0 x00 Hs) by done.
  unfold bind at 1. rewrite (peek_sits b 4 _ 1 x01 Hs) by done.
  change (Z_of_byte x00) with 0. change (Z_of_byte x01) with 1.
  simpl andb. cbv iota. unfold bind at 1. unfold bind at 1.
  unfold Reader.skip, ret.
  destruct (fromBuffer_body b noStrict _ true (4 + 2)) as [[tx' o']|] eqn:E;
    [|done].
  simpl. intros [= <-]. by eapply fromBuffer_body_marker.
Qed.

Lemma hasWitnesses_nonempty tx : hasWitnesses tx = true -> ins tx <> [].
Proof. unfold hasWitnesses. by destruct (ins tx). Qed.

Lemma serialize_no_input_one_output T :
  ins T = [] -> length (outs T) = 1%nat ->
  exists rest, serialize T true = le_bytes 4 (version T) ++ [x00; x01] ++ rest.
Proof.
  intros Hi Ho. unfold serialize, hasWitnesses. rewrite Hi.
  destruct (outs T) as [|o [|o' l]]; try done.
  change (varint_bytes (blen [])) with [x00].
  change (varint_bytes (blen [o])) with [x01].
  eexists. simpl. reflexivity.
Qed.

(** C3, as the spec words it, fails on the empty transaction: it has no
    input, and the strict decoder returns it from its encoding. *)
Lemma zero_inputs_counterexample :
  ins new_Transaction = [] /\
  rbind (encode new_Transaction true) decode = Ok new_Transaction.
Proof. split; by vm_compute. Qed.

(** C3 (amended): the decoder takes the byte pair (0x00, 0x01) after the
    version for the marker and the flag whatever follows, and then
    returns only transactions with a witness, hence with an input;
    consequently no well-formed transaction with zero inputs and exactly
    one output is decodable from its own encoding (the encoding exists,
    and the strict decoder does not return the transaction from it),
    while a well-formed transaction with zero inputs and another number
    of outputs, each of them carrying an amount and no placeholder
    value, is decoded back to itself. *)
Theorem marker_shadows_zero_inputs :
  (forall v4 rest noStrict tx,
     length v4 = 4%nat ->
     fromBuffer (v4 ++ [x00; x01] ++ rest) noStrict = Ok tx ->
     hasWitnesses tx = true /\ ins tx <> []) /\
  (forall T,
     wf_tx T -> ins T = [] -> length (outs T) = 1%nat ->
     exists b, encode T true = Ok b /\ decode b <> Ok T) /\
  (forall T,
     wf_tx T -> Forall plain_output (outs T) ->
     ins T = [] -> length (outs T) <> 1%nat ->
     exists b, encode T true = Ok b /\ decode b = Ok T).
Proof.
  split; [|split].
  - intros v4 rest noStrict tx Hl H.
    pose proof (fromBuffer_marker _ _ _ _ Hl H) as Hw.
    split; [done|by apply hasWitnesses_nonempty].
  - intros T Hwf Hi Ho. exists (serialize T true).
    split; [by apply encode_serialize|].
    destruct (serialize_no_input_one_output T Hi Ho) as [rest ->].
    intros H. apply fromBuffer_marker in H; [|by rewrite length_le_bytes].
    apply hasWitnesses_nonempty in H. done.
  - intros T Hwf Hplain Hi Ho. exists (serialize T true).
    split; [by apply encode_serialize|].
    apply decode_serialize; [done|done|]. intros [_ H]. done.
Qed.

Lemma marker_shadows_zero_inputs_witness :
  (exists b, encode tx_no_input_one_output true = Ok b /\
             decode b <> Ok tx_no_input_one_output) /\
  (exists b, encode new_Transaction true = Ok b /\
             decode b = Ok new_Transaction).
Proof.
  destruct marker_shadows_zero_inputs as (_ & H1 & H2). split.
  - apply H1; [solve_wf|reflexivity|reflexivity].
  - apply H2; [solve_wf|solve_wf|reflexivity|]. simpl. lia.
Defined.

(** ** The legacy hasher: the two sentinel returns *)

Lemma length_zero_other_sequences inIndex l :
  length (zero_other_sequences inIndex l) = length l.
Proof. unfold zero_other_sequences. apply length_imap. Qed.

Lemma length_ins_clone T : length (ins (clone T)) = length (ins T).
Proof. unfold clone. simpl. apply length_map. Qed.

Lemma sighash_output_rule_ins this inIndex hashType txTmp :
  sighash_output_rule this (clone this) inIndex hashType = Some txTmp ->
  length (ins txTmp) = length (ins this).
Proof.
  unfold sighash_output_rule. intros H.
  repeat case_match; simplify_eq; simpl;
    rewrite ?length_zero_other_sequences; apply length_map.
Qed.

Lemma sighash_input_rule_ok txTmp inIndex hashType ourScript :
  0 <= inIndex < blen (ins txTmp) ->
  exists txTmp', sighash_input_rule txTmp inIndex hashType ourScript = Ok txTmp'.
Proof.
  intros Hi. unfold sighash_input_rule.
  assert (Hlt : (Z.to_nat inIndex < length (ins txTmp))%nat)
    by (unfold blen in Hi; lia).
  destruct (negb _).
  - apply lookup_lt_is_Some_2 in Hlt as [x ->]. by eexists.
  - rewrite <- (length_map (set_script EMPTY_SCRIPT)) in Hlt.
    apply lookup_lt_is_Some_2 in Hlt as [x ->]. by eexists.
Qed.

(** C1: on a transaction with one input, [hashForSignature] at input
    index 99 returns 31 bytes 0x00 followed by 0x01, and not the
    little-endian encoding of 1 (0x01 followed by 31 bytes 0x00) that
    the claim gives, which is also what the reference implementation
    named in the comment above the guard returns.  The digits of the
    source's [ONE] are those of the number 1 as it is displayed, written
    without the byte reversal that the [id] getter applies to every
    other hash. *)
Lemma sighash_one_byte_order :
  blen (ins tx_segwit) <= 99 /\
  hashForSignature opcode_script tx_segwit 99 [x51] SIGHASH_ALL =
    Ok (repeat x00 31 ++ [x01]) /\
  hashForSignature opcode_script tx_segwit 99 [x51] SIGHASH_ALL <>
    Ok (x01 :: repeat x00 31).
Proof. repeat split; by vm_compute. Qed.

(** C1, for every input: whatever the transaction, the previous-output
    script and the hash type, if [inIndex >= |ins|] then
    [hashForSignature] returns the source's 32-byte constant [ONE],
    whose first 31 bytes are 0x00 and whose last byte is 0x01: the
    guard is the claim's, the byte order of the constant is not. *)
Theorem sighash_input_out_of_range (bscript : Script) (this : Transaction)
    (inIndex : Z) (prevOutScript : bytes) (hashType : Z) :
  types.UInt32 inIndex = true ->
  blen (ins this) <= inIndex ->
  hashForSignature bscript this inIndex prevOutScript hashType = Ok ONE /\
  ONE = repeat x00 31 ++ [x01] /\
  length ONE = 32%nat.
Proof.
  intros Hu Hge. unfold hashForSignature. rewrite Hu. cbn [typeforce rbind].
  apply Z.leb_le in Hge. rewrite Hge. done.
Qed.

Lemma sighash_input_out_of_range_witness :
  hashForSignature opcode_script tx_segwit 99 [x51; xab] SIGHASH_ALL = Ok ONE /\
  ONE = repeat x00 31 ++ [x01] /\
  length ONE = 32%nat.
Proof.
  apply (sighash_input_out_of_range opcode_script tx_segwit 99 [x51; xab]
           SIGHASH_ALL).
  - reflexivity.
  - vm_compute. discriminate.
Defined.

(** C7: the two guards of the legacy hasher return [ONE] and throw
    nothing: whenever [inIndex >= |ins|], and whenever the low five bits
    of the hash type are SIGHASH_SINGLE and [inIndex >= |outs|]; in every
    other case the result is that of serializing and hashing the
    temporary transaction. *)
Theorem sighash_sentinels (bscript : Script) (this : Transaction)
    (inIndex : Z) (prevOutScript : bytes) (hashType : Z) :
  types.UInt32 inIndex = true ->
  (blen (ins this) <= inIndex ->
   hashForSignature bscript this inIndex prevOutScript hashType = Ok ONE) /\
  (Z.land hashType 0x1f = SIGHASH_SINGLE -> blen (outs this) <= inIndex ->
   hashForSignature bscript this inIndex prevOutScript hashType = Ok ONE) /\
  (inIndex < blen (ins this) ->
   ~ (Z.land hashType 0x1f = SIGHASH_SINGLE /\ blen (outs this) <= inIndex) ->
   exists txTmp,
     sighash_txTmp bscript this inIndex prevOutScript hashType =
       Some (Ok txTmp) /\
     hashForSignature bscript this inIndex prevOutScript hashType =
       sighash_digest txTmp hashType /\
     forall h, sighash_digest txTmp hashType = Ok h ->
               exists buffer, h = hash256 buffer).
Proof.
  intros Hu. unfold hashForSignature. rewrite Hu. cbn [typeforce rbind].
  split; [|split].
  - intros Hge. apply Z.leb_le in Hge. by rewrite Hge.
  - intros Hs Hge. destruct (blen (ins this) <=? inIndex); [done|].
    unfold sighash_txTmp, sighash_output_rule. rewrite Hs.
    change (SIGHASH_SINGLE =? SIGHASH_NONE) with false. rewrite Z.eqb_refl.
    apply Z.leb_le in Hge. by rewrite Hge.
  - intros Hlt Hns.
    replace (blen (ins this) <=? inIndex) with false
      by (symmetry; apply Z.leb_gt; lia).
    unfold sighash_txTmp.
    destruct (sighash_output_rule this (clone this) inIndex hashType)
      as [txTmp0|] eqn:Eo.
    2:{ exfalso. unfold sighash_output_rule in Eo.
        destruct (Z.land hashType 31 =? SIGHASH_NONE); [done|].
        destruct (Z.land hashType 31 =? SIGHASH_SINGLE) eqn:Es; [|done].
        destruct (blen (outs this) <=? inIndex) eqn:Eg; [|done].
        apply Hns. split; [by apply Z.eqb_eq|by apply Z.leb_le]. }
    apply sighash_output_rule_ins in Eo.
    unfold types.UInt32 in Hu. apply andb_true_iff in Hu as [Hu0 _].
    apply Z.leb_le in Hu0.
    destruct (sighash_input_rule_ok txTmp0 inIndex hashType
                (ourScript_of bscript prevOutScript)) as [txTmp E].
    { unfold blen in *. lia. }
    exists txTmp. rewrite E. split; [done|]. split; [done|].
    intros h Hh. unfold sighash_digest, rbind in Hh.
    repeat case_match; simplify_eq. by eexists.
Qed.

Lemma sighash_sentinels_witness :
  hashForSignature opcode_script tx_segwit 1 [x51] SIGHASH_SINGLE = Ok ONE /\
  exists txTmp,
    sighash_txTmp opcode_script tx_segwit 0 [x51] SIGHASH_SINGLE =
      Some (Ok txTmp) /\
    hashForSignature opcode_script tx_segwit 0 [x51] SIGHASH_SINGLE =
      sighash_digest txTmp SIGHASH_SINGLE /\
    forall h, sighash_digest txTmp SIGHASH_SINGLE = Ok h ->
              exists buffer, h = hash256 buffer.
Proof.
  split.
  - apply (proj1 (proj2 (sighash_sentinels opcode_script tx_segwit 1 [x51]
                           SIGHASH_SINGLE eq_refl))).
    + reflexivity.
    + vm_compute. discriminate.
  - apply (proj2 (proj2 (sighash_sentinels opcode_script tx_segwit 0 [x51]
                           SIGHASH_SINGLE eq_refl))).
    + reflexivity.
    + intros [_ H]. vm_compute in H. by apply H.
Defined.

(** ** The witness-v0 hasher has no sentinel *)

(** C9: [hashForWitnessV0] has no [ONE] return for an input index out
    of range: for every transaction and every [inIndex >= |ins|] it
    throws instead of returning a hash. *)
Theorem witness_v0_input_out_of_range (this : Transaction) (inIndex : Z)
    (prevOutScript : bytes) (value hashType : Z) :
  blen (ins this) <= inIndex ->
  exists e,
    hashForWitnessV0 this inIndex prevOutScript value hashType = Throw e.
Proof.
  intros Hge. unfold hashForWitnessV0.
  destruct (typeforce _) as [[]|e]; [|by eexists]. cbn [rbind].
  destruct (hashPrevouts this hashType) as [hp|e]; [|by eexists]. cbn [rbind].
  destruct (hashSequence this hashType) as [hs|e]; [|by eexists]. cbn [rbind].
  destruct (hashOutputs this inIndex hashType) as [ho|e]; [|by eexists].
  cbn [rbind].
  assert (Hnone : ins this !! Z.to_nat inIndex = None).
  { apply lookup_ge_None_2. unfold blen in Hge. lia. }
  rewrite Hnone. unfold filled, witness_preimage_writes, bind.
  destruct (Writer.writeUInt32 (version this) _) as [[[] [b1 o1]]|e];
    [|by eexists].
  unfold Writer.writeSlice at 1.
  destruct (Buffer.copy hp b1 o1) as [b2 n2].
  unfold Writer.writeSlice at 1.
  destruct (Buffer.copy hs b2 (o1 + n2)) as [b3 n3].
  unfold throw. by eexists.
Qed.

Lemma witness_v0_input_out_of_range_witness :
  exists e,
    hashForWitnessV0 tx_segwit 2 [x51] 5000 SIGHASH_ALL = Throw e.
Proof.
  apply (witness_v0_input_out_of_range tx_segwit 2 [x51] 5000 SIGHASH_ALL).
  vm_compute. discriminate.
Defined.

(** ** SIGHASH_SINGLE on the second of three outputs *)

Lemma clone_in_id (txIn : TxIn.t) :
  TxIn.mk (TxIn.hash txIn) (TxIn.index txIn) (TxIn.script txIn)
          (TxIn.sequence txIn) (TxIn.witness txIn) = txIn.
Proof. by destruct txIn. Qed.

Lemma ins_clone T : ins (clone T) = ins T.
Proof.
  unfold clone. simpl. rewrite <- (map_id (ins T)) at 2.
  apply map_ext. intros x. apply clone_in_id.
Qed.



(** ** The sub-digests of the witness-v0 hasher *)

Lemma filled_writes m data size :
  writes m data -> size = blen data -> filled size m = Ok data.
Proof.
  intros Hw ->. unfold filled.
  pose proof (Hw [] (Buffer.allocUnsafe (blen data)) []) as H.
  rewrite !app_nil_r in H. simpl in H. change (blen []) with 0 in H.
  rewrite H; [done|].
  unfold Buffer.allocUnsafe, blen. by rewrite repeat_length, Nat2Z.id.
Qed.

Lemma blen_concat_const {A} (g : A -> bytes) (k : Z) (l : list A) :
  Forall (fun x => blen (g x) = k) l ->
  blen (concat (map g l)) = k * blen l.
Proof.
  induction 1 as [|x l Hx Hl IH]; simpl.
  - change (blen (@nil byte)) with 0. change (blen (@nil A)) with 0. lia.
  - rewrite blen_app, blen_cons, IH, Hx. lia.
Qed.

Lemma hashPrevouts_value T hashType :
  Forall wf_in (ins T) ->
  hashPrevouts T hashType =
  Ok (if negb (anyonecanpay hashType)
      then hash256 (concat (map prevout_bytes (ins T)))
      else ZERO).
Proof.
  intros Hi. unfold hashPrevouts. destruct (negb (anyonecanpay hashType)); [|done].
  rewrite (filled_writes _ (concat (map prevout_bytes (ins T)))); [done| |].
  - apply writes_forEach. eapply Forall_impl; [exact Hi|].
    intros x [Hh Hx _ _ _ _]. unfold prevout_bytes.
    apply writes_bind; [apply writes_writeSlice|by apply writes_writeUInt32].
  - rewrite (blen_concat_const _ 36); [done|].
    eapply Forall_impl; [exact Hi|]. intros x [Hh _ _ _ _ _].
    unfold prevout_bytes. rewrite blen_app, blen_le_bytes. unfold blen.
    rewrite Hh. done.
Qed.

Lemma hashSequence_value T hashType :
  Forall wf_in (ins T) ->
  hashSequence T hashType =
  Ok (if negb (anyonecanpay hashType) &&
         negb (Z.land hashType 0x1f =? SIGHASH_SINGLE) &&
         negb (Z.land hashType 0x1f =? SIGHASH_NONE)
      then hash256 (concat (map sequence_bytes (ins T)))
      else ZERO).
Proof.
  intros Hi. unfold hashSequence. destruct (_ && _); [|done].
  rewrite (filled_writes _ (concat (map sequence_bytes (ins T)))); [done| |].
  - apply writes_forEach. eapply Forall_impl; [exact Hi|].
    intros x [_ _ _ Hq _ _]. by apply writes_writeUInt32.
  - rewrite (blen_concat_const _ 4); [done|].
    apply Forall_forall. intros x _. apply blen_le_bytes.
Qed.

Lemma writes_write_output o :
  wf_out o -> plain_output o -> writes (write_output o) (output_bytes o).
Proof.
  intros [Hs Hv] Hp. unfold write_output, output_bytes, value_bytes,
    wf_value, plain_output in *.
  rewrite Hp in *. destruct (TxOut.value o) as [v|]; [|done].
  apply writes_bind; [by apply writes_writeUInt64|by apply writes_writeVarSlice].
Qed.

Lemma hashOutputs_all T inIndex hashType :
  Forall wf_out (outs T) -> Forall plain_output (outs T) ->
  Z.land hashType 0x1f <> SIGHASH_SINGLE ->
  Z.land hashType 0x1f <> SIGHASH_NONE ->
  hashOutputs T inIndex hashType =
  Ok (hash256 (concat (map output_bytes (outs T)))).
Proof.
  intros Ho Hp Hs Hn. unfold hashOutputs.
  apply Z.eqb_neq in Hs, Hn. rewrite Hs, Hn. simpl andb. cbv iota.
  rewrite (filled_writes _ (concat (map output_bytes (outs T)))); [done| |].
  - apply writes_forEach. apply Forall_forall. intros x Hx.
    rewrite Forall_forall in Ho, Hp. apply writes_write_output; auto.
  - rewrite (fold_left_blen _ output_bytes); [lia|].
    eapply Forall_impl; [exact Ho|]. intros x Hx s.
    rewrite blen_output_bytes by done. lia.
Qed.




(** ** The hashers and the caller's transaction *)

Example heap_snapshot_example :
  Heap.snapshot Heap.example_heap 9%positive = Some tx_three_outputs.
Proof. by vm_compute. Qed.

Example heap_hashForSignature_example :
  fst (Heap.hashForSignature opcode_script 1%positive 9%positive 1
         [x51; xab; x52] SIGHASH_SINGLE Heap.example_heap) =
  hashForSignature opcode_script tx_three_outputs 1 [x51; xab; x52]
    SIGHASH_SINGLE.
Proof. by vm_compute. Qed.

Section Frame.
Import Heap.
Variable h0 : heap.

Let E : heap -> Prop := fun h => h0 ⊆ h.

Lemma triple_ret {A} (P : heap -> Prop) (a : A) Q :
  (forall h, P h -> Q a h) -> triple P (hret a) Q E.
Proof. intros H h Hp. by apply H. Qed.

Lemma triple_throw {A} (P : heap -> Prop) e (Q : A -> heap -> Prop) :
  (forall h, P h -> E h) -> triple P (hthrow e) Q E.
Proof. intros H h Hp. by apply H. Qed.

Lemma triple_lift {A} (P : heap -> Prop) (r : result A) Q :
  (forall h, P h -> E h) -> (forall a h, r = Ok a -> P h -> Q a h) ->
  triple P (lift r) Q E.
Proof.
  intros He Hq h Hp. unfold lift. destruct r; [by apply Hq|by apply He].
Qed.

Lemma triple_bind {A B} P (m : H A) (f : A -> H B) R Q :
  triple P m R E -> (forall a, triple (R a) (f a) Q E) ->
  triple P (hbind m f) Q E.
Proof.
  intros Hm Hf h Hp. unfold hbind. specialize (Hm h Hp).
  destruct (m h) as [[a|e] h']; [by apply Hf|done].
Qed.

Lemma triple_pre {A} (P P' : heap -> Prop) (m : H A) Q :
  (forall h, P h -> P' h) -> triple P' m Q E -> triple P m Q E.
Proof. intros Hpp Hm h Hp. apply Hm. by apply Hpp. Qed.

Lemma triple_post {A} (P : heap -> Prop) (m : H A) (Q Q' : A -> heap -> Prop) :
  (forall a h, Q a h -> Q' a h) -> triple P m Q E -> triple P m Q' E.
Proof.
  intros Hqq Hm h Hp. specialize (Hm h Hp).
  destruct (m h) as [[a|e] h']; [by apply Hqq|done].
Qed.

Lemma triple_load (P : heap -> Prop) l :
  (forall h, P h -> E h) ->
  triple P (load l) (fun o h => P h /\ h !! l = Some o) E.
Proof.
  intros He h Hp. unfold load. destruct (h !! l) eqn:El; [done|by apply He].
Qed.

Lemma triple_store (P : heap -> Prop) l o Q :
  (forall h, P h -> Q tt (<[l := o]> h)) -> triple P (store l o) Q E.
Proof. intros H h Hp. by apply H. Qed.

Lemma triple_alloc (P : heap -> Prop) o Q :
  (forall h l, P h -> h !! l = None -> Q l (<[l := o]> h)) ->
  triple P (alloc o) Q E.
Proof.
  intros H h Hp. unfold alloc. apply H; [done|].
  apply not_elem_of_dom. apply is_fresh.
Qed.

Lemma triple_load_input (P : heap -> Prop) l :
  (forall h, P h -> E h) ->
  triple P (load_input l) (fun i h => P h /\ h !! l = Some (OInput i)) E.
Proof.
  intros He. eapply triple_bind; [by apply triple_load|].
  intros [i| | |]; simpl;
    [apply triple_ret; tauto|apply triple_throw; intros h [Hp _]; auto ..].
Qed.

Lemma triple_load_output (P : heap -> Prop) l :
  (forall h, P h -> E h) ->
  triple P (load_output l) (fun o h => P h /\ h !! l = Some (OOutput o)) E.
Proof.
  intros He. eapply triple_bind; [by apply triple_load|].
  intros [|o| |]; simpl;
    [|apply triple_ret; tauto|..]; apply triple_throw; intros h [Hp _]; auto.
Qed.

Lemma triple_load_array (P : heap -> Prop) l :
  (forall h, P h -> E h) ->
  triple P (load_array l) (fun ls h => P h /\ h !! l = Some (OArray ls)) E.
Proof.
  intros He. eapply triple_bind; [by apply triple_load|].
  intros [| |ls|]; simpl;
    [| |apply triple_ret; tauto|]; apply triple_throw; intros h [Hp _]; auto.
Qed.

Lemma triple_load_tx (P : heap -> Prop) l :
  (forall h, P h -> E h) ->
  triple P (load_tx l)
    (fun f h => P h /\
       h !! l = Some (OTransaction (fst (fst (fst f))) (snd (fst (fst f)))
                        (snd (fst f)) (snd f))) E.
Proof.
  intros He. eapply triple_bind; [by apply triple_load|].
  intros [| | |v lt a b]; simpl;
    [| | |apply triple_ret; tauto]; apply triple_throw; intros h [Hp _]; auto.
Qed.

Lemma triple_tx_ins (P : heap -> Prop) t :
  (forall h, P h -> E h) ->
  triple P (tx_ins t)
    (fun a h => P h /\ exists v lt b, h !! t = Some (OTransaction v lt a b)) E.
Proof.
  intros He. eapply triple_bind; [by apply triple_load_tx|].
  intros [[[v lt] a] b]. apply triple_ret. simpl. intros h [Hp Ht]. eauto.
Qed.

Lemma triple_tx_outs (P : heap -> Prop) t :
  (forall h, P h -> E h) ->
  triple P (tx_outs t)
    (fun b h => P h /\ exists v lt a, h !! t = Some (OTransaction v lt a b)) E.
Proof.
  intros He. eapply triple_bind; [by apply triple_load_tx|].
  intros [[[v lt] a] b]. apply triple_ret. simpl. intros h [Hp Ht]. eauto.
Qed.

End Frame.

Section TmpInvariant.
Import Heap.
Variable h0 : heap.

Lemma new_input_mono h h' l :
  h ⊆ h' -> new_input h0 h l -> new_input h0 h' l.
Proof.
  intros Hsub [Hf [i Hi]]. split; [done|]. exists i.
  by eapply lookup_weaken.
Qed.

Lemma tmp_at_sub t a b ils h : tmp_at h0 t a b ils h -> h0 ⊆ h.
Proof. by intros [H _]. Qed.

Lemma tmp_at_mono t a b ils h h' :
  h ⊆ h' -> tmp_at h0 t a b ils h -> tmp_at h0 t a b ils h'.
Proof.
  intros Hsub (H0 & Ht & Ha & Hb & Hab & (v & lt & Htx) & Hia & (ols & Hob) & Hall).
  repeat split; try done.
  - by etrans.
  - exists v, lt. by eapply lookup_weaken.
  - by eapply lookup_weaken.
  - exists ols. by eapply lookup_weaken.
  - eapply Forall_impl; [exact Hall|]. intros l. by apply new_input_mono.
Qed.

Lemma fresh_from_sub h l : h0 ⊆ h -> h !! l = None -> h0 !! l = None.
Proof. intros Hsub Hl. by eapply lookup_weaken_None. Qed.

Lemma new_input_store h l i l' :
  new_input h0 h l' -> new_input h0 (<[l := OInput i]> h) l'.
Proof.
  intros [Hf [i' Hi']]. split; [done|].
  destruct (decide (l' = l)) as [->|Hne].
  - exists i. apply lookup_insert_eq.
  - exists i'. by rewrite lookup_insert_ne.
Qed.

(** Assigning to a property of a new input object keeps the invariant. *)
Lemma tmp_at_store_input t a b ils h l i :
  tmp_at h0 t a b ils h -> new_input h0 h l ->
  tmp_at h0 t a b ils (<[l := OInput i]> h).
Proof.
  intros (H0 & Ht & Ha & Hb & Hab & (v & lt & Htx) & Hia & (ols & Hob) & Hall)
         [Hl [i' Hi']].
  assert (l <> t) by congruence.
  assert (l <> a) by congruence.
  assert (l <> b) by congruence.
  repeat split; try done.
  - by apply insert_subseteq_r.
  - exists v, lt. by rewrite lookup_insert_ne.
  - by rewrite lookup_insert_ne.
  - exists ols. by rewrite lookup_insert_ne.
  - eapply Forall_impl; [exact Hall|]. intros l'. apply new_input_store.
Qed.

(** Assigning to a property of the temporary transaction. *)
Lemma tmp_at_store_tx t a b ils h v' lt' a' b' ils' :
  tmp_at h0 t a b ils h ->
  h0 !! a' = None -> h0 !! b' = None -> a' <> b' ->
  h !! a' = Some (OArray ils') ->
  (exists ols, h !! b' = Some (OArray ols)) ->
  Forall (new_input h0 h) ils' ->
  tmp_at h0 t a' b' ils' (<[t := OTransaction v' lt' a' b']> h).
Proof.
  intros (H0 & Ht & Ha & Hb & Hab & (v & lt & Htx) & Hia & (ols & Hob) & Hall)
         Ha' Hb' Hab' Hia' (ols' & Hob') Hall'.
  assert (t <> a') by congruence.
  assert (t <> b') by congruence.
  repeat split; try done.
  - by apply insert_subseteq_r.
  - exists v', lt'. apply lookup_insert_eq.
  - by rewrite lookup_insert_ne.
  - exists ols'. by rewrite lookup_insert_ne.
  - eapply Forall_impl; [exact Hall'|]. intros l [Hl [i Hi]].
    split; [done|]. exists i. rewrite lookup_insert_ne; [done|congruence].
Qed.

(** Assigning to the output array of the temporary transaction. *)
Lemma tmp_at_store_outs t a b ils h ols' :
  tmp_at h0 t a b ils h ->
  tmp_at h0 t a b ils (<[b := OArray ols']> h).
Proof.
  intros (H0 & Ht & Ha & Hb & Hab & (v & lt & Htx) & Hia & (ols & Hob) & Hall).
  assert (b <> t) by congruence.
  repeat split; try done.
  - by apply insert_subseteq_r.
  - exists v, lt. by rewrite lookup_insert_ne.
  - by rewrite lookup_insert_ne.
  - exists ols'. apply lookup_insert_eq.
  - eapply Forall_impl; [exact Hall|]. intros l [Hl [i Hi]].
    split; [done|]. exists i. rewrite lookup_insert_ne; [done|congruence].
Qed.

Lemma tmp_at_alloc t a b ils h l o :
  tmp_at h0 t a b ils h -> h !! l = None ->
  tmp_at h0 t a b ils (<[l := o]> h) /\ h0 !! l = None /\
  l <> t /\ l <> a /\ l <> b.
Proof.
  intros Hinv Hl. split.
  - eapply tmp_at_mono; [|exact Hinv]. by apply insert_subseteq.
  - destruct Hinv as
      (H0 & Ht & Ha & Hb & Hab & (v & lt & Htx) & Hia & (ols & Hob) & Hall).
    split; [by eapply fresh_from_sub|]. repeat split; congruence.
Qed.

End TmpInvariant.

Section FrameSteps.
Import Heap.
Variable h0 : heap.

Let E : heap -> Prop := fun h => h0 ⊆ h.

Lemma triple_extract {A} (P : heap -> Prop) (phi : Prop) (m : H A) Q :
  (forall h, P h -> phi) -> (phi -> triple P m Q E) -> triple P m Q E.
Proof. intros Hphi Hm h Hp. apply Hm; [by eapply Hphi|done]. Qed.

Lemma triple_forEach {A} (P : heap -> Prop) (f : A -> H unit) ls :
  (forall h, P h -> E h) ->
  (forall x, x ∈ ls -> triple P (f x) (fun _ => P) E) ->
  triple P (hforEach f ls) (fun _ => P) E.
Proof.
  intros He. induction ls as [|x ls IH]; intros Hf; simpl.
  - by apply triple_ret.
  - eapply triple_bind; [apply Hf; by left|].
    intros []. apply IH. intros y Hy. apply Hf. by right.
Qed.

Lemma triple_forEachI {A} (P : heap -> Prop) (f : nat -> A -> H unit) i ls :
  (forall h, P h -> E h) ->
  (forall j x, x ∈ ls -> triple P (f j x) (fun _ => P) E) ->
  triple P (hforEachI f i ls) (fun _ => P) E.
Proof.
  intros He. revert i. induction ls as [|x ls IH]; intros i Hf; simpl.
  - by apply triple_ret.
  - eapply triple_bind; [apply Hf; by left|].
    intros []. apply IH. intros j y Hy. apply Hf. by right.
Qed.

Lemma tmp_at_new_input t a b ils h l :
  tmp_at h0 t a b ils h -> l ∈ ils -> new_input h0 h l.
Proof.
  intros (_ & _ & _ & _ & _ & _ & _ & _ & Hall) Hl.
  rewrite Forall_forall in Hall. by apply Hall.
Qed.

Lemma triple_set_input_sequence t a b ils l s :
  l ∈ ils ->
  triple (tmp_at h0 t a b ils) (set_input_sequence l s)
         (fun _ => tmp_at h0 t a b ils) E.
Proof.
  intros Hl. eapply triple_bind.
  { apply triple_load_input. apply tmp_at_sub. }
  intros i. apply triple_store. intros h [Hinv _].
  apply tmp_at_store_input; [done|by eapply tmp_at_new_input].
Qed.

Lemma triple_set_input_script t a b ils l s :
  l ∈ ils ->
  triple (tmp_at h0 t a b ils) (set_input_script l s)
         (fun _ => tmp_at h0 t a b ils) E.
Proof.
  intros Hl. eapply triple_bind.
  { apply triple_load_input. apply tmp_at_sub. }
  intros i. apply triple_store. intros h [Hinv _].
  apply tmp_at_store_input; [done|by eapply tmp_at_new_input].
Qed.

(** What [tx.ins] and the array behind it are, under the invariant. *)
Lemma tmp_at_ins t a b ils h v lt a' b' ls :
  tmp_at h0 t a b ils h ->
  h !! t = Some (OTransaction v lt a' b') -> h !! a' = Some (OArray ls) ->
  a' = a /\ b' = b /\ ls = ils.
Proof.
  intros (_ & _ & _ & _ & _ & (v0 & lt0 & Htx) & Hia & _) Ht Ha.
  assert (Hab : a' = a /\ b' = b) by (rewrite Htx in Ht; by simplify_eq).
  destruct Hab as [-> ->]. rewrite Hia in Ha. by simplify_eq.
Qed.

Lemma tmp_at_outs t a b ils h v lt a' b' :
  tmp_at h0 t a b ils h ->
  h !! t = Some (OTransaction v lt a' b') -> a' = a /\ b' = b.
Proof.
  intros (_ & _ & _ & _ & _ & (v0 & lt0 & Htx) & _) Ht.
  rewrite Htx in Ht. by simplify_eq.
Qed.

Lemma triple_zero_other_sequences t a b ils inIndex :
  triple (tmp_at h0 t a b ils) (zero_other_sequences t inIndex)
         (fun _ => tmp_at h0 t a b ils) E.
Proof.
  unfold zero_other_sequences.
  eapply triple_bind; [apply triple_tx_ins, tmp_at_sub|].
  intros a'. eapply triple_bind.
  { apply triple_load_array. intros h [Hinv _]. by eapply tmp_at_sub. }
  intros ls.
  apply (triple_extract _ (ls = ils)).
  { intros h [[Hinv (v & lt & b' & Ht)] Ha].
    by destruct (tmp_at_ins _ _ _ _ _ _ _ _ _ _ Hinv Ht Ha) as (_ & _ & ->). }
  intros ->. eapply triple_pre; [intros h [[Hinv _] _]; exact Hinv|].
  apply triple_forEachI; [apply tmp_at_sub|].
  intros j x Hx. destruct (Z.of_nat j =? inIndex).
  - by apply triple_ret.
  - by apply triple_set_input_sequence.
Qed.

Lemma triple_set_tx_version t a b ils v :
  triple (tmp_at h0 t a b ils) (set_tx_version t v)
         (fun _ => tmp_at h0 t a b ils) E.
Proof.
  eapply triple_bind; [apply triple_load_tx, tmp_at_sub|].
  intros [[[v0 lt0] a'] b']. apply triple_store. simpl. intros h [Hinv Ht].
  destruct (tmp_at_outs _ _ _ _ _ _ _ _ _ Hinv Ht) as [-> ->].
  pose proof Hinv as (H0 & Hft & Ha & Hb & Hab & Htx & Hia & Hob & Hall).
  by apply (tmp_at_store_tx h0 t a b ils h).
Qed.

Lemma triple_set_tx_locktime t a b ils lt :
  triple (tmp_at h0 t a b ils) (set_tx_locktime t lt)
         (fun _ => tmp_at h0 t a b ils) E.
Proof.
  eapply triple_bind; [apply triple_load_tx, tmp_at_sub|].
  intros [[[v0 lt0] a'] b']. apply triple_store. simpl. intros h [Hinv Ht].
  destruct (tmp_at_outs _ _ _ _ _ _ _ _ _ Hinv Ht) as [-> ->].
  pose proof Hinv as (H0 & Hft & Ha & Hb & Hab & Htx & Hia & Hob & Hall).
  by apply (tmp_at_store_tx h0 t a b ils h).
Qed.

(** [tx.ins = a'] for a new array [a'] of new input objects. *)
Lemma triple_set_tx_ins t a b ils a' ils' :
  triple (fun h => tmp_at h0 t a b ils h /\ h0 !! a' = None /\ a' <> b /\
                   h !! a' = Some (OArray ils') /\
                   Forall (new_input h0 h) ils')
         (set_tx_ins t a')
         (fun _ => tmp_at h0 t a' b ils') E.
Proof.
  eapply triple_bind.
  { apply triple_load_tx. intros h [Hinv _]. by eapply tmp_at_sub. }
  intros [[[v0 lt0] a1] b1]. apply triple_store. simpl.
  intros h [(Hinv & Ha' & Hab' & Hia' & Hall') Ht].
  destruct (tmp_at_outs _ _ _ _ _ _ _ _ _ Hinv Ht) as [-> ->].
  pose proof Hinv as (H0 & Hft & Ha & Hb & Hab & Htx & Hia & Hob & Hall).
  by apply (tmp_at_store_tx h0 t a b ils h).
Qed.

(** [tx.outs = b'] for a new array [b']. *)
Lemma triple_set_tx_outs t a b ils b' :
  triple (fun h => tmp_at h0 t a b ils h /\ h0 !! b' = None /\ a <> b' /\
                   exists ols, h !! b' = Some (OArray ols))
         (set_tx_outs t b')
         (fun _ => tmp_at h0 t a b' ils) E.
Proof.
  eapply triple_bind.
  { apply triple_load_tx. intros h [Hinv _]. by eapply tmp_at_sub. }
  intros [[[v0 lt0] a1] b1]. apply triple_store. simpl.
  intros h [(Hinv & Hb' & Hab' & Hob') Ht].
  destruct (tmp_at_outs _ _ _ _ _ _ _ _ _ Hinv Ht) as [-> ->].
  pose proof Hinv as (H0 & Hft & Ha & Hb & Hab & Htx & Hia & Hob & Hall).
  by apply (tmp_at_store_tx h0 t a b ils h).
Qed.

Lemma triple_array_set_length t a b ils n :
  triple (tmp_at h0 t a b ils) (array_set_length b n)
         (fun _ => tmp_at h0 t a b ils) E.
Proof.
  eapply triple_bind; [apply triple_load_array, tmp_at_sub|].
  intros ls. apply triple_store. intros h [Hinv _].
  by apply tmp_at_store_outs.
Qed.

Lemma triple_array_set t a b ils i x :
  triple (tmp_at h0 t a b ils) (array_set b i x)
         (fun _ => tmp_at h0 t a b ils) E.
Proof.
  eapply triple_bind; [apply triple_load_array, tmp_at_sub|].
  intros ls. apply triple_store. intros h [Hinv _].
  by apply tmp_at_store_outs.
Qed.

End FrameSteps.

Section FrameHashers.
Import Heap.
Variable h0 : heap.

Let E : heap -> Prop := fun h => h0 ⊆ h.

Lemma triple_exists {A X} (P : X -> heap -> Prop) (m : H A) Q :
  (forall x, triple (P x) m Q E) -> triple (fun h => exists x, P x h) m Q E.
Proof. intros Hm h [x Hp]. by eapply Hm. Qed.

Lemma triple_new_Transaction :
  triple E new_Transaction (fun t h => exists a b, tmp_at h0 t a b [] h) E.
Proof.
  unfold new_Transaction.
  eapply triple_bind.
  { apply (triple_alloc h0 E _
             (fun a h => h0 ⊆ h /\ h0 !! a = None /\
                         h !! a = Some (OArray []))).
    intros h a Hsub Ha. split; [|split].
    - etrans; [exact Hsub|by apply insert_subseteq].
    - by eapply fresh_from_sub.
    - apply lookup_insert_eq. }
  intros a. eapply triple_bind.
  { apply (triple_alloc h0 _ _
             (fun b h => h0 ⊆ h /\ h0 !! a = None /\ h0 !! b = None /\
                         a <> b /\ h !! a = Some (OArray []) /\
                         h !! b = Some (OArray []))).
    intros h b (Hsub & Ha & Hia) Hb.
    assert (a <> b) by congruence.
    repeat split; try done.
    - etrans; [exact Hsub|by apply insert_subseteq].
    - by eapply fresh_from_sub.
    - by rewrite lookup_insert_ne.
    - apply lookup_insert_eq. }
  intros b. apply triple_alloc.
  intros h t (Hsub & Ha & Hb & Hab & Hia & Hib) Ht.
  exists a, b.
  assert (t <> a) by congruence. assert (t <> b) by congruence.
  repeat split; try done.
  - etrans; [exact Hsub|by apply insert_subseteq].
  - by eapply fresh_from_sub.
  - eexists _, _. apply lookup_insert_eq.
  - by rewrite lookup_insert_ne.
  - exists []. by rewrite lookup_insert_ne.
Qed.

Lemma triple_clone_inputs t a b ils ls acc :
  triple (fun h => tmp_at h0 t a b ils h /\ Forall (new_input h0 h) acc)
    (hmapM (fun l =>
        let! txIn := load_input l in
        alloc (OInput (TxIn.mk (TxIn.hash txIn) (TxIn.index txIn)
                         (TxIn.script txIn) (TxIn.sequence txIn)
                         (TxIn.witness txIn)))) ls)
    (fun res h => tmp_at h0 t a b ils h /\
                  Forall (new_input h0 h) (acc ++ res)) E.
Proof.
  revert acc. induction ls as [|x ls IH]; intros acc; simpl.
  - apply triple_ret. intros h [Hinv Hacc]. by rewrite app_nil_r.
  - eapply triple_bind.
    { eapply triple_bind.
      { apply triple_load_input. intros h [Hinv _]. by eapply tmp_at_sub. }
      intros i.
      apply (triple_alloc h0 _ _
               (fun l h => tmp_at h0 t a b ils h /\
                           Forall (new_input h0 h) (acc ++ [l]))).
      intros h l [[Hinv Hacc] _] Hl.
      destruct (tmp_at_alloc h0 t a b ils h l (OInput
                  (TxIn.mk (TxIn.hash i) (TxIn.index i) (TxIn.script i)
                     (TxIn.sequence i) (TxIn.witness i))) Hinv Hl)
        as (Hinv' & Hl0 & _).
      split; [done|]. apply Forall_app. split.
      - eapply Forall_impl; [exact Hacc|]. intros l'.
        apply new_input_mono. by apply insert_subseteq.
      - apply Forall_singleton. split; [done|]. eexists.
        apply lookup_insert_eq. }
    intros y. eapply triple_bind; [apply (IH (acc ++ [y]))|].
    intros ys. apply triple_ret. intros h [Hinv Hall].
    split; [done|]. by rewrite <- app_assoc in Hall.
Qed.

Lemma triple_clone_outputs t a b ils ls :
  triple (tmp_at h0 t a b ils)
    (hmapM (fun l =>
        let! txOut := load_output l in
        alloc (OOutput (TxOut.mk (TxOut.script txOut) (TxOut.value txOut)
                          None))) ls)
    (fun _ => tmp_at h0 t a b ils) E.
Proof.
  induction ls as [|x ls IH]; simpl.
  - by apply triple_ret.
  - eapply triple_bind.
    { eapply triple_bind; [apply triple_load_output, tmp_at_sub|].
      intros o.
      apply (triple_alloc h0 _ _ (fun _ => tmp_at h0 t a b ils)).
      intros h l [Hinv _] Hl. by apply tmp_at_alloc. }
    intros y. eapply triple_bind; [apply IH|].
    intros ys. by apply triple_ret.
Qed.

(** [clone] leaves the caller's heap intact and returns a transaction
    that is new throughout. *)
Lemma triple_clone this :
  triple E (clone this) (fun t h => tmp_inv h0 t h) E.
Proof.
  unfold clone.
  eapply triple_bind; [apply triple_new_Transaction|].
  intros t. apply triple_exists. intros a0. apply triple_exists. intros b0.
  eapply triple_bind; [apply triple_load_tx, tmp_at_sub|].
  intros f.
  eapply triple_pre; [intros h [Hinv _]; exact Hinv|].
  eapply triple_bind; [apply triple_set_tx_version|]. intros [].
  eapply triple_bind; [apply triple_set_tx_locktime|]. intros [].
  eapply triple_bind; [apply triple_load_array, tmp_at_sub|].
  intros this_ins.
  eapply triple_bind.
  { eapply triple_pre; [|apply (triple_clone_inputs t a0 b0 [] this_ins [])].
    intros h [Hinv _]. split; [done|apply Forall_nil_2]. }
  intros new_ins. simpl.
  eapply triple_bind.
  { apply (triple_alloc h0 _ _
             (fun a h => tmp_at h0 t a0 b0 [] h /\ h0 !! a = None /\
                         a <> b0 /\ h !! a = Some (OArray new_ins) /\
                         Forall (new_input h0 h) new_ins)).
    intros h a [Hinv Hall] Ha.
    destruct (tmp_at_alloc h0 t a0 b0 [] h a (OArray new_ins) Hinv Ha)
      as (Hinv' & Ha0 & _ & _ & Hab).
    split; [exact Hinv'|]. split; [done|]. split; [done|].
    split; [apply lookup_insert_eq|].
    eapply Forall_impl; [exact Hall|]. intros l.
    apply new_input_mono. by apply insert_subseteq. }
  intros a.
  eapply triple_bind; [apply triple_set_tx_ins|]. intros [].
  eapply triple_bind; [apply triple_load_array, tmp_at_sub|].
  intros this_outs.
  eapply triple_pre; [intros h [Hinv _]; exact Hinv|].
  eapply triple_bind; [apply triple_clone_outputs|].
  intros new_outs.
  eapply triple_bind.
  { apply (triple_alloc h0 _ _
             (fun b h => tmp_at h0 t a b0 new_ins h /\ h0 !! b = None /\
                         a <> b /\
                         exists ols, h !! b = Some (OArray ols))).
    intros h b Hinv Hb.
    destruct (tmp_at_alloc h0 t a b0 new_ins h b (OArray new_outs) Hinv Hb)
      as (Hinv' & Hb0 & _ & Hba & _).
    split; [exact Hinv'|]. split; [done|]. split; [congruence|].
    eexists. apply lookup_insert_eq. }
  intros b.
  eapply triple_bind; [apply triple_set_tx_outs|]. intros [].
  apply triple_ret. intros h Hinv. by exists a, b, new_ins.
Qed.

End FrameHashers.

Section Readers.
Import Heap.

Lemma reader_ret {A} (a : A) : reader (hret a).
Proof. intros h. split; [done|]. by intros h' a' _ H. Qed.

Lemma reader_throw {A} e : reader (@hthrow A e).
Proof. intros h. split; [done|]. by intros h' a' _ H. Qed.

Lemma reader_lift {A} (r : result A) : reader (lift r).
Proof. intros h. split; [done|]. by intros h' a' _ H. Qed.

Lemma reader_bind {A B} (m : H A) (f : A -> H B) :
  reader m -> (forall a, reader (f a)) -> reader (hbind m f).
Proof.
  intros Hm Hf h. unfold hbind.
  destruct (Hm h) as [Hs Hmono].
  destruct (m h) as [[a|e] h1] eqn:Em; simpl in *; subst h1.
  - destruct (Hf a h) as [Hs' Hmono']. split; [done|].
    intros h' b Hsub Hb.
    specialize (Hmono h' a Hsub eq_refl).
    destruct (Hm h') as [Hsh' _].
    destruct (m h') as [r h1'] eqn:Em'. simpl in *. subst r h1'.
    by apply Hmono'.
  - split; [done|]. by intros h' b _ Hb.
Qed.

Lemma reader_load l : reader (load l).
Proof.
  intros h. unfold load. split; [by destruct (h !! l)|].
  intros h' o Hsub Ho. destruct (h !! l) as [o'|] eqn:El; [|done].
  simpl in Ho. injection Ho as ->.
  by rewrite (lookup_weaken _ _ _ _ El Hsub).
Qed.

Lemma reader_load_input l : reader (load_input l).
Proof.
  apply reader_bind; [apply reader_load|].
  intros []; auto using reader_ret, reader_throw.
Qed.

Lemma reader_load_output l : reader (load_output l).
Proof.
  apply reader_bind; [apply reader_load|].
  intros []; auto using reader_ret, reader_throw.
Qed.

Lemma reader_load_array l : reader (load_array l).
Proof.
  apply reader_bind; [apply reader_load|].
  intros []; auto using reader_ret, reader_throw.
Qed.

Lemma reader_load_tx l : reader (load_tx l).
Proof.
  apply reader_bind; [apply reader_load|].
  intros []; auto using reader_ret, reader_throw.
Qed.

Lemma reader_hmapM {A B} (f : A -> H B) ls :
  (forall x, reader (f x)) -> reader (hmapM f ls).
Proof.
  intros Hf. induction ls as [|x ls IH]; simpl; [apply reader_ret|].
  apply reader_bind; [apply Hf|]. intros y.
  apply reader_bind; [apply IH|]. intros ys. apply reader_ret.
Qed.

Lemma reader_read_tx t : reader (read_tx t).
Proof.
  unfold read_tx.
  apply reader_bind; [apply reader_load_tx|]. intros f.
  apply reader_bind; [apply reader_load_array|]. intros in_locs.
  apply reader_bind; [apply reader_hmapM, reader_load_input|]. intros inputs.
  apply reader_bind; [apply reader_load_array|]. intros out_locs.
  apply reader_bind; [apply reader_hmapM, reader_load_output|]. intros outputs.
  apply reader_ret.
Qed.

Lemma triple_reader {A} h0 (P : heap -> Prop) (m : H A) :
  reader m -> (forall h, P h -> h0 ⊆ h) ->
  triple P m (fun _ => P) (fun h => h0 ⊆ h).
Proof.
  intros Hr He h Hp. destruct (Hr h) as [Hs _].
  destruct (m h) as [[a|e] h']; simpl in Hs; subst h'; auto.
Qed.

Lemma snapshot_mono h h' t T :
  h ⊆ h' -> snapshot h t = Some T -> snapshot h' t = Some T.
Proof.
  intros Hsub. unfold snapshot. intros Hs.
  destruct (reader_read_tx t h) as [_ Hmono].
  destruct (read_tx t h) as [[T0|e] h1] eqn:Er; [|done].
  injection Hs as ->. specialize (Hmono h' T Hsub eq_refl).
  destruct (read_tx t h') as [r h1']. simpl in Hmono. by subst r.
Qed.

End Readers.

Section FrameMain.
Import Heap.
Variable h0 : heap.
Variable bscript : Script.
Variable BLANK : loc.

Let E : heap -> Prop := fun h => h0 ⊆ h.

Lemma triple_output_rule this t a b ils inIndex hashType :
  triple (tmp_at h0 t a b ils) (output_rule BLANK this t inIndex hashType)
         (fun _ => tmp_inv h0 t) E.
Proof.
  unfold output_rule.
  destruct (Z.land hashType 31 =? SIGHASH_NONE).
  { eapply triple_bind.
    { apply (triple_alloc h0 _ _
               (fun e h => tmp_at h0 t a b ils h /\ h0 !! e = None /\
                           a <> e /\ exists ols, h !! e = Some (OArray ols))).
      intros h e Hinv He.
      destruct (tmp_at_alloc h0 t a b ils h e (OArray []) Hinv He)
        as (Hinv' & He0 & _ & Hea & _).
      split; [exact Hinv'|]. split; [done|]. split; [congruence|].
      eexists. apply lookup_insert_eq. }
    intros e.
    eapply triple_bind; [apply triple_set_tx_outs|]. intros [].
    eapply triple_bind; [apply triple_zero_other_sequences|]. intros [].
    apply triple_ret. intros h Hinv. by exists a, e, ils. }
  destruct (Z.land hashType 31 =? SIGHASH_SINGLE).
  2:{ apply triple_ret. intros h Hinv. by exists a, b, ils. }
  eapply triple_bind; [apply triple_tx_outs, tmp_at_sub|].
  intros this_outs.
  eapply triple_pre; [intros h [Hinv _]; exact Hinv|].
  eapply triple_bind; [apply triple_load_array, tmp_at_sub|].
  intros elems.
  eapply triple_pre; [intros h [Hinv _]; exact Hinv|].
  destruct (blen elems <=? inIndex).
  { apply triple_ret. intros h Hinv. by exists a, b, ils. }
  eapply triple_bind; [apply triple_tx_outs, tmp_at_sub|].
  intros b'.
  apply (triple_extract h0 _ (b' = b)).
  { intros h [Hinv (v & lt & a' & Ht)].
    by destruct (tmp_at_outs _ _ _ _ _ _ _ _ _ _ Hinv Ht) as [_ ->]. }
  intros ->.
  eapply triple_pre; [intros h [Hinv _]; exact Hinv|].
  eapply triple_bind; [apply triple_array_set_length|]. intros [].
  eapply triple_bind.
  { apply triple_forEach; [apply tmp_at_sub|].
    intros i _. apply triple_array_set. }
  intros [].
  eapply triple_bind; [apply triple_zero_other_sequences|]. intros [].
  apply triple_ret. intros h Hinv. by exists a, b, ils.
Qed.

Lemma triple_input_rule t inIndex hashType ourScript :
  triple (tmp_inv h0 t) (input_rule t inIndex hashType ourScript)
         (fun _ => E) E.
Proof.
  unfold tmp_inv. apply triple_exists. intros a.
  apply triple_exists. intros b. apply triple_exists. intros ils.
  unfold input_rule.
  eapply triple_bind; [apply triple_tx_ins, tmp_at_sub|].
  intros a'. eapply triple_bind.
  { apply triple_load_array. intros h [Hinv _]. by eapply tmp_at_sub. }
  intros ls.
  apply (triple_extract h0 _ (a' = a /\ ls = ils)).
  { intros h [[Hinv (v & lt & b' & Ht)] Ha].
    by destruct (tmp_at_ins _ _ _ _ _ _ _ _ _ _ _ Hinv Ht Ha) as (-> & _ & ->). }
  intros [-> ->].
  eapply triple_pre; [intros h [[Hinv _] _]; exact Hinv|].
  destruct (negb (Z.land hashType SIGHASH_ANYONECANPAY =? 0)).
  - destruct (ils !! Z.to_nat inIndex) as [input|] eqn:Ei.
    2:{ apply triple_throw. apply tmp_at_sub. }
    apply list_elem_of_lookup_2 in Ei.
    eapply triple_bind.
    { apply (triple_alloc h0 _ _
               (fun a2 h => tmp_at h0 t a b ils h /\ h0 !! a2 = None /\
                            a2 <> b /\ h !! a2 = Some (OArray [input]) /\
                            Forall (new_input h0 h) [input])).
      intros h a2 Hinv Ha2.
      destruct (tmp_at_alloc h0 t a b ils h a2 (OArray [input]) Hinv Ha2)
        as (Hinv' & Ha0 & _ & _ & Hab).
      split; [exact Hinv'|]. split; [done|]. split; [done|].
      split; [apply lookup_insert_eq|].
      apply Forall_singleton. by eapply tmp_at_new_input. }
    intros a2.
    eapply triple_bind; [apply triple_set_tx_ins|]. intros [].
    eapply triple_post; [|apply triple_set_input_script; by left].
    intros [] h. apply tmp_at_sub.
  - eapply triple_bind.
    { apply triple_forEach; [apply tmp_at_sub|].
      intros x Hx. by apply triple_set_input_script. }
    intros [].
    destruct (ils !! Z.to_nat inIndex) as [input|] eqn:Ei.
    2:{ apply triple_throw. apply tmp_at_sub. }
    apply list_elem_of_lookup_2 in Ei.
    eapply triple_post; [|by apply triple_set_input_script].
    intros [] h. apply tmp_at_sub.
Qed.

Lemma triple_hashForSignature this inIndex prevOutScript hashType :
  triple E (hashForSignature bscript BLANK this inIndex prevOutScript hashType)
         (fun _ => E) E.
Proof.
  unfold hashForSignature.
  eapply triple_bind.
  { apply (triple_lift h0 E _ (fun _ => E)); auto. }
  intros [].
  eapply triple_bind.
  { apply (triple_reader h0 E).
    - apply reader_bind; [apply reader_load_tx|]. intros f. apply reader_ret.
    - auto. }
  intros this_ins.
  eapply triple_bind.
  { apply (triple_reader h0 E); [apply reader_load_array|auto]. }
  intros elems.
  destruct (blen elems <=? inIndex); [by apply triple_ret|].
  eapply triple_bind; [apply triple_clone|].
  intros txTmp. unfold tmp_inv at 1.
  apply triple_exists. intros a. apply triple_exists. intros b.
  apply triple_exists. intros ils.
  eapply triple_bind; [apply triple_output_rule|].
  intros [|].
  { apply triple_ret. intros h (a' & b' & ils' & Hinv). by eapply tmp_at_sub. }
  eapply triple_bind; [apply triple_input_rule|]. intros [].
  eapply triple_bind.
  { apply (triple_reader h0 E); [apply reader_read_tx|auto]. }
  intros T. apply triple_lift; auto.
Qed.

End FrameMain.

(** Every object of the caller's heap is still there, unchanged, after
    [hashForSignature]. *)
Lemma hashForSignature_frame bscript BLANK this inIndex prevOutScript
    hashType (h : Heap.heap) :
  h ⊆ snd (Heap.hashForSignature bscript BLANK this inIndex prevOutScript
             hashType h).
Proof.
  pose proof (triple_hashForSignature h bscript BLANK this inIndex
                prevOutScript hashType h) as H.
  destruct (Heap.hashForSignature _ _ _ _ _ _ h) as [[r|e] h']; by apply H.
Qed.

Lemma hashForWitnessV0_frame this inIndex prevOutScript value hashType
    (h : Heap.heap) :
  snd (Heap.hashForWitnessV0 this inIndex prevOutScript value hashType h) = h.
Proof.
  assert (Hr : reader (Heap.hashForWitnessV0 this inIndex prevOutScript
                         value hashType)).
  { apply reader_bind; [apply reader_read_tx|]. intros T. apply reader_lift. }
  apply Hr.
Qed.

(** C10: neither hasher changes the transaction it is called on.  After
    [hashForSignature], whether it returns or throws, every object that
    was on the heap is there unchanged (the hasher assigns only to the
    objects of the clone it allocates), so the transaction reads as
    before: same version, locktime, inputs and outputs.
    [hashForWitnessV0] leaves the whole heap as it was. *)
Theorem hashers_leave_transaction_unchanged (bscript : Script)
    (BLANK this : Heap.loc) (inIndex : Z) (prevOutScript : bytes)
    (value hashType : Z) (h : Heap.heap) :
  let h1 := snd (Heap.hashForSignature bscript BLANK this inIndex
                   prevOutScript hashType h) in
  let h2 := snd (Heap.hashForWitnessV0 this inIndex prevOutScript value
                   hashType h) in
  (forall l o, h !! l = Some o -> h1 !! l = Some o) /\
  (forall T, Heap.snapshot h this = Some T ->
             Heap.snapshot h1 this = Some T) /\
  h2 = h.
Proof.
  intros h1 h2.
  assert (Hsub : h ⊆ h1) by apply hashForSignature_frame.
  split; [|split].
  - intros l o Hl. by eapply lookup_weaken.
  - intros T. by apply snapshot_mono.
  - apply hashForWitnessV0_frame.
Qed.

(** ** The pre-images *)

Lemma length_be_bytes n v : length (SHA256.be_bytes n v) = n.
Proof.
  revert v. induction n as [|n IH]; intros v; simpl; [done|].
  rewrite length_app, IH. simpl. lia.
Qed.

Lemma length_sha256 m : length (SHA256.sha256 m) = 32%nat.
Proof.
  unfold SHA256.sha256, SHA256.digest.
  by rewrite !length_app, !length_be_bytes.
Qed.

Lemma length_hash256 m : length (hash256 m) = 32%nat.
Proof. apply length_sha256. Qed.

(** What the legacy hasher hashes: the temporary transaction without
    witness data, then the hash type as four little-endian bytes. *)
Lemma sighash_digest_serialize txTmp hashType :
  wf_tx txTmp -> is_int32 hashType ->
  sighash_digest txTmp hashType =
  Ok (hash256 (serialize txTmp false ++ le_bytes 4 hashType)).
Proof.
  intros Hwf Hht. unfold sighash_digest.
  set (L := __byteLength txTmp false).
  assert (HL : L = blen (serialize txTmp false))
    by (symmetry; by apply blen_serialize).
  assert (Halloc : Buffer.allocUnsafe (L + 4) =
                   repeat x00 (length (serialize txTmp false)) ++
                   repeat x00 4 ++ []).
  { unfold Buffer.allocUnsafe. rewrite HL. unfold blen.
    rewrite app_nil_r, <- repeat_app. f_equal. lia. }
  rewrite Halloc.
  assert (Hoff : blen (repeat x00 (length (serialize txTmp false)) ++
                       repeat x00 4 ++ []) - 4 =
                 blen (repeat x00 (length (serialize txTmp false)))).
  { rewrite !blen_app. unfold blen. simpl. lia. }
  rewrite Hoff. unfold Buffer.writeInt32LE.
  rewrite writeInt_at by done. cbn [rbind].
  unfold __toBuffer.
  pose proof (writes_toBuffer txTmp false Hwf []
                (repeat x00 (length (serialize txTmp false)))
                (le_bytes 4 hashType ++ [])) as Hw.
  rewrite !app_nil_l in Hw. change (blen []) with 0 in Hw.
  rewrite Hw by (by rewrite repeat_length).
  cbn [rbind]. by rewrite app_nil_r.
Qed.

(** What the witness-v0 hasher hashes. *)
Lemma witness_v0_preimage this inIndex prevOutScript value hashType input
    hp hs ho :
  is_uint32 (version this) -> is_uint32 (locktime this) ->
  ins this !! Z.to_nat inIndex = Some input -> wf_in input ->
  safe_length prevOutScript -> is_uint64 value -> is_uint32 hashType ->
  length hp = 32%nat -> length hs = 32%nat -> length ho = 32%nat ->
  filled (156 + varSliceSize prevOutScript)
    (witness_preimage_writes this (Some input) prevOutScript value hashType
       hp hs ho) =
  Ok (le_bytes 4 (version this) ++ hp ++ hs ++
      TxIn.hash input ++ le_bytes 4 (TxIn.index input) ++
      varslice_bytes prevOutScript ++ le_bytes 8 value ++
      le_bytes 4 (TxIn.sequence input) ++ ho ++
      le_bytes 4 (locktime this) ++ le_bytes 4 hashType).
Proof.
  intros Hv Hl Hin [Hh Hi _ Hq _ _] Hs Hval Hht Hhp Hhs Hho.
  apply filled_writes.
  - unfold witness_preimage_writes.
    apply writes_bind; [by apply writes_writeUInt32|].
    apply writes_bind; [apply writes_writeSlice|].
    apply writes_bind; [apply writes_writeSlice|].
    apply writes_bind; [apply writes_writeSlice|].
    apply writes_bind; [by apply writes_writeUInt32|].
    apply writes_bind; [by apply writes_writeVarSlice|].
    apply writes_bind; [by apply writes_writeUInt64|].
    apply writes_bind; [by apply writes_writeUInt32|].
    apply writes_bind; [apply writes_writeSlice|].
    apply writes_bind; by apply writes_writeUInt32.
  - rewrite !blen_app, !blen_le_bytes, blen_varslice_bytes.
    unfold blen. rewrite Hhp, Hhs, Hho, Hh. lia.
Qed.

Lemma hashOutputs_single T inIndex hashType output :
  Forall wf_out (outs T) -> Forall plain_output (outs T) ->
  Z.land hashType 0x1f = SIGHASH_SINGLE ->
  0 <= inIndex -> outs T !! Z.to_nat inIndex = Some output ->
  hashOutputs T inIndex hashType = Ok (hash256 (output_bytes output)).
Proof.
  intros Ho Hp Hs Hi Hlook. unfold hashOutputs. rewrite Hs.
  change (SIGHASH_SINGLE =? SIGHASH_SINGLE) with true.
  change (SIGHASH_SINGLE =? SIGHASH_NONE) with false.
  simpl andb. cbv iota.
  assert (Hlt : (inIndex <? blen (outs T)) = true).
  { apply Z.ltb_lt. apply lookup_lt_Some in Hlook. unfold blen. lia. }
  rewrite Hlt, Hlook.
  rewrite Forall_forall in Ho, Hp.
  apply list_elem_of_lookup_2 in Hlook.
  rewrite (filled_writes _ (output_bytes output)); [done| |].
  - apply writes_write_output; auto.
  - rewrite blen_output_bytes; auto.
Qed.

Lemma hashOutputs_length T inIndex hashType ho :
  hashOutputs T inIndex hashType = Ok ho -> length ho = 32%nat.
Proof.
  unfold hashOutputs, rbind. intros H.
  repeat case_match; simplify_eq;
    lazymatch goal with
    | |- length (hash256 _) = _ => apply length_hash256
    | |- length ZERO = _ => reflexivity
    end.
Qed.

Lemma hashPrevouts_length T hashType hp :
  hashPrevouts T hashType = Ok hp -> length hp = 32%nat.
Proof.
  unfold hashPrevouts, rbind. intros H.
  repeat case_match; simplify_eq;
    lazymatch goal with
    | |- length (hash256 _) = _ => apply length_hash256
    | |- length ZERO = _ => reflexivity
    end.
Qed.

Lemma hashSequence_length T hashType hs :
  hashSequence T hashType = Ok hs -> length hs = 32%nat.
Proof.
  unfold hashSequence, rbind. intros H.
  repeat case_match; simplify_eq;
    lazymatch goal with
    | |- length (hash256 _) = _ => apply length_hash256
    | |- length ZERO = _ => reflexivity
    end.
Qed.

(** [hashForWitnessV0] hashes the pre-image of the spec, with the three
    sub-digests in their places. *)
Lemma hashForWitnessV0_preimage this inIndex prevOutScript value hashType
    input hp hs ho :
  is_uint32 (version this) -> is_uint32 (locktime this) ->
  0 <= inIndex <= 0xffffffff ->
  ins this !! Z.to_nat inIndex = Some input -> wf_in input ->
  safe_length prevOutScript -> is_uint64 value -> is_uint32 hashType ->
  hashPrevouts this hashType = Ok hp ->
  hashSequence this hashType = Ok hs ->
  hashOutputs this inIndex hashType = Ok ho ->
  hashForWitnessV0 this inIndex prevOutScript value hashType =
  Ok (hash256
        (le_bytes 4 (version this) ++ hp ++ hs ++
         TxIn.hash input ++ le_bytes 4 (TxIn.index input) ++
         varslice_bytes prevOutScript ++ le_bytes 8 value ++
         le_bytes 4 (TxIn.sequence input) ++ ho ++
         le_bytes 4 (locktime this) ++ le_bytes 4 hashType)).
Proof.
  intros Hv Hl Hi Hin Hwf Hs Hval Hht Hp Hq Ho.
  unfold hashForWitnessV0, types.UInt32, types.Satoshi.
  unfold is_uint64, is_uint32 in Hval, Hht.
  replace ((0 <=? inIndex) && (inIndex <=? 4294967295) &&
           ((0 <=? value) && (value <=? 18446744073709551615)) &&
           ((0 <=? hashType) && (hashType <=? 4294967295))) with true.
  2:{ symmetry. rewrite !andb_true_iff, !Z.leb_le. lia. }
  cbn [typeforce rbind]. rewrite Hp, Hq, Ho. cbn [rbind]. rewrite Hin.
  rewrite (witness_v0_preimage this inIndex prevOutScript value hashType
             input hp hs ho); try done.
  - by eapply hashPrevouts_length.
  - by eapply hashSequence_length.
  - by eapply hashOutputs_length.
Qed.

(** ** The heap hasher computes what the hasher on values computes *)

Section Runs.
Import Heap.

Lemma runs_ret {A} (P : heap -> Prop) (a : A) (Q : A -> heap -> Prop) :
  (forall h, P h -> Q a h) -> runs P (hret a) Q.
Proof. intros H h Hp. exists a, h. split; [done|by apply H]. Qed.

Lemma runs_bind {A B} P (m : H A) (f : A -> H B) R Q :
  runs P m R -> (forall a, runs (R a) (f a) Q) -> runs P (hbind m f) Q.
Proof.
  intros Hm Hf h Hp. destruct (Hm h Hp) as (a & h1 & Em & Hr).
  destruct (Hf a h1 Hr) as (b & h2 & Ef & Hq).
  exists b, h2. unfold hbind. by rewrite Em.
Qed.

Lemma runs_pre {A} (P P' : heap -> Prop) (m : H A) Q :
  (forall h, P h -> P' h) -> runs P' m Q -> runs P m Q.
Proof. intros Hpp Hm h Hp. apply Hm. by apply Hpp. Qed.

Lemma runs_post {A} (P : heap -> Prop) (m : H A) (Q Q' : A -> heap -> Prop) :
  (forall a h, Q a h -> Q' a h) -> runs P m Q -> runs P m Q'.
Proof.
  intros Hqq Hm h Hp. destruct (Hm h Hp) as (a & h' & Em & Hq).
  exists a, h'. split; [done|by apply Hqq].
Qed.

Lemma runs_exists {A X} (P : X -> heap -> Prop) (m : H A) Q :
  (forall x, runs (P x) m Q) -> runs (fun h => exists x, P x h) m Q.
Proof. intros Hm h [x Hp]. by eapply Hm. Qed.

Lemma runs_extract {A} (P : heap -> Prop) (phi : Prop) (m : H A) Q :
  (forall h, P h -> phi) -> (phi -> runs P m Q) -> runs P m Q.
Proof. intros Hphi Hm h Hp. apply Hm; [by eapply Hphi|done]. Qed.

Lemma runs_load (P : heap -> Prop) l o :
  (forall h, P h -> h !! l = Some o) ->
  runs P (load l) (fun r h => r = o /\ P h).
Proof.
  intros Hl h Hp. exists o, h. unfold load. by rewrite (Hl h Hp).
Qed.

Lemma runs_store (P : heap -> Prop) l o Q :
  (forall h, P h -> Q tt (<[l := o]> h)) -> runs P (store l o) Q.
Proof. intros H h Hp. exists tt, (<[l := o]> h). split; [done|by apply H]. Qed.

Lemma runs_alloc (P : heap -> Prop) o Q :
  (forall h l, P h -> h !! l = None -> Q l (<[l := o]> h)) ->
  runs P (alloc o) Q.
Proof.
  intros H h Hp. eexists _, _. split; [reflexivity|].
  apply H; [done|]. apply not_elem_of_dom. apply is_fresh.
Qed.

Lemma runs_load_input (P : heap -> Prop) l x :
  (forall h, P h -> in_at h l x) ->
  runs P (load_input l) (fun r h => r = x /\ P h).
Proof.
  intros Hl. eapply runs_bind; [by apply (runs_load P l (OInput x))|].
  intros o. apply (runs_extract _ (o = OInput x)); [by intros h [-> _]|].
  intros ->. apply runs_ret. by intros h [_ Hp].
Qed.

Lemma runs_load_output (P : heap -> Prop) l x :
  (forall h, P h -> out_at h l x) ->
  runs P (load_output l) (fun r h => r = x /\ P h).
Proof.
  intros Hl. eapply runs_bind; [by apply (runs_load P l (OOutput x))|].
  intros o. apply (runs_extract _ (o = OOutput x)); [by intros h [-> _]|].
  intros ->. apply runs_ret. by intros h [_ Hp].
Qed.

Lemma runs_load_array (P : heap -> Prop) l ls :
  (forall h, P h -> h !! l = Some (OArray ls)) ->
  runs P (load_array l) (fun r h => r = ls /\ P h).
Proof.
  intros Hl. eapply runs_bind; [by apply (runs_load P l (OArray ls))|].
  intros o. apply (runs_extract _ (o = OArray ls)); [by intros h [-> _]|].
  intros ->. apply runs_ret. by intros h [_ Hp].
Qed.

Lemma runs_load_tx (P : heap -> Prop) l v lt a b :
  (forall h, P h -> h !! l = Some (OTransaction v lt a b)) ->
  runs P (load_tx l) (fun r h => r = (v, lt, a, b) /\ P h).
Proof.
  intros Hl.
  eapply runs_bind; [by apply (runs_load P l (OTransaction v lt a b))|].
  intros o.
  apply (runs_extract _ (o = OTransaction v lt a b)); [by intros h [-> _]|].
  intros ->. apply runs_ret. by intros h [_ Hp].
Qed.

Lemma runs_tx_ins (P : heap -> Prop) l v lt a b :
  (forall h, P h -> h !! l = Some (OTransaction v lt a b)) ->
  runs P (tx_ins l) (fun r h => r = a /\ P h).
Proof.
  intros Hl. eapply runs_bind; [by eapply runs_load_tx|].
  intros f. apply runs_ret. by intros h [-> Hp].
Qed.

Lemma runs_tx_outs (P : heap -> Prop) l v lt a b :
  (forall h, P h -> h !! l = Some (OTransaction v lt a b)) ->
  runs P (tx_outs l) (fun r h => r = b /\ P h).
Proof.
  intros Hl. eapply runs_bind; [by eapply runs_load_tx|].
  intros f. apply runs_ret. by intros h [-> Hp].
Qed.

(** A run that returns, seen as a triple. *)
Lemma runs_triple {A} (P P' : heap -> Prop) (m : H A) Q Q' E :
  triple P m Q E -> runs P' m Q' ->
  runs (fun h => P h /\ P' h) m (fun a h => Q a h /\ Q' a h).
Proof.
  intros Ht Hr h [Hp Hp']. destruct (Hr h Hp') as (a & h' & Em & Hq').
  exists a, h'. split; [done|]. split; [|done].
  specialize (Ht h Hp). by rewrite Em in Ht.
Qed.

End Runs.

Section Representation.
Import Heap.

Lemma in_at_mono h h' l x : h ⊆ h' -> in_at h l x -> in_at h' l x.
Proof. intros Hsub Hl. by eapply lookup_weaken. Qed.

Lemma out_at_mono h h' l x : h ⊆ h' -> out_at h l x -> out_at h' l x.
Proof. intros Hsub Hl. by eapply lookup_weaken. Qed.

Lemma repr_mono h h' t T a b ils ols :
  h ⊆ h' -> repr h t T a b ils ols -> repr h' t T a b ils ols.
Proof.
  intros Hsub (Ht & Ha & Hb & Hi & Ho).
  repeat split; try (by eapply lookup_weaken).
  - eapply Forall2_impl; [exact Hi|]. intros l x. by apply in_at_mono.
  - eapply Forall2_impl; [exact Ho|]. intros l x. by apply out_at_mono.
Qed.

Lemma Forall2_in_at_elem h ls xs l :
  Forall2 (in_at h) ls xs -> l ∈ ls -> exists x, h !! l = Some (OInput x).
Proof.
  intros HF Hl. apply list_elem_of_lookup_1 in Hl as [k Hk].
  destruct (Forall2_lookup_l _ _ _ _ _ HF Hk) as (x & _ & Hx). by exists x.
Qed.

Lemma Forall2_in_at_insert h ls xs l o :
  l ∉ ls -> Forall2 (in_at h) ls xs -> Forall2 (in_at (<[l := o]> h)) ls xs.
Proof.
  intros Hl HF. induction HF as [|l' x ls xs Hx HF IH]; [constructor|].
  apply not_elem_of_cons in Hl as [Hne Hl]. constructor; [|by apply IH].
  unfold in_at. by rewrite lookup_insert_ne.
Qed.

Lemma Forall2_out_at_insert h ls xs l o :
  (forall x, h !! l <> Some (OOutput x)) ->
  Forall2 (out_at h) ls xs -> Forall2 (out_at (<[l := o]> h)) ls xs.
Proof.
  intros Hl HF. eapply Forall2_impl; [exact HF|].
  intros l' x Hx. unfold out_at in *.
  rewrite lookup_insert_ne; [done|]. intros ->. by eapply Hl.
Qed.

Lemma Forall2_in_at_insert_kind h ls xs l o :
  (forall x, h !! l <> Some (OInput x)) ->
  Forall2 (in_at h) ls xs -> Forall2 (in_at (<[l := o]> h)) ls xs.
Proof.
  intros Hl HF. eapply Forall2_impl; [exact HF|].
  intros l' x Hx. unfold in_at in *.
  rewrite lookup_insert_ne; [done|]. intros ->. by eapply Hl.
Qed.

(** The input objects have been assigned to, nothing else. *)
Lemma repr_inputs_updated h h' t T a b ils ols xs' :
  repr h t T a b ils ols ->
  Forall2 (in_at h') ils xs' ->
  (forall l, l ∉ ils -> h' !! l = h !! l) ->
  repr h' t (set_ins xs' T) a b ils ols.
Proof.
  intros (Ht & Ha & Hb & Hi & Ho) Hi' Hframe.
  assert (Hkind : forall l o, h !! l = Some o ->
                    (forall x, o <> OInput x) -> h' !! l = Some o).
  { intros l o Hl Hk. rewrite Hframe; [done|]. intros Hin.
    destruct (Forall2_in_at_elem _ _ _ _ Hi Hin) as [x Hx].
    rewrite Hx in Hl. injection Hl as <-. by eapply Hk. }
  repeat split; simpl; try (by apply Hkind).
  - done.
  - eapply Forall2_impl; [exact Ho|]. intros l x Hx. by apply Hkind.
Qed.

(** The transaction object has been assigned to. *)
Lemma repr_store_tx h t T a b ils ols v' lt' a' b' ils' ols' xs' os' :
  repr h t T a b ils ols ->
  h !! a' = Some (OArray ils') -> h !! b' = Some (OArray ols') ->
  Forall2 (in_at h) ils' xs' -> Forall2 (out_at h) ols' os' ->
  repr (<[t := OTransaction v' lt' a' b']> h) t
       (mkTransaction v' lt' xs' os') a' b' ils' ols'.
Proof.
  intros (Ht & _) Ha' Hb' Hi' Ho'.
  assert (t <> a') by congruence. assert (t <> b') by congruence.
  repeat split; simpl.
  - apply lookup_insert_eq.
  - by rewrite lookup_insert_ne.
  - by rewrite lookup_insert_ne.
  - apply Forall2_in_at_insert_kind; [|done]. intros x. congruence.
  - apply Forall2_out_at_insert; [|done]. intros x. congruence.
Qed.

(** The output array has been assigned to. *)
Lemma repr_store_outs h t T a b ils ols ols' os' :
  repr h t T a b ils ols -> a <> b ->
  Forall2 (out_at h) ols' os' ->
  repr (<[b := OArray ols']> h) t (set_outs os' T) a b ils ols'.
Proof.
  intros (Ht & Ha & Hb & Hi & Ho) Hab Ho'.
  assert (b <> t) by congruence.
  repeat split; simpl.
  - by rewrite lookup_insert_ne.
  - by rewrite lookup_insert_ne.
  - apply lookup_insert_eq.
  - apply Forall2_in_at_insert_kind; [|done]. intros x. congruence.
  - apply Forall2_out_at_insert; [|done]. intros x. congruence.
Qed.

(** Assigning to a property of every input object in turn. *)
Lemma input_loop (f : nat -> loc -> H unit) (g : nat -> TxIn.t -> TxIn.t) :
  (forall j l x h, h !! l = Some (OInput x) ->
                   f j l h = (Ok tt, <[l := OInput (g j x)]> h)) ->
  forall ls xs i h,
    NoDup ls -> Forall2 (in_at h) ls xs ->
    exists h',
      hforEachI f i ls h = (Ok tt, h') /\
      Forall2 (in_at h') ls (imap (fun j => g (i + j)%nat) xs) /\
      (forall l, l ∉ ls -> h' !! l = h !! l).
Proof.
  intros Hf ls. induction ls as [|l ls IH]; intros xs i h Hnd HF.
  - apply Forall2_nil_inv_l in HF as ->. exists h. repeat split; constructor.
  - apply Forall2_cons_inv_l in HF as (x & xs' & Hx & HF & ->).
    apply NoDup_cons in Hnd as [Hl Hnd].
    destruct (IH xs' (S i) (<[l := OInput (g i x)]> h) Hnd)
      as (h' & Erun & HF' & Hframe).
    { by apply Forall2_in_at_insert. }
    exists h'. split; [|split].
    + simpl. unfold hbind. by rewrite (Hf i l x h Hx).
    + simpl. constructor.
      * unfold in_at. rewrite Hframe by done.
        rewrite Nat.add_0_r. apply lookup_insert_eq.
      * erewrite imap_ext; [exact HF'|].
        intros j y _. simpl. f_equal. lia.
    + intros l' Hl'. apply not_elem_of_cons in Hl' as [Hne Hl'].
      rewrite Hframe by done. by rewrite lookup_insert_ne.
Qed.

Lemma hforEach_as_indexed {A} (f : A -> H unit) ls i :
  hforEach f ls = hforEachI (fun _ => f) i ls.
Proof.
  revert i. induction ls as [|x ls IH]; intros i; simpl; [done|].
  by rewrite (IH (S i)).
Qed.

End Representation.

Section Refinement.
Variable h0 : Heap.heap.

Lemma load_tx_ok h t v lt a b :
  h !! t = Some (Heap.OTransaction v lt a b) ->
  Heap.load_tx t h = (Ok (v, lt, a, b), h).
Proof. intros H. unfold Heap.load_tx, Heap.hbind, Heap.load. by rewrite H. Qed.

Lemma tx_ins_ok h t v lt a b :
  h !! t = Some (Heap.OTransaction v lt a b) -> Heap.tx_ins t h = (Ok a, h).
Proof.
  intros H. unfold Heap.tx_ins, Heap.hbind. by rewrite (load_tx_ok _ _ _ _ _ _ H).
Qed.

Lemma tx_outs_ok h t v lt a b :
  h !! t = Some (Heap.OTransaction v lt a b) -> Heap.tx_outs t h = (Ok b, h).
Proof.
  intros H. unfold Heap.tx_outs, Heap.hbind. by rewrite (load_tx_ok _ _ _ _ _ _ H).
Qed.

Lemma load_array_ok h a ls :
  h !! a = Some (Heap.OArray ls) -> Heap.load_array a h = (Ok ls, h).
Proof. intros H. unfold Heap.load_array, Heap.hbind, Heap.load. by rewrite H. Qed.

Lemma load_input_ok h l x :
  in_at h l x -> Heap.load_input l h = (Ok x, h).
Proof. intros H. unfold Heap.load_input, Heap.hbind, Heap.load. by rewrite H. Qed.

Lemma load_output_ok h l x :
  out_at h l x -> Heap.load_output l h = (Ok x, h).
Proof. intros H. unfold Heap.load_output, Heap.hbind, Heap.load. by rewrite H. Qed.

Lemma set_input_sequence_ok h l x s :
  h !! l = Some (Heap.OInput x) ->
  Heap.set_input_sequence l s h =
  (Ok tt, <[l := Heap.OInput (set_sequence s x)]> h).
Proof.
  intros H. unfold Heap.set_input_sequence, Heap.hbind.
  by rewrite (load_input_ok _ _ _ H).
Qed.

Lemma set_input_script_ok h l x s :
  h !! l = Some (Heap.OInput x) ->
  Heap.set_input_script l s h =
  (Ok tt, <[l := Heap.OInput (set_script s x)]> h).
Proof.
  intros H. unfold Heap.set_input_script, Heap.hbind.
  by rewrite (load_input_ok _ _ _ H).
Qed.

Lemma set_tx_ins_ok h t v lt a b a' :
  h !! t = Some (Heap.OTransaction v lt a b) ->
  Heap.set_tx_ins t a' h = (Ok tt, <[t := Heap.OTransaction v lt a' b]> h).
Proof.
  intros H. unfold Heap.set_tx_ins, Heap.hbind.
  by rewrite (load_tx_ok _ _ _ _ _ _ H).
Qed.

Lemma set_tx_outs_ok h t v lt a b b' :
  h !! t = Some (Heap.OTransaction v lt a b) ->
  Heap.set_tx_outs t b' h = (Ok tt, <[t := Heap.OTransaction v lt a b']> h).
Proof.
  intros H. unfold Heap.set_tx_outs, Heap.hbind.
  by rewrite (load_tx_ok _ _ _ _ _ _ H).
Qed.

Lemma set_tx_version_ok h t v lt a b v' :
  h !! t = Some (Heap.OTransaction v lt a b) ->
  Heap.set_tx_version t v' h = (Ok tt, <[t := Heap.OTransaction v' lt a b]> h).
Proof.
  intros H. unfold Heap.set_tx_version, Heap.hbind.
  by rewrite (load_tx_ok _ _ _ _ _ _ H).
Qed.

Lemma set_tx_locktime_ok h t v lt a b lt' :
  h !! t = Some (Heap.OTransaction v lt a b) ->
  Heap.set_tx_locktime t lt' h =
  (Ok tt, <[t := Heap.OTransaction v lt' a b]> h).
Proof.
  intros H. unfold Heap.set_tx_locktime, Heap.hbind.
  by rewrite (load_tx_ok _ _ _ _ _ _ H).
Qed.

Lemma tmp_repr_inputs_updated t T a b ils ols h h' xs' :
  tmp_repr h0 t T a b ils ols h ->
  tmp_at h0 t a b ils h' ->
  Forall2 (in_at h') ils xs' ->
  (forall l, l ∉ ils -> h' !! l = h !! l) ->
  tmp_repr h0 t (set_ins xs' T) a b ils ols h'.
Proof.
  intros (Hat & Hnd & Hrepr) Hat' Hi' Hframe.
  split; [done|]. split; [done|]. by eapply repr_inputs_updated.
Qed.

(** [zero_other_sequences] on the heap does what the function on lists
    does. *)
Lemma run_zero_other_sequences t T a b ils ols inIndex :
  runs (tmp_repr h0 t T a b ils ols)
       (Heap.zero_other_sequences t inIndex)
       (fun _ => tmp_repr h0 t
                   (set_ins (zero_other_sequences inIndex (ins T)) T)
                   a b ils ols).
Proof.
  intros h Hinv. pose proof Hinv as (Hat & Hnd & Ht & Ha & Hb & Hi & Ho).
  destruct (input_loop
              (fun i input =>
                 if Z.of_nat i =? inIndex then Heap.hret tt
                 else Heap.set_input_sequence input 0)
              (fun i input =>
                 if Z.of_nat i =? inIndex then input
                 else set_sequence 0 input)) with
    (ls := ils) (xs := ins T) (i := 0%nat) (h := h)
    as (h' & Erun & HF & Hframe); [|done|done|].
  { intros j l x h1 Hx. destruct (Z.of_nat j =? inIndex).
    - unfold Heap.hret. by rewrite insert_id.
    - by apply set_input_sequence_ok. }
  assert (E : Heap.zero_other_sequences t inIndex h = (Ok tt, h')).
  { unfold Heap.zero_other_sequences, Heap.hbind.
    by rewrite (tx_ins_ok _ _ _ _ _ _ Ht), (load_array_ok _ _ _ Ha). }
  exists tt, h'. split; [done|].
  eapply tmp_repr_inputs_updated; [exact Hinv| |exact HF|exact Hframe].
  pose proof (triple_zero_other_sequences h0 t a b ils inIndex h Hat) as Htr.
  by rewrite E in Htr.
Qed.

(** [for (let i = 0; i < inIndex; i++) txTmp.outs[i] = BLANK_OUTPUT] *)
Lemma blank_loop b BLANK is_ :
  forall h ols,
    h !! b = Some (Heap.OArray ols) ->
    Heap.hforEach (fun i => Heap.array_set b i BLANK) is_ h =
    (Ok tt,
     <[b := Heap.OArray (fold_left (fun o i => <[i := BLANK]> o) is_ ols)]> h).
Proof.
  induction is_ as [|i is_ IH]; intros h ols Hb; simpl.
  - unfold Heap.hret. by rewrite insert_id.
  - unfold Heap.hbind, Heap.array_set at 1. unfold Heap.hbind.
    rewrite (load_array_ok _ _ _ Hb). unfold Heap.store.
    rewrite (IH _ (<[i := BLANK]> ols)) by apply lookup_insert_eq.
    by rewrite insert_insert_eq.
Qed.

Lemma Forall2_fold_insert {A B} (R : A -> B -> Prop) x y is_ :
  R x y ->
  forall l k, Forall2 R l k ->
    Forall2 R (fold_left (fun o i => <[i := x]> o) is_ l)
              (fold_left (fun o i => <[i := y]> o) is_ k).
Proof.
  intros Hxy. induction is_ as [|i is_ IH]; intros l k HF; simpl; [done|].
  apply IH. by apply Forall2_insert.
Qed.

End Refinement.

Section Snapshots.

Lemma hmapM_load_input_ok h ls xs :
  Forall2 (in_at h) ls xs ->
  Heap.hmapM Heap.load_input ls h = (Ok xs, h).
Proof.
  induction 1 as [|l x ls xs Hx HF IH]; simpl; [done|].
  unfold Heap.hbind. rewrite (load_input_ok _ _ _ Hx), IH. done.
Qed.

Lemma hmapM_load_output_ok h ls xs :
  Forall2 (out_at h) ls xs ->
  Heap.hmapM Heap.load_output ls h = (Ok xs, h).
Proof.
  induction 1 as [|l x ls xs Hx HF IH]; simpl; [done|].
  unfold Heap.hbind. rewrite (load_output_ok _ _ _ Hx), IH. done.
Qed.

Lemma hmapM_load_input_inv h ls xs h' :
  Heap.hmapM Heap.load_input ls h = (Ok xs, h') ->
  Forall2 (in_at h) ls xs.
Proof.
  revert xs h'. induction ls as [|l ls IH]; intros xs h'; simpl.
  - intros [= <- _]. constructor.
  - unfold Heap.hbind at 1, Heap.load_input at 1, Heap.hbind at 1, Heap.load.
    destruct (h !! l) as [[x| | |]|] eqn:El; try done.
    unfold Heap.hret at 1, Heap.hbind at 1.
    destruct (Heap.hmapM Heap.load_input ls h) as [[ys|e] h1] eqn:Em; [|done].
    unfold Heap.hret. intros [= <- _]. constructor; [done|].
    by apply (IH ys h1).
Qed.

Lemma hmapM_load_output_inv h ls xs h' :
  Heap.hmapM Heap.load_output ls h = (Ok xs, h') ->
  Forall2 (out_at h) ls xs.
Proof.
  revert xs h'. induction ls as [|l ls IH]; intros xs h'; simpl.
  - intros [= <- _]. constructor.
  - unfold Heap.hbind at 1, Heap.load_output at 1, Heap.hbind at 1, Heap.load.
    destruct (h !! l) as [[|x| |]|] eqn:El; try done.
    unfold Heap.hret at 1, Heap.hbind at 1.
    destruct (Heap.hmapM Heap.load_output ls h) as [[ys|e] h1] eqn:Em; [|done].
    unfold Heap.hret. intros [= <- _]. constructor; [done|].
    by apply (IH ys h1).
Qed.

Lemma repr_read_tx h t T a b ils ols :
  repr h t T a b ils ols -> Heap.read_tx t h = (Ok T, h).
Proof.
  intros (Ht & Ha & Hb & Hi & Ho). unfold Heap.read_tx, Heap.hbind.
  rewrite (load_tx_ok _ _ _ _ _ _ Ht). simpl.
  rewrite (load_array_ok _ _ _ Ha), (hmapM_load_input_ok _ _ _ Hi).
  rewrite (load_array_ok _ _ _ Hb), (hmapM_load_output_ok _ _ _ Ho).
  unfold Heap.hret. by destruct T.
Qed.

Lemma snapshot_repr h t T :
  Heap.snapshot h t = Some T -> exists a b ils ols, repr h t T a b ils ols.
Proof.
  unfold Heap.snapshot, Heap.read_tx.
  unfold Heap.hbind at 1, Heap.load_tx at 1, Heap.hbind at 1, Heap.load.
  destruct (h !! t) as [[| | |v lt a b]|] eqn:Et; try done.
  unfold Heap.hret at 1. simpl.
  unfold Heap.hbind at 1, Heap.load_array at 1, Heap.hbind at 1, Heap.load.
  destruct (h !! a) as [[| |ils|]|] eqn:Ea; try done.
  unfold Heap.hret at 1, Heap.hbind at 1.
  destruct (Heap.hmapM Heap.load_input ils h) as [[xs|e] h1] eqn:Ei; [|done].
  pose proof (hmapM_load_input_inv _ _ _ _ Ei) as Hi.
  rewrite (hmapM_load_input_ok _ _ _ Hi) in Ei. injection Ei as <-.
  unfold Heap.hbind at 1, Heap.load_array at 1, Heap.hbind at 1, Heap.load.
  destruct (h !! b) as [[| |ols|]|] eqn:Eb; try done.
  unfold Heap.hret at 1, Heap.hbind at 1.
  destruct (Heap.hmapM Heap.load_output ols h) as [[os|e] h2] eqn:Eo; [|done].
  pose proof (hmapM_load_output_inv _ _ _ _ Eo) as Ho.
  unfold Heap.hret. intros [= <-].
  exists a, b, ils, ols. repeat split; done.
Qed.

Lemma Forall2_in_at_update h ils xs k l x' :
  NoDup ils -> ils !! k = Some l -> Forall2 (in_at h) ils xs ->
  Forall2 (in_at (<[l := Heap.OInput x']> h)) ils (<[k := x']> xs).
Proof.
  intros Hnd Hk HF. revert k Hk Hnd.
  induction HF as [|l0 x0 ls xs Hx HF IH]; intros k Hk Hnd; [done|].
  apply NoDup_cons in Hnd as [Hl0 Hnd].
  destruct k as [|k]; simpl in *.
  - injection Hk as ->. constructor.
    + apply lookup_insert_eq.
    + by apply Forall2_in_at_insert.
  - constructor.
    + unfold in_at. rewrite lookup_insert_ne; [done|].
      intros ->. apply Hl0. by eapply list_elem_of_lookup_2.
    + by apply IH.
Qed.

End Snapshots.

Section RefineRules.
Variable h0 : Heap.heap.
Variable BLANK : Heap.loc.
Hypothesis HBLANK : h0 !! BLANK = Some (Heap.OOutput BLANK_OUTPUT).

Lemma repr_this_outs this T a0 b0 ils0 ols0 h :
  repr h0 this T a0 b0 ils0 ols0 -> h0 ⊆ h ->
  Heap.tx_outs this h = (Ok b0, h) /\
  Heap.load_array b0 h = (Ok ols0, h) /\
  blen ols0 = blen (outs T).
Proof.
  intros Hr Hsub. apply (repr_mono _ _ _ _ _ _ _ _ Hsub) in Hr.
  destruct Hr as (Ht & Ha & Hb & Hi & Ho).
  split; [by eapply tx_outs_ok|]. split; [by apply load_array_ok|].
  unfold blen. by rewrite (Forall2_length _ _ _ Ho).
Qed.

Lemma run_output_rule this T a0 b0 ils0 ols0 t T' a b ils ols
    inIndex hashType :
  repr h0 this T a0 b0 ils0 ols0 ->
  runs (tmp_repr h0 t T' a b ils ols)
       (Heap.output_rule BLANK this t inIndex hashType)
       (fun one h =>
          match sighash_output_rule T T' inIndex hashType with
          | None => one = true
          | Some T'' =>
              one = false /\
              exists b' ols', tmp_repr h0 t T'' a b' ils ols' h
          end).
Proof.
  intros Hthis h Hinv.
  pose proof Hinv as (Hat & Hnd & Hrepr).
  pose proof Hrepr as (Ht & Ha & Hb & Hi & Ho).
  pose proof (tmp_at_sub _ _ _ _ _ _ Hat) as Hsub.
  unfold Heap.output_rule, sighash_output_rule.
  destruct (Z.land hashType 31 =? SIGHASH_NONE).
  { unfold Heap.hbind at 1, Heap.alloc at 1.
    set (e := fresh (dom h)).
    assert (He : h !! e = None) by (apply not_elem_of_dom, is_fresh).
    set (h1 := <[e := Heap.OArray []]> h).
    assert (Hsub1 : h ⊆ h1) by (by apply insert_subseteq).
    destruct (tmp_at_alloc h0 t a b ils h e (Heap.OArray []) Hat He)
      as (Hat1 & He0 & Het & Hea & Heb).
    fold h1 in Hat1.
    pose proof (repr_mono _ _ _ _ _ _ _ _ Hsub1 Hrepr)
      as (Ht1 & Ha1 & Hb1 & Hi1 & Ho1).
    assert (He1 : h1 !! e = Some (Heap.OArray [])) by apply lookup_insert_eq.
    unfold Heap.hbind at 1. rewrite (set_tx_outs_ok _ _ _ _ _ _ e Ht1).
    set (h2 := <[t := _]> h1).
    assert (Hinv2 : tmp_repr h0 t (set_outs [] T') a e ils [] h2).
    { split; [|split; [done|]].
      - pose proof Hat1 as (_ & _ & Ha0 & _ & _ & _ & _ & _ & Hall1).
        apply (tmp_at_store_tx h0 t a b ils h1); try done.
        by exists [].
      - by apply (repr_store_tx h1 t T' a b ils ols). }
    destruct (run_zero_other_sequences h0 t _ a e ils [] inIndex h2 Hinv2)
      as ([] & h3 & E3 & Hinv3).
    unfold Heap.hbind. rewrite E3. eexists _, _. split; [reflexivity|].
    split; [done|]. by exists e, []. }
  destruct (Z.land hashType 31 =? SIGHASH_SINGLE).
  2:{ eexists _, _. split; [reflexivity|]. split; [done|]. by exists b, ols. }
  destruct (repr_this_outs this T a0 b0 ils0 ols0 h Hthis Hsub)
    as (E1 & E2 & Hlen).
  unfold Heap.hbind at 1. rewrite E1.
  unfold Heap.hbind at 1. rewrite E2. rewrite Hlen.
  destruct (blen (outs T) <=? inIndex).
  { eexists _, _. split; reflexivity. }
  unfold Heap.hbind at 1. rewrite (tx_outs_ok _ _ _ _ _ _ Ht).
  unfold Heap.hbind at 1, Heap.array_set_length at 1, Heap.hbind at 1.
  rewrite (load_array_ok _ _ _ Hb). unfold Heap.store at 1.
  set (n := Z.to_nat (inIndex + 1)).
  unfold Heap.hbind at 1.
  rewrite (blank_loop b BLANK _ _ (take n ols)) by apply lookup_insert_eq.
  rewrite insert_insert_eq.
  set (ols' := fold_left _ _ (take n ols)).
  assert (Hab : a <> b) by (by destruct Hat as (_&_&_&_&?&_)).
  assert (Hinv2 : tmp_repr h0 t
                    (set_outs (blank_outputs_before inIndex (outs T')) T')
                    a b ils ols' (<[b := Heap.OArray ols']> h)).
  { split; [by apply tmp_at_store_outs|]. split; [done|].
    apply (repr_store_outs h t T' a b ils ols); [done|done|].
    apply Forall2_fold_insert.
    - eapply out_at_mono; [exact Hsub|exact HBLANK].
    - by apply Forall2_take. }
  destruct (run_zero_other_sequences h0 t _ a b ils ols' inIndex _ Hinv2)
    as ([] & h3 & E3 & Hinv3).
  unfold Heap.hbind. rewrite E3. eexists _, _. split; [reflexivity|].
  split; [done|]. by exists b, ols'.
Qed.

Lemma run_input_rule t T a b ils ols inIndex hashType ourScript h :
  tmp_repr h0 t T a b ils ols h ->
  exists r h',
    Heap.input_rule t inIndex hashType ourScript h = (r, h') /\
    match sighash_input_rule T inIndex hashType ourScript with
    | Ok T' => r = Ok tt /\ exists a' ils', repr h' t T' a' b ils' ols
    | Throw e => r = Throw e
    end.
Proof.
  intros (Hat & Hnd & Hrepr).
  pose proof Hrepr as (Ht & Ha & Hb & Hi & Ho).
  destruct (Heap.input_rule t inIndex hashType ourScript h) as [r h'] eqn:E.
  exists r, h'. split; [done|].
  unfold Heap.input_rule in E. unfold sighash_input_rule.
  unfold Heap.hbind at 1 in E. rewrite (tx_ins_ok _ _ _ _ _ _ Ht) in E.
  unfold Heap.hbind at 1 in E. rewrite (load_array_ok _ _ _ Ha) in E.
  destruct (negb (Z.land hashType SIGHASH_ANYONECANPAY =? 0)).
  - destruct (ins T !! Z.to_nat inIndex) as [x|] eqn:Ex.
    + destruct (Forall2_lookup_r _ _ _ _ _ Hi Ex) as (l & El & Hlx).
      rewrite El in E.
      unfold Heap.hbind at 1, Heap.alloc at 1 in E.
      set (a2 := fresh (dom h)) in *.
      assert (Ha2 : h !! a2 = None) by (apply not_elem_of_dom, is_fresh).
      set (h1 := <[a2 := Heap.OArray [l]]> h) in *.
      assert (Hsub1 : h ⊆ h1) by (by apply insert_subseteq).
      pose proof (repr_mono _ _ _ _ _ _ _ _ Hsub1 Hrepr)
        as (Ht1 & Ha1 & Hb1 & Hi1 & Ho1).
      unfold Heap.hbind at 1 in E.
      rewrite (set_tx_ins_ok _ _ _ _ _ _ a2 Ht1) in E.
      set (h2 := <[t := _]> h1) in *.
      assert (Hr2 : repr h2 t (set_ins [x] T) a2 b [l] ols).
      { apply (repr_store_tx h1 t T a b ils ols); try done.
        - apply lookup_insert_eq.
        - constructor; [|constructor]. by eapply in_at_mono. }
      pose proof Hr2 as (Ht2 & Ha2' & Hb2 & Hi2 & Ho2).
      assert (Hl2 : h2 !! l = Some (Heap.OInput x))
        by (by apply Forall2_cons_1 in Hi2 as [? _]).
      rewrite (set_input_script_ok _ _ _ ourScript Hl2) in E.
      injection E as <- <-. split; [done|]. exists a2, [l].
      apply (repr_inputs_updated h2 _ t (set_ins [x] T) a2 b [l] ols
               [set_script ourScript x]).
      * done.
      * constructor; [apply lookup_insert_eq|constructor].
      * intros l' Hl'. apply not_elem_of_cons in Hl' as [Hne _].
        by rewrite lookup_insert_ne.
    + assert (El : ils !! Z.to_nat inIndex = None).
      { apply lookup_ge_None. apply lookup_ge_None in Ex.
        by rewrite (Forall2_length _ _ _ Hi). }
      rewrite El in E. by injection E as <- <-.
  - destruct (input_loop
                (fun _ input => Heap.set_input_script input EMPTY_SCRIPT)
                (fun _ input => set_script EMPTY_SCRIPT input)) with
      (ls := ils) (xs := ins T) (i := 0%nat) (h := h)
      as (h1 & Erun & HF & Hframe); [|done|done|].
    { intros j l x h3 Hx. by apply set_input_script_ok. }
    rewrite (imap_const (set_script EMPTY_SCRIPT)) in HF.
    unfold Heap.hbind at 1 in E.
    rewrite (hforEach_as_indexed _ _ 0%nat), Erun in E.
    change (list_fmap TxIn.t TxIn.t (set_script EMPTY_SCRIPT) (ins T))
      with (map (set_script EMPTY_SCRIPT) (ins T)) in HF.
    set (blanked := map (set_script EMPTY_SCRIPT) (ins T)) in *.
    pose proof (repr_inputs_updated h h1 t T a b ils ols blanked Hrepr HF
                  Hframe) as Hr1.
    destruct (blanked !! Z.to_nat inIndex) as [x|] eqn:Ex.
    + destruct (Forall2_lookup_r _ _ _ _ _ HF Ex) as (l & El & Hlx).
      rewrite El in E. rewrite (set_input_script_ok _ _ _ ourScript Hlx) in E.
      injection E as <- <-. split; [done|]. exists a, ils.
      apply (repr_inputs_updated h1 _ t (set_ins blanked T) a b ils ols
               (<[Z.to_nat inIndex := set_script ourScript x]> blanked)).
      * done.
      * by apply Forall2_in_at_update.
      * intros l' Hl'. rewrite lookup_insert_ne; [done|].
        intros ->. apply Hl'. by eapply list_elem_of_lookup_2.
    + assert (El : ils !! Z.to_nat inIndex = None).
      { apply lookup_ge_None. apply lookup_ge_None in Ex.
        by rewrite (Forall2_length _ _ _ HF). }
      rewrite El in E. by injection E as <- <-.
Qed.

End RefineRules.

Section RefineClone.

Lemma repr_store_tx_new h t v0 lt0 a0 b0 v' lt' a' b' ils' ols' xs' os' :
  h !! t = Some (Heap.OTransaction v0 lt0 a0 b0) ->
  h !! a' = Some (Heap.OArray ils') -> h !! b' = Some (Heap.OArray ols') ->
  Forall2 (in_at h) ils' xs' -> Forall2 (out_at h) ols' os' ->
  repr (<[t := Heap.OTransaction v' lt' a' b']> h) t
       (mkTransaction v' lt' xs' os') a' b' ils' ols'.
Proof.
  intros Ht Ha' Hb' Hi' Ho'.
  assert (t <> a') by congruence. assert (t <> b') by congruence.
  repeat split; simpl.
  - apply lookup_insert_eq.
  - by rewrite lookup_insert_ne.
  - by rewrite lookup_insert_ne.
  - apply Forall2_in_at_insert_kind; [|done]. intros x. congruence.
  - apply Forall2_out_at_insert; [|done]. intros x. congruence.
Qed.

Lemma clone_inputs_run ls xs :
  forall h,
    Forall2 (in_at h) ls xs ->
    exists ls' h',
      Heap.hmapM (fun l =>
          Heap.hbind (Heap.load_input l) (fun txIn =>
          Heap.alloc (Heap.OInput
            (TxIn.mk (TxIn.hash txIn) (TxIn.index txIn) (TxIn.script txIn)
                     (TxIn.sequence txIn) (TxIn.witness txIn))))) ls h =
        (Ok ls', h') /\
      h ⊆ h' /\ Forall2 (in_at h') ls' xs /\ NoDup ls' /\
      Forall (fun l => h !! l = None) ls'.
Proof.
  revert xs. induction ls as [|l ls IH]; intros xs h HF.
  - apply Forall2_nil_inv_l in HF as ->. exists [], h.
    repeat split; try done; constructor.
  - apply Forall2_cons_inv_l in HF as (x & xs' & Hx & HF & ->).
    simpl. unfold Heap.hbind at 1. unfold Heap.hbind at 1.
    rewrite (load_input_ok _ _ _ Hx). unfold Heap.alloc at 1.
    rewrite clone_in_id.
    set (l' := fresh (dom h)).
    assert (Hl' : h !! l' = None) by (apply not_elem_of_dom, is_fresh).
    set (h1 := <[l' := Heap.OInput x]> h).
    assert (Hsub1 : h ⊆ h1) by (by apply insert_subseteq).
    destruct (IH xs' h1) as (ls' & h' & Erun & Hsub & HF' & Hnd & Hfresh).
    { eapply Forall2_impl; [exact HF|]. intros ? ?. by apply in_at_mono. }
    exists (l' :: ls'), h'. cbn beta iota. unfold Heap.hbind at 1.
    rewrite Erun.
    split; [done|]. split; [by etrans|].
    assert (Hl1 : h1 !! l' = Some (Heap.OInput x)) by apply lookup_insert_eq.
    split; [|split].
    + constructor; [|done]. by eapply in_at_mono.
    + apply NoDup_cons. split; [|done]. intros Hin.
      rewrite Forall_forall in Hfresh. specialize (Hfresh _ Hin). congruence.
    + constructor; [done|]. eapply Forall_impl; [exact Hfresh|].
      intros l0 Hl0. simpl in Hl0. by eapply lookup_weaken_None.
Qed.

Lemma clone_outputs_run ls xs :
  forall h,
    Forall2 (out_at h) ls xs ->
    exists ls' h',
      Heap.hmapM (fun l =>
          Heap.hbind (Heap.load_output l) (fun txOut =>
          Heap.alloc (Heap.OOutput
            (TxOut.mk (TxOut.script txOut) (TxOut.value txOut) None)))) ls h =
        (Ok ls', h') /\
      h ⊆ h' /\
      Forall2 (out_at h') ls'
        (map (fun txOut =>
                TxOut.mk (TxOut.script txOut) (TxOut.value txOut) None) xs) /\
      Forall (fun l => h !! l = None) ls'.
Proof.
  revert xs. induction ls as [|l ls IH]; intros xs h HF.
  - apply Forall2_nil_inv_l in HF as ->. exists [], h.
    repeat split; try done; constructor.
  - apply Forall2_cons_inv_l in HF as (x & xs' & Hx & HF & ->).
    simpl. unfold Heap.hbind at 1. unfold Heap.hbind at 1.
    rewrite (load_output_ok _ _ _ Hx). unfold Heap.alloc at 1.
    set (l' := fresh (dom h)).
    assert (Hl' : h !! l' = None) by (apply not_elem_of_dom, is_fresh).
    set (h1 := <[l' := _]> h).
    assert (Hsub1 : h ⊆ h1) by (by apply insert_subseteq).
    destruct (IH xs' h1) as (ls' & h' & Erun & Hsub & HF' & Hfresh).
    { eapply Forall2_impl; [exact HF|]. intros ? ?. by apply out_at_mono. }
    exists (l' :: ls'), h'. cbn beta iota. unfold Heap.hbind at 1.
    rewrite Erun.
    split; [done|]. split; [by etrans|]. split.
    + constructor; [|done]. eapply out_at_mono; [exact Hsub|].
      apply lookup_insert_eq.
    + constructor; [done|]. eapply Forall_impl; [exact Hfresh|].
      intros l0 Hl0. simpl in Hl0. by eapply lookup_weaken_None.
Qed.

Lemma clone_as_record T :
  clone T =
  mkTransaction (version T) (locktime T) (ins T)
    (map (fun txOut =>
            TxOut.mk (TxOut.script txOut) (TxOut.value txOut) None) (outs T)).
Proof.
  unfold clone. f_equal. rewrite <- (map_id (ins T)) at 2.
  apply map_ext. intros x. apply clone_in_id.
Qed.

(** [clone] on the heap returns a new transaction that reads as the
    clone of the transaction it is called on. *)
Lemma run_clone this T a0 b0 ils0 ols0 h :
  repr h this T a0 b0 ils0 ols0 ->
  exists t h' a b ils ols,
    Heap.clone this h = (Ok t, h') /\
    tmp_repr h t (clone T) a b ils ols h' /\
    Forall (fun l => h !! l = None) ols.
Proof.
  intros Hthis. pose proof Hthis as (Ht0 & Ha0 & Hb0 & Hi0 & Ho0).
  pose proof (triple_clone h this h (reflexivity h)) as Htriple.
  revert Htriple. destruct (Heap.clone this h) as [r hN] eqn:E.
  intros Htriple.
  unfold Heap.clone, Heap.new_Transaction in E.
  unfold Heap.hbind at 1 in E.
  unfold Heap.hbind at 1 in E.
  unfold Heap.alloc at 1 in E.
  set (a1 := fresh (dom h)) in E.
  assert (Ha1 : h !! a1 = None) by (apply not_elem_of_dom, is_fresh).
  set (h1 := <[a1 := Heap.OArray []]> h) in E.
  unfold Heap.hbind at 1 in E.
  unfold Heap.alloc at 1 in E.
  set (b1 := fresh (dom h1)) in E.
  assert (Hb1 : h1 !! b1 = None) by (apply not_elem_of_dom, is_fresh).
  set (h2 := <[b1 := Heap.OArray []]> h1) in E.
  unfold Heap.alloc at 1 in E.
  set (t := fresh (dom h2)) in E.
  assert (Ht2 : h2 !! t = None) by (apply not_elem_of_dom, is_fresh).
  set (h3 := <[t := Heap.OTransaction 1 0 a1 b1]> h2) in E.
  assert (Hsub2 : h ⊆ h2).
  { etrans; [apply (insert_subseteq h a1 (Heap.OArray [])); done|].
    by apply insert_subseteq. }
  assert (Hth : h !! t = None) by (by eapply lookup_weaken_None).
  assert (Hsub3 : h ⊆ h3) by (by apply insert_subseteq_r).
  unfold Heap.hbind at 1 in E.
  rewrite (load_tx_ok h3 this _ _ _ _ (lookup_weaken _ _ _ _ Ht0 Hsub3)) in E.
  cbn [fst snd] in E.
  unfold Heap.hbind at 1 in E.
  rewrite (set_tx_version_ok h3 t 1 0 a1 b1 (version T)) in E by apply lookup_insert_eq.
  set (h4 := <[t := _]> h3) in E.
  unfold Heap.hbind at 1 in E.
  rewrite (set_tx_locktime_ok h4 t (version T) 0 a1 b1 (locktime T)) in E by apply lookup_insert_eq.
  set (h5 := <[t := _]> h4) in E.
  assert (Hsub5 : h ⊆ h5).
  { apply insert_subseteq_r; [done|]. by apply insert_subseteq_r. }
  assert (Ht5 : h5 !! t = Some (Heap.OTransaction (version T) (locktime T)
                                  a1 b1)) by apply lookup_insert_eq.
  unfold Heap.hbind at 1 in E.
  rewrite (load_array_ok h5 a0 ils0 (lookup_weaken _ _ _ _ Ha0 Hsub5)) in E.
  destruct (clone_inputs_run ils0 (ins T) h5)
    as (ils & h6 & Erun6 & Hsub6 & Hi6 & Hnd & Hfresh6).
  { eapply Forall2_impl; [exact Hi0|]. intros ? ?. by apply in_at_mono. }
  unfold Heap.hbind at 1 in E.
  rewrite Erun6 in E.
  unfold Heap.hbind at 1 in E.
  unfold Heap.alloc at 1 in E.
  set (a := fresh (dom h6)) in E.
  assert (Ha6 : h6 !! a = None) by (apply not_elem_of_dom, is_fresh).
  set (h7 := <[a := Heap.OArray ils]> h6) in E.
  assert (Hsub7 : h6 ⊆ h7) by (by apply insert_subseteq).
  assert (Ht6 : h6 !! t = Some (Heap.OTransaction (version T) (locktime T)
                                  a1 b1)) by (by eapply lookup_weaken).
  assert (Ht7 : h7 !! t = Some (Heap.OTransaction (version T) (locktime T)
                                  a1 b1)) by (by eapply lookup_weaken).
  unfold Heap.hbind at 1 in E.
  rewrite (set_tx_ins_ok h7 t _ _ _ _ a Ht7) in E.
  set (h8 := <[t := _]> h7) in E.
  assert (Hsub8 : h ⊆ h8).
  { apply insert_subseteq_r; [done|]. etrans; [exact Hsub5|]. by etrans. }
  assert (Hat : a <> t) by congruence.
  assert (Ha8 : h8 !! a = Some (Heap.OArray ils)).
  { unfold h8. rewrite lookup_insert_ne by done. apply lookup_insert_eq. }
  assert (Hi8 : Forall2 (in_at h8) ils (ins T)).
  { apply Forall2_in_at_insert_kind; [intros x; congruence|].
    eapply Forall2_impl; [exact Hi6|]. intros ? ?. by apply in_at_mono. }
  unfold Heap.hbind at 1 in E.
  rewrite (load_array_ok h8 b0 ols0 (lookup_weaken _ _ _ _ Hb0 Hsub8)) in E.
  destruct (clone_outputs_run ols0 (outs T) h8)
    as (ols & h9 & Erun9 & Hsub9 & Ho9 & Hfresh9).
  { eapply Forall2_impl; [exact Ho0|]. intros ? ?. by apply out_at_mono. }
  unfold Heap.hbind at 1 in E.
  rewrite Erun9 in E.
  unfold Heap.hbind at 1 in E.
  unfold Heap.alloc at 1 in E.
  set (b := fresh (dom h9)) in E.
  assert (Hb9 : h9 !! b = None) by (apply not_elem_of_dom, is_fresh).
  set (h10 := <[b := Heap.OArray ols]> h9) in E.
  assert (Hsub10 : h9 ⊆ h10) by (by apply insert_subseteq).
  assert (Ht8 : h8 !! t = Some (Heap.OTransaction (version T) (locktime T)
                                  a b1)) by apply lookup_insert_eq.
  assert (Ht10 : h10 !! t = Some (Heap.OTransaction (version T) (locktime T)
                                    a b1)).
  { eapply lookup_weaken; [|exact Hsub10]. by eapply lookup_weaken. }
  unfold Heap.hbind at 1 in E.
  rewrite (set_tx_outs_ok h10 t _ _ _ _ b Ht10) in E.
  set (h11 := <[t := _]> h10) in E.
  unfold Heap.hret in E. injection E as <- <-.
  assert (Hrepr : repr h11 t (clone T) a b ils ols).
  { rewrite clone_as_record.
    apply (repr_store_tx_new h10 t _ _ _ _ _ _ a b ils ols _ _ Ht10).
    - eapply lookup_weaken; [|exact Hsub10]. by eapply lookup_weaken.
    - apply lookup_insert_eq.
    - eapply Forall2_impl; [exact Hi8|]. intros ? ? ?.
      eapply in_at_mono; [exact Hsub10|]. by eapply in_at_mono.
    - eapply Forall2_impl; [exact Ho9|]. intros ? ?. by apply out_at_mono. }
  exists t, h11, a, b, ils, ols. split; [done|].
  destruct Htriple as (a' & b' & ils' & Hat').
  pose proof Hrepr as (Hrt & Hra & _).
  destruct (tmp_at_ins h _ _ _ _ _ _ _ _ _ _ Hat' Hrt Hra) as (<- & <- & <-).
  split; [split; [done|]; split; done|].
  eapply Forall_impl; [exact Hfresh9|]. intros l0 Hl0. simpl in Hl0.
  by eapply lookup_weaken_None.
Qed.

End RefineClone.

(** On a heap where [this] reads as the transaction [T], the hasher on
    objects returns what the hasher on values returns on [T]. *)
Lemma heap_hashForSignature_refines bscript BLANK this T
    (h : Heap.heap) inIndex prevOutScript hashType :
  Heap.snapshot h this = Some T ->
  h !! BLANK = Some (Heap.OOutput BLANK_OUTPUT) ->
  fst (Heap.hashForSignature bscript BLANK this inIndex prevOutScript
         hashType h) =
  hashForSignature bscript T inIndex prevOutScript hashType.
Proof.
  intros Hsnap HBLANK.
  destruct (snapshot_repr h this T Hsnap) as (a0 & b0 & ils0 & ols0 & Hthis).
  pose proof Hthis as (Ht0 & Ha0 & Hb0 & Hi0 & Ho0).
  unfold Heap.hashForSignature, hashForSignature.
  unfold Heap.hbind at 1, Heap.lift at 1.
  destruct (typeforce (types.UInt32 inIndex)) as [[]|e]; [|done].
  cbn [rbind].
  unfold Heap.hbind at 1. rewrite (tx_ins_ok _ _ _ _ _ _ Ht0).
  unfold Heap.hbind at 1. rewrite (load_array_ok _ _ _ Ha0).
  assert (Hlen : blen ils0 = blen (ins T)).
  { unfold blen. by rewrite (Forall2_length _ _ _ Hi0). }
  rewrite Hlen. destruct (blen (ins T) <=? inIndex); [done|].
  destruct (run_clone this T a0 b0 ils0 ols0 h Hthis)
    as (t & h1 & a & b & ils & ols & Eclone & Hinv1 & _).
  unfold Heap.hbind at 1. rewrite Eclone.
  destruct (run_output_rule h BLANK HBLANK this T a0 b0 ils0 ols0 t (clone T)
              a b ils ols inIndex hashType Hthis h1 Hinv1)
    as (one & h2 & Eout & Hout).
  unfold Heap.hbind at 1. rewrite Eout.
  unfold sighash_txTmp.
  destruct (sighash_output_rule T (clone T) inIndex hashType) as [T2|].
  2:{ by subst one. }
  destruct Hout as (-> & b' & ols' & Hinv2).
  destruct (run_input_rule h t T2 a b' ils ols' inIndex hashType
              (ourScript_of bscript prevOutScript) h2 Hinv2)
    as (r & h3 & Ein & Hin).
  unfold Heap.hbind at 1. rewrite Ein.
  destruct (sighash_input_rule T2 inIndex hashType
              (ourScript_of bscript prevOutScript)) as [T3|e].
  2:{ by subst r. }
  destruct Hin as (-> & a' & ils' & Hr3).
  unfold Heap.hbind at 1. rewrite (repr_read_tx _ _ _ _ _ _ _ Hr3).
  done.
Qed.

(** * Further properties of the code *)

(** ** Sizes *)

Lemma fold_left_add_shift {A} (g : A -> Z) l z :
  fold_left (fun s x => s + g x) l z = z + fold_left (fun s x => s + g x) l 0.
Proof.
  revert z. induction l as [|x l IH]; intros z; simpl; [lia|].
  rewrite (IH (z + g x)), (IH (0 + g x)). lia.
Qed.

Lemma fold_left_add_nonneg {A} (g : A -> Z) l :
  (forall x, 0 <= g x) -> 0 <= fold_left (fun s x => s + g x) l 0.
Proof.
  intros Hg. induction l as [|x l IH]; simpl; [lia|].
  rewrite fold_left_add_shift. specialize (Hg x). lia.
Qed.

Lemma encodingLength_pos n : 1 <= varuint.encodingLength n.
Proof. unfold varuint.encodingLength. repeat case_match; lia. Qed.

Lemma varSliceSize_pos s : 1 <= varSliceSize s.
Proof.
  unfold varSliceSize. pose proof (encodingLength_pos (blen s)).
  pose proof (blen_nonneg s). lia.
Qed.

Lemma vectorSize_pos v : 1 <= vectorSize v.
Proof.
  unfold vectorSize. pose proof (encodingLength_pos (blen v)).
  pose proof (fold_left_add_nonneg varSliceSize v) as H0.
  assert (0 <= fold_left (fun s x => s + varSliceSize x) v 0).
  { apply H0. intros x. pose proof (varSliceSize_pos x). lia. }
  lia.
Qed.

Lemma byteLength_base_le_total T :
  __byteLength T false <= __byteLength T true.
Proof.
  unfold __byteLength. cbn [andb]. destruct (hasWitnesses T); [|lia].
  pose proof (fold_left_add_nonneg (fun i => vectorSize (TxIn.witness i))
                (ins T)) as H0.
  assert (0 <= fold_left (fun s i => s + vectorSize (TxIn.witness i))
                 (ins T) 0).
  { apply H0. intros x. pose proof (vectorSize_pos (TxIn.witness x)). lia. }
  lia.
Qed.

Lemma ceil_div_4_bounds w lo hi :
  4 * lo <= w <= 4 * hi -> lo <= ceil_div w 4 <= hi.
Proof.
  intros H. unfold ceil_div.
  pose proof (Z.mul_div_le (- w) 4 ltac:(lia)).
  pose proof (Z.mul_succ_div_gt (- w) 4 ltac:(lia)).
  lia.
Qed.

(** X1: the virtual size of a transaction lies between its length
    without witness data and its length with it, and the weight
    between four times each; a transaction without witnesses weighs
    four times its length and its virtual size is its length. *)
Theorem virtual_size_bounds (T : Transaction) :
  __byteLength T false <= virtualSize T <= byteLength T /\
  4 * __byteLength T false <= weight T <= 4 * byteLength T /\
  (hasWitnesses T = false ->
   weight T = 4 * byteLength T /\ virtualSize T = byteLength T).
Proof.
  pose proof (byteLength_base_le_total T) as Hle.
  assert (Hw : 4 * __byteLength T false <= weight T <= 4 * byteLength T).
  { unfold weight, byteLength. cbv zeta. lia. }
  split; [|split; [exact Hw|]].
  - unfold virtualSize. by apply ceil_div_4_bounds.
  - intros Hno.
    assert (He : __byteLength T true = __byteLength T false).
    { unfold __byteLength. rewrite Hno. reflexivity. }
    assert (Hw4 : weight T = 4 * byteLength T).
    { unfold weight, byteLength. cbv zeta. lia. }
    split; [exact Hw4|].
    unfold virtualSize. rewrite Hw4. unfold ceil_div.
    replace (- (4 * byteLength T)) with ((- byteLength T) * 4) by lia.
    rewrite Z.div_mul by lia. lia.
Qed.

Lemma virtual_size_bounds_witness :
  weight tx_three_outputs = 4 * byteLength tx_three_outputs /\
  virtualSize tx_three_outputs = byteLength tx_three_outputs.
Proof.
  apply (proj2 (proj2 (virtual_size_bounds tx_three_outputs))).
  reflexivity.
Defined.

(** ** Coinbase *)

Lemma Z_of_byte_zero x : Z_of_byte x = 0 <-> x = x00.
Proof.
  split; [|by intros ->].
  intros H. rewrite <- (byte_of_Z_of_byte x), H. reflexivity.
Qed.

Lemma forallb_seq_shift (f : nat -> bool) start len :
  forallb f (seq (S start) len) = forallb (fun i => f (S i)) (seq start len).
Proof.
  revert start. induction len as [|len IH]; intros start; [done|].
  cbn [seq forallb]. by rewrite IH.
Qed.

Lemma all_zero_bytes (buffer : bytes) :
  forallb (fun i => match buffer !! i with
                    | Some x => Z_of_byte x =? 0
                    | None => false
                    end) (seq 0 (length buffer)) = true <->
  buffer = repeat x00 (length buffer).
Proof.
  induction buffer as [|x b IH]; [done|].
  cbn [length seq repeat forallb].
  rewrite forallb_seq_shift, andb_true_iff.
  cbn [lookup list_lookup].
  rewrite Z.eqb_eq, Z_of_byte_zero.
  cbn [lookup list_lookup] in IH.
  rewrite IH. split.
  - intros [-> <-]. reflexivity.
  - intros H. injection H as -> H. split; [done|exact H].
Qed.

Lemma isCoinbaseHash_32 buffer :
  length buffer = 32%nat ->
  exists b, isCoinbaseHash buffer = Ok b /\ (b = true <-> buffer = ZERO).
Proof.
  intros Hl. unfold isCoinbaseHash, types.Hash256bit, blen.
  rewrite Hl. cbn [Z.eqb Z.of_nat typeforce rbind Pos.of_succ_nat Pos.eqb].
  eexists. split; [reflexivity|].
  pose proof (all_zero_bytes buffer) as H. rewrite Hl in H. exact H.
Qed.

Lemma isCoinbaseHash_throws buffer :
  length buffer <> 32%nat -> exists e, isCoinbaseHash buffer = Throw e.
Proof.
  intros Hl. unfold isCoinbaseHash, types.Hash256bit, blen.
  destruct (Z.eqb_spec (Z.of_nat (length buffer)) 32) as [He|He]; [lia|].
  eexists. reflexivity.
Qed.

Lemma isCoinbaseHash_true buffer :
  isCoinbaseHash buffer = Ok true <-> buffer = ZERO.
Proof.
  split.
  - intros H. destruct (decide (length buffer = 32%nat)) as [Hl|Hl].
    + destruct (isCoinbaseHash_32 _ Hl) as (b & Hb & Hiff).
      apply Hiff. congruence.
    + destruct (isCoinbaseHash_throws _ Hl) as [e He]. congruence.
  - intros ->. reflexivity.
Qed.

(** X2: [isCoinbaseHash] throws on a buffer that is not 32 bytes long,
    and on a 32-byte buffer it returns whether all the bytes are 0,
    that is, whether the buffer is [ZERO]. *)
Theorem isCoinbaseHash_zero (buffer : bytes) :
  (isCoinbaseHash buffer = Ok true <-> buffer = ZERO) /\
  (length buffer = 32%nat ->
   exists b, isCoinbaseHash buffer = Ok b /\ (b = true <-> buffer = ZERO)) /\
  (length buffer <> 32%nat -> exists e, isCoinbaseHash buffer = Throw e).
Proof.
  split; [apply isCoinbaseHash_true|].
  split; [apply isCoinbaseHash_32|apply isCoinbaseHash_throws].
Qed.

Lemma isCoinbaseHash_zero_witness :
  (exists b, isCoinbaseHash (repeat x11 32) = Ok b /\
             (b = true <-> repeat x11 32 = ZERO)) /\
  exists e, isCoinbaseHash [x00; x00] = Throw e.
Proof.
  split.
  - apply (proj1 (proj2 (isCoinbaseHash_zero (repeat x11 32)))).
    reflexivity.
  - apply (proj2 (proj2 (isCoinbaseHash_zero [x00; x00]))). discriminate.
Defined.

(** X3: [isCoinbase] is true exactly for a transaction with one input
    whose hash is [ZERO]; a transaction with another number of inputs
    is no coinbase whatever its hashes are, and a single input whose
    hash is not 32 bytes long makes the getter throw. *)
Theorem isCoinbase_single_zero_hash (T : Transaction) :
  (isCoinbase T = Ok true <->
   exists input, ins T = [input] /\ TxIn.hash input = ZERO) /\
  (length (ins T) <> 1%nat -> isCoinbase T = Ok false) /\
  (forall input,
     ins T = [input] -> length (TxIn.hash input) <> 32%nat ->
     exists e, isCoinbase T = Throw e).
Proof.
  unfold isCoinbase, blen. split; [|split].
  - destruct (ins T) as [|input [|input' l]] eqn:E.
    + split; [discriminate|]. intros (i & Hi & _). discriminate.
    + change (Z.of_nat (length [input]) =? 1) with true.
      cbn [lookup list_lookup].
      rewrite isCoinbaseHash_true. split.
      * intros H. by exists input.
      * intros (i & Hi & Hz). by simplify_eq.
    + destruct (Z.eqb_spec (Z.of_nat (length (input :: input' :: l))) 1)
        as [He|He]; [simpl in He; lia|].
      split; [discriminate|]. intros (i & Hi & _). discriminate.
  - intros Hl. destruct (Z.eqb_spec (Z.of_nat (length (ins T))) 1); [lia|done].
  - intros input -> Hl.
    change (Z.of_nat (length [input]) =? 1) with true.
    cbn [lookup list_lookup]. by apply isCoinbaseHash_throws.
Qed.

Lemma isCoinbase_single_zero_hash_witness :
  isCoinbase tx_segwit = Ok false /\
  isCoinbase (mkTransaction 1 0 [TxIn.mk ZERO 0xffffffff [] 0 []] []) =
    Ok true.
Proof.
  split.
  - apply (proj1 (proj2 (isCoinbase_single_zero_hash tx_segwit))).
    discriminate.
  - apply (proj1 (isCoinbase_single_zero_hash _)).
    eexists. split; reflexivity.
Defined.

(** ** Decoding with bytes left over *)

Lemma bind_sits {A B} b (m : M Z A) (f : A -> M Z B) d rest a o :
  parses b m d a -> sits b o (d ++ rest) ->
  (do x <- m; f x) o = f a (o + blen d).
Proof.
  intros Hp Hs. unfold bind. rewrite (Hp o) by (by eapply sits_app_l). done.
Qed.

Lemma fromBuffer_body_sits b T version noStrict o :
  wf_tx T -> Forall plain_output (outs T) ->
  sits b o (body_bytes T (hasWitnesses T)) ->
  fromBuffer_body b noStrict version (hasWitnesses T) o =
  let o' := o + blen (body_bytes T (hasWitnesses T)) in
  if noStrict || (o' =? blen b) then
    Ok (mkTransaction version (locktime T) (ins T) (outs T), o')
  else Throw (Error "Transaction has unexpected data").
Proof.
  intros [Hv Hl Hi Ho Hil Hol] Hplain Hs. cbv zeta.
  unfold fromBuffer_body, body_bytes in *. rewrite !blen_app.
  set (wbytes := if hasWitnesses T
                 then concat (map (fun i => vector_bytes (TxIn.witness i))
                                (ins T))
                 else []) in *.
  assert (P1 : parses b (Reader.readVarInt b) (varint_bytes (blen (ins T)))
                 (blen (ins T))).
  { apply parses_readVarInt. split; [apply blen_nonneg|done]. }
  rewrite (bind_sits b _ _ _ _ _ o P1 Hs).
  apply sits_app_r in Hs.
  unshelve erewrite (bind_sits b _ _ (concat (map input_bytes (ins T))) _
                       (map strip_witness (ins T)) _ _ Hs).
  { unfold blen. rewrite Nat2Z.id.
      rewrite <- (length_map strip_witness).
      replace (concat (map input_bytes (ins T)))
        with (concat (map input_bytes (map strip_witness (ins T))))
        by (by rewrite map_map).
      apply parses_timesM. apply Forall_map.
      eapply Forall_impl; [exact Hi|]. intros x Hx.
      exact (parses_input b x Hx). }
  apply sits_app_r in Hs.
  assert (P3 : parses b (Reader.readVarInt b) (varint_bytes (blen (outs T)))
                 (blen (outs T))).
  { apply parses_readVarInt. split; [apply blen_nonneg|done]. }
  rewrite (bind_sits b _ _ _ _ _ _ P3 Hs).
  apply sits_app_r in Hs.
  unshelve erewrite (bind_sits b _ _ (concat (map output_bytes (outs T))) _
                       (outs T) _ _ Hs).
  { unfold blen. rewrite Nat2Z.id. apply parses_timesM.
      apply Forall_forall. intros x Hx.
      rewrite Forall_forall in Ho, Hplain. apply parses_output; auto. }
  apply sits_app_r in Hs.
  unshelve erewrite (bind_sits b _ _ wbytes _ (ins T) _ _ Hs).
  { unfold wbytes. destruct (hasWitnesses T) eqn:Ew.
      - rewrite <- (app_nil_r (concat _)).
        eapply parses_bind.
        + apply (parses_mapM b _ (fun i => vector_bytes (TxIn.witness i))).
          apply Forall2_fmap_l. apply Forall_Forall2_diag.
          eapply Forall_impl; [exact Hi|]. intros x Hx.
          by apply parses_witness.
        + unfold hasWitnesses in *. simpl. rewrite Ew. simpl.
          apply parses_ret.
      - unfold hasWitnesses in Ew. rewrite (hasWitnesses_false_strip _ Ew).
        apply parses_ret. }
  apply sits_app_r in Hs.
  rewrite <- (app_nil_r (le_bytes 4 (locktime T))) in Hs.
  rewrite (bind_sits b _ _ (le_bytes 4 (locktime T)) [] (locktime T) _
             (parses_readUInt32 b (locktime T) Hl) Hs).
  rewrite !Z.add_assoc.
  destruct noStrict; [reflexivity|].
  unfold bind, Reader.get_offset, ret, throw. cbn [orb].
  by destruct (_ =? blen b).
Qed.

Lemma fromBuffer_serialize_extra T extra noStrict :
  wf_tx T -> Forall plain_output (outs T) ->
  ~ (ins T = [] /\ length (outs T) = 1%nat) ->
  fromBuffer (serialize T true ++ extra) noStrict =
  if noStrict || (blen extra =? 0) then Ok T
  else Throw (Error "Transaction has unexpected data").
Proof.
  intros Hwf Hplain Hne.
  unfold fromBuffer, fromBuffer_reads.
  set (b := serialize T true ++ extra).
  assert (Hs : sits b 0 (serialize T true)).
  { exists [], extra. done. }
  rewrite serialize_split in Hs. simpl andb in Hs.
  assert (Hblen : blen b = 4 + blen (if hasWitnesses T then [x00; x01] else []) +
                  blen (body_bytes T (hasWitnesses T)) + blen extra).
  { unfold b. rewrite serialize_split. simpl andb.
    rewrite !blen_app, blen_le_bytes. lia. }
  unfold bind at 1.
  rewrite (parses_readInt32 b (version T) (wf_version _ Hwf) 0)
    by (by eapply sits_app_l).
  apply sits_app_r in Hs. rewrite blen_le_bytes in Hs |- *.
  change (0 + Z.of_nat 4) with 4 in *.
  pose proof (blen_nonneg extra) as Hex.
  destruct (hasWitnesses T) eqn:Ew.
  - unfold bind at 1.
    rewrite (peek_sits b 4 _ 0 x00 Hs) by done.
    unfold bind at 1.
    rewrite (peek_sits b 4 _ 1 x01 Hs) by done.
    change (Z_of_byte x00) with 0. change (Z_of_byte x01) with 1.
    simpl andb. cbv iota. unfold bind at 1.
    unfold bind at 1. unfold Reader.skip, ret.
    apply (sits_app_r _ _ [x00; x01]) in Hs.
    change (4 + blen [x00; x01]) with 6 in Hs. change (4 + 2) with 6.
    pose proof (fromBuffer_body_sits b T (version T) noStrict 6 Hwf Hplain)
      as Hb.
    rewrite Ew in Hb. rewrite Hb by done. cbv zeta.
    replace (6 + blen (body_bytes T true) =? blen b)
      with (blen extra =? 0).
    2:{ rewrite Hblen. change (blen [x00; x01]) with 2.
        destruct (Z.eqb_spec (blen extra) 0);
          destruct (Z.eqb_spec (6 + blen (body_bytes T true))
                      (4 + 2 + blen (body_bytes T true) + blen extra));
          lia || done. }
    destruct (noStrict || (blen extra =? 0)); [|done].
    simpl. by destruct T.
  - simpl app in Hs.
    destruct (body_bytes_head T Hne) as (x0 & x1 & H0 & H1 & Hcond).
    unfold bind at 1.
    rewrite (peek_sits b 4 _ 0 x0 Hs) by done.
    unfold bind at 1.
    rewrite (peek_sits b 4 _ 1 x1 Hs) by done.
    rewrite Hcond. unfold bind at 1. unfold ret at 1.
    pose proof (fromBuffer_body_sits b T (version T) noStrict 4 Hwf Hplain)
      as Hb.
    rewrite Ew in Hb. rewrite Hb by done. cbv zeta.
    replace (4 + blen (body_bytes T false) =? blen b)
      with (blen extra =? 0).
    2:{ rewrite Hblen. change (blen []) with 0.
        destruct (Z.eqb_spec (blen extra) 0);
          destruct (Z.eqb_spec (4 + blen (body_bytes T false))
                      (4 + 0 + blen (body_bytes T false) + blen extra));
          lia || done. }
    destruct (noStrict || (blen extra =? 0)); [|done].
    simpl. by destruct T.
Qed.

(** X4: when bytes follow the encoding of a transaction, the strict
    decoder throws 'Transaction has unexpected data', and the decoder
    called with [__noStrict] returns the transaction and ignores
    them. *)
Theorem fromBuffer_trailing_bytes (T : Transaction) (extra : bytes) :
  wf_tx T -> Forall plain_output (outs T) ->
  ~ (ins T = [] /\ length (outs T) = 1%nat) ->
  exists b,
    encode T true = Ok b /\
    fromBuffer (b ++ extra) true = Ok T /\
    (extra <> [] ->
     fromBuffer (b ++ extra) false =
       Throw (Error "Transaction has unexpected data")).
Proof.
  intros Hwf Hplain Hne. exists (serialize T true).
  split; [by apply encode_serialize|]. split.
  - by rewrite fromBuffer_serialize_extra.
  - intros Hex. rewrite fromBuffer_serialize_extra by done.
    destruct extra as [|x extra]; [done|]. reflexivity.
Qed.

Lemma fromBuffer_trailing_bytes_witness :
  exists b,
    encode tx_segwit true = Ok b /\
    fromBuffer (b ++ [xaa; xbb]) true = Ok tx_segwit /\
    ([xaa; xbb] <> [] ->
     fromBuffer (b ++ [xaa; xbb]) false =
       Throw (Error "Transaction has unexpected data")).
Proof.
  apply (fromBuffer_trailing_bytes tx_segwit [xaa; xbb]).
  - solve_wf.
  - repeat constructor.
  - intros [H _]. discriminate.
Defined.

(** ** Hex *)

Lemma hex_pair (x : byte) :
  exists c1 c2,
    (forall s,
       String.append (hex_digit (Z_of_byte x / 16))
         (String.append (hex_digit (Z_of_byte x mod 16)) s) =
       String c1 (String c2 s)) /\
    hex_value c1 = Some (Z_of_byte x / 16) /\
    hex_value c2 = Some (Z_of_byte x mod 16).
Proof.
  destruct x; eexists _, _;
    (split; [intros s; vm_compute; reflexivity|]);
    split; vm_compute; reflexivity.
Qed.

Lemma from_hex_toString_hex (b : bytes) : from_hex (toString_hex b) = b.
Proof.
  induction b as [|x b IH]; [done|].
  destruct (hex_pair x) as (c1 & c2 & Hs & H1 & H2).
  cbn [toString_hex]. rewrite Hs. cbn [from_hex]. rewrite H1, H2, IH.
  f_equal. rewrite <- Z.div_mod by lia. apply byte_of_Z_of_byte.
Qed.

Lemma length_toString_hex (b : bytes) :
  String.length (toString_hex b) = (2 * length b)%nat.
Proof.
  induction b as [|x b IH]; [done|].
  destruct (hex_pair x) as (c1 & c2 & Hs & _).
  cbn [toString_hex]. rewrite Hs. cbn [String.length length]. lia.
Qed.

(** X5: the [hex] getter and [Transaction.fromHex] are inverse to each
    other on the transactions that the decoder can return: the hex
    string of a transaction has two characters for each byte of its
    encoding, and [fromHex] gives the transaction back. *)
Theorem fromHex_hex_roundtrip (T : Transaction) :
  wf_tx T -> Forall plain_output (outs T) ->
  ~ (ins T = [] /\ length (outs T) = 1%nat) ->
  exists s,
    hex T = Ok s /\ fromHex s = Ok T /\
    Z.of_nat (String.length s) = 2 * byteLength T.
Proof.
  intros Hwf Hplain Hne. exists (toString_hex (serialize T true)).
  destruct (encode_serialize T true Hwf) as [_ Henc].
  unfold hex, toBuffer. unfold encode in Henc.
  destruct (__toBuffer T None None true) as [[r m]|e]; [|done].
  cbn [rbind fst] in Henc |- *. injection Henc as ->.
  split; [done|]. split.
  - unfold fromHex. rewrite from_hex_toString_hex.
    by apply decode_serialize.
  - rewrite length_toString_hex. unfold byteLength.
    rewrite <- (blen_serialize T true Hwf). unfold blen. lia.
Qed.

Lemma fromHex_hex_roundtrip_witness :
  exists s,
    hex tx_segwit = Ok s /\ fromHex s = Ok tx_segwit /\
    Z.of_nat (String.length s) = 2 * byteLength tx_segwit.
Proof.
  apply (fromHex_hex_roundtrip tx_segwit).
  - solve_wf.
  - repeat constructor.
  - intros [H _]. discriminate.
Defined.

(** ** What the decoder returns

    The decoder on any buffer: what it returns is within the ranges of
    the data model. *)

Lemma bind_Ok {S A B} (m : M S A) (f : A -> M S B) s r :
  (do x <- m; f x) s = Ok r ->
  exists a s1, m s = Ok (a, s1) /\ f a s1 = Ok r.
Proof.
  unfold bind. destruct (m s) as [[a s1]|e]; [|done]. intros H.
  by exists a, s1.
Qed.

Lemma rbind_Ok {A B} (m : result A) (f : A -> result B) r :
  rbind m f = Ok r -> exists a, m = Ok a /\ f a = Ok r.
Proof. destruct m as [a|e]; [|done]. intros H. by exists a. Qed.

Lemma le_value_bounds (l : bytes) : 0 <= le_value l < 256 ^ blen l.
Proof.
  induction l as [|x l IH].
  - simpl. change (256 ^ blen []) with 1. lia.
  - cbn [le_value]. rewrite blen_cons.
    pose proof (Z_of_byte_range x). pose proof (blen_nonneg l).
    rewrite Z.pow_add_r by lia. change (256 ^ 1) with 256. lia.
Qed.

Lemma readUInt_Ok n b o v :
  Buffer.readUInt n b o = Ok v ->
  0 <= o /\ o + Z.of_nat n <= blen b /\ 0 <= v < 256 ^ Z.of_nat n.
Proof.
  unfold Buffer.readUInt, Buffer.fits.
  destruct (Z.leb_spec 0 o); [|done].
  destruct (Z.leb_spec (o + Z.of_nat n) (blen b)); [|done].
  cbn [andb negb]. intros Heq. injection Heq as <-.
  split; [done|]. split; [done|].
  pose proof (le_value_bounds (take n (drop (Z.to_nat o) b))) as Hb.
  assert (blen (take n (drop (Z.to_nat o) b)) = Z.of_nat n) as Hl.
  { unfold blen in *. rewrite length_take, length_drop. lia. }
  by rewrite Hl in Hb.
Qed.

Lemma readUInt32_Ok b o i o' :
  Reader.readUInt32 b o = Ok (i, o') ->
  0 <= o /\ o' = o + 4 /\ o' <= blen b /\ is_uint32 i.
Proof.
  unfold Reader.readUInt32, Buffer.readUInt32LE. intros H.
  apply rbind_Ok in H as (v & Hv & H). injection H as <- <-.
  apply readUInt_Ok in Hv as (? & ? & Hr).
  change (256 ^ Z.of_nat 4) with 0x100000000 in Hr.
  unfold is_uint32. change (Z.of_nat 4) with 4 in *. lia.
Qed.

Lemma readInt32_Ok b o i o' :
  Reader.readInt32 b o = Ok (i, o') ->
  0 <= o /\ o' = o + 4 /\ o' <= blen b /\ is_int32 i.
Proof.
  unfold Reader.readInt32, Buffer.readInt32LE. intros H.
  apply rbind_Ok in H as (v & Hv & H). injection H as <- <-.
  apply rbind_Ok in Hv as (u & Hu & Hv). injection Hv as <-.
  apply readUInt_Ok in Hu as (? & ? & Hr).
  change (256 ^ Z.of_nat 4) with 0x100000000 in Hr.
  unfold is_int32. change (Z.of_nat 4) with 4 in *.
  destruct (Z.leb_spec 0x80000000 u); lia.
Qed.

Lemma readUInt64_Ok b o i o' :
  Reader.readUInt64 b o = Ok (i, o') ->
  0 <= o /\ o' = o + 8 /\ o' <= blen b /\ is_uint64 i.
Proof.
  unfold Reader.readUInt64, bufferutils.readUInt64LE. intros H.
  apply rbind_Ok in H as (v & Hv & H). injection H as <- <-.
  apply readUInt_Ok in Hv as (? & ? & Hr).
  change (256 ^ Z.of_nat 8) with 0x10000000000000000 in Hr.
  unfold is_uint64. change (Z.of_nat 8) with 8 in *. lia.
Qed.

Lemma readVarInt_Ok b o n o' :
  Reader.readVarInt b o = Ok (n, o') ->
  0 <= o /\ o < o' /\ o' <= blen b /\
  0 <= n <= varuint.MAX_SAFE_INTEGER.
Proof.
  unfold Reader.readVarInt, varuint.decode. intros H.
  apply rbind_Ok in H as ([vi k] & Hd & H). injection H as <- <-.
  apply rbind_Ok in Hd as (first & Hf & Hd).
  apply readUInt_Ok in Hf as (Ho & Hfit & Hr).
  change (Z.of_nat 1) with 1 in *. change (256 ^ 1) with 256 in Hr.
  unfold varuint.MAX_SAFE_INTEGER.
  destruct (first <? 0xfd).
  { injection Hd as <- <-. lia. }
  destruct (first =? 0xfd).
  { apply rbind_Ok in Hd as (v & Hv & Hd). injection Hd as <- <-.
    apply readUInt_Ok in Hv as (? & ? & Hr').
    change (Z.of_nat 2) with 2 in *. change (256 ^ 2) with 65536 in Hr'.
    lia. }
  destruct (first =? 0xfe).
  { apply rbind_Ok in Hd as (v & Hv & Hd). injection Hd as <- <-.
    apply readUInt_Ok in Hv as (? & ? & Hr').
    change (Z.of_nat 4) with 4 in *.
    change (256 ^ 4) with 0x100000000 in Hr'. lia. }
  apply rbind_Ok in Hd as (lo & Hlo & Hd).
  apply rbind_Ok in Hd as (hi & Hhi & Hd).
  apply rbind_Ok in Hd as ([] & Hc & Hd). injection Hd as <- <-.
  apply readUInt_Ok in Hlo as (? & ? & ?).
  apply readUInt_Ok in Hhi as (? & ? & ?).
  change (Z.of_nat 4) with 4 in *.
  unfold varuint.checkUInt53, varuint.MAX_SAFE_INTEGER in Hc.
  destruct (Z.ltb_spec (hi * 4294967296 + lo) 0); [done|].
  destruct (Z.ltb_spec 9007199254740991 (hi * 4294967296 + lo)); [done|].
  lia.
Qed.

Lemma blen_slice b o n :
  0 <= o -> 0 <= n ->
  blen (Buffer.slice b o (o + n)) <= n /\
  (o + n <= blen b -> blen (Buffer.slice b o (o + n)) = n).
Proof.
  intros Ho Hn. unfold Buffer.slice, Buffer.clamp.
  destruct (Z.ltb_spec o 0); [lia|].
  destruct (Z.ltb_spec (o + n) 0); [lia|].
  unfold blen. rewrite length_take, length_drop. lia.
Qed.

Lemma readSlice_Ok b n o s o' :
  Reader.readSlice b n o = Ok (s, o') ->
  0 <= o -> 0 <= n ->
  o' = o + n /\ blen s <= n /\ (o' <= blen b -> blen s = n).
Proof.
  unfold Reader.readSlice. intros H Ho Hn. injection H as <- <-.
  replace (o + n - n) with o by lia.
  split; [done|]. by apply blen_slice.
Qed.

Lemma readVarSlice_Ok b o s o' :
  Reader.readVarSlice b o = Ok (s, o') ->
  0 <= o /\ o < o' /\ safe_length s.
Proof.
  unfold Reader.readVarSlice. intros H.
  apply bind_Ok in H as (n & o1 & Hn & H).
  apply readVarInt_Ok in Hn as (? & ? & ? & ?).
  apply readSlice_Ok in H as (-> & ? & _); [|lia..].
  unfold safe_length. lia.
Qed.

Lemma timesM_Ok {A} (body : M Z A) (P : A -> Prop) n :
  (forall o a o', 0 <= o -> body o = Ok (a, o') -> o <= o' /\ P a) ->
  forall o l o',
    0 <= o -> timesM n body o = Ok (l, o') ->
    o <= o' /\ Forall P l /\ length l = n.
Proof.
  intros Hbody. induction n as [|n IH]; intros o l o' Ho H.
  - injection H as <- <-. split; [lia|]. split; [constructor|done].
  - cbn [timesM] in H.
    apply bind_Ok in H as (x & o1 & Hx & H).
    apply bind_Ok in H as (xs & o2 & Hxs & H). injection H as <- <-.
    apply Hbody in Hx as [? ?]; [|done].
    apply IH in Hxs as (? & ? & ?); [|lia].
    split; [lia|]. split; [by constructor|]. simpl. lia.
Qed.

Lemma mapM_Ok {A B} (f : A -> M Z B) (R : A -> B -> Prop) l :
  (forall x o y o', 0 <= o -> f x o = Ok (y, o') -> o <= o' /\ R x y) ->
  forall o l' o',
    0 <= o -> mapM f l o = Ok (l', o') -> o <= o' /\ Forall2 R l l'.
Proof.
  intros Hf. induction l as [|x l IH]; intros o l' o' Ho H.
  - injection H as <- <-. split; [lia|constructor].
  - cbn [mapM] in H.
    apply bind_Ok in H as (y & o1 & Hy & H).
    apply bind_Ok in H as (ys & o2 & Hys & H). injection H as <- <-.
    apply Hf in Hy as [? ?]; [|done].
    apply IH in Hys as (? & ?); [|lia].
    split; [lia|by constructor].
Qed.

Lemma readVector_Ok b o v o' :
  Reader.readVector b o = Ok (v, o') ->
  0 <= o /\ o < o' /\ safe_length v /\ Forall safe_length v.
Proof.
  unfold Reader.readVector. intros H.
  apply bind_Ok in H as (count & o1 & Hc & H).
  apply readVarInt_Ok in Hc as (? & ? & ? & ?).
  apply (timesM_Ok _ safe_length) in H as (? & ? & Hl); [|..|lia].
  - split; [done|]. split; [lia|]. split; [|done].
    unfold safe_length, blen. rewrite Hl. lia.
  - intros o0 a o0' Ho0 Ha. apply readVarSlice_Ok in Ha as (? & ? & ?).
    split; [lia|done].
Qed.

Lemma peekUInt8_Ok b d o v o' :
  Reader.peekUInt8 b d o = Ok (v, o') -> o' = o.
Proof.
  unfold Reader.peekUInt8. intros H.
  apply rbind_Ok in H as (x & _ & H). by injection H as <- <-.
Qed.

Lemma read_input_Ok b o i o' :
  0 <= o ->
  (do hash <- Reader.readSlice b 32;
   do index <- Reader.readUInt32 b;
   do script <- Reader.readVarSlice b;
   do sequence <- Reader.readUInt32 b;
   ret (TxIn.mk hash index script sequence EMPTY_WITNESS)) o = Ok (i, o') ->
  o <= o' /\ wf_in i.
Proof.
  intros Ho H.
  apply bind_Ok in H as (hash & o1 & Hh & H).
  apply bind_Ok in H as (index & o2 & Hi & H).
  apply bind_Ok in H as (script & o3 & Hs & H).
  apply bind_Ok in H as (sequence & o4 & Hq & H).
  injection H as <- <-.
  apply readSlice_Ok in Hh as (-> & _ & Hlen); [|lia..].
  apply readUInt32_Ok in Hi as (_ & -> & Hfit & Hindex).
  apply readVarSlice_Ok in Hs as (_ & Ho3 & Hscript).
  apply readUInt32_Ok in Hq as (_ & -> & _ & Hsequence).
  split; [lia|]. split; cbn; try done.
  specialize (Hlen ltac:(lia)). unfold blen in Hlen. lia.
Qed.

Lemma read_output_Ok b o x o' :
  0 <= o ->
  (do value <- Reader.readUInt64 b;
   do script <- Reader.readVarSlice b;
   ret (TxOut.mk script (Some value) None)) o = Ok (x, o') ->
  o <= o' /\ (wf_out x /\ plain_output x).
Proof.
  intros Ho H.
  apply bind_Ok in H as (value & o1 & Hv & H).
  apply bind_Ok in H as (script & o2 & Hs & H).
  injection H as <- <-.
  apply readUInt64_Ok in Hv as (_ & -> & _ & Hvalue).
  apply readVarSlice_Ok in Hs as (_ & Ho2 & Hscript).
  split; [lia|]. split; [|done]. split; cbn; done.
Qed.

Lemma read_witness_Ok b txIn o y o' :
  0 <= o ->
  (do witness <- Reader.readVector b;
   ret (TxIn.mk (TxIn.hash txIn) (TxIn.index txIn) (TxIn.script txIn)
                (TxIn.sequence txIn) witness)) o = Ok (y, o') ->
  o <= o' /\ (wf_in txIn -> wf_in y).
Proof.
  intros Ho H.
  apply bind_Ok in H as (witness & o1 & Hw & H). injection H as <- <-.
  apply readVector_Ok in Hw as (_ & ? & ? & ?).
  split; [lia|]. intros [? ? ? ? _ _]. split; cbn; done.
Qed.

Lemma fromBuffer_body_Ok b noStrict version hw o T o' :
  0 <= o -> is_int32 version ->
  fromBuffer_body b noStrict version hw o = Ok (T, o') ->
  wf_tx T /\ Forall plain_output (outs T).
Proof.
  intros Ho Hversion H. unfold fromBuffer_body in H.
  apply bind_Ok in H as (vinLen & o1 & Hvin & H).
  apply readVarInt_Ok in Hvin as (_ & Ho1 & _ & Hvin).
  apply bind_Ok in H as (ins0 & o2 & Hins0 & H).
  apply (timesM_Ok _ wf_in) in Hins0 as (Ho2 & Hwf0 & Hlen0);
    [|intros ? ? ? ?; by apply read_input_Ok|lia].
  apply bind_Ok in H as (voutLen & o3 & Hvout & H).
  apply readVarInt_Ok in Hvout as (_ & Ho3 & _ & Hvout).
  apply bind_Ok in H as (outs0 & o4 & Houts0 & H).
  apply (timesM_Ok _ (fun x => wf_out x /\ plain_output x)) in Houts0
    as (Ho4 & Hwfo & Hleno);
    [|intros ? ? ? ?; by apply read_output_Ok|lia].
  apply bind_Ok in H as (ins1 & o5 & Hins1 & H).
  assert (Hwf1 : 0 <= o5 /\ Forall wf_in ins1 /\ length ins1 = length ins0).
  { destruct hw.
    - apply bind_Ok in Hins1 as (ins2 & o6 & Hm & Hins1).
      apply (mapM_Ok _ (fun x y => wf_in x -> wf_in y)) in Hm as (? & HF);
        [|intros ? ? ? ? ?; by apply read_witness_Ok|lia].
      destruct (negb _); [done|]. injection Hins1 as <- <-.
      split; [lia|]. split.
      + clear -HF Hwf0. induction HF; [constructor|].
        inversion Hwf0; subst. constructor; auto.
      + symmetry. by eapply Forall2_length.
    - injection Hins1 as <- <-. split; [lia|]. done. }
  destruct Hwf1 as (Ho5 & Hwf1 & Hlen1).
  apply bind_Ok in H as (locktime & o6 & Hlock & H).
  apply readUInt32_Ok in Hlock as (_ & _ & _ & Hlock).
  assert (HT : T = mkTransaction version locktime ins1 outs0).
  { destruct noStrict.
    - by injection H as <- <-.
    - apply bind_Ok in H as (off & o7 & _ & H).
      destruct (negb _); [done|]. by injection H as <- <-. }
  subst T. split.
  - split; cbn; try done.
    + eapply Forall_impl; [exact Hwfo|]. by intros x [? ?].
    + unfold safe_length, blen. rewrite Hlen1, Hlen0. lia.
    + unfold safe_length, blen. rewrite Hleno. lia.
  - cbn. eapply Forall_impl; [exact Hwfo|]. by intros x [? ?].
Qed.

Lemma fromBuffer_Ok b noStrict T :
  fromBuffer b noStrict = Ok T ->
  wf_tx T /\ Forall plain_output (outs T) /\ 10 <= blen b.
Proof.
  unfold fromBuffer, fromBuffer_reads. intros H.
  apply rbind_Ok in H as ([T' oe] & H & HT). injection HT as <-.
  apply bind_Ok in H as (version & o1 & Hv & H).
  apply readInt32_Ok in Hv as (_ & -> & _ & Hversion).
  apply bind_Ok in H as (marker & o2 & Hm & H).
  apply peekUInt8_Ok in Hm as ->.
  apply bind_Ok in H as (flag & o3 & Hf & H).
  apply peekUInt8_Ok in Hf as ->.
  apply bind_Ok in H as (hw & o4 & Hhw & H).
  assert (Ho4 : 4 <= o4).
  { destruct (_ && _).
    - apply bind_Ok in Hhw as ([] & o5 & Hs & Hhw).
      unfold Reader.skip in Hs. injection Hs as <-.
      injection Hhw as <- <-. lia.
    - injection Hhw as <- <-. lia. }
  pose proof H as Hbody.
  apply fromBuffer_body_Ok in H as [Hwf Hplain]; [|lia|done].
  split; [done|]. split; [done|].
  unfold fromBuffer_body in Hbody.
  apply bind_Ok in Hbody as (vinLen & p1 & Hvin & Hbody).
  apply readVarInt_Ok in Hvin as (_ & Hp1 & _ & _).
  apply bind_Ok in Hbody as (ins0 & p2 & Hins0 & Hbody).
  apply (timesM_Ok _ wf_in) in Hins0 as (Hp2 & _ & _);
    [|intros ? ? ? ?; by apply read_input_Ok|lia].
  apply bind_Ok in Hbody as (voutLen & p3 & Hvout & Hbody).
  apply readVarInt_Ok in Hvout as (_ & Hp3 & _ & _).
  apply bind_Ok in Hbody as (outs0 & p4 & Houts0 & Hbody).
  apply (timesM_Ok _ (fun x => wf_out x /\ plain_output x)) in Houts0
    as (Hp4 & _ & _);
    [|intros ? ? ? ?; by apply read_output_Ok|lia].
  apply bind_Ok in Hbody as (ins1 & p5 & Hins1 & Hbody).
  assert (Hp5 : p4 <= p5).
  { destruct hw.
    - apply bind_Ok in Hins1 as (ins2 & p6 & Hm & Hins1).
      apply (mapM_Ok _ (fun x y => wf_in x -> wf_in y)) in Hm as (? & HF);
        [|intros ? ? ? ? ?; by apply read_witness_Ok|lia].
      destruct (negb _); [done|]. injection Hins1 as <- <-. lia.
    - injection Hins1 as <- <-. lia. }
  apply bind_Ok in Hbody as (locktime & p6 & Hlock & Hbody).
  apply readUInt32_Ok in Hlock as (_ & -> & Hfit & _). lia.
Qed.

(** X6: whatever the buffer, a transaction that [fromBuffer] returns
    (strict or not) is within the ranges of the data model: 32-byte
    input hashes, 32-bit indexes, sequences, version and locktime,
    amounts in the outputs; so it can be encoded again, in
    [byteLength] bytes.  A buffer shorter than ten bytes is never
    decoded. *)
Theorem fromBuffer_well_formed (buffer : bytes) (noStrict : bool)
    (T : Transaction) :
  fromBuffer buffer noStrict = Ok T ->
  wf_tx T /\ Forall plain_output (outs T) /\
  10 <= blen buffer /\
  exists b, encode T true = Ok b /\ blen b = byteLength T.
Proof.
  intros H. apply fromBuffer_Ok in H as (Hwf & Hplain & Hlen).
  split; [done|]. split; [done|]. split; [done|].
  exists (serialize T true). split; [by apply encode_serialize|].
  by apply blen_serialize.
Qed.

Lemma fromBuffer_well_formed_witness :
  wf_tx tx_segwit /\ Forall plain_output (outs tx_segwit) /\
  10 <= blen (serialize tx_segwit true) /\
  exists b, encode tx_segwit true = Ok b /\ blen b = byteLength tx_segwit.
Proof.
  apply (fromBuffer_well_formed (serialize tx_segwit true) false tx_segwit).
  vm_compute. reflexivity.
Defined.

(** ** Encoding into a buffer of the caller *)

Lemma slice_middle (pre data post : bytes) :
  Buffer.slice (pre ++ data ++ post) (blen pre) (blen pre + blen data) = data.
Proof.
  unfold Buffer.slice, Buffer.clamp.
  pose proof (blen_nonneg pre). pose proof (blen_nonneg data).
  pose proof (blen_nonneg post).
  destruct (Z.ltb_spec (blen pre) 0); [lia|].
  destruct (Z.ltb_spec (blen pre + blen data) 0); [lia|].
  rewrite !blen_app.
  rewrite (Z.min_l (blen pre)) by lia.
  rewrite (Z.min_l (blen pre + blen data)) by lia.
  unfold blen. rewrite Nat2Z.id.
  rewrite drop_app_length.
  replace (Z.to_nat (Z.of_nat (length pre) + Z.of_nat (length data) -
                     Z.of_nat (length pre))) with (length data) by lia.
  by rewrite take_app_length.
Qed.

(** X7: [__toBuffer] on a buffer of the caller, from an offset at
    which the encoding fits, returns the encoding as the slice from
    that offset, and changes the caller's buffer in that window only:
    the bytes before the offset and after the encoding are as they
    were. *)
Theorem toBuffer_into_buffer (T : Transaction) (w : bool)
    (pre old post : bytes) :
  wf_tx T ->
  blen old = __byteLength T w ->
  __toBuffer T (Some (pre ++ old ++ post)) (Some (blen pre)) w =
    Ok (serialize T w, pre ++ serialize T w ++ post).
Proof.
  intros Hwf Hold. unfold __toBuffer.
  rewrite (writes_toBuffer T w Hwf pre old post).
  - by rewrite slice_middle.
  - rewrite <- (blen_serialize T w Hwf) in Hold. unfold blen in Hold. lia.
Qed.

Lemma toBuffer_into_buffer_witness :
  __toBuffer tx_segwit (Some ([xaa] ++ repeat x00 112 ++ [xbb]))
    (Some (blen [xaa])) true =
  Ok (serialize tx_segwit true, [xaa] ++ serialize tx_segwit true ++ [xbb]).
Proof.
  apply (toBuffer_into_buffer tx_segwit true [xaa] (repeat x00 112) [xbb]).
  - solve_wf.
  - reflexivity.
Defined.

Lemma blen_splice b o d :
  0 <= o -> o + blen d <= blen b -> blen (Buffer.splice b o d) = blen b.
Proof.
  intros Ho Hfit. unfold Buffer.splice, blen in *.
  rewrite !length_app, length_take, length_drop. lia.
Qed.

Lemma writeInt_Ok n lo hi b v o b' o' :
  Buffer.writeInt n lo hi b v o = Ok (b', o') ->
  0 <= o /\ o' = o + Z.of_nat n /\ o' <= blen b /\ blen b' = blen b.
Proof.
  unfold Buffer.writeInt, Buffer.fits.
  destruct (negb _); [done|].
  destruct (Z.leb_spec 0 o); [|done].
  destruct (Z.leb_spec (o + Z.of_nat n) (blen b)); [|done].
  cbn [andb negb]. intros Heq. injection Heq as <- <-.
  split; [done|]. split; [done|]. split; [done|].
  apply blen_splice; [done|]. by rewrite blen_le_bytes.
Qed.

Lemma writes_exactly_writeInt n lo hi v :
  (0 < n)%nat ->
  writes_exactly
    (fun '(buffer, offset) =>
       Writer.lift (Buffer.writeInt n lo hi buffer v offset) (buffer, offset))
    (Z.of_nat n).
Proof.
  intros Hn. split; [lia|]. intros b o b' o' Ho H.
  unfold Writer.lift in H. apply rbind_Ok in H as ([b1 o1] & H1 & H).
  injection H as <- <-. apply writeInt_Ok in H1. lia.
Qed.

Lemma writes_exactly_writeUInt8 i : writes_exactly (Writer.writeUInt8 i) 1.
Proof. apply (writes_exactly_writeInt 1). lia. Qed.

Lemma writes_exactly_writeUInt32 i : writes_exactly (Writer.writeUInt32 i) 4.
Proof. apply (writes_exactly_writeInt 4). lia. Qed.

Lemma writes_exactly_writeInt32 i : writes_exactly (Writer.writeInt32 i) 4.
Proof. apply (writes_exactly_writeInt 4). lia. Qed.

Lemma writes_exactly_writeUInt64 i : writes_exactly (Writer.writeUInt64 i) 8.
Proof.
  destruct i as [i|].
  - apply (writes_exactly_writeInt 8). lia.
  - split; [lia|]. intros b o b' o' _ H. discriminate.
Qed.

Lemma writes_exactly_writeVarInt i :
  writes_exactly (Writer.writeVarInt i) (varuint.encodingLength i).
Proof.
  split; [pose proof (encodingLength_pos i); lia|].
  intros b o b' o' Ho H. unfold Writer.writeVarInt in H.
  apply rbind_Ok in H as ([b1 k] & He & H). injection H as <- <-.
  unfold varuint.encode in He. apply rbind_Ok in He as ([] & _ & He).
  unfold varuint.encodingLength.
  unfold Buffer.writeUInt8, Buffer.writeUInt16LE, Buffer.writeUInt32LE in He.
  destruct (i <? 0xfd).
  { apply rbind_Ok in He as ([b2 o2] & H1 & He). injection He as <- <-.
    apply writeInt_Ok in H1. lia. }
  destruct (i <=? 0xffff).
  { apply rbind_Ok in He as ([b2 o2] & H1 & He).
    apply rbind_Ok in He as ([b3 o3] & H2 & He). injection He as <- <-.
    apply writeInt_Ok in H1, H2. lia. }
  destruct (i <=? 0xffffffff).
  { apply rbind_Ok in He as ([b2 o2] & H1 & He).
    apply rbind_Ok in He as ([b3 o3] & H2 & He). injection He as <- <-.
    apply writeInt_Ok in H1, H2. lia. }
  apply rbind_Ok in He as ([b2 o2] & H1 & He).
  apply rbind_Ok in He as ([b3 o3] & H2 & He).
  apply rbind_Ok in He as ([b4 o4] & H3 & He). injection He as <- <-.
  apply writeInt_Ok in H1, H2, H3. lia.
Qed.

Lemma writes_upto_exactly m n : writes_exactly m n -> writes_upto m n.
Proof.
  intros [Hn H]. split; [lia|]. intros b o b' o' Ho Hm.
  destruct (H b o b' o' Ho Hm) as (? & ? & ?). lia.
Qed.

Lemma writes_upto_ret : writes_upto (ret tt) 0.
Proof.
  split; [lia|]. intros b o b' o' Ho H. injection H as <- <-. lia.
Qed.

Lemma writes_upto_writeSlice slice :
  writes_upto (Writer.writeSlice slice) (blen slice).
Proof.
  split; [apply blen_nonneg|]. intros b o b' o' Ho H.
  unfold Writer.writeSlice, Buffer.copy in H.
  pose proof (blen_nonneg slice).
  destruct (Z.leb_spec (Z.min (blen slice) (blen b - o)) 0) as [Hle|Hgt].
  - cbn [orb] in H. injection H as <- <-. lia.
  - destruct (Z.ltb_spec o 0); [lia|]. cbn [orb] in H.
    injection H as <- <-.
    assert (Hl : blen (take (Z.to_nat (Z.min (blen slice) (blen b - o)))
                         slice) = Z.min (blen slice) (blen b - o)).
    { unfold blen in *. rewrite length_take. lia. }
    split; [|lia]. apply blen_splice; [done|]. rewrite Hl. lia.
Qed.

Lemma writes_upto_bind m1 m2 n1 n2 :
  writes_upto m1 n1 -> writes_upto m2 n2 ->
  writes_upto (do _ <- m1; m2) (n1 + n2).
Proof.
  intros [Hn1 H1] [Hn2 H2]. split; [lia|]. intros b o b' o' Ho H.
  apply bind_Ok in H as ([] & [b1 o1] & Hm1 & Hm2).
  destruct (H1 _ _ _ _ Ho Hm1) as (? & ? & ?).
  assert (Ho1 : 0 <= o1) by lia.
  destruct (H2 _ _ _ _ Ho1 Hm2) as (? & ? & ?).
  lia.
Qed.

Lemma writes_exactly_bind m1 m2 n1 n2 :
  writes_upto m1 n1 -> writes_exactly m2 n2 ->
  writes_exactly (do _ <- m1; m2) (n1 + n2).
Proof.
  intros [Hn1 H1] [Hn2 H2]. split; [lia|]. intros b o b' o' Ho H.
  apply bind_Ok in H as ([] & [b1 o1] & Hm1 & Hm2).
  destruct (H1 _ _ _ _ Ho Hm1) as (? & ? & ?).
  assert (Ho1 : 0 <= o1) by lia.
  destruct (H2 _ _ _ _ Ho1 Hm2) as (? & ? & ?).
  lia.
Qed.

Lemma writes_upto_forEach {A} (f : A -> M Writer.st unit)
    (step : Z -> A -> Z) (g : A -> Z) l :
  (forall s x, step s x = s + g x) ->
  Forall (fun x => writes_upto (f x) (g x)) l ->
  writes_upto (forEachM f l) (fold_left step l 0).
Proof.
  intros Hstep HF.
  assert (Hshift : forall l z, fold_left step l z = z + fold_left step l 0).
  { clear -Hstep. induction l as [|x l IH]; intros z; simpl; [lia|].
    rewrite (IH (step z x)), (IH (step 0 x)), !Hstep. lia. }
  induction HF as [|x l Hx HF IH]; [apply writes_upto_ret|].
  cbn [forEachM fold_left]. rewrite Hshift, Hstep, Z.add_0_l.
  by apply writes_upto_bind.
Qed.

Lemma writes_upto_writeVarSlice slice :
  writes_upto (Writer.writeVarSlice slice) (varSliceSize slice).
Proof.
  unfold Writer.writeVarSlice, varSliceSize. cbv zeta.
  apply writes_upto_bind; [|apply writes_upto_writeSlice].
  apply writes_upto_exactly, writes_exactly_writeVarInt.
Qed.

Lemma writes_upto_writeVector vector :
  writes_upto (Writer.writeVector vector) (vectorSize vector).
Proof.
  unfold Writer.writeVector, vectorSize. cbv zeta.
  apply writes_upto_bind.
  - apply writes_upto_exactly, writes_exactly_writeVarInt.
  - apply (writes_upto_forEach _ _ varSliceSize); [done|].
    apply Forall_forall. intros x _. apply writes_upto_writeVarSlice.
Qed.

(** The lengths that [__byteLength] takes for granted: 32 bytes for a
    hash, 8 bytes for a value placeholder. *)
Lemma writes_exactly_toBuffer (T : Transaction) (w : bool) :
  Forall (fun i => blen (TxIn.hash i) = 32) (ins T) ->
  Forall (fun o => forall vb, TxOut.valueBuffer o = Some vb -> blen vb = 8)
    (outs T) ->
  writes_exactly (toBuffer_writes T w) (__byteLength T w).
Proof.
  intros Hi Ho. unfold toBuffer_writes. cbv zeta.
  set (hw := w && hasWitnesses T).
  replace (__byteLength T w) with
    (4 + ((if hw then 2 else 0) +
     (varuint.encodingLength (blen (ins T)) +
     (fold_left (fun sum input => sum + 40 + varSliceSize (TxIn.script input))
        (ins T) 0 +
     (varuint.encodingLength (blen (outs T)) +
     (fold_left (fun sum output =>
                   sum + 8 + varSliceSize (TxOut.script output))
        (outs T) 0 +
     ((if hw
       then fold_left (fun sum input => sum + vectorSize (TxIn.witness input))
              (ins T) 0
       else 0) + 4)))))))
    by (unfold __byteLength; fold hw; destruct hw; lia).
  apply writes_exactly_bind.
  { apply writes_upto_exactly, writes_exactly_writeInt32. }
  apply writes_exactly_bind.
  { destruct hw; [|apply writes_upto_ret].
    apply (writes_upto_bind _ _ 1 1);
      apply writes_upto_exactly, writes_exactly_writeUInt8. }
  apply writes_exactly_bind.
  { apply writes_upto_exactly, writes_exactly_writeVarInt. }
  apply writes_exactly_bind.
  { apply (writes_upto_forEach _ _
             (fun input => 40 + varSliceSize (TxIn.script input)));
      [intros; lia|].
    eapply Forall_impl; [exact Hi|]. intros x Hx. cbv beta in Hx.
    replace (40 + varSliceSize (TxIn.script x))
      with (blen (TxIn.hash x) + (4 + (varSliceSize (TxIn.script x) + 4)))
      by lia.
    apply writes_upto_bind; [apply writes_upto_writeSlice|].
    apply writes_upto_bind;
      [apply writes_upto_exactly, writes_exactly_writeUInt32|].
    apply writes_upto_bind; [apply writes_upto_writeVarSlice|].
    apply writes_upto_exactly, writes_exactly_writeUInt32. }
  apply writes_exactly_bind.
  { apply writes_upto_exactly, writes_exactly_writeVarInt. }
  apply writes_exactly_bind.
  { apply (writes_upto_forEach _ _
             (fun output => 8 + varSliceSize (TxOut.script output)));
      [intros; lia|].
    eapply Forall_impl; [exact Ho|]. intros x Hx. cbv beta in Hx.
    apply writes_upto_bind; [|apply writes_upto_writeVarSlice].
    destruct (TxOut.valueBuffer x) as [vb|].
    - rewrite <- (Hx vb eq_refl). apply writes_upto_writeSlice.
    - apply writes_upto_exactly, writes_exactly_writeUInt64. }
  apply writes_exactly_bind; [|apply writes_exactly_writeUInt32].
  destruct hw; [|apply writes_upto_ret].
  apply (writes_upto_forEach _ _ (fun input => vectorSize (TxIn.witness input)));
    [done|].
  apply Forall_forall. intros x _. apply writes_upto_writeVector.
Qed.

(** X8: [__toBuffer] never returns a truncated encoding: on a buffer
    of the caller in which [__byteLength] bytes do not fit from the
    offset, it throws, although [copy] on its own would write as much
    as fits; and when it returns, the slice it returns is
    [__byteLength] bytes long. *)
Theorem toBuffer_short_buffer (T : Transaction) (w : bool)
    (buffer : bytes) (initialOffset : Z) :
  Forall (fun i => blen (TxIn.hash i) = 32) (ins T) ->
  Forall (fun o => forall vb, TxOut.valueBuffer o = Some vb -> blen vb = 8)
    (outs T) ->
  (blen buffer < initialOffset + __byteLength T w \/ initialOffset < 0 ->
   exists e, __toBuffer T (Some buffer) (Some initialOffset) w = Throw e) /\
  (forall r buffer',
     __toBuffer T (Some buffer) (Some initialOffset) w = Ok (r, buffer') ->
     blen r = __byteLength T w /\ blen buffer' = blen buffer).
Proof.
  intros Hi Ho.
  pose proof (writes_exactly_toBuffer T w Hi Ho) as [Hpos Hex].
  assert (Hfirst : forall b' o',
            toBuffer_writes T w (buffer, initialOffset) = Ok (tt, (b', o')) ->
            0 <= initialOffset).
  { intros b' o' H. unfold toBuffer_writes in H.
    apply bind_Ok in H as ([] & [b1 o1] & Hv & _).
    unfold Writer.writeInt32, Writer.lift in Hv.
    apply rbind_Ok in Hv as ([b2 o2] & Hv & _).
    apply writeInt_Ok in Hv. lia. }
  unfold __toBuffer.
  destruct (toBuffer_writes T w (buffer, initialOffset))
    as [[[] [b' o']]|e] eqn:E.
  - pose proof (Hfirst _ _ eq_refl) as Ho0.
    destruct (Hex _ _ _ _ Ho0 E) as (Hlen & -> & Hfit).
    split; [intros [?|?]; lia|].
    intros r buffer' H. injection H as <- <-. split; [|done].
    destruct (blen_slice b' initialOffset (__byteLength T w) Ho0
                ltac:(lia)) as [_ Hs].
    apply Hs. lia.
  - split; [by eexists|]. intros r buffer' H. discriminate.
Qed.

Lemma toBuffer_short_buffer_witness :
  exists e,
    __toBuffer tx_segwit (Some (repeat x00 111)) (Some 0) true = Throw e.
Proof.
  apply (toBuffer_short_buffer tx_segwit true (repeat x00 111) 0).
  - repeat constructor.
  - repeat constructor; intros vb H; discriminate.
  - left. vm_compute. reflexivity.
Defined.

(** ** What the encoder and the hashers depend on *)

Lemma forEachM_Forall2 {S A B} (f : A -> M S unit) (g : B -> M S unit) l l' :
  Forall2 (fun x y => forall s, f x s = g y s) l l' ->
  forall s, forEachM f l s = forEachM g l' s.
Proof.
  induction 1 as [|x y l l' Hxy HF IH]; intros s; [done|].
  cbn [forEachM]. unfold bind. rewrite Hxy.
  destruct (g y s) as [[[] s1]|e]; [apply IH|done].
Qed.

Lemma fold_left_Forall2 {A B} (f : Z -> A -> Z) (g : Z -> B -> Z) l l' :
  Forall2 (fun x y => forall z, f z x = g z y) l l' ->
  forall z, fold_left f l z = fold_left g l' z.
Proof.
  induction 1 as [|x y l l' Hxy HF IH]; intros z; [done|].
  cbn [fold_left]. rewrite Hxy. apply IH.
Qed.

Lemma map_eq_Forall2 {A B} (f : A -> B) l l' :
  map f l = map f l' <-> Forall2 (fun x y => f x = f y) l l'.
Proof.
  split.
  - revert l'. induction l as [|x l IH]; intros [|y l'] H; try done.
    injection H as Hxy H. constructor; [done|by apply IH].
  - induction 1; [done|]. cbn. by f_equal.
Qed.

Lemma bind_ext {S A B} (m m' : M S A) (f f' : A -> M S B) s :
  m s = m' s -> (forall a s1, f a s1 = f' a s1) ->
  (do x <- m; f x) s = (do x <- m'; f' x) s.
Proof.
  intros Hm Hf. unfold bind. rewrite Hm.
  destruct (m' s) as [[a s1]|e]; [apply Hf|done].
Qed.

Lemma strip_witness_fields i i' :
  strip_witness i = strip_witness i' ->
  TxIn.hash i = TxIn.hash i' /\ TxIn.index i = TxIn.index i' /\
  TxIn.script i = TxIn.script i' /\ TxIn.sequence i = TxIn.sequence i'.
Proof. unfold strip_witness. intros H. by injection H. Qed.

Lemma outpoint_sequence_fields i i' :
  outpoint_sequence i = outpoint_sequence i' ->
  TxIn.hash i = TxIn.hash i' /\ TxIn.index i = TxIn.index i' /\
  TxIn.sequence i = TxIn.sequence i'.
Proof. unfold outpoint_sequence. intros H. by injection H. Qed.

(** Without the witness flag, the encoder and the size calculator do
    not look at the witnesses. *)
Lemma toBuffer_writes_but_witnesses T T' :
  same_but_witnesses T T' ->
  __byteLength T false = __byteLength T' false /\
  forall s, toBuffer_writes T false s = toBuffer_writes T' false s.
Proof.
  intros (Hv & Hl & Ho & Hi). apply map_eq_Forall2 in Hi.
  assert (Hlen : blen (ins T) = blen (ins T')).
  { unfold blen. by rewrite (Forall2_length _ _ _ Hi). }
  split.
  - unfold __byteLength. cbn [andb]. rewrite Ho, Hlen.
    rewrite (fold_left_Forall2
               (fun sum input => sum + 40 + varSliceSize (TxIn.script input))
               (fun sum input => sum + 40 + varSliceSize (TxIn.script input))
               (ins T) (ins T')); [done|].
    eapply Forall2_impl; [exact Hi|].
    intros x y Hxy z. apply strip_witness_fields in Hxy as (_ & _ & -> & _).
    done.
  - intros s. unfold toBuffer_writes. cbn [andb]. rewrite Hv, Hl, Ho, Hlen.
    apply bind_ext; [done|]. intros _ s1.
    apply bind_ext; [done|]. intros _ s2.
    apply bind_ext; [done|]. intros _ s3.
    apply bind_ext; [|done].
    apply forEachM_Forall2. eapply Forall2_impl; [exact Hi|].
    intros x y Hxy s4.
    apply strip_witness_fields in Hxy as (-> & -> & -> & ->). done.
Qed.

Lemma sighash_digest_but_witnesses T T' hashType :
  same_but_witnesses T T' ->
  sighash_digest T hashType = sighash_digest T' hashType.
Proof.
  intros H. destruct (toBuffer_writes_but_witnesses T T' H) as [Hlen Hw].
  unfold sighash_digest, __toBuffer. rewrite Hlen.
  destruct (Buffer.writeInt32LE _ _ _) as [[b o]|e]; [|done].
  cbn [rbind]. by rewrite Hw.
Qed.

Lemma Forall2_imap {A B A' B'} (R : A -> B -> Prop) (R' : A' -> B' -> Prop)
    (f : nat -> A -> A') (g : nat -> B -> B') l l' :
  (forall i x y, R x y -> R' (f i x) (g i y)) ->
  Forall2 R l l' -> Forall2 R' (imap f l) (imap g l').
Proof.
  intros Hfg HF. revert f g Hfg.
  induction HF as [|x y l l' Hxy HF IH]; intros f g Hfg; [constructor|].
  cbn [imap]. constructor; [by apply Hfg|].
  apply IH. intros i. apply Hfg.
Qed.

Lemma same_but_scripts_clone T T' :
  same_but_scripts T T' -> same_but_scripts (clone T) (clone T').
Proof.
  intros (Hv & Hl & Ho & Hi). unfold same_but_scripts.
  rewrite !ins_clone. unfold clone. cbn. by rewrite Ho.
Qed.

Lemma zero_other_sequences_but_scripts inIndex l l' :
  map outpoint_sequence l = map outpoint_sequence l' ->
  map outpoint_sequence (zero_other_sequences inIndex l) =
  map outpoint_sequence (zero_other_sequences inIndex l').
Proof.
  rewrite !map_eq_Forall2. unfold zero_other_sequences.
  apply Forall2_imap. intros i x y Hxy.
  destruct (Z.of_nat i =? inIndex); [done|].
  apply outpoint_sequence_fields in Hxy as (H1 & H2 & H3).
  unfold outpoint_sequence, set_sequence. cbn. by rewrite H1, H2.
Qed.

Lemma sighash_output_rule_but_scripts this this' X Y inIndex hashType :
  outs this = outs this' ->
  same_but_scripts X Y ->
  match sighash_output_rule this X inIndex hashType,
        sighash_output_rule this' Y inIndex hashType with
  | Some X', Some Y' => same_but_scripts X' Y'
  | None, None => True
  | _, _ => False
  end.
Proof.
  intros Hthis (Hv & Hl & Ho & Hi). unfold sighash_output_rule.
  rewrite Hthis.
  destruct (Z.land hashType 31 =? SIGHASH_NONE).
  { repeat split; cbn; try done.
    by apply zero_other_sequences_but_scripts. }
  destruct (Z.land hashType 31 =? SIGHASH_SINGLE); [|by repeat split].
  destruct (blen (outs this') <=? inIndex); [done|].
  repeat split; cbn; try done.
  - by rewrite Ho.
  - by apply zero_other_sequences_but_scripts.
Qed.

Lemma sighash_input_rule_but_scripts X Y inIndex hashType ourScript :
  same_but_scripts X Y ->
  match sighash_input_rule X inIndex hashType ourScript,
        sighash_input_rule Y inIndex hashType ourScript with
  | Ok X', Ok Y' => same_but_witnesses X' Y'
  | Throw e, Throw e' => e = e'
  | _, _ => False
  end.
Proof.
  intros (Hv & Hl & Ho & Hi). unfold sighash_input_rule.
  apply map_eq_Forall2 in Hi.
  assert (Hstrip : forall s x y,
            outpoint_sequence x = outpoint_sequence y ->
            strip_witness (set_script s x) = strip_witness (set_script s y)).
  { intros s x y Hxy.
    apply outpoint_sequence_fields in Hxy as (H1 & H2 & H3).
    unfold strip_witness, set_script. cbn. by rewrite H1, H2, H3. }
  destruct (negb _).
  - destruct (ins X !! Z.to_nat inIndex) as [x|] eqn:Ex.
    + destruct (Forall2_lookup_l _ _ _ _ _ Hi Ex) as (y & Ey & Hxy).
      rewrite Ey. repeat split; cbn; try done. f_equal. by apply Hstrip.
    + destruct (ins Y !! Z.to_nat inIndex) as [y|] eqn:Ey; [|done].
      destruct (Forall2_lookup_r _ _ _ _ _ Hi Ey) as (x & Ex' & _).
      congruence.
  - assert (HB : Forall2 (fun x y => strip_witness x = strip_witness y)
                   (map (set_script EMPTY_SCRIPT) (ins X))
                   (map (set_script EMPTY_SCRIPT) (ins Y))).
    { apply Forall2_fmap. eapply Forall2_impl; [exact Hi|].
      intros x y Hxy. by apply Hstrip. }
    destruct (map (set_script EMPTY_SCRIPT) (ins X) !! Z.to_nat inIndex)
      as [x|] eqn:Ex.
    + destruct (Forall2_lookup_l _ _ _ _ _ HB Ex) as (y & Ey & Hxy).
      rewrite Ey. repeat split; cbn; try done.
      apply map_eq_Forall2. apply Forall2_insert; [done|].
      apply strip_witness_fields in Hxy as (H1 & H2 & H3 & H4).
      unfold strip_witness, set_script. cbn. by rewrite H1, H2, H4.
    + destruct (map (set_script EMPTY_SCRIPT) (ins Y) !! Z.to_nat inIndex)
        as [y|] eqn:Ey; [|done].
      destruct (Forall2_lookup_r _ _ _ _ _ HB Ey) as (x & Ex' & _).
      congruence.
Qed.

Lemma hashForSignature_but_scripts bscript T T' inIndex prevOutScript
    hashType :
  same_but_scripts T T' ->
  hashForSignature bscript T inIndex prevOutScript hashType =
  hashForSignature bscript T' inIndex prevOutScript hashType.
Proof.
  intros H. pose proof H as (Hv & Hl & Ho & Hi).
  unfold hashForSignature.
  destruct (typeforce _) as [[]|e]; [|done]. cbn [rbind].
  assert (Hlen : blen (ins T) = blen (ins T')).
  { unfold blen. apply (f_equal length) in Hi.
    rewrite !length_map in Hi. by rewrite Hi. }
  rewrite Hlen. destruct (_ <=? _); [done|].
  unfold sighash_txTmp.
  pose proof (sighash_output_rule_but_scripts T T' (clone T) (clone T')
                inIndex hashType Ho (same_but_scripts_clone _ _ H)) as Hout.
  destruct (sighash_output_rule T _ _ _) as [X|],
           (sighash_output_rule T' _ _ _) as [Y|]; try done.
  pose proof (sighash_input_rule_but_scripts X Y inIndex hashType
                (ourScript_of bscript prevOutScript) Hout) as Hin.
  destruct (sighash_input_rule X _ _ _) as [X'|e],
           (sighash_input_rule Y _ _ _) as [Y'|e']; try done.
  - cbn [rbind]. by apply sighash_digest_but_witnesses.
  - by subst.
Qed.

Lemma hashForWitnessV0_but_scripts T T' inIndex prevOutScript value hashType :
  same_but_scripts T T' ->
  hashForWitnessV0 T inIndex prevOutScript value hashType =
  hashForWitnessV0 T' inIndex prevOutScript value hashType.
Proof.
  intros (Hv & Hl & Ho & Hi). apply map_eq_Forall2 in Hi.
  assert (Hlen : blen (ins T) = blen (ins T')).
  { unfold blen. by rewrite (Forall2_length _ _ _ Hi). }
  unfold hashForWitnessV0.
  destruct (typeforce _) as [[]|e]; [|done]. cbn [rbind].
  assert (Hp : hashPrevouts T hashType = hashPrevouts T' hashType).
  { unfold hashPrevouts, filled. rewrite Hlen.
    destruct (negb _); [|done]. f_equal.
    rewrite (forEachM_Forall2 _
               (fun txIn => do _ <- Writer.writeSlice (TxIn.hash txIn);
                            Writer.writeUInt32 (TxIn.index txIn))
               (ins T) (ins T')); [done|].
    eapply Forall2_impl; [exact Hi|]. intros x y Hxy s.
    apply outpoint_sequence_fields in Hxy as (-> & -> & _). done. }
  assert (Hs : hashSequence T hashType = hashSequence T' hashType).
  { unfold hashSequence, filled. rewrite Hlen.
    destruct (_ && _); [|done]. f_equal.
    rewrite (forEachM_Forall2 _
               (fun txIn => Writer.writeUInt32 (TxIn.sequence txIn))
               (ins T) (ins T')); [done|].
    eapply Forall2_impl; [exact Hi|]. intros x y Hxy s.
    apply outpoint_sequence_fields in Hxy as (_ & _ & ->). done. }
  assert (Hos : hashOutputs T inIndex hashType =
                hashOutputs T' inIndex hashType).
  { unfold hashOutputs. by rewrite Ho. }
  rewrite Hp, Hs, Hos.
  destruct (hashPrevouts T' hashType) as [hp|e]; [|done]. cbn [rbind].
  destruct (hashSequence T' hashType) as [hs|e]; [|done]. cbn [rbind].
  destruct (hashOutputs T' inIndex hashType) as [ho|e]; [|done].
  cbn [rbind]. f_equal.
  unfold filled, witness_preimage_writes. rewrite Hv, Hl.
  destruct (ins T !! Z.to_nat inIndex) as [x|] eqn:Ex.
  - destruct (Forall2_lookup_l _ _ _ _ _ Hi Ex) as (y & -> & Hxy).
    apply outpoint_sequence_fields in Hxy as (-> & -> & ->). done.
  - destruct (ins T' !! Z.to_nat inIndex) as [y|] eqn:Ey; [|done].
    destruct (Forall2_lookup_r _ _ _ _ _ Hi Ey) as (x & Ex' & _).
    congruence.
Qed.

(** X9: the legacy signature hash of a transaction does not depend on
    the scripts and the witnesses of its inputs: two transactions
    that agree on version, locktime, outputs and, input by input, on
    the previous output and the sequence number have the same
    [hashForSignature], for every input index, previous output
    script and hash type. *)
Theorem hashForSignature_ignores_input_scripts (bscript : Script)
    (T T' : Transaction) (inIndex : Z) (prevOutScript : bytes)
    (hashType : Z) :
  same_but_scripts T T' ->
  hashForSignature bscript T inIndex prevOutScript hashType =
  hashForSignature bscript T' inIndex prevOutScript hashType.
Proof. apply hashForSignature_but_scripts. Qed.

Lemma hashForSignature_ignores_input_scripts_witness :
  hashForSignature opcode_script tx_three_outputs 1 [x51] SIGHASH_ALL =
  hashForSignature opcode_script
    (mkTransaction 2 7
       [TxIn.mk (repeat x11 32) 0 [xaa; xbb] 0xffffffff [[x01]];
        TxIn.mk (repeat x22 32) 1 [] 0xfffffffe [[x02]; []]]
       (outs tx_three_outputs)) 1 [x51] SIGHASH_ALL.
Proof.
  apply (hashForSignature_ignores_input_scripts opcode_script
           tx_three_outputs).
  repeat split; reflexivity.
Defined.

(** X10: the witness-v0 signature hash of a transaction does not
    depend on the scripts and the witnesses of its inputs either. *)
Theorem hashForWitnessV0_ignores_input_scripts (T T' : Transaction)
    (inIndex : Z) (prevOutScript : bytes) (value hashType : Z) :
  same_but_scripts T T' ->
  hashForWitnessV0 T inIndex prevOutScript value hashType =
  hashForWitnessV0 T' inIndex prevOutScript value hashType.
Proof. apply hashForWitnessV0_but_scripts. Qed.

Lemma hashForWitnessV0_ignores_input_scripts_witness :
  hashForWitnessV0 tx_three_outputs 1 [x51] 20 SIGHASH_ALL =
  hashForWitnessV0
    (mkTransaction 2 7
       [TxIn.mk (repeat x11 32) 0 [xaa; xbb] 0xffffffff [[x01]];
        TxIn.mk (repeat x22 32) 1 [] 0xfffffffe [[x02]; []]]
       (outs tx_three_outputs)) 1 [x51] 20 SIGHASH_ALL.
Proof.
  apply (hashForWitnessV0_ignores_input_scripts tx_three_outputs).
  repeat split; reflexivity.
Defined.

(** ** The setters *)

Lemma at_index_Some {A} (l : list A) i x :
  at_index l i = Some x <-> 0 <= i /\ l !! Z.to_nat i = Some x.
Proof.
  unfold at_index. destruct (Z.ltb_spec i 0).
  - split; [done|]. intros [? _]. lia.
  - split; [done|]. by intros [_ ?].
Qed.

Lemma at_index_None {A} (l : list A) i :
  at_index l i = None <-> i < 0 \/ blen l <= i.
Proof.
  unfold at_index, blen. destruct (Z.ltb_spec i 0).
  - split; [by left|done].
  - rewrite lookup_ge_None. lia.
Qed.

Lemma at_index_in_range {A} (l : list A) i :
  0 <= i < blen l -> exists x, at_index l i = Some x.
Proof.
  intros Hi. destruct (at_index l i) as [x|] eqn:E; [by exists x|].
  apply at_index_None in E. lia.
Qed.

Lemma same_but_witnesses_scripts T T' :
  same_but_witnesses T T' -> same_but_scripts T T'.
Proof.
  intros (Hv & Hl & Ho & Hi). repeat split; try done.
  apply map_eq_Forall2. apply map_eq_Forall2 in Hi.
  eapply Forall2_impl; [exact Hi|]. intros x y Hxy.
  apply strip_witness_fields in Hxy as (H1 & H2 & _ & H4).
  unfold outpoint_sequence. by rewrite H1, H2, H4.
Qed.

Lemma hash_but_witnesses T T' :
  same_but_witnesses T T' ->
  encode T false = encode T' false /\ hash T = hash T'.
Proof.
  intros H. destruct (toBuffer_writes_but_witnesses T T' H) as [Hlen Hw].
  unfold encode, hash, __toBuffer. by rewrite Hlen, Hw.
Qed.

Lemma map_insert_same {A B} (f : A -> B) (l : list A) k x y :
  l !! k = Some x -> f y = f x -> map f (<[k := y]> l) = map f l.
Proof.
  intros Hk Hf. change (map f) with (fmap (M:=list) f).
  rewrite list_fmap_insert, Hf. apply list_insert_id.
  by rewrite list_lookup_fmap, Hk.
Qed.

Lemma setInputScript_same_but_scripts T index scriptSig T' :
  setInputScript T index scriptSig = Ok T' -> same_but_scripts T' T.
Proof.
  unfold setInputScript.
  destruct (at_index (ins T) index) as [x|] eqn:E; [|done].
  intros H. injection H as <-. apply at_index_Some in E as [_ E].
  repeat split; try done. cbn. by eapply map_insert_same.
Qed.

Lemma setWitness_same_but_witnesses T index witness T' :
  setWitness T index witness = Ok T' -> same_but_witnesses T' T.
Proof.
  unfold setWitness.
  destruct (at_index (ins T) index) as [x|] eqn:E; [|done].
  intros H. injection H as <-. apply at_index_Some in E as [_ E].
  repeat split; try done. cbn. by eapply map_insert_same.
Qed.

Lemma existsb_insert_witness (l : list TxIn.t) k x witness :
  l !! k = Some x -> witness <> [] ->
  existsb (fun x => negb (blen (TxIn.witness x) =? 0))
    (<[k := set_witness witness x]> l) = true.
Proof.
  intros Hk Hw. apply existsb_exists. exists (set_witness witness x).
  split.
  - apply list_elem_of_In. apply list_elem_of_lookup. exists k.
    apply list_lookup_insert_eq. by eapply lookup_lt_Some.
  - cbn. destruct witness; [done|]. reflexivity.
Qed.

(** X11: [setInputScript] throws on an index outside the inputs and
    otherwise replaces the script of that input and nothing else; no
    signature hash of the transaction changes by it, for any input
    and any hash type, legacy or witness-v0. *)
Theorem setInputScript_keeps_signature_hashes (T : Transaction)
    (index : Z) (scriptSig : bytes) :
  (index < 0 \/ blen (ins T) <= index ->
   exists e, setInputScript T index scriptSig = Throw e) /\
  (0 <= index < blen (ins T) ->
   exists T' input,
     setInputScript T index scriptSig = Ok T' /\
     ins T !! Z.to_nat index = Some input /\
     ins T' = <[Z.to_nat index := set_script scriptSig input]> (ins T) /\
     version T' = version T /\ locktime T' = locktime T /\
     outs T' = outs T /\
     (forall bscript inIndex prevOutScript hashType,
        hashForSignature bscript T' inIndex prevOutScript hashType =
        hashForSignature bscript T inIndex prevOutScript hashType) /\
     (forall inIndex prevOutScript value hashType,
        hashForWitnessV0 T' inIndex prevOutScript value hashType =
        hashForWitnessV0 T inIndex prevOutScript value hashType)).
Proof.
  split.
  - intros H. apply at_index_None in H. unfold setInputScript.
    rewrite H. by eexists.
  - intros H. destruct (at_index_in_range (ins T) index H) as [x Hx].
    pose proof Hx as Hx'. apply at_index_Some in Hx' as [_ Hx'].
    assert (E : setInputScript T index scriptSig =
                Ok (set_ins (<[Z.to_nat index := set_script scriptSig x]>
                               (ins T)) T)).
    { unfold setInputScript. by rewrite Hx. }
    pose proof (setInputScript_same_but_scripts _ _ _ _ E) as Hsame.
    eexists _, x. split; [exact E|]. repeat split; try done.
    + intros. by apply hashForSignature_but_scripts.
    + intros. by apply hashForWitnessV0_but_scripts.
Qed.

Lemma setInputScript_keeps_signature_hashes_witness :
  (exists e, setInputScript tx_three_outputs 2 [x51] = Throw e) /\
  exists T', setInputScript tx_three_outputs 1 [x51] = Ok T' /\
    hashForSignature opcode_script T' 0 [x52] SIGHASH_ALL =
    hashForSignature opcode_script tx_three_outputs 0 [x52] SIGHASH_ALL.
Proof.
  split.
  - apply (proj1 (setInputScript_keeps_signature_hashes
                    tx_three_outputs 2 [x51])).
    right. vm_compute. discriminate.
  - destruct (proj2 (setInputScript_keeps_signature_hashes
                       tx_three_outputs 1 [x51]))
      as (T' & input & E & _ & _ & _ & _ & _ & Hl & _).
    + vm_compute. split; [discriminate|reflexivity].
    + exists T'. split; [exact E|apply Hl].
Defined.

(** X12: [setWitness] throws on an index outside the inputs and
    otherwise replaces the witness of that input and nothing else;
    the transaction hash and id, the length without witness data and
    every signature hash stay as they were, and the transaction has
    witnesses afterwards when the new witness is not empty. *)
Theorem setWitness_keeps_hash (T : Transaction) (index : Z)
    (witness : list bytes) :
  (index < 0 \/ blen (ins T) <= index ->
   exists e, setWitness T index witness = Throw e) /\
  (0 <= index < blen (ins T) ->
   exists T' input,
     setWitness T index witness = Ok T' /\
     ins T !! Z.to_nat index = Some input /\
     ins T' = <[Z.to_nat index := set_witness witness input]> (ins T) /\
     version T' = version T /\ locktime T' = locktime T /\
     outs T' = outs T /\
     hash T' = hash T /\ get_id T' = get_id T /\
     __byteLength T' false = __byteLength T false /\
     (witness <> [] -> hasWitnesses T' = true) /\
     (forall bscript inIndex prevOutScript hashType,
        hashForSignature bscript T' inIndex prevOutScript hashType =
        hashForSignature bscript T inIndex prevOutScript hashType) /\
     (forall inIndex prevOutScript value hashType,
        hashForWitnessV0 T' inIndex prevOutScript value hashType =
        hashForWitnessV0 T inIndex prevOutScript value hashType)).
Proof.
  split.
  - intros H. apply at_index_None in H. unfold setWitness.
    rewrite H. by eexists.
  - intros H. destruct (at_index_in_range (ins T) index H) as [x Hx].
    pose proof Hx as Hx'. apply at_index_Some in Hx' as [_ Hx'].
    assert (E : setWitness T index witness =
                Ok (set_ins (<[Z.to_nat index := set_witness witness x]>
                               (ins T)) T)).
    { unfold setWitness. by rewrite Hx. }
    pose proof (setWitness_same_but_witnesses _ _ _ _ E) as Hsame.
    pose proof (same_but_witnesses_scripts _ _ Hsame) as Hsame'.
    destruct (hash_but_witnesses _ _ Hsame) as [_ Hhash].
    eexists _, x. split; [exact E|]. repeat split; try done.
    + unfold get_id. by rewrite Hhash.
    + by apply toBuffer_writes_but_witnesses.
    + intros Hw. unfold hasWitnesses. cbn.
      by apply existsb_insert_witness.
    + intros. by apply hashForSignature_but_scripts.
    + intros. by apply hashForWitnessV0_but_scripts.
Qed.

Lemma setWitness_keeps_hash_witness :
  (exists e, setWitness tx_three_outputs (-1) [[x01]] = Throw e) /\
  exists T', setWitness tx_three_outputs 1 [[x01]] = Ok T' /\
    hash T' = hash tx_three_outputs /\ hasWitnesses T' = true.
Proof.
  split.
  - apply (proj1 (setWitness_keeps_hash tx_three_outputs (-1) [[x01]])).
    left. reflexivity.
  - destruct (proj2 (setWitness_keeps_hash tx_three_outputs 1 [[x01]]))
      as (T' & input & E & _ & _ & _ & _ & _ & Hh & _ & _ & Hw & _).
    + vm_compute. split; [discriminate|reflexivity].
    + exists T'. split; [exact E|]. split; [exact Hh|]. by apply Hw.
Defined.

(** ** Building a transaction *)

Lemma UInt32_is_uint32 v : types.UInt32 v = true <-> is_uint32 v.
Proof. unfold types.UInt32, is_uint32. lia. Qed.

Lemma Satoshi_is_uint64 v : types.Satoshi v = true <-> is_uint64 v.
Proof. unfold types.Satoshi, is_uint64. lia. Qed.

Lemma safe_length_nil {A} : safe_length (@nil A).
Proof. unfold safe_length, varuint.MAX_SAFE_INTEGER. by cbn. Qed.

Lemma addInput_Ok T hash index sequence scriptSig i T' :
  addInput T hash index sequence scriptSig = Ok (i, T') ->
  length hash = 32%nat /\ is_uint32 index /\
  (forall s, sequence = Some s -> is_uint32 s) /\
  i = blen (ins T) /\
  T' = set_ins (ins T ++
         [TxIn.mk hash index (default EMPTY_SCRIPT scriptSig)
            (default DEFAULT_SEQUENCE sequence) EMPTY_WITNESS]) T.
Proof.
  unfold addInput. intros H.
  apply rbind_Ok in H as ([] & Ht & H). cbv zeta in H.
  injection H as <- <-.
  unfold typeforce in Ht.
  destruct (types.Hash256bit hash) eqn:E1; [|done].
  destruct (types.UInt32 index) eqn:E2; [|done].
  cbn [andb] in Ht.
  split.
  { unfold types.Hash256bit, blen in E1. lia. }
  split; [by apply UInt32_is_uint32|]. split.
  { intros s ->. apply UInt32_is_uint32. by destruct (types.UInt32 s). }
  split.
  { rewrite blen_app. change (blen [_]) with 1. lia. }
  by destruct sequence, scriptSig.
Qed.

Lemma addInput_wf T hash index sequence scriptSig i T' :
  wf_tx T ->
  blen (ins T) < varuint.MAX_SAFE_INTEGER ->
  (forall s, scriptSig = Some s -> safe_length s) ->
  addInput T hash index sequence scriptSig = Ok (i, T') ->
  wf_tx T'.
Proof.
  intros [Hv Hl Hi Ho Hil Hol] Hlen Hs H.
  apply addInput_Ok in H as (Hh & Hx & Hq & _ & ->).
  split; cbn; try done.
  - apply Forall_app. split; [done|]. constructor; [|constructor].
    split; cbn; try done.
    + destruct scriptSig as [s|]; cbn; [by apply Hs|apply safe_length_nil].
    + destruct sequence as [s|]; cbn; [by apply Hq|].
      unfold is_uint32, DEFAULT_SEQUENCE. lia.
  - unfold safe_length in *. rewrite blen_app. change (blen [_]) with 1. lia.
Qed.

Lemma addOutput_Ok T scriptPubKey value i T' :
  addOutput T scriptPubKey value = Ok (i, T') ->
  types.Satoshi value = true /\ i = blen (outs T) /\
  T' = set_outs (outs T ++ [TxOut.mk scriptPubKey (Some value) None]) T.
Proof.
  unfold addOutput. intros H.
  apply rbind_Ok in H as ([] & Ht & H). cbv zeta in H.
  injection H as <- <-.
  unfold typeforce in Ht. destruct (types.Satoshi value); [|done].
  split; [done|]. split; [|done].
  rewrite blen_app. change (blen [_]) with 1. lia.
Qed.

Lemma addOutput_wf T scriptPubKey value i T' :
  wf_tx T ->
  blen (outs T) < varuint.MAX_SAFE_INTEGER ->
  safe_length scriptPubKey ->
  addOutput T scriptPubKey value = Ok (i, T') ->
  wf_tx T' /\ (Forall plain_output (outs T) -> Forall plain_output (outs T')).
Proof.
  intros [Hv Hl Hi Ho Hil Hol] Hlen Hs H.
  apply addOutput_Ok in H as (Hsat & _ & ->).
  split.
  - split; cbn; try done.
    + apply Forall_app. split; [done|]. constructor; [|constructor].
      split; cbn; [done|]. by apply Satoshi_is_uint64.
    + unfold safe_length in *. rewrite blen_app.
      change (blen [_]) with 1. lia.
  - intros Hp. cbn. apply Forall_app. split; [done|].
    by repeat constructor.
Qed.

Lemma Forall_insert_lookup {A} (P : A -> Prop) (l : list A) k x y :
  Forall P l -> l !! k = Some x -> (P x -> P y) -> Forall P (<[k := y]> l).
Proof.
  intros HF Hk Hxy. apply Forall_insert; [done|].
  apply Hxy. by eapply Forall_lookup_1.
Qed.

Lemma setInputScript_wf T index scriptSig T' :
  wf_tx T -> safe_length scriptSig ->
  setInputScript T index scriptSig = Ok T' -> wf_tx T'.
Proof.
  intros [Hv Hl Hi Ho Hil Hol] Hs. unfold setInputScript.
  destruct (at_index (ins T) index) as [x|] eqn:E; [|done].
  intros H. injection H as <-. apply at_index_Some in E as [_ E].
  split; cbn; try done.
  - eapply Forall_insert_lookup; [done..|]. intros [? ? ? ? ? ?].
    split; cbn; done.
  - unfold safe_length, blen in *. by rewrite length_insert.
Qed.

Lemma setWitness_wf T index witness T' :
  wf_tx T -> safe_length witness -> Forall safe_length witness ->
  setWitness T index witness = Ok T' -> wf_tx T'.
Proof.
  intros [Hv Hl Hi Ho Hil Hol] Hs Hss. unfold setWitness.
  destruct (at_index (ins T) index) as [x|] eqn:E; [|done].
  intros H. injection H as <-. apply at_index_Some in E as [_ E].
  split; cbn; try done.
  - eapply Forall_insert_lookup; [done..|]. intros [? ? ? ? ? ?].
    split; cbn; done.
  - unfold safe_length, blen in *. by rewrite length_insert.
Qed.

(** X13: [addInput] throws unless the hash is 32 bytes long and the
    index and the sequence, when given, are unsigned 32-bit numbers;
    otherwise it appends one input, returns the index at which that
    input then stands, fills in the sequence 0xffffffff, the empty
    script and the empty witness for what was left out, and leaves
    the inputs before it, the outputs, version and locktime as they
    were; a transaction within the ranges of the data model stays
    within them. *)
Theorem addInput_appends (T : Transaction) (hash : bytes) (index : Z)
    (sequence : option Z) (scriptSig : option bytes) :
  (length hash <> 32%nat \/ ~ is_uint32 index \/
   (exists s, sequence = Some s /\ ~ is_uint32 s) ->
   exists e, addInput T hash index sequence scriptSig = Throw e) /\
  (length hash = 32%nat -> is_uint32 index ->
   (forall s, sequence = Some s -> is_uint32 s) ->
   exists T' input,
     addInput T hash index sequence scriptSig = Ok (blen (ins T), T') /\
     input = TxIn.mk hash index (default EMPTY_SCRIPT scriptSig)
               (default DEFAULT_SEQUENCE sequence) EMPTY_WITNESS /\
     ins T' = ins T ++ [input] /\
     ins T' !! Z.to_nat (blen (ins T)) = Some input /\
     outs T' = outs T /\ version T' = version T /\
     locktime T' = locktime T /\
     hasWitnesses T' = hasWitnesses T /\
     (wf_tx T -> blen (ins T) < varuint.MAX_SAFE_INTEGER ->
      (forall s, scriptSig = Some s -> safe_length s) -> wf_tx T')).
Proof.
  split.
  - intros H.
    destruct (addInput T hash index sequence scriptSig) as [[i T']|e] eqn:E;
      [|by eexists].
    apply addInput_Ok in E as (Hh & Hx & Hq & _).
    destruct H as [H|[H|(s & -> & H)]]; [done..|].
    destruct H. by apply Hq.
  - intros Hh Hx Hq.
    assert (E : addInput T hash index sequence scriptSig =
                Ok (blen (ins T),
                    set_ins (ins T ++
                      [TxIn.mk hash index (default EMPTY_SCRIPT scriptSig)
                         (default DEFAULT_SEQUENCE sequence) EMPTY_WITNESS])
                      T)).
    { unfold addInput, types.Hash256bit, blen. rewrite Hh.
      apply UInt32_is_uint32 in Hx. rewrite Hx.
      assert (Hq' : match sequence with
                    | Some s => types.UInt32 s
                    | None => true
                    end = true).
      { destruct sequence as [s|]; [|done].
        apply UInt32_is_uint32. by apply Hq. }
      rewrite Hq'. cbn [Z.of_nat Z.eqb Pos.of_succ_nat Pos.eqb andb
                        typeforce rbind]. cbv zeta.
      rewrite length_app. cbn [length].
      replace (Z.of_nat (length (ins T) + 1) - 1)
        with (Z.of_nat (length (ins T))) by lia.
      by destruct sequence, scriptSig. }
    eexists _, _. split; [exact E|]. split; [reflexivity|].
    split; [reflexivity|]. split.
    { cbn. unfold blen. rewrite Nat2Z.id.
      by rewrite lookup_app_r, Nat.sub_diag. }
    split; [done|]. split; [done|]. split; [done|]. split.
    { unfold hasWitnesses. cbn. rewrite existsb_app. cbn.
      by rewrite !orb_false_r. }
    intros Hwf Hlen Hs. by eapply addInput_wf.
Qed.

Lemma addInput_appends_witness :
  (exists e, addInput tx_three_outputs [x00] 0 None None = Throw e) /\
  exists T',
    addInput tx_three_outputs (repeat x33 32) 5 None None = Ok (2, T') /\
    ins T' !! 2%nat =
      Some (TxIn.mk (repeat x33 32) 5 [] 0xffffffff []) /\
    wf_tx T'.
Proof.
  split.
  - apply (proj1 (addInput_appends tx_three_outputs [x00] 0 None None)).
    left. discriminate.
  - destruct (proj2 (addInput_appends tx_three_outputs (repeat x33 32) 5
                       None None))
      as (T' & input & E & -> & _ & Hk & _ & _ & _ & _ & Hwf).
    + reflexivity.
    + unfold is_uint32. lia.
    + intros s H. discriminate.
    + exists T'. split; [exact E|]. split; [exact Hk|].
      apply Hwf; [solve_wf|vm_compute; reflexivity|].
      intros s H. discriminate.
Defined.

(** X14: [addOutput] throws when the value fails the amount check
    and otherwise appends one output with that script and value,
    returns the index at which it then stands, and leaves the outputs
    before it and the inputs as they were; a transaction within the
    ranges of the data model, and of outputs with amounts, stays
    so. *)
Theorem addOutput_appends (T : Transaction) (scriptPubKey : bytes)
    (value : Z) :
  (types.Satoshi value = false ->
   exists e, addOutput T scriptPubKey value = Throw e) /\
  (types.Satoshi value = true ->
   exists T' output,
     addOutput T scriptPubKey value = Ok (blen (outs T), T') /\
     output = TxOut.mk scriptPubKey (Some value) None /\
     outs T' = outs T ++ [output] /\
     outs T' !! Z.to_nat (blen (outs T)) = Some output /\
     ins T' = ins T /\ version T' = version T /\
     locktime T' = locktime T /\
     (wf_tx T -> blen (outs T) < varuint.MAX_SAFE_INTEGER ->
      safe_length scriptPubKey ->
      wf_tx T' /\
      (Forall plain_output (outs T) -> Forall plain_output (outs T')))).
Proof.
  split.
  - intros H. unfold addOutput. rewrite H. by eexists.
  - intros H.
    assert (E : addOutput T scriptPubKey value =
                Ok (blen (outs T),
                    set_outs (outs T ++
                                [TxOut.mk scriptPubKey (Some value) None]) T)).
    { unfold addOutput. rewrite H. cbn [typeforce rbind]. cbv zeta.
      rewrite blen_app. change (blen [_]) with 1.
      by replace (blen (outs T) + 1 - 1) with (blen (outs T)) by lia. }
    eexists _, _. split; [exact E|]. split; [reflexivity|].
    split; [reflexivity|]. split.
    { cbn. unfold blen. rewrite Nat2Z.id.
      by rewrite lookup_app_r, Nat.sub_diag. }
    split; [done|]. split; [done|]. split; [done|].
    intros Hwf Hlen Hs. by eapply addOutput_wf.
Qed.

Lemma addOutput_appends_witness :
  (exists e, addOutput tx_three_outputs [x51] (-1) = Throw e) /\
  exists T',
    addOutput tx_three_outputs [x51] 40 = Ok (3, T') /\
    outs T' !! 3%nat = Some (TxOut.mk [x51] (Some 40) None) /\
    wf_tx T'.
Proof.
  split.
  - apply (proj1 (addOutput_appends tx_three_outputs [x51] (-1))).
    reflexivity.
  - destruct (proj2 (addOutput_appends tx_three_outputs [x51] 40))
      as (T' & output & E & -> & _ & Hk & _ & _ & _ & Hwf).
    + reflexivity.
    + exists T'. split; [exact E|]. split; [exact Hk|].
      apply Hwf; [solve_wf|vm_compute; reflexivity|solve_wf].
Defined.

Lemma built_wf T : built T -> wf_tx T /\ Forall plain_output (outs T).
Proof.
  induction 1 as [|T hash index sequence scriptSig i T' HT [IH IHp] Hlen Hs E
                  |T scriptPubKey value i T' HT [IH IHp] Hlen Hs E
                  |T index scriptSig T' HT [IH IHp] Hs E
                  |T index witness T' HT [IH IHp] Hs Hss E].
  - split; [apply wf_new_Transaction|constructor].
  - split; [by eapply addInput_wf|].
    apply addInput_Ok in E as (_ & _ & _ & _ & ->). done.
  - destruct (addOutput_wf _ _ _ _ _ IH Hlen Hs E) as [? Hp]. auto.
  - split; [by eapply setInputScript_wf|].
    unfold setInputScript in E.
    destruct (at_index _ _); [|done]. by injection E as <-.
  - split; [by eapply setWitness_wf|].
    unfold setWitness in E.
    destruct (at_index _ _); [|done]. by injection E as <-.
Qed.

(** X15: every transaction built from [new Transaction()] through
    [addInput], [addOutput], [setInputScript] and [setWitness] is
    within the ranges of the data model, is encoded in [byteLength]
    bytes, and is decoded back from its encoding, unless it has no
    input and exactly one output. *)
Theorem built_transactions_round_trip (T : Transaction) :
  built T ->
  wf_tx T /\ Forall plain_output (outs T) /\
  exists b,
    encode T true = Ok b /\ blen b = byteLength T /\
    (~ (ins T = [] /\ length (outs T) = 1%nat) -> decode b = Ok T).
Proof.
  intros H. apply built_wf in H as [Hwf Hplain].
  split; [done|]. split; [done|].
  exists (serialize T true). split; [by apply encode_serialize|].
  split; [by apply blen_serialize|].
  intros Hne. by apply decode_serialize.
Qed.

Lemma built_transactions_round_trip_witness :
  let T := mkTransaction 1 0 [TxIn.mk (repeat x11 32) 7 [] 0xffffffff []]
             [TxOut.mk [x51] (Some 5) None] in
  wf_tx T /\ Forall plain_output (outs T) /\
  exists b,
    encode T true = Ok b /\ blen b = byteLength T /\
    (~ (ins T = [] /\ length (outs T) = 1%nat) -> decode b = Ok T).
Proof.
  apply built_transactions_round_trip.
  apply (built_addOutput
           (mkTransaction 1 0 [TxIn.mk (repeat x11 32) 7 [] 0xffffffff []] [])
           [x51] 5 0).
  - apply (built_addInput new_Transaction (repeat x11 32) 7 None None 0).
    + apply built_new.
    + vm_compute. reflexivity.
    + intros s H. discriminate.
    + reflexivity.
  - vm_compute. reflexivity.
  - solve_wf.
  - reflexivity.
Defined.

(** ** What the hash types leave out of the legacy signature hash *)

Lemma sighash_tail_but_scripts X Y inIndex hashType ourScript :
  same_but_scripts X Y ->
  rbind (sighash_input_rule X inIndex hashType ourScript)
    (fun txTmp => sighash_digest txTmp hashType) =
  rbind (sighash_input_rule Y inIndex hashType ourScript)
    (fun txTmp => sighash_digest txTmp hashType).
Proof.
  intros H.
  pose proof (sighash_input_rule_but_scripts X Y inIndex hashType
                ourScript H) as Hin.
  destruct (sighash_input_rule X _ _ _) as [X'|e],
           (sighash_input_rule Y _ _ _) as [Y'|e']; try done.
  - cbn [rbind]. by apply sighash_digest_but_witnesses.
  - by subst.
Qed.

Lemma zero_other_sequences_lookup inIndex l :
  0 <= inIndex ->
  zero_other_sequences inIndex l !! Z.to_nat inIndex =
  l !! Z.to_nat inIndex.
Proof.
  intros H. unfold zero_other_sequences. rewrite list_lookup_imap.
  destruct (l !! Z.to_nat inIndex) as [x|]; [|done]. cbn.
  by rewrite Z2Nat.id, Z.eqb_refl.
Qed.

Lemma zero_other_sequences_own inIndex l l' :
  0 <= inIndex ->
  map outpoint l = map outpoint l' ->
  TxIn.sequence <$> l !! Z.to_nat inIndex =
    TxIn.sequence <$> l' !! Z.to_nat inIndex ->
  map outpoint_sequence (zero_other_sequences inIndex l) =
  map outpoint_sequence (zero_other_sequences inIndex l').
Proof.
  intros Hi Hmap Hown. apply list_eq. intros i.
  change (map outpoint_sequence) with (fmap (M:=list) outpoint_sequence).
  unfold zero_other_sequences. rewrite !list_lookup_fmap, !list_lookup_imap.
  apply (f_equal (fun m => m !! i)) in Hmap.
  change (map outpoint) with (fmap (M:=list) outpoint) in Hmap.
  rewrite !list_lookup_fmap in Hmap.
  destruct (Z.eqb_spec (Z.of_nat i) inIndex) as [E|E].
  - subst inIndex. rewrite Nat2Z.id in Hown.
    destruct (l !! i) as [x|], (l' !! i) as [y|]; try done. cbn in *.
    unfold outpoint_sequence, outpoint in *.
    injection Hmap as -> ->. injection Hown as ->. done.
  - destruct (l !! i) as [x|], (l' !! i) as [y|]; try done. cbn in *.
    unfold outpoint_sequence, outpoint, set_sequence in *. cbn.
    by injection Hmap as -> ->.
Qed.

Lemma fold_insert_prefix {A} (B : A) k :
  forall (p s : list A),
    length p = k ->
    fold_left (fun o i => <[i := B]> o) (seq 0 k) (p ++ s) =
    replicate k B ++ s.
Proof.
  induction k as [|k IH]; intros p s Hp.
  - by destruct p.
  - destruct (decide (p = [])) as [->|Hne]; [done|].
    destruct (exists_last Hne) as (p' & y & ->).
    rewrite length_app in Hp. cbn in Hp.
    rewrite seq_S, fold_left_app. cbn [fold_left Nat.add].
    rewrite <- app_assoc. rewrite (IH p' ([y] ++ s)) by lia.
    rewrite insert_app_r_alt by (rewrite length_replicate; lia).
    rewrite length_replicate, Nat.sub_diag. cbn.
    change (B :: s) with ([B] ++ s). rewrite app_assoc. f_equal.
    clear. induction k as [|k IH]; [done|]. cbn. by rewrite IH.
Qed.

Lemma blank_outputs_before_lookup inIndex (l : list TxOut.t) x :
  0 <= inIndex -> l !! Z.to_nat inIndex = Some x ->
  blank_outputs_before inIndex l =
  replicate (Z.to_nat inIndex) BLANK_OUTPUT ++ [x].
Proof.
  intros Hi Hx. unfold blank_outputs_before.
  replace (Z.to_nat (inIndex + 1)) with (S (Z.to_nat inIndex)) by lia.
  rewrite (take_S_r _ _ _ Hx).
  apply fold_insert_prefix. rewrite length_take.
  apply lookup_lt_Some in Hx. lia.
Qed.

Lemma UInt32_nonneg v : types.UInt32 v = true -> 0 <= v.
Proof. unfold types.UInt32. lia. Qed.

Lemma lookup_None_blen {A} (l : list A) i :
  0 <= i -> (blen l <=? i) = bool_decide (l !! Z.to_nat i = None).
Proof.
  intros Hi. unfold blen. destruct (Z.leb_spec (Z.of_nat (length l)) i).
  - symmetry. apply bool_decide_eq_true. apply lookup_ge_None. lia.
  - symmetry. apply bool_decide_eq_false. intros H'.
    apply lookup_ge_None in H'. lia.
Qed.

(** X16: with base mode SIGHASH_NONE the legacy signature hash
    commits to no output and to no sequence number but that of the
    input signed: two transactions with the same version and
    locktime, whose inputs spend the same previous outputs, and with
    the same sequence number at [inIndex], have the same hash,
    whatever their outputs and their other sequence numbers. *)
Theorem hashForSignature_none_ignores_outputs (bscript : Script)
    (T T' : Transaction) (inIndex : Z) (prevOutScript : bytes)
    (hashType : Z) :
  Z.land hashType 0x1f = SIGHASH_NONE ->
  version T = version T' -> locktime T = locktime T' ->
  map outpoint (ins T) = map outpoint (ins T') ->
  TxIn.sequence <$> ins T !! Z.to_nat inIndex =
    TxIn.sequence <$> ins T' !! Z.to_nat inIndex ->
  hashForSignature bscript T inIndex prevOutScript hashType =
  hashForSignature bscript T' inIndex prevOutScript hashType.
Proof.
  intros Hnone Hv Hl Hi Hown. unfold hashForSignature.
  destruct (types.UInt32 inIndex) eqn:Hu; [|done].
  cbn [typeforce rbind]. apply UInt32_nonneg in Hu.
  assert (Hlen : blen (ins T) = blen (ins T')).
  { unfold blen. apply (f_equal length) in Hi.
    rewrite !length_map in Hi. by rewrite Hi. }
  rewrite Hlen. destruct (_ <=? _); [done|].
  unfold sighash_txTmp, sighash_output_rule. rewrite Hnone.
  change (SIGHASH_NONE =? SIGHASH_NONE) with true. cbv iota.
  apply sighash_tail_but_scripts.
  repeat split; cbn [ins outs version locktime set_ins set_outs]; try done. rewrite !ins_clone.
  by apply zero_other_sequences_own.
Qed.

Lemma hashForSignature_none_ignores_outputs_witness :
  hashForSignature opcode_script tx_three_outputs 1 [x51] SIGHASH_NONE =
  hashForSignature opcode_script
    (mkTransaction 2 7
       [TxIn.mk (repeat x11 32) 0 [x51] 5 [];
        TxIn.mk (repeat x22 32) 1 [x52] 0xfffffffe []]
       [TxOut.mk [x59] (Some 99) None]) 1 [x51] SIGHASH_NONE.
Proof.
  apply (hashForSignature_none_ignores_outputs opcode_script
           tx_three_outputs); reflexivity.
Defined.

(** X17: with base mode SIGHASH_SINGLE the legacy signature hash
    commits to one output only, the one at [inIndex]: two
    transactions with the same version and locktime, whose inputs
    spend the same previous outputs, with the same sequence number at
    [inIndex] and the same output at [inIndex], have the same hash,
    whatever their other outputs. *)
Theorem hashForSignature_single_own_output (bscript : Script)
    (T T' : Transaction) (inIndex : Z) (prevOutScript : bytes)
    (hashType : Z) :
  Z.land hashType 0x1f = SIGHASH_SINGLE ->
  version T = version T' -> locktime T = locktime T' ->
  map outpoint (ins T) = map outpoint (ins T') ->
  TxIn.sequence <$> ins T !! Z.to_nat inIndex =
    TxIn.sequence <$> ins T' !! Z.to_nat inIndex ->
  outs T !! Z.to_nat inIndex = outs T' !! Z.to_nat inIndex ->
  hashForSignature bscript T inIndex prevOutScript hashType =
  hashForSignature bscript T' inIndex prevOutScript hashType.
Proof.
  intros Hsingle Hv Hl Hi Hown Hout. unfold hashForSignature.
  destruct (types.UInt32 inIndex) eqn:Hu; [|done].
  cbn [typeforce rbind]. apply UInt32_nonneg in Hu.
  assert (Hlen : blen (ins T) = blen (ins T')).
  { unfold blen. apply (f_equal length) in Hi.
    rewrite !length_map in Hi. by rewrite Hi. }
  rewrite Hlen. destruct (_ <=? _); [done|].
  unfold sighash_txTmp, sighash_output_rule. rewrite Hsingle.
  change (SIGHASH_SINGLE =? SIGHASH_NONE) with false.
  change (SIGHASH_SINGLE =? SIGHASH_SINGLE) with true. cbv iota.
  rewrite !(lookup_None_blen _ _ Hu), Hout.
  destruct (outs T' !! Z.to_nat inIndex) as [o|] eqn:Eo.
  2:{ rewrite bool_decide_eq_true_2 by done. done. }
  rewrite bool_decide_eq_false_2 by done.
  apply sighash_tail_but_scripts.
  repeat split; cbn [ins outs version locktime set_ins set_outs]; try done.
  - set (c := fun txOut : TxOut.t =>
                TxOut.mk (TxOut.script txOut) (TxOut.value txOut) None).
    change (outs (clone T)) with (c <$> outs T).
    change (outs (clone T')) with (c <$> outs T').
    rewrite (blank_outputs_before_lookup inIndex (c <$> outs T) (c o) Hu)
      by (by rewrite list_lookup_fmap, Hout).
    rewrite (blank_outputs_before_lookup inIndex (c <$> outs T') (c o) Hu)
      by (by rewrite list_lookup_fmap, Eo).
    done.
  - rewrite !ins_clone. by apply zero_other_sequences_own.
Qed.

Lemma hashForSignature_single_own_output_witness :
  hashForSignature opcode_script tx_three_outputs 1 [x51] SIGHASH_SINGLE =
  hashForSignature opcode_script
    (mkTransaction 2 7
       [TxIn.mk (repeat x11 32) 0 [x51] 5 [];
        TxIn.mk (repeat x22 32) 1 [x52] 0xfffffffe []]
       [TxOut.mk [x59] (Some 99) None;
        TxOut.mk [x52] (Some 20) None]) 1 [x51] SIGHASH_SINGLE.
Proof.
  apply (hashForSignature_single_own_output opcode_script
           tx_three_outputs); reflexivity.
Defined.

(** X18: with SIGHASH_ANYONECANPAY the legacy signature hash commits
    to no input but the one signed: two transactions with the same
    version, locktime and outputs, whose inputs at [inIndex] spend
    the same previous output with the same sequence number, have the
    same hash, whatever their other inputs. *)
Theorem hashForSignature_anyonecanpay_own_input (bscript : Script)
    (T T' : Transaction) (inIndex : Z) (prevOutScript : bytes)
    (hashType : Z) :
  Z.land hashType SIGHASH_ANYONECANPAY <> 0 ->
  version T = version T' -> locktime T = locktime T' ->
  outs T = outs T' ->
  outpoint_sequence <$> ins T !! Z.to_nat inIndex =
    outpoint_sequence <$> ins T' !! Z.to_nat inIndex ->
  hashForSignature bscript T inIndex prevOutScript hashType =
  hashForSignature bscript T' inIndex prevOutScript hashType.
Proof.
  intros Hacp Hv Hl Ho Hown. unfold hashForSignature.
  destruct (types.UInt32 inIndex) eqn:Hu; [|done].
  cbn [typeforce rbind]. apply UInt32_nonneg in Hu.
  rewrite !(lookup_None_blen _ _ Hu).
  destruct (ins T !! Z.to_nat inIndex) as [x|] eqn:Ex,
           (ins T' !! Z.to_nat inIndex) as [y|] eqn:Ey; try done.
  rewrite !bool_decide_eq_false_2 by done.
  cbn in Hown. injection Hown as Hh Hx Hq.
  assert (Hin : forall X Y,
            version X = version Y -> locktime X = locktime Y ->
            outs X = outs Y ->
            ins X !! Z.to_nat inIndex = Some x ->
            ins Y !! Z.to_nat inIndex = Some y ->
            rbind (sighash_input_rule X inIndex hashType
                     (ourScript_of bscript prevOutScript))
              (fun txTmp => sighash_digest txTmp hashType) =
            rbind (sighash_input_rule Y inIndex hashType
                     (ourScript_of bscript prevOutScript))
              (fun txTmp => sighash_digest txTmp hashType)).
  { intros X Y HXv HXl HXo HXx HYy. unfold sighash_input_rule.
    apply Z.eqb_neq in Hacp. rewrite Hacp. cbn [negb].
    rewrite HXx, HYy. cbn [rbind].
    apply sighash_digest_but_witnesses.
    repeat split; cbn [ins outs version locktime set_ins set_outs]; try done.
    unfold strip_witness, set_script. cbn. by rewrite Hh, Hx, Hq. }
  unfold sighash_txTmp, sighash_output_rule. rewrite Ho.
  destruct (Z.land hashType 31 =? SIGHASH_NONE).
  { apply Hin; cbn [ins outs version locktime set_ins set_outs]; try done;
      by rewrite ins_clone, zero_other_sequences_lookup. }
  destruct (Z.land hashType 31 =? SIGHASH_SINGLE).
  { destruct (blen (outs T') <=? inIndex); [done|].
    apply Hin; cbn [ins outs version locktime set_ins set_outs]; try done.
    - unfold clone. cbn. by rewrite Ho.
    - by rewrite ins_clone, zero_other_sequences_lookup.
    - by rewrite ins_clone, zero_other_sequences_lookup. }
  apply Hin; try done.
  - unfold clone. cbn. by rewrite Ho.
  - by rewrite ins_clone.
  - by rewrite ins_clone.
Qed.

Lemma hashForSignature_anyonecanpay_own_input_witness :
  hashForSignature opcode_script tx_three_outputs 1 [x51] 0x81 =
  hashForSignature opcode_script
    (mkTransaction 2 7
       [TxIn.mk (repeat x44 32) 9 [x51] 5 [];
        TxIn.mk (repeat x22 32) 1 [x52] 0xfffffffe [];
        TxIn.mk (repeat x55 32) 3 [] 0 []]
       (outs tx_three_outputs)) 1 [x51] 0x81.
Proof.
  apply (hashForSignature_anyonecanpay_own_input opcode_script
           tx_three_outputs); try reflexivity.
  vm_compute. discriminate.
Defined.

(** ** What the hashers return on well-formed transactions *)

(** X19: on a transaction within the ranges of the data model, with a
    version that is not negative, [hashForWitnessV0] for an input
    that exists returns, and what it returns is [hash256] of the
    pre-image of BIP143: version, the digest of the previous outputs,
    the digest of the sequences, the previous output of the input,
    the script with its length, the amount, the sequence, the digest
    of the outputs, locktime and hash type, with the zero digests
    that the hash type asks for. *)
Theorem hashForWitnessV0_returns_bip143 (T : Transaction) (inIndex : Z)
    (prevOutScript : bytes) (value hashType : Z) (input : TxIn.t) :
  wf_tx T -> Forall plain_output (outs T) -> 0 <= version T ->
  is_uint32 inIndex -> ins T !! Z.to_nat inIndex = Some input ->
  safe_length prevOutScript -> is_uint64 value -> is_uint32 hashType ->
  let base := Z.land hashType 0x1f in
  let hashPrevouts :=
    if anyonecanpay hashType then ZERO
    else hash256 (concat (map prevout_bytes (ins T))) in
  let hashSequence :=
    if anyonecanpay hashType || (base =? SIGHASH_SINGLE) ||
       (base =? SIGHASH_NONE)
    then ZERO
    else hash256 (concat (map sequence_bytes (ins T))) in
  let hashOutputs :=
    if (base =? SIGHASH_SINGLE) || (base =? SIGHASH_NONE) then
      match outs T !! Z.to_nat inIndex with
      | Some output =>
          if base =? SIGHASH_SINGLE then hash256 (output_bytes output)
          else ZERO
      | None => ZERO
      end
    else hash256 (concat (map output_bytes (outs T))) in
  hashForWitnessV0 T inIndex prevOutScript value hashType =
  Ok (hash256
        (le_bytes 4 (version T) ++ hashPrevouts ++ hashSequence ++
         TxIn.hash input ++ le_bytes 4 (TxIn.index input) ++
         varslice_bytes prevOutScript ++ le_bytes 8 value ++
         le_bytes 4 (TxIn.sequence input) ++ hashOutputs ++
         le_bytes 4 (locktime T) ++ le_bytes 4 hashType)).
Proof.
  intros Hwf Hplain Hv0 Hi Hin Hs Hval Hht. cbv zeta.
  destruct Hwf as [Hv Hl Hins Houts Hil Hol].
  assert (Hwfi : wf_in input).
  { rewrite Forall_forall in Hins. apply Hins.
    by eapply list_elem_of_lookup_2. }
  apply (hashForWitnessV0_preimage T inIndex prevOutScript value hashType
           input); try done.
  - unfold is_int32 in Hv. unfold is_uint32. lia.
  - rewrite (hashPrevouts_value T hashType Hins).
    by destruct (anyonecanpay hashType).
  - rewrite (hashSequence_value T hashType Hins).
    by destruct (anyonecanpay hashType),
                (Z.land hashType 31 =? SIGHASH_SINGLE),
                (Z.land hashType 31 =? SIGHASH_NONE).
  - destruct (Z.eqb_spec (Z.land hashType 31) SIGHASH_SINGLE) as [Es|Es].
    + cbn [orb].
      destruct (outs T !! Z.to_nat inIndex) as [output|] eqn:Eo.
      * apply hashOutputs_single; try done. unfold is_uint32 in Hi. lia.
      * unfold hashOutputs. rewrite Es.
        change (SIGHASH_SINGLE =? SIGHASH_SINGLE) with true.
        change (SIGHASH_SINGLE =? SIGHASH_NONE) with false.
        cbn [negb andb].
        apply lookup_ge_None in Eo. unfold is_uint32 in Hi.
        destruct (Z.ltb_spec inIndex (blen (outs T))) as [Hlt|Hge]; [|done].
        unfold blen in Hlt. lia.
    + destruct (Z.eqb_spec (Z.land hashType 31) SIGHASH_NONE) as [En|En].
      * cbn [orb]. unfold hashOutputs. rewrite En.
        change (SIGHASH_NONE =? SIGHASH_SINGLE) with false.
        change (SIGHASH_NONE =? SIGHASH_NONE) with true.
        cbn [negb andb]. by destruct (outs T !! Z.to_nat inIndex).
      * cbn [orb]. by apply hashOutputs_all.
Qed.

Lemma hashForWitnessV0_returns_bip143_witness :
  exists preimage,
    hashForWitnessV0 tx_three_outputs 1 [x51] 20 SIGHASH_ALL =
      Ok (hash256 preimage) /\
    blen preimage = 158.
Proof.
  eexists. split.
  - apply (hashForWitnessV0_returns_bip143 tx_three_outputs 1 [x51] 20
             SIGHASH_ALL (TxIn.mk (repeat x22 32) 1 [x52] 0xfffffffe []));
      try solve [solve_wf | reflexivity
                 | unfold is_uint32, is_uint64, SIGHASH_ALL; lia].
    vm_compute. discriminate.
  - vm_compute. reflexivity.
Defined.

Lemma writeUInt32_out_of_range i s :
  ~ is_uint32 i -> exists e, Writer.writeUInt32 i s = Throw e.
Proof.
  intros H. destruct s as [b o].
  unfold Writer.writeUInt32, Writer.lift, Buffer.writeUInt32LE,
    Buffer.writeInt.
  destruct (Z.leb_spec 0 i), (Z.leb_spec i 4294967295); cbn;
    try (by eexists).
  destruct H. unfold is_uint32. lia.
Qed.

(** X20: the witness-v0 hasher writes the version as an unsigned
    32-bit number, where the encoder writes it as a signed one: on a
    transaction with a negative version, which the encoder encodes
    and the decoder returns, [hashForWitnessV0] throws for every
    input and hash type. *)
Theorem hashForWitnessV0_negative_version (T : Transaction) (inIndex : Z)
    (prevOutScript : bytes) (value hashType : Z) :
  version T < 0 ->
  exists e,
    hashForWitnessV0 T inIndex prevOutScript value hashType = Throw e.
Proof.
  intros Hv. unfold hashForWitnessV0.
  destruct (typeforce _) as [[]|e]; [|by eexists]. cbn [rbind].
  destruct (hashPrevouts T hashType) as [hp|e]; [|by eexists].
  cbn [rbind].
  destruct (hashSequence T hashType) as [hs|e]; [|by eexists].
  cbn [rbind].
  destruct (hashOutputs T inIndex hashType) as [ho|e]; [|by eexists].
  cbn [rbind]. unfold filled, witness_preimage_writes.
  unfold bind at 1.
  destruct (writeUInt32_out_of_range (version T)
              (Buffer.allocUnsafe (156 + varSliceSize prevOutScript), 0))
    as [e He].
  { unfold is_uint32. lia. }
  rewrite He. by eexists.
Qed.

Lemma hashForWitnessV0_negative_version_witness :
  (exists b, encode (mkTransaction (-1) 0 (ins tx_segwit) (outs tx_segwit))
               true = Ok b /\
             decode b =
               Ok (mkTransaction (-1) 0 (ins tx_segwit) (outs tx_segwit))) /\
  exists e,
    hashForWitnessV0 (mkTransaction (-1) 0 (ins tx_segwit) (outs tx_segwit))
      0 [x51] 5000 SIGHASH_ALL = Throw e.
Proof.
  split.
  - eexists. split; [vm_compute; reflexivity|]. vm_compute. reflexivity.
  - apply (hashForWitnessV0_negative_version
             (mkTransaction (-1) 0 (ins tx_segwit) (outs tx_segwit))).
    reflexivity.
Defined.

Lemma clone_plain T : Forall plain_output (outs T) -> clone T = T.
Proof.
  intros Hp. rewrite clone_as_record. destruct T as [v lt i o]. cbn in *.
  f_equal. rewrite <- (map_id o) at 2. apply map_ext_Forall.
  eapply Forall_impl; [exact Hp|]. intros [s val vb] Hx.
  unfold plain_output in Hx. cbn in *. by subst.
Qed.

Lemma wf_in_set_script s x : wf_in x -> safe_length s -> wf_in (set_script s x).
Proof. intros [? ? ? ? ? ?] Hs. split; cbn; done. Qed.

Lemma wf_in_set_sequence q x :
  wf_in x -> is_uint32 q -> wf_in (set_sequence q x).
Proof. intros [? ? ? ? ? ?] Hs. split; cbn; done. Qed.

Lemma wf_zero_other_sequences inIndex l :
  Forall wf_in l -> Forall wf_in (zero_other_sequences inIndex l).
Proof.
  intros H. apply Forall_lookup. intros i x Hx.
  unfold zero_other_sequences in Hx. rewrite list_lookup_imap in Hx.
  destruct (l !! i) as [y|] eqn:Ey; [|done]. cbn in Hx.
  pose proof (Forall_lookup_1 _ _ _ _ H Ey) as Hy.
  destruct (Z.of_nat i =? inIndex); injection Hx as <-; [done|].
  apply wf_in_set_sequence; [done|]. unfold is_uint32. lia.
Qed.

Lemma wf_out_BLANK_OUTPUT : wf_out BLANK_OUTPUT.
Proof. split; [apply safe_length_nil|reflexivity]. Qed.

Lemma sighash_output_rule_wf T inIndex hashType X :
  wf_tx T -> 0 <= inIndex ->
  sighash_output_rule T T inIndex hashType = Some X -> wf_tx X.
Proof.
  intros [Hv Hl Hi Ho Hil Hol] Hk. unfold sighash_output_rule.
  destruct (Z.land hashType 31 =? SIGHASH_NONE).
  { intros H. injection H as <-. split; cbn; try done.
    - by apply wf_zero_other_sequences.
    - unfold safe_length, blen in *.
      by rewrite length_zero_other_sequences. }
  destruct (Z.land hashType 31 =? SIGHASH_SINGLE); [|by intros [= <-]].
  destruct (Z.leb_spec (blen (outs T)) inIndex) as [|Hlt]; [done|].
  intros H. injection H as <-.
  assert (Hlt' : (Z.to_nat inIndex < length (outs T))%nat)
    by (unfold blen in Hlt; lia).
  destruct (lookup_lt_is_Some_2 _ _ Hlt') as [o Eo].
  split; cbn; try done.
  - by apply wf_zero_other_sequences.
  - rewrite (blank_outputs_before_lookup _ _ _ Hk Eo).
    apply Forall_app. split.
    + apply Forall_replicate. apply wf_out_BLANK_OUTPUT.
    + constructor; [|constructor]. by eapply Forall_lookup_1.
  - unfold safe_length, blen in *.
    by rewrite length_zero_other_sequences.
  - rewrite (blank_outputs_before_lookup _ _ _ Hk Eo).
    unfold safe_length, blen in *.
    rewrite length_app, length_replicate. cbn. lia.
Qed.

Lemma sighash_input_rule_wf X inIndex hashType ourScript X' :
  wf_tx X -> safe_length ourScript ->
  sighash_input_rule X inIndex hashType ourScript = Ok X' -> wf_tx X'.
Proof.
  intros [Hv Hl Hi Ho Hil Hol] Hs. unfold sighash_input_rule.
  destruct (negb _).
  - destruct (ins X !! Z.to_nat inIndex) as [x|] eqn:Ex; [|done].
    intros H. injection H as <-. split; cbn; try done.
    constructor; [|constructor]. apply wf_in_set_script; [|done].
    by eapply Forall_lookup_1.
  - assert (HB : Forall wf_in (map (set_script EMPTY_SCRIPT) (ins X))).
    { apply Forall_map. eapply Forall_impl; [exact Hi|].
      intros x Hx. apply wf_in_set_script; [done|apply safe_length_nil]. }
    destruct (map (set_script EMPTY_SCRIPT) (ins X) !! Z.to_nat inIndex)
      as [x|] eqn:Ex; [|done].
    intros H. injection H as <-. split; cbn; try done.
    + eapply Forall_insert_lookup; [done..|]. intros Hx.
      by apply wf_in_set_script.
    + unfold safe_length, blen in *.
      by rewrite length_insert, length_map.
Qed.

(** X21: on a transaction within the ranges of the data model, with
    amounts in its outputs, for an input that exists, a hash type
    that fits a signed 32-bit number and a script as long as a
    JavaScript number can say, [hashForSignature] returns and does
    not throw: it returns [ONE] in the SIGHASH_SINGLE case without an
    output at [inIndex], and otherwise [hash256] of the encoding
    without witness data of the modified copy, followed by the hash
    type in four little-endian bytes. *)
Theorem hashForSignature_returns (bscript : Script) (T : Transaction)
    (inIndex : Z) (prevOutScript : bytes) (hashType : Z) :
  wf_tx T -> Forall plain_output (outs T) ->
  0 <= inIndex < blen (ins T) -> is_uint32 inIndex ->
  is_int32 hashType ->
  safe_length (ourScript_of bscript prevOutScript) ->
  (Z.land hashType 0x1f = SIGHASH_SINGLE /\ blen (outs T) <= inIndex /\
   hashForSignature bscript T inIndex prevOutScript hashType = Ok ONE) \/
  (exists txTmp,
     sighash_txTmp bscript T inIndex prevOutScript hashType =
       Some (Ok txTmp) /\
     wf_tx txTmp /\
     hashForSignature bscript T inIndex prevOutScript hashType =
       Ok (hash256 (serialize txTmp false ++ le_bytes 4 hashType))).
Proof.
  intros Hwf Hplain Hi Hu Hht Hs. unfold hashForSignature.
  apply UInt32_is_uint32 in Hu. rewrite Hu. cbn [typeforce rbind].
  destruct (Z.leb_spec (blen (ins T)) inIndex) as [|_]; [lia|].
  unfold sighash_txTmp. rewrite (clone_plain T Hplain).
  destruct (sighash_output_rule T T inIndex hashType) as [X|] eqn:EX.
  - right.
    pose proof (sighash_output_rule_wf _ _ _ _ Hwf (proj1 Hi) EX) as HwfX.
    assert (Hlen : length (ins X) = length (ins T)).
    { rewrite <- (clone_plain T Hplain) in EX at 2.
      by eapply sighash_output_rule_ins. }
    destruct (sighash_input_rule_ok X inIndex hashType
                (ourScript_of bscript prevOutScript)) as [X' EX'].
    { unfold blen in *. lia. }
    pose proof (sighash_input_rule_wf _ _ _ _ _ HwfX Hs EX') as HwfX'.
    exists X'. rewrite EX'. split; [done|]. split; [done|].
    cbn [rbind]. by apply sighash_digest_serialize.
  - left. unfold sighash_output_rule in EX.
    destruct (Z.land hashType 31 =? SIGHASH_NONE); [done|].
    destruct (Z.eqb_spec (Z.land hashType 31) SIGHASH_SINGLE); [|done].
    destruct (Z.leb_spec (blen (outs T)) inIndex); [|done].
    done.
Qed.

Lemma hashForSignature_returns_witness :
  exists preimage,
    hashForSignature opcode_script tx_three_outputs 1 [x51; xab]
      SIGHASH_ALL = Ok (hash256 preimage) /\
    blen preimage = 127.
Proof.
  destruct (hashForSignature_returns opcode_script tx_three_outputs 1
              [x51; xab] SIGHASH_ALL)
    as [(H & _)|(txTmp & Htmp & _ & Hh)].
  - solve_wf.
  - repeat constructor.
  - vm_compute. split; [discriminate|reflexivity].
  - unfold is_uint32. lia.
  - unfold is_int32, SIGHASH_ALL. lia.
  - solve_wf.
  - vm_compute in H. discriminate.
  - eexists. split; [exact Hh|].
    vm_compute in Htmp. injection Htmp as <-. vm_compute. reflexivity.
Defined.

Lemma writeInt32LE_out_of_range b i o :
  ~ is_int32 i -> exists e, Buffer.writeInt32LE b i o = Throw e.
Proof.
  intros H. unfold Buffer.writeInt32LE, Buffer.writeInt.
  destruct (Z.leb_spec (-2147483648) i), (Z.leb_spec i 2147483647); cbn;
    try (by eexists).
  destruct H. unfold is_int32. lia.
Qed.

(** X22: [hashForSignature] writes the hash type as a signed 32-bit
    number: for a hash type outside that range, and so for every hash
    type from 0x80000000 on, it throws whenever it gets to serialize,
    that is, unless one of the two guards returns [ONE] or the
    arguments are rejected before. *)
Theorem hashForSignature_hash_type_range (bscript : Script)
    (T : Transaction) (inIndex : Z) (prevOutScript : bytes)
    (hashType : Z) :
  0 <= inIndex < blen (ins T) -> is_uint32 inIndex ->
  ~ (Z.land hashType 0x1f = SIGHASH_SINGLE /\ blen (outs T) <= inIndex) ->
  ~ is_int32 hashType ->
  exists e,
    hashForSignature bscript T inIndex prevOutScript hashType = Throw e.
Proof.
  intros Hi Hu Hne Hht. unfold hashForSignature.
  apply UInt32_is_uint32 in Hu. rewrite Hu. cbn [typeforce rbind].
  destruct (Z.leb_spec (blen (ins T)) inIndex) as [|_]; [lia|].
  unfold sighash_txTmp.
  destruct (sighash_output_rule T (clone T) inIndex hashType) as [X|] eqn:EX.
  - destruct (sighash_input_rule X inIndex hashType _) as [X'|e];
      [|by eexists].
    cbn [rbind]. unfold sighash_digest.
    destruct (writeInt32LE_out_of_range
                (Buffer.allocUnsafe (__byteLength X' false + 4)) hashType
                (blen (Buffer.allocUnsafe (__byteLength X' false + 4)) - 4)
                Hht) as [e He].
    rewrite He. by eexists.
  - destruct Hne. unfold sighash_output_rule in EX.
    destruct (Z.land hashType 31 =? SIGHASH_NONE); [done|].
    destruct (Z.eqb_spec (Z.land hashType 31) SIGHASH_SINGLE); [|done].
    destruct (Z.leb_spec (blen (outs T)) inIndex); [|done].
    done.
Qed.

Lemma hashForSignature_hash_type_range_witness :
  exists e,
    hashForSignature opcode_script tx_three_outputs 1 [x51] 0x80000001 =
      Throw e.
Proof.
  apply (hashForSignature_hash_type_range opcode_script tx_three_outputs 1
           [x51] 0x80000001).
  - vm_compute. split; [discriminate|reflexivity].
  - unfold is_uint32. lia.
  - intros [H _]. vm_compute in H. discriminate.
  - unfold is_int32. lia.
Defined.

(** ** The length of what is returned *)

Lemma sighash_digest_Ok X hashType h :
  sighash_digest X hashType = Ok h -> exists buffer, h = hash256 buffer.
Proof.
  unfold sighash_digest. intros H.
  apply rbind_Ok in H as ([b o] & _ & H).
  apply rbind_Ok in H as ([r b'] & _ & H). injection H as <-.
  by eexists.
Qed.

Lemma hashForSignature_length bscript T inIndex prevOutScript hashType h :
  hashForSignature bscript T inIndex prevOutScript hashType = Ok h ->
  length h = 32%nat.
Proof.
  unfold hashForSignature. intros H.
  apply rbind_Ok in H as ([] & _ & H).
  destruct (_ <=? _); [by injection H as <-|].
  destruct (sighash_txTmp _ _ _ _ _) as [r|]; [|by injection H as <-].
  apply rbind_Ok in H as (X & _ & H).
  apply sighash_digest_Ok in H as [b ->]. apply length_hash256.
Qed.

Lemma hashForWitnessV0_length T inIndex prevOutScript value hashType h :
  hashForWitnessV0 T inIndex prevOutScript value hashType = Ok h ->
  length h = 32%nat.
Proof.
  unfold hashForWitnessV0. intros H.
  apply rbind_Ok in H as ([] & _ & H).
  apply rbind_Ok in H as (hp & _ & H).
  apply rbind_Ok in H as (hs & _ & H).
  apply rbind_Ok in H as (ho & _ & H).
  apply rbind_Ok in H as (b & _ & H). injection H as <-.
  apply length_hash256.
Qed.

Lemma hash_length T h : hash T = Ok h -> length h = 32%nat.
Proof.
  unfold hash. intros H. apply rbind_Ok in H as (r & _ & H).
  injection H as <-. apply length_hash256.
Qed.

(** X23: whatever the transaction and the arguments, a hash that
    [hashForSignature], [hashForWitnessV0] or the [hash] getter
    returns is 32 bytes long, and the [id] is a string of 64
    characters. *)
Theorem hashes_are_32_bytes (bscript : Script) (T : Transaction)
    (inIndex : Z) (prevOutScript : bytes) (value hashType : Z) :
  (forall h,
     hashForSignature bscript T inIndex prevOutScript hashType = Ok h ->
     length h = 32%nat) /\
  (forall h,
     hashForWitnessV0 T inIndex prevOutScript value hashType = Ok h ->
     length h = 32%nat) /\
  (forall h, hash T = Ok h -> length h = 32%nat) /\
  (forall s, get_id T = Ok s -> String.length s = 64%nat).
Proof.
  split; [intros h; apply hashForSignature_length|].
  split; [intros h; apply hashForWitnessV0_length|].
  split; [intros h; apply hash_length|].
  intros s H. unfold get_id in H. apply rbind_Ok in H as (h & Hh & H).
  injection H as <-. rewrite length_toString_hex, length_rev.
  by rewrite (hash_length _ _ Hh).
Qed.

Lemma hashes_are_32_bytes_witness :
  exists s, get_id tx_segwit = Ok s /\ String.length s = 64%nat.
Proof.
  destruct (get_id tx_segwit) as [s|e] eqn:E.
  - exists s. split; [reflexivity|].
    by apply (proj2 (proj2 (proj2
                (hashes_are_32_bytes opcode_script tx_segwit 0 [] 0 0)))).
  - vm_compute in E. discriminate.
Defined.

(** ** Distinct transactions, distinct encodings *)

Lemma wf_strip_witnesses T :
  wf_tx T -> wf_tx (set_ins (map strip_witness (ins T)) T).
Proof.
  intros [Hv Hl Hi Ho Hil Hol]. split; cbn; try done.
  - apply Forall_map. eapply Forall_impl; [exact Hi|].
    intros x [? ? ? ? ? ?]. split; cbn; done.
  - unfold safe_length, blen in *. by rewrite length_map.
Qed.

Lemma same_but_witnesses_strip T :
  same_but_witnesses T (set_ins (map strip_witness (ins T)) T).
Proof.
  repeat split; cbn. rewrite map_map. by apply map_ext.
Qed.

Lemma hasWitnesses_strip T :
  hasWitnesses (set_ins (map strip_witness (ins T)) T) = false.
Proof.
  unfold hasWitnesses. cbn. induction (ins T) as [|x l IH]; [done|].
  cbn. exact IH.
Qed.

Lemma encode_false_strip T :
  encode T false = encode (set_ins (map strip_witness (ins T)) T) true.
Proof.
  rewrite (encode_without_witnesses _ (hasWitnesses_strip T)).
  apply hash_but_witnesses, same_but_witnesses_strip.
Qed.

(** X24: two transactions with the same encoding are the same
    transaction, and two transactions with the same encoding without
    witness data, the one that is hashed for the id, differ in their
    witnesses at most (transactions within the ranges of the data
    model, with amounts in their outputs, other than those without
    input and with exactly one output). *)
Theorem encode_injective (T T' : Transaction) :
  wf_tx T -> wf_tx T' ->
  Forall plain_output (outs T) -> Forall plain_output (outs T') ->
  ~ (ins T = [] /\ length (outs T) = 1%nat) ->
  ~ (ins T' = [] /\ length (outs T') = 1%nat) ->
  (encode T true = encode T' true -> T = T') /\
  (encode T false = encode T' false -> same_but_witnesses T T').
Proof.
  intros Hwf Hwf' Hp Hp' Hne Hne'.
  assert (Hinj : forall X Y,
            wf_tx X -> wf_tx Y ->
            Forall plain_output (outs X) -> Forall plain_output (outs Y) ->
            ~ (ins X = [] /\ length (outs X) = 1%nat) ->
            ~ (ins Y = [] /\ length (outs Y) = 1%nat) ->
            encode X true = encode Y true -> X = Y).
  { intros X Y HX HY HpX HpY HnX HnY H.
    rewrite (proj2 (encode_serialize X true HX)) in H.
    rewrite (proj2 (encode_serialize Y true HY)) in H.
    assert (Hs : serialize X true = serialize Y true) by congruence.
    pose proof (decode_serialize X HX HpX HnX) as HdX.
    pose proof (decode_serialize Y HY HpY HnY) as HdY.
    rewrite Hs in HdX. congruence. }
  split; [by apply Hinj|].
  intros H. rewrite !encode_false_strip in H.
  apply Hinj in H; try (by apply wf_strip_witnesses); try done.
  - destruct (same_but_witnesses_strip T) as (? & ? & ? & HiT).
    destruct (same_but_witnesses_strip T') as (? & ? & ? & HiT').
    cbn in *. rewrite map_map in HiT, HiT'.
    apply (f_equal version) in H as Hv.
    apply (f_equal locktime) in H as Hl.
    apply (f_equal outs) in H as Ho.
    apply (f_equal ins) in H as Hi. cbn in *.
    repeat split; done.
  - cbn. intros [Hi Ho]. apply Hne. split; [|done].
    by destruct (ins T).
  - cbn. intros [Hi Ho]. apply Hne'. split; [|done].
    by destruct (ins T').
Qed.

Lemma encode_injective_witness :
  same_but_witnesses tx_segwit
    (mkTransaction 1 0
       [TxIn.mk (repeat x11 32) 0 [x51] 0xffffffff [[x07]];
        TxIn.mk (repeat x22 32) 1 [] 0xfffffffe []]
       [TxOut.mk [x51; x52] (Some 5000) None]).
Proof.
  apply (encode_injective tx_segwit).
  - solve_wf.
  - solve_wf.
  - repeat constructor.
  - repeat constructor.
  - intros [H _]. discriminate.
  - intros [H _]. discriminate.
  - vm_compute. reflexivity.
Defined.

(** ** The methods that change a transaction, on the object heap *)

Section HeapMethods.

Lemma repr_agree h h' t T a b ils ols :
  repr h t T a b ils ols ->
  (forall l, l ∈ footprint t a b ils ols -> h' !! l = h !! l) ->
  repr h' t T a b ils ols.
Proof.
  intros (Ht & Ha & Hb & Hi & Ho) Hag. unfold footprint in Hag.
  repeat split.
  - rewrite Hag; [done|]. set_solver.
  - rewrite Hag; [done|]. set_solver.
  - rewrite Hag; [done|]. set_solver.
  - apply Forall2_same_length_lookup. split; [by eapply Forall2_length|].
    intros i l x Hl Hx. unfold in_at. rewrite Hag.
    + exact (Forall2_lookup_lr _ _ _ _ _ _ Hi Hl Hx).
    + apply list_elem_of_lookup_2 in Hl. set_solver.
  - apply Forall2_same_length_lookup. split; [by eapply Forall2_length|].
    intros i l x Hl Hx. unfold out_at. rewrite Hag.
    + exact (Forall2_lookup_lr _ _ _ _ _ _ Ho Hl Hx).
    + apply list_elem_of_lookup_2 in Hl. set_solver.
Qed.

Lemma repr_snapshot h t T a b ils ols :
  repr h t T a b ils ols -> Heap.snapshot h t = Some T.
Proof.
  intros H. unfold Heap.snapshot. by rewrite (repr_read_tx _ _ _ _ _ _ _ H).
Qed.

Lemma repr_input_not_array h t T a b ils ols l :
  repr h t T a b ils ols -> l ∈ ils -> l <> a /\ l <> b /\ l <> t.
Proof.
  intros (Ht & Ha & Hb & Hi & Ho) Hl.
  apply list_elem_of_lookup in Hl as [i Hl].
  destruct (Forall2_lookup_l _ _ _ _ _ Hi Hl) as (x & _ & Hx).
  unfold in_at in Hx. repeat split; congruence.
Qed.

Lemma repr_output_not_array h t T a b ils ols l :
  repr h t T a b ils ols -> l ∈ ols -> l <> a /\ l <> b /\ l <> t.
Proof.
  intros (Ht & Ha & Hb & Hi & Ho) Hl.
  apply list_elem_of_lookup in Hl as [i Hl].
  destruct (Forall2_lookup_l _ _ _ _ _ Ho Hl) as (x & _ & Hx).
  unfold out_at in Hx. repeat split; congruence.
Qed.

Lemma array_push_ok h a ls x :
  h !! a = Some (Heap.OArray ls) ->
  HeapTx.array_push a x h =
  (Ok (blen (ls ++ [x])), <[a := Heap.OArray (ls ++ [x])]> h).
Proof.
  intros Ha. unfold HeapTx.array_push, Heap.hbind.
  by rewrite (load_array_ok _ _ _ Ha).
Qed.

Lemma set_input_witness_ok h l x w :
  h !! l = Some (Heap.OInput x) ->
  HeapTx.set_input_witness l w h =
  (Ok tt, <[l := Heap.OInput (set_witness w x)]> h).
Proof.
  intros Hl. unfold HeapTx.set_input_witness, Heap.hbind.
  by rewrite (load_input_ok _ _ _ Hl).
Qed.

Lemma run_addInput h this T a b ils ols hash index sequence scriptSig :
  repr h this T a b ils ols -> a <> b ->
  match addInput T hash index sequence scriptSig with
  | Ok (i, T') =>
      exists l x,
        h !! l = None /\
        HeapTx.addInput this hash index sequence scriptSig h =
          (Ok i, <[a := Heap.OArray (ils ++ [l])]>
                   (<[l := Heap.OInput x]> h)) /\
        repr (<[a := Heap.OArray (ils ++ [l])]> (<[l := Heap.OInput x]> h))
          this T' a b (ils ++ [l]) ols
  | Throw e =>
      HeapTx.addInput this hash index sequence scriptSig h = (Throw e, h)
  end.
Proof.
  intros Hr Hab. pose proof Hr as (Ht & Ha & Hb & Hi & Ho).
  unfold addInput, HeapTx.addInput.
  unfold Heap.hbind at 1. unfold Heap.lift at 1.
  destruct (typeforce _) as [[]|e]; [|done]. cbn [rbind]. cbv zeta.
  unfold Heap.hbind at 1. rewrite (tx_ins_ok _ _ _ _ _ _ Ht).
  unfold Heap.hbind at 1. unfold Heap.alloc at 1.
  set (l := fresh (dom h)).
  assert (Hl : h !! l = None) by (apply not_elem_of_dom, is_fresh).
  set (x := TxIn.mk hash index _ _ EMPTY_WITNESS).
  set (h1 := <[l := Heap.OInput x]> h).
  assert (Hsub : h ⊆ h1) by (by apply insert_subseteq).
  unfold Heap.hbind at 1.
  rewrite (array_push_ok h1 a ils l) by (by eapply lookup_weaken).
  unfold Heap.hret.
  exists l, x. split; [done|].
  assert (Hblen : blen (ils ++ [l]) = blen (ins T ++ [x])).
  { unfold blen. rewrite !length_app. cbn.
    by rewrite (Forall2_length _ _ _ Hi). }
  rewrite Hblen. split; [done|].
  assert (Hla : l <> a) by congruence.
  assert (Hlt : l <> this) by congruence.
  assert (Hlb : l <> b) by congruence.
  repeat split; cbn.
  - rewrite lookup_insert_ne by congruence.
    by eapply lookup_weaken.
  - apply lookup_insert_eq.
  - rewrite lookup_insert_ne by done. by eapply lookup_weaken.
  - apply Forall2_in_at_insert_kind.
    { intros y. unfold h1. rewrite lookup_insert_ne by done. congruence. }
    apply Forall2_app.
    + eapply Forall2_impl; [exact Hi|]. intros ? ?. by apply in_at_mono.
    + constructor; [|constructor]. apply lookup_insert_eq.
  - apply Forall2_out_at_insert.
    { intros y. unfold h1. rewrite lookup_insert_ne by done. congruence. }
    eapply Forall2_impl; [exact Ho|]. intros ? ?. by apply out_at_mono.
Qed.

End HeapMethods.

Lemma run_addOutput h this T a b ils ols scriptPubKey value :
  repr h this T a b ils ols -> a <> b ->
  match addOutput T scriptPubKey value with
  | Ok (i, T') =>
      exists l x,
        h !! l = None /\
        HeapTx.addOutput this scriptPubKey value h =
          (Ok i, <[b := Heap.OArray (ols ++ [l])]>
                   (<[l := Heap.OOutput x]> h)) /\
        repr (<[b := Heap.OArray (ols ++ [l])]> (<[l := Heap.OOutput x]> h))
          this T' a b ils (ols ++ [l])
  | Throw e => HeapTx.addOutput this scriptPubKey value h = (Throw e, h)
  end.
Proof.
  intros Hr Hab. pose proof Hr as (Ht & Ha & Hb & Hi & Ho).
  unfold addOutput, HeapTx.addOutput.
  unfold Heap.hbind at 1. unfold Heap.lift at 1.
  destruct (typeforce _) as [[]|e]; [|done]. cbn [rbind]. cbv zeta.
  unfold Heap.hbind at 1. rewrite (tx_outs_ok _ _ _ _ _ _ Ht).
  unfold Heap.hbind at 1. unfold Heap.alloc at 1.
  set (l := fresh (dom h)).
  assert (Hl : h !! l = None) by (apply not_elem_of_dom, is_fresh).
  set (x := TxOut.mk scriptPubKey (Some value) None).
  set (h1 := <[l := Heap.OOutput x]> h).
  assert (Hsub : h ⊆ h1) by (by apply insert_subseteq).
  unfold Heap.hbind at 1.
  rewrite (array_push_ok h1 b ols l) by (by eapply lookup_weaken).
  unfold Heap.hret.
  exists l, x. split; [done|].
  assert (Hblen : blen (ols ++ [l]) = blen (outs T ++ [x])).
  { unfold blen. rewrite !length_app. cbn.
    by rewrite (Forall2_length _ _ _ Ho). }
  rewrite Hblen. split; [done|].
  assert (Hla : l <> a) by congruence.
  assert (Hlt : l <> this) by congruence.
  assert (Hlb : l <> b) by congruence.
  repeat split; cbn.
  - rewrite lookup_insert_ne by congruence.
    by eapply lookup_weaken.
  - rewrite lookup_insert_ne by done. by eapply lookup_weaken.
  - apply lookup_insert_eq.
  - apply Forall2_in_at_insert_kind.
    { intros y. unfold h1. rewrite lookup_insert_ne by done. congruence. }
    eapply Forall2_impl; [exact Hi|]. intros ? ?. by apply in_at_mono.
  - apply Forall2_out_at_insert.
    { intros y. unfold h1. rewrite lookup_insert_ne by done. congruence. }
    apply Forall2_app.
    + eapply Forall2_impl; [exact Ho|]. intros ? ?. by apply out_at_mono.
    + constructor; [|constructor]. apply lookup_insert_eq.
Qed.

Lemma at_index_Forall2 {A B} (R : A -> B -> Prop) l l' i :
  Forall2 R l l' ->
  match at_index l i, at_index l' i with
  | Some x, Some y => R x y
  | None, None => True
  | _, _ => False
  end.
Proof.
  intros HF. unfold at_index. destruct (i <? 0); [done|].
  destruct (l !! Z.to_nat i) as [x|] eqn:Ex.
  - destruct (Forall2_lookup_l _ _ _ _ _ HF Ex) as (y & -> & Hxy). done.
  - destruct (l' !! Z.to_nat i) as [y|] eqn:Ey; [|done].
    destruct (Forall2_lookup_r _ _ _ _ _ HF Ey) as (x & Ex' & _).
    congruence.
Qed.

Lemma repr_update_input h this T a b ils ols l x' k :
  repr h this T a b ils ols -> NoDup ils -> ils !! k = Some l ->
  repr (<[l := Heap.OInput x']> h) this (set_ins (<[k := x']> (ins T)) T)
    a b ils ols.
Proof.
  intros Hr Hnd Hk. pose proof Hr as (Ht & Ha & Hb & Hi & Ho).
  destruct (repr_input_not_array _ _ _ _ _ _ _ l Hr) as (Hla & Hlb & Hlt).
  { by eapply list_elem_of_lookup_2. }
  destruct (Forall2_lookup_l _ _ _ _ _ Hi Hk) as (x & _ & Hx).
  unfold in_at in Hx.
  repeat split; cbn.
  - by rewrite lookup_insert_ne.
  - by rewrite lookup_insert_ne.
  - by rewrite lookup_insert_ne.
  - by apply Forall2_in_at_update.
  - apply Forall2_out_at_insert; [intros y; congruence|done].
Qed.

Lemma run_setInputScript h this T a b ils ols index scriptSig :
  repr h this T a b ils ols ->
  match at_index ils index with
  | Some l =>
      exists x,
        ins T !! Z.to_nat index = Some x /\ ils !! Z.to_nat index = Some l /\
        setInputScript T index scriptSig =
          Ok (set_ins (<[Z.to_nat index := set_script scriptSig x]> (ins T))
                T) /\
        HeapTx.setInputScript this index scriptSig h =
          (Ok tt, <[l := Heap.OInput (set_script scriptSig x)]> h)
  | None =>
      exists e,
        setInputScript T index scriptSig = Throw e /\
        HeapTx.setInputScript this index scriptSig h = (Throw e, h)
  end.
Proof.
  intros (Ht & Ha & Hb & Hi & Ho).
  assert (Hrun : HeapTx.setInputScript this index scriptSig h =
                 match at_index ils index with
                 | Some input => Heap.set_input_script input scriptSig h
                 | None =>
                     (Throw (TypeError
                        "Cannot set property 'script' of undefined"), h)
                 end).
  { unfold HeapTx.setInputScript.
    unfold Heap.hbind at 1. rewrite (tx_ins_ok _ _ _ _ _ _ Ht).
    unfold Heap.hbind at 1. rewrite (load_array_ok _ _ _ Ha).
    by destruct (at_index ils index). }
  rewrite Hrun. unfold setInputScript.
  pose proof (at_index_Forall2 _ _ _ index Hi) as Hk.
  destruct (at_index ils index) as [l|] eqn:El,
           (at_index (ins T) index) as [x|] eqn:Ex; try done.
  - apply at_index_Some in El as [_ El]. apply at_index_Some in Ex as [_ Ex].
    exists x. repeat split; try done.
    by apply set_input_script_ok.
  - by eexists.
Qed.

Lemma run_setWitness h this T a b ils ols index witness :
  repr h this T a b ils ols ->
  match at_index ils index with
  | Some l =>
      exists x,
        ins T !! Z.to_nat index = Some x /\ ils !! Z.to_nat index = Some l /\
        setWitness T index witness =
          Ok (set_ins (<[Z.to_nat index := set_witness witness x]> (ins T))
                T) /\
        HeapTx.setWitness this index witness h =
          (Ok tt, <[l := Heap.OInput (set_witness witness x)]> h)
  | None =>
      exists e,
        setWitness T index witness = Throw e /\
        HeapTx.setWitness this index witness h = (Throw e, h)
  end.
Proof.
  intros (Ht & Ha & Hb & Hi & Ho).
  assert (Hrun : HeapTx.setWitness this index witness h =
                 match at_index ils index with
                 | Some input => HeapTx.set_input_witness input witness h
                 | None =>
                     (Throw (TypeError
                        "Cannot set property 'witness' of undefined"), h)
                 end).
  { unfold HeapTx.setWitness.
    unfold Heap.hbind at 1. rewrite (tx_ins_ok _ _ _ _ _ _ Ht).
    unfold Heap.hbind at 1. rewrite (load_array_ok _ _ _ Ha).
    by destruct (at_index ils index). }
  rewrite Hrun. unfold setWitness.
  pose proof (at_index_Forall2 _ _ _ index Hi) as Hk.
  destruct (at_index ils index) as [l|] eqn:El,
           (at_index (ins T) index) as [x|] eqn:Ex; try done.
  - apply at_index_Some in El as [_ El]. apply at_index_Some in Ex as [_ Ex].
    exists x. repeat split; try done.
    by apply set_input_witness_ok.
  - by eexists.
Qed.

(** What a call leaves alone: every object other than the two arrays
    and the input objects of the transaction it is made on. *)
Lemma run_call_frame c h this T a b ils ols :
  repr h this T a b ils ols -> a <> b ->
  forall l o,
    h !! l = Some o -> l <> a -> l <> b -> l ∉ ils ->
    snd (run_call c this h) !! l = Some o.
Proof.
  intros Hr Hab l o Hl Hla Hlb Hli. destruct c as [hash index sequence
    scriptSig|scriptPubKey value|index scriptSig|index witness];
    cbn [run_call].
  - pose proof (run_addInput h this T a b ils ols hash index sequence
                  scriptSig Hr Hab) as H.
    unfold Heap.hbind.
    destruct (addInput T hash index sequence scriptSig) as [[i T']|e].
    + destruct H as (l' & x & Hl' & -> & _). cbn.
      rewrite !lookup_insert_ne by congruence. done.
    + by rewrite H.
  - pose proof (run_addOutput h this T a b ils ols scriptPubKey value
                  Hr Hab) as H.
    unfold Heap.hbind.
    destruct (addOutput T scriptPubKey value) as [[i T']|e].
    + destruct H as (l' & x & Hl' & -> & _). cbn.
      rewrite !lookup_insert_ne by congruence. done.
    + by rewrite H.
  - pose proof (run_setInputScript h this T a b ils ols index scriptSig Hr)
      as H.
    destruct (at_index ils index) as [l'|].
    + destruct H as (x & _ & Hk & _ & ->). cbn.
      rewrite lookup_insert_ne; [done|].
      intros ->. apply Hli. by eapply list_elem_of_lookup_2.
    + destruct H as (e & _ & ->). done.
  - pose proof (run_setWitness h this T a b ils ols index witness Hr) as H.
    destruct (at_index ils index) as [l'|].
    + destruct H as (x & _ & Hk & _ & ->). cbn.
      rewrite lookup_insert_ne; [done|].
      intros ->. apply Hli. by eapply list_elem_of_lookup_2.
    + destruct H as (e & _ & ->). done.
Qed.

(** A call on the object does what the call on the value does, when
    the input objects of the transaction are distinct objects. *)
Lemma run_call_refines c h this T a b ils ols :
  repr h this T a b ils ols -> a <> b -> NoDup ils ->
  match apply_call c T with
  | Ok T' =>
      exists h' ils' ols',
        run_call c this h = (Ok tt, h') /\
        repr h' this T' a b ils' ols' /\ NoDup ils'
  | Throw e => run_call c this h = (Throw e, h)
  end.
Proof.
  intros Hr Hab Hnd. destruct c as [hash index sequence
    scriptSig|scriptPubKey value|index scriptSig|index witness];
    cbn [run_call apply_call].
  - pose proof (run_addInput h this T a b ils ols hash index sequence
                  scriptSig Hr Hab) as H.
    unfold Heap.hbind.
    destruct (addInput T hash index sequence scriptSig) as [[i T']|e].
    + destruct H as (l' & x & Hl' & -> & Hr'). cbn.
      eexists _, _, _. split; [done|]. split; [exact Hr'|].
      apply NoDup_app. split; [done|]. split; [|apply NoDup_singleton].
      intros l0 Hl0 Hl1. apply list_elem_of_singleton in Hl1 as ->.
      apply list_elem_of_lookup in Hl0 as [k Hk].
      destruct Hr as (_ & _ & _ & Hi & _).
      destruct (Forall2_lookup_l _ _ _ _ _ Hi Hk) as (y & _ & Hy).
      unfold in_at in Hy. congruence.
    + by rewrite H.
  - pose proof (run_addOutput h this T a b ils ols scriptPubKey value
                  Hr Hab) as H.
    unfold Heap.hbind.
    destruct (addOutput T scriptPubKey value) as [[i T']|e].
    + destruct H as (l' & x & Hl' & -> & Hr'). cbn.
      eexists _, _, _. split; [done|]. split; [exact Hr'|done].
    + by rewrite H.
  - pose proof (run_setInputScript h this T a b ils ols index scriptSig Hr)
      as H.
    destruct (at_index ils index) as [l'|].
    + destruct H as (x & Hx & Hk & -> & ->).
      eexists _, ils, ols. split; [done|]. split; [|done].
      by apply repr_update_input.
    + destruct H as (e & -> & ->). done.
  - pose proof (run_setWitness h this T a b ils ols index witness Hr) as H.
    destruct (at_index ils index) as [l'|].
    + destruct H as (x & Hx & Hk & -> & ->).
      eexists _, ils, ols. split; [done|]. split; [|done].
      by apply repr_update_input.
    + destruct H as (e & -> & ->). done.
Qed.

(** X25: on the object heap, a call of [addInput], [addOutput],
    [setInputScript] or [setWitness] on a transaction whose two
    arrays are two objects and whose input objects are distinct
    either throws and leaves every object as it was, or returns and
    leaves the transaction as the method on values says; in both
    cases every object other than the two arrays and the input
    objects of that transaction is as it was. *)
Theorem methods_on_objects (c : call) (h : Heap.heap) (this : Heap.loc)
    (T : Transaction) (a b : Heap.loc) (ils ols : list Heap.loc) :
  repr h this T a b ils ols -> a <> b -> NoDup ils ->
  match apply_call c T with
  | Ok T' =>
      exists h',
        run_call c this h = (Ok tt, h') /\
        Heap.snapshot h' this = Some T'
  | Throw e => run_call c this h = (Throw e, h)
  end /\
  (forall l o,
     h !! l = Some o -> l <> a -> l <> b -> l ∉ ils ->
     snd (run_call c this h) !! l = Some o).
Proof.
  intros Hr Hab Hnd. split; [|by eapply run_call_frame].
  pose proof (run_call_refines c h this T a b ils ols Hr Hab Hnd) as H.
  destruct (apply_call c T) as [T'|e]; [|done].
  destruct H as (h' & ils' & ols' & Hrun & Hr' & _).
  exists h'. split; [done|]. by eapply repr_snapshot.
Qed.

Lemma methods_on_objects_witness :
  exists h',
    run_call (SetInputScript 1 [x59]) 9%positive Heap.example_heap =
      (Ok tt, h') /\
    Heap.snapshot h' 9%positive =
      Some (mkTransaction 2 7
              [TxIn.mk (repeat x11 32) 0 [x51] 0xffffffff [];
               TxIn.mk (repeat x22 32) 1 [x59] 0xfffffffe []]
              (outs tx_three_outputs)).
Proof.
  refine (proj1 (methods_on_objects (SetInputScript 1 [x59])
                   Heap.example_heap 9%positive tx_three_outputs
                   7%positive 8%positive [2%positive; 3%positive]
                   [4%positive; 5%positive; 6%positive] _ _ _)).
  - repeat split; repeat constructor.
  - discriminate.
  - apply (bool_decide_unpack _). vm_compute. exact I.
Defined.

(** X26: the copy that [clone] returns and the transaction it was
    called on are independent under the four mutating methods: [clone]
    returns a new object, and after it a call of [addInput],
    [addOutput], [setInputScript] or [setWitness] on the copy leaves
    the original reading as it did, and such a call on the original
    leaves the copy reading as it did.  The statement goes no further:
    [clone] copies the references to each hash and script Buffer and to
    each witness array, so the two transactions share those; the four
    methods replace a reference and never write into a Buffer or a
    witness array, which is why the heap holds them by value, and a
    write into one of them by other code is outside this theorem. *)
Theorem clone_independent_under_methods (h : Heap.heap) (this : Heap.loc)
    (T : Transaction) (a0 b0 : Heap.loc) (ils0 ols0 : list Heap.loc) :
  repr h this T a0 b0 ils0 ols0 -> a0 <> b0 ->
  exists t h1,
    Heap.clone this h = (Ok t, h1) /\
    h !! t = None /\
    Heap.snapshot h1 this = Some T /\
    Heap.snapshot h1 t = Some (clone T) /\
    forall c,
      Heap.snapshot (snd (run_call c t h1)) this = Some T /\
      Heap.snapshot (snd (run_call c this h1)) t = Some (clone T).
Proof.
  intros Hthis Hab0.
  destruct (run_clone this T a0 b0 ils0 ols0 h Hthis)
    as (t & h1 & a & b & ils & ols & Eclone & (Hat & Hnd & Hrepr) & Hfo).
  destruct Hat as (Hsub & Hft & Hfa & Hfb & Hab & _ & _ & _ & Hfi).
  pose proof (repr_mono _ _ _ _ _ _ _ _ Hsub Hthis) as Hthis1.
  exists t, h1. split; [done|]. split; [done|].
  split; [by eapply repr_snapshot|]. split; [by eapply repr_snapshot|].
  intros c. split.
  - apply (snapshot_mono h); [|by eapply repr_snapshot].
    apply map_subseteq_spec. intros l o Hl.
    apply (run_call_frame c h1 t (clone T) a b ils ols Hrepr Hab).
    + by eapply lookup_weaken.
    + congruence.
    + congruence.
    + intros Hin. rewrite Forall_forall in Hfi.
      destruct (Hfi _ Hin) as [Hnone _]. congruence.
  - apply (repr_snapshot _ _ _ a b ils ols).
    apply (repr_agree h1); [done|]. intros l Hl.
    assert (Hfresh : h !! l = None).
    { unfold footprint in Hl.
      rewrite !elem_of_cons, elem_of_app in Hl.
      destruct Hl as [->|[->|[->|[Hl|Hl]]]]; try done.
      - rewrite Forall_forall in Hfi. by destruct (Hfi _ Hl).
      - rewrite Forall_forall in Hfo. by apply Hfo. }
    assert (Hsome : is_Some (h1 !! l)).
    { destruct Hrepr as (Ht & Ha & Hb & Hi & Ho). unfold footprint in Hl.
      rewrite !elem_of_cons, elem_of_app in Hl.
      destruct Hl as [->|[->|[->|[Hl|Hl]]]]; try (by eexists).
      - apply list_elem_of_lookup in Hl as [k Hk].
        destruct (Forall2_lookup_l _ _ _ _ _ Hi Hk) as (x & _ & Hx).
        by eexists.
      - apply list_elem_of_lookup in Hl as [k Hk].
        destruct (Forall2_lookup_l _ _ _ _ _ Ho Hk) as (x & _ & Hx).
        by eexists. }
    destruct Hsome as [o Ho1].
    rewrite Ho1.
    apply (run_call_frame c h1 this T a0 b0 ils0 ols0 Hthis1 Hab0);
      [done|..].
    + destruct Hthis as (_ & Ha0 & _). congruence.
    + destruct Hthis as (_ & _ & Hb0 & _). congruence.
    + intros Hin. destruct Hthis as (_ & _ & _ & Hi0 & _).
      apply list_elem_of_lookup in Hin as [k Hk].
      destruct (Forall2_lookup_l _ _ _ _ _ Hi0 Hk) as (x & _ & Hx).
      unfold in_at in Hx. congruence.
Qed.

Lemma clone_independent_under_methods_witness :
  exists t h1,
    Heap.clone 9%positive Heap.example_heap = (Ok t, h1) /\
    Heap.example_heap !! t = None /\
    Heap.snapshot h1 9%positive = Some tx_three_outputs /\
    Heap.snapshot h1 t = Some (clone tx_three_outputs) /\
    forall c,
      Heap.snapshot (snd (run_call c t h1)) 9%positive =
        Some tx_three_outputs /\
      Heap.snapshot (snd (run_call c 9%positive h1)) t =
        Some (clone tx_three_outputs).
Proof.
  apply (clone_independent_under_methods Heap.example_heap 9%positive
           tx_three_outputs 7%positive 8%positive [2%positive; 3%positive]
           [4%positive; 5%positive; 6%positive]).
  - repeat split; repeat constructor.
  - discriminate.
Defined.

(** ** What the hash types leave out of the witness-v0 signature hash *)

Lemma hashForWitnessV0_from_digests T T' inIndex prevOutScript value
    hashType :
  version T = version T' -> locktime T = locktime T' ->
  hashPrevouts T hashType = hashPrevouts T' hashType ->
  hashSequence T hashType = hashSequence T' hashType ->
  (0 <= inIndex ->
   hashOutputs T inIndex hashType = hashOutputs T' inIndex hashType) ->
  outpoint_sequence <$> ins T !! Z.to_nat inIndex =
    outpoint_sequence <$> ins T' !! Z.to_nat inIndex ->
  hashForWitnessV0 T inIndex prevOutScript value hashType =
  hashForWitnessV0 T' inIndex prevOutScript value hashType.
Proof.
  intros Hv Hl Hp Hs Ho Hin. unfold hashForWitnessV0.
  destruct (types.UInt32 inIndex) eqn:Hu; [|done].
  apply UInt32_nonneg in Hu. specialize (Ho Hu).
  destruct (typeforce _) as [[]|e]; [|done]. cbn [rbind].
  rewrite Hp, Hs, Ho.
  destruct (hashPrevouts T' hashType) as [hp|e]; [|done]. cbn [rbind].
  destruct (hashSequence T' hashType) as [hs|e]; [|done]. cbn [rbind].
  destruct (hashOutputs T' inIndex hashType) as [ho|e]; [|done].
  cbn [rbind]. f_equal.
  unfold filled, witness_preimage_writes. rewrite Hv, Hl.
  destruct (ins T !! Z.to_nat inIndex) as [x|],
           (ins T' !! Z.to_nat inIndex) as [y|]; try done.
  cbn in Hin. injection Hin as -> -> ->. done.
Qed.

Lemma hashPrevouts_outpoints T T' hashType :
  map outpoint (ins T) = map outpoint (ins T') ->
  hashPrevouts T hashType = hashPrevouts T' hashType.
Proof.
  intros Hi. apply map_eq_Forall2 in Hi.
  assert (Hlen : blen (ins T) = blen (ins T')).
  { unfold blen. by rewrite (Forall2_length _ _ _ Hi). }
  unfold hashPrevouts, filled. rewrite Hlen.
  destruct (negb _); [|done]. f_equal.
  rewrite (forEachM_Forall2 _
             (fun txIn => do _ <- Writer.writeSlice (TxIn.hash txIn);
                          Writer.writeUInt32 (TxIn.index txIn))
             (ins T) (ins T')); [done|].
  eapply Forall2_impl; [exact Hi|]. intros x y Hxy s.
  unfold outpoint in Hxy. by injection Hxy as -> ->.
Qed.

Lemma hashSequence_zero T hashType :
  anyonecanpay hashType = true \/
  Z.land hashType 0x1f = SIGHASH_SINGLE \/
  Z.land hashType 0x1f = SIGHASH_NONE ->
  hashSequence T hashType = Ok ZERO.
Proof.
  intros H. unfold hashSequence.
  destruct H as [->|[->| ->]]; [done| |].
  - by destruct (negb _).
  - by destruct (negb _).
Qed.

Lemma outpoints_own_sequence (l l' : list TxIn.t) k :
  map outpoint l = map outpoint l' ->
  TxIn.sequence <$> l !! k = TxIn.sequence <$> l' !! k ->
  outpoint_sequence <$> l !! k = outpoint_sequence <$> l' !! k.
Proof.
  intros Hmap Hown. apply (f_equal (fun m => m !! k)) in Hmap.
  change (map outpoint) with (fmap (M:=list) outpoint) in Hmap.
  rewrite !list_lookup_fmap in Hmap.
  destruct (l !! k) as [x|], (l' !! k) as [y|]; try done. cbn in *.
  unfold outpoint_sequence, outpoint in *.
  injection Hmap as -> ->. by injection Hown as ->.
Qed.

(** X27: what the hash type leaves out of the witness-v0 signature
    hash.  With SIGHASH_ANYONECANPAY the hash commits to no input but
    the one signed; with base mode SIGHASH_NONE to no output and to
    no sequence number but that of the input signed; with base mode
    SIGHASH_SINGLE to no output but the one at [inIndex].  In each
    case two transactions that agree on the rest have the same
    [hashForWitnessV0]. *)
Theorem hashForWitnessV0_hash_type_scope (T T' : Transaction)
    (inIndex : Z) (prevOutScript : bytes) (value hashType : Z) :
  version T = version T' -> locktime T = locktime T' ->
  (Z.land hashType SIGHASH_ANYONECANPAY <> 0 ->
   outs T = outs T' ->
   outpoint_sequence <$> ins T !! Z.to_nat inIndex =
     outpoint_sequence <$> ins T' !! Z.to_nat inIndex ->
   hashForWitnessV0 T inIndex prevOutScript value hashType =
   hashForWitnessV0 T' inIndex prevOutScript value hashType) /\
  (Z.land hashType 0x1f = SIGHASH_NONE ->
   map outpoint (ins T) = map outpoint (ins T') ->
   TxIn.sequence <$> ins T !! Z.to_nat inIndex =
     TxIn.sequence <$> ins T' !! Z.to_nat inIndex ->
   hashForWitnessV0 T inIndex prevOutScript value hashType =
   hashForWitnessV0 T' inIndex prevOutScript value hashType) /\
  (Z.land hashType 0x1f = SIGHASH_SINGLE ->
   map outpoint (ins T) = map outpoint (ins T') ->
   TxIn.sequence <$> ins T !! Z.to_nat inIndex =
     TxIn.sequence <$> ins T' !! Z.to_nat inIndex ->
   outs T !! Z.to_nat inIndex = outs T' !! Z.to_nat inIndex ->
   hashForWitnessV0 T inIndex prevOutScript value hashType =
   hashForWitnessV0 T' inIndex prevOutScript value hashType).
Proof.
  intros Hv Hl. split; [|split].
  - intros Hacp Ho Hin.
    assert (Ha : anyonecanpay hashType = true).
    { unfold anyonecanpay. apply Z.eqb_neq in Hacp. by rewrite Hacp. }
    apply hashForWitnessV0_from_digests; try done.
    + unfold hashPrevouts. by rewrite Ha.
    + rewrite !hashSequence_zero by auto. done.
    + intros _. unfold hashOutputs. by rewrite Ho.
  - intros Hnone Hi Hown.
    apply hashForWitnessV0_from_digests; try done.
    + by apply hashPrevouts_outpoints.
    + rewrite !hashSequence_zero by auto. done.
    + intros _. unfold hashOutputs. rewrite Hnone.
      change (SIGHASH_NONE =? SIGHASH_SINGLE) with false.
      change (SIGHASH_NONE =? SIGHASH_NONE) with true. done.
    + by apply outpoints_own_sequence.
  - intros Hsingle Hi Hown Ho.
    apply hashForWitnessV0_from_digests; try done.
    + by apply hashPrevouts_outpoints.
    + rewrite !hashSequence_zero by auto. done.
    + intros Hk. unfold hashOutputs. rewrite Hsingle.
      change (SIGHASH_SINGLE =? SIGHASH_SINGLE) with true.
      change (SIGHASH_SINGLE =? SIGHASH_NONE) with false.
      cbn [negb andb]. rewrite Ho.
      destruct (outs T' !! Z.to_nat inIndex) as [o|] eqn:Eo.
      * apply lookup_lt_Some in Ho as Hlt. apply lookup_lt_Some in Eo as Hlt'.
        destruct (Z.ltb_spec inIndex (blen (outs T))),
                 (Z.ltb_spec inIndex (blen (outs T'))); try done;
          unfold blen in *; lia.
      * apply lookup_ge_None in Ho as Hge. apply lookup_ge_None in Eo as Hge'.
        destruct (Z.ltb_spec inIndex (blen (outs T))),
                 (Z.ltb_spec inIndex (blen (outs T'))); try done;
          unfold blen in *; lia.
    + by apply outpoints_own_sequence.
Qed.

Lemma hashForWitnessV0_hash_type_scope_witness :
  hashForWitnessV0 tx_three_outputs 1 [x51] 20 0x81 =
  hashForWitnessV0
    (mkTransaction 2 7
       [TxIn.mk (repeat x44 32) 9 [x51] 5 [];
        TxIn.mk (repeat x22 32) 1 [x52] 0xfffffffe [];
        TxIn.mk (repeat x55 32) 3 [] 0 []]
       (outs tx_three_outputs)) 1 [x51] 20 0x81.
Proof.
  apply (proj1 (hashForWitnessV0_hash_type_scope tx_three_outputs
                  (mkTransaction 2 7
                     [TxIn.mk (repeat x44 32) 9 [x51] 5 [];
                      TxIn.mk (repeat x22 32) 1 [x52] 0xfffffffe [];
                      TxIn.mk (repeat x55 32) 3 [] 0 []]
                     (outs tx_three_outputs))
                  1 [x51] 20 0x81 eq_refl eq_refl)).
  - vm_compute. discriminate.
  - reflexivity.
  - reflexivity.
Defined.

(** ** Marker and flag without any witness *)

Lemma fromBuffer_body_superfluous b T version noStrict o :
  wf_tx T -> Forall plain_output (outs T) -> hasWitnesses T = false ->
  sits b o (body_bytes T true) ->
  fromBuffer_body b noStrict version true o =
  Throw (Error "Transaction has superfluous witness data").
Proof.
  intros [Hv Hl Hi Ho Hil Hol] Hplain Hno Hs.
  unfold fromBuffer_body, body_bytes in *.
  assert (P1 : parses b (Reader.readVarInt b) (varint_bytes (blen (ins T)))
                 (blen (ins T))).
  { apply parses_readVarInt. split; [apply blen_nonneg|done]. }
  rewrite (bind_sits b _ _ _ _ _ o P1 Hs).
  apply sits_app_r in Hs.
  unshelve erewrite (bind_sits b _ _ (concat (map input_bytes (ins T))) _
                       (map strip_witness (ins T)) _ _ Hs).
  { unfold blen. rewrite Nat2Z.id.
    rewrite <- (length_map strip_witness).
    replace (concat (map input_bytes (ins T)))
      with (concat (map input_bytes (map strip_witness (ins T))))
      by (by rewrite map_map).
    apply parses_timesM. apply Forall_map.
    eapply Forall_impl; [exact Hi|]. intros x Hx.
    exact (parses_input b x Hx). }
  apply sits_app_r in Hs.
  assert (P3 : parses b (Reader.readVarInt b) (varint_bytes (blen (outs T)))
                 (blen (outs T))).
  { apply parses_readVarInt. split; [apply blen_nonneg|done]. }
  rewrite (bind_sits b _ _ _ _ _ _ P3 Hs).
  apply sits_app_r in Hs.
  unshelve erewrite (bind_sits b _ _ (concat (map output_bytes (outs T))) _
                       (outs T) _ _ Hs).
  { unfold blen. rewrite Nat2Z.id. apply parses_timesM.
    apply Forall_forall. intros x Hx.
    rewrite Forall_forall in Ho, Hplain. apply parses_output; auto. }
  apply sits_app_r in Hs. apply sits_app_l in Hs.
  unfold bind at 1. unfold bind at 1.
  pose proof (parses_mapM b
                (fun txIn =>
                   do witness <- Reader.readVector b;
                   ret (TxIn.mk (TxIn.hash txIn) (TxIn.index txIn)
                          (TxIn.script txIn) (TxIn.sequence txIn) witness))
                (fun i => vector_bytes (TxIn.witness i))
                (map strip_witness (ins T)) (ins T)) as Hm.
  rewrite Hm; [|clear Hm|exact Hs].
  - unfold hasWitnesses in *. cbn [ins]. rewrite Hno. done.
  - apply Forall2_fmap_l. apply Forall_Forall2_diag.
    eapply Forall_impl; [exact Hi|]. intros x Hx. by apply parses_witness.
Qed.

(** X28: marker and flag before a transaction none of whose inputs
    has a witness are rejected: on the bytes of the version, 0x00,
    0x01, the inputs, the outputs, one empty witness for each input
    and the locktime, [fromBuffer] throws 'Transaction has
    superfluous witness data', strict or not. *)
Theorem fromBuffer_superfluous_witness (T : Transaction)
    (noStrict : bool) :
  wf_tx T -> Forall plain_output (outs T) -> hasWitnesses T = false ->
  fromBuffer (le_bytes 4 (version T) ++ [x00; x01] ++ body_bytes T true)
    noStrict =
  Throw (Error "Transaction has superfluous witness data").
Proof.
  intros Hwf Hplain Hno. unfold fromBuffer, fromBuffer_reads.
  set (b := le_bytes 4 (version T) ++ [x00; x01] ++ body_bytes T true).
  pose proof (sits_whole b) as Hs. unfold b at 2 in Hs.
  unfold bind at 1.
  rewrite (parses_readInt32 b (version T) (wf_version _ Hwf) 0)
    by (by eapply sits_app_l).
  apply sits_app_r in Hs. rewrite blen_le_bytes in Hs |- *.
  change (0 + Z.of_nat 4) with 4 in *.
  unfold bind at 1.
  rewrite (peek_sits b 4 _ 0 x00 Hs) by done.
  unfold bind at 1.
  rewrite (peek_sits b 4 _ 1 x01 Hs) by done.
  change (Z_of_byte x00) with 0. change (Z_of_byte x01) with 1.
  simpl andb. cbv iota. unfold bind at 1.
  unfold bind at 1. unfold Reader.skip, ret.
  apply (sits_app_r _ _ [x00; x01]) in Hs.
  change (4 + blen [x00; x01]) with 6 in Hs. change (4 + 2) with 6.
  by rewrite (fromBuffer_body_superfluous b T (version T) noStrict 6).
Qed.

Lemma fromBuffer_superfluous_witness_witness :
  fromBuffer
    (le_bytes 4 (version tx_three_outputs) ++ [x00; x01] ++
     body_bytes tx_three_outputs true) true =
  Throw (Error "Transaction has superfluous witness data").
Proof.
  apply (fromBuffer_superfluous_witness tx_three_outputs true).
  - solve_wf.
  - repeat constructor.
  - reflexivity.
Defined.
